(** * vuefire: reference extraction and snapshot normalisation

    A shallow embedding of [src/firestore/utils.ts] and of
    [src/database/utils.ts], together with the part of the JavaScript
    object model these functions rely on.

    Modelling conventions.
    - A JavaScript value is a term of [value].  Records and arrays carry
      the address ([id]) they were allocated at, so that "the same object"
      and "an equal object" can be told apart; a function that allocates
      takes the next free address and returns the new one.
    - A record is a plain object: the list of its own data properties with
      their attributes, and [Object.prototype] as its prototype.  An array
      is the list of its element slots ([None] is a hole) followed by its
      named properties, with [Array.prototype] as its prototype.  The list
      of a document the walker traverses is in enumeration order.  Element
      slots have the attributes of a property created by assignment, and
      the own [length] of an array is the number of its slots.
    - A property read goes through the prototype chain.  What a record
      inherits from [Object.prototype] is modelled: the methods are the
      built-in functions [VFunction], and [__proto__], an accessor, is
      outside the fragment.  What the other built-in objects and the SDK
      classes add to the chain is not: a read that would find one of
      their members is outside the fragment.
    - Numbers are the integers a double represents exactly, and [NaN].
    - Accessor properties of a document, frozen or sealed objects, proxies
      and symbols are not modelled, nor are instances of classes other
      than the ones the walker names.
    - An operation that can raise in JavaScript returns a [completion]; the
      module is strict-mode code, so a refused assignment raises.
      [Unmodelled] is the outcome of an operation that leaves the fragment
      described here: the model then says nothing of what the code
      does. *)

From Stdlib Require Import List String Ascii ZArith Bool Lia Arith.
From Stdlib Require Import Decimal DecimalNat DecimalString.
Import ListNotations.
Open Scope string_scope.

(** ** Results of operations that may raise *)

(** [Unmodelled] marks the places where an operation would leave the
    fragment of JavaScript described above. *)
Inductive error := TypeError | Unmodelled.

(** The outcome of an operation: a value, or a raised error. *)
Inductive completion (A : Type) :=
| Ok (a : A)
| Throw (e : error).
Arguments Ok {A} a.
Arguments Throw {A} e.

Definition bind {A B : Type} (m : completion A) (f : A -> completion B)
  : completion B :=
  match m with
  | Ok a => f a
  | Throw e => Throw e
  end.

Notation "x <- m ;; k" := (bind m (fun x => k))
  (at level 61, m at next level, right associativity).
Notation "' p <- m ;; k" := (bind m (fun x => let 'p := x in k))
  (at level 61, p pattern, m at next level, right associativity).

(** ** Association lists, the shape of every JavaScript object used as a map *)

Section Assoc.
Context {A : Type}.

Fixpoint alookup (k : string) (l : list (string * A)) : option A :=
  match l with
  | [] => None
  | (k', a) :: r => if String.eqb k k' then Some a else alookup k r
  end.

(** [o[k] = a] on the list: an existing key keeps its place, a new one goes
    last. *)
Fixpoint aset (k : string) (a : A) (l : list (string * A)) : list (string * A) :=
  match l with
  | [] => [(k, a)]
  | (k', a') :: r => if String.eqb k k' then (k, a) :: r else (k', a') :: aset k a r
  end.

Definition amem (k : string) (l : list (string * A)) : bool :=
  match alookup k l with Some _ => true | None => false end.

Definition keys (l : list (string * A)) : list string := map fst l.

End Assoc.

(** ** Values *)

Record attrs := Attrs { enumerable : bool; writable : bool; configurable : bool }.

(** Attributes of a property created by assignment or by an object literal. *)
Definition plain : attrs := Attrs true true true.
(** Attributes [Object.defineProperty] gives when the descriptor names none. *)
Definition hidden : attrs := Attrs false false false.

(** A [FirestoreDataConverter]; the walker only passes converters around. *)
Inductive FirestoreDataConverter :=
| firestoreDefaultConverter
| customConverter (n : nat).

(** A Firestore [DocumentReference]: its target [path] and its converter
    ([null] when it has none). *)
Module DocumentReference.

Record t := Make {
  path : string;
  converter : option FirestoreDataConverter
}.

(** [ref.withConverter(c)]: the same target, decoded by [c]. *)
Definition withConverter (r : t) (c : FirestoreDataConverter) : t :=
  Make (path r) (Some c).

End DocumentReference.

(** The values.  [VDate], [VTimestamp], [VGeoPoint] and [VRef] are the
    instances of the classes the walker names; [VFunction name] is the
    built-in function whose path from the global object is [name], as
    ["Object"] or ["Object.prototype.valueOf"]. *)
#[local] Unset Elimination Schemes.
Inductive value :=
| VUndefined
| VNull
| VBool (b : bool)
| VNaN
| VNum (n : Z)
| VStr (s : string)
| VDate (ms : Z)
| VTimestamp (seconds nanoseconds : Z)
| VGeoPoint (latitude longitude : Z)
| VRef (r : DocumentReference.t)
| VArray (id : nat) (elems : list (option value))
         (named : list (string * (value * attrs)))
| VObject (id : nat) (props : list (string * (value * attrs)))
| VFunction (name : string).
#[local] Set Elimination Schemes.

Definition props := list (string * (value * attrs)).

(** Induction over values that reaches into element slots and properties. *)
Section ValueInd.
Variable P : value -> Prop.
Hypothesis Hundef : P VUndefined.
Hypothesis Hnull : P VNull.
Hypothesis Hbool : forall b, P (VBool b).
Hypothesis Hnan : P VNaN.
Hypothesis Hnum : forall n, P (VNum n).
Hypothesis Hstr : forall s, P (VStr s).
Hypothesis Hdate : forall ms, P (VDate ms).
Hypothesis Hts : forall s n, P (VTimestamp s n).
Hypothesis Hgeo : forall la lo, P (VGeoPoint la lo).
Hypothesis Href : forall r, P (VRef r).
Hypothesis Harr : forall id es ps,
  Forall (fun o => match o with Some v => P v | None => True end) es ->
  Forall (fun kp => P (fst (snd kp))) ps ->
  P (VArray id es ps).
Hypothesis Hobj : forall id ps,
  Forall (fun kp => P (fst (snd kp))) ps ->
  P (VObject id ps).
Hypothesis Hfun : forall name, P (VFunction name).

Fixpoint value_ind (v : value) : P v :=
  let fix on_props (ps : props) : Forall (fun kp => P (fst (snd kp))) ps :=
    match ps with
    | [] => Forall_nil _
    | (k, (w, a)) :: r => Forall_cons (k, (w, a)) (value_ind w) (on_props r)
    end in
  let fix on_elems (es : list (option value))
    : Forall (fun o => match o with Some v => P v | None => True end) es :=
    match es with
    | [] => Forall_nil _
    | None :: r => Forall_cons None I (on_elems r)
    | Some w :: r => Forall_cons (Some w) (value_ind w) (on_elems r)
    end in
  match v with
  | VUndefined => Hundef
  | VNull => Hnull
  | VBool b => Hbool b
  | VNaN => Hnan
  | VNum n => Hnum n
  | VStr s => Hstr s
  | VDate ms => Hdate ms
  | VTimestamp s n => Hts s n
  | VGeoPoint la lo => Hgeo la lo
  | VRef r => Href r
  | VArray id es ps => Harr id es ps (on_elems es) (on_props ps)
  | VObject id ps => Hobj id ps (on_props ps)
  | VFunction name => Hfun name
  end.
End ValueInd.

(** JavaScript truthiness ([ToBoolean]). *)
Definition truthy (v : value) : bool :=
  match v with
  | VUndefined | VNull | VNaN => false
  | VBool b => b
  | VNum n => negb (n =? 0)%Z
  | VStr s => negb (String.eqb s "")
  | _ => true
  end.

(** ** Array index keys *)

(** The property key of element [i]: its decimal numeral. *)
Definition index_key (i : nat) : string := NilZero.string_of_uint (Nat.to_uint i).

(** The element a key names, when the key is a canonical numeral. *)
Definition index_of_key (k : string) : option nat :=
  match NilZero.uint_of_string k with
  | Some u =>
      let i := Nat.of_uint u in
      if String.eqb (index_key i) k then Some i else None
  | None => None
  end.

(** ** Property access *)

Definition elem_value (e : option value) : value :=
  match e with
  | Some v => v
  | None => VUndefined
  end.

Definition prop_value (ps : props) (k : string) : value :=
  match alookup k ps with
  | Some (v, _) => v
  | None => VUndefined
  end.

(** *** Inherited properties *)

(** The string-keyed properties of [Object.prototype]. *)
Definition object_prototype_names : list string :=
  ["constructor"; "hasOwnProperty"; "isPrototypeOf"; "propertyIsEnumerable";
   "toLocaleString"; "toString"; "valueOf"; "__defineGetter__"; "__defineSetter__";
   "__lookupGetter__"; "__lookupSetter__"; "__proto__"].

(** The string-keyed properties [Array.prototype] adds. *)
Definition array_prototype_names : list string :=
  ["at"; "concat"; "copyWithin"; "entries"; "every"; "fill"; "filter"; "find";
   "findIndex"; "findLast"; "findLastIndex"; "flat"; "flatMap"; "forEach"; "includes";
   "indexOf"; "join"; "keys"; "lastIndexOf"; "map"; "pop"; "push"; "reduce";
   "reduceRight"; "reverse"; "shift"; "slice"; "some"; "sort"; "splice"; "toReversed";
   "toSorted"; "toSpliced"; "unshift"; "values"; "with"].

(** The string-keyed properties [String.prototype] adds. *)
Definition string_prototype_names : list string :=
  ["anchor"; "at"; "big"; "blink"; "bold"; "charAt"; "charCodeAt"; "codePointAt";
   "concat"; "endsWith"; "fixed"; "fontcolor"; "fontsize"; "includes"; "indexOf";
   "isWellFormed"; "italics"; "lastIndexOf"; "link"; "localeCompare"; "match";
   "matchAll"; "normalize"; "padEnd"; "padStart"; "repeat"; "replace"; "replaceAll";
   "search"; "slice"; "small"; "split"; "startsWith"; "strike"; "sub"; "substr";
   "substring"; "sup"; "toLocaleLowerCase"; "toLocaleUpperCase"; "toLowerCase";
   "toUpperCase"; "toWellFormed"; "trim"; "trimEnd"; "trimLeft"; "trimRight";
   "trimStart"].

(** The string-keyed properties [Number.prototype] adds. *)
Definition number_prototype_names : list string :=
  ["toExponential"; "toFixed"; "toPrecision"].

Definition listed (k : string) (names : list string) : bool :=
  existsb (String.eqb k) names.

(** [k] names a property of [Object.prototype]: what every record, array
    and wrapped primitive inherits. *)
Definition inherited (k : string) : bool := listed k object_prototype_names.

(** What a read of [k] yields on an object that has no own property [k]
    and whose prototype is [Object.prototype]. *)
Definition object_member (k : string) : completion value :=
  if String.eqb k "__proto__" then Throw Unmodelled
  else if String.eqb k "constructor" then Ok (VFunction "Object")
  else if inherited k then Ok (VFunction ("Object.prototype." ++ k))
  else Ok VUndefined.

(** What a read of [k] yields on a value of a built-in kind that has no own
    property [k], [names] being what its prototype adds to
    [Object.prototype]: nothing when the chain has no [k]. *)
Definition builtin_member (names : list string) (k : string) : completion value :=
  if listed k names || inherited k then Throw Unmodelled else Ok VUndefined.

Definition identifier_char (c : ascii) : bool :=
  let n := nat_of_ascii c in
  ((65 <=? n) && (n <=? 90) || (97 <=? n) && (n <=? 122)
   || (48 <=? n) && (n <=? 57) || (n =? 95) || (n =? 36) || (128 <=? n))%nat.

Fixpoint identifier_chars (s : string) : bool :=
  match s with
  | EmptyString => true
  | String c r => identifier_char c && identifier_chars r
  end.

(** A key that has the shape of an identifier. *)
Definition identifier (k : string) : bool :=
  match k with
  | EmptyString => false
  | String c _ =>
      negb ((48 <=? nat_of_ascii c) && (nat_of_ascii c <=? 57))%nat && identifier_chars k
  end.

(** What a read of [k] yields on an instance of [Date] or of an SDK class,
    or on a built-in function.  Their members, whose list depends on the
    version of the library, have identifier names; none of them is named
    [path], a [DocumentReference]'s apart. *)
Definition class_member (k : string) : completion value :=
  if String.eqb k "path" then Ok VUndefined
  else if identifier k then Throw Unmodelled
  else Ok VUndefined.

Fixpoint ascii_only (s : string) : bool :=
  match s with
  | EmptyString => true
  | String c r => (nat_of_ascii c <? 128)%nat && ascii_only r
  end.

(** [v[k]].  Reading a property of [undefined] or [null] raises.  The
    characters of a string are its bytes: the index and [length] reads
    stay within strings of ASCII characters. *)
Definition get (v : value) (k : string) : completion value :=
  match v with
  | VUndefined | VNull => Throw TypeError
  | VObject _ ps =>
      match alookup k ps with
      | Some (w, _) => Ok w
      | None => object_member k
      end
  | VArray _ es ps =>
      match index_of_key k with
      | Some i => Ok (match nth_error es i with Some e => elem_value e | None => VUndefined end)
      | None =>
          if String.eqb k "length" then Ok (VNum (Z.of_nat (List.length es)))
          else match alookup k ps with
               | Some (w, _) => Ok w
               | None => builtin_member array_prototype_names k
               end
      end
  | VStr s =>
      match index_of_key k with
      | Some i =>
          if ascii_only s then
            Ok (match String.get i s with
                | Some c => VStr (String c EmptyString)
                | None => VUndefined
                end)
          else Throw Unmodelled
      | None =>
          if String.eqb k "length" then
            if ascii_only s then Ok (VNum (Z.of_nat (String.length s)))
            else Throw Unmodelled
          else builtin_member string_prototype_names k
      end
  | VNum _ | VNaN => builtin_member number_prototype_names k
  | VBool _ => builtin_member [] k
  | VRef r =>
      if String.eqb k "path" then Ok (VStr (DocumentReference.path r)) else class_member k
  | VDate _ | VTimestamp _ _ | VGeoPoint _ _ | VFunction _ => class_member k
  end.

(** The prototype setter [o.__proto__ = v] changes nothing when [v] is
    neither an object nor [null]. *)
Definition no_prototype (v : value) : bool :=
  match v with
  | VUndefined | VBool _ | VNaN | VNum _ | VStr _ => true
  | _ => false
  end.

(** Assignment to a named property of an object whose prototype chain ends
    in [Object.prototype], as in strict-mode code: an own property that is
    not writable refuses the write; a new property is created, except
    that [__proto__] is the accessor of [Object.prototype], whose setter
    creates no property and, given an object or [null], changes the
    prototype, which leaves the fragment. *)
Definition set_named (ps : props) (k : string) (v : value) : completion props :=
  match alookup k ps with
  | Some (_, a) => if writable a then Ok (aset k (v, a) ps) else Throw TypeError
  | None =>
      if String.eqb k "__proto__" then
        if no_prototype v then Ok ps else Throw Unmodelled
      else Ok (aset k (v, plain) ps)
  end.

(** Assignment to element [i]; writing past the end extends the array with
    holes. *)
Fixpoint set_elem (es : list (option value)) (i : nat) (v : value)
  : list (option value) :=
  match es, i with
  | [], O => [Some v]
  | [], S j => None :: set_elem [] j v
  | _ :: r, O => Some v :: r
  | e :: r, S j => e :: set_elem r j v
  end.

(** [o[k] = v]. *)
Definition put (o : value) (k : string) (v : value) : completion value :=
  match o with
  | VObject id ps => ps' <- set_named ps k v ;; Ok (VObject id ps')
  | VArray id es ps =>
      match index_of_key k with
      | Some i => Ok (VArray id (set_elem es i v) ps)
      | None =>
          if String.eqb k "length" then Throw Unmodelled
          else ps' <- set_named ps k v ;; Ok (VArray id es ps')
      end
  | VUndefined | VNull | VBool _ | VNaN | VNum _ | VStr _ => Throw TypeError
  | _ => Throw Unmodelled
  end.

(** ** Property descriptors and [Object.defineProperty] *)

Record descriptor := Desc {
  d_value : option value;
  d_enumerable : option bool;
  d_writable : option bool;
  d_configurable : option bool
}.

(** What [Object.getOwnPropertyDescriptor] returns for a data property. *)
Definition descriptor_of (p : value * attrs) : descriptor :=
  Desc (Some (fst p)) (Some (enumerable (snd p))) (Some (writable (snd p)))
       (Some (configurable (snd p))).

(** The descriptor literal [{ value: v }]. *)
Definition value_only (v : value) : descriptor := Desc (Some v) None None None.

Definition dflt {A : Type} (d : A) (o : option A) : A :=
  match o with
  | Some a => a
  | None => d
  end.

Definition asks (o : option bool) (b : bool) : bool :=
  match o with
  | Some b' => Bool.eqb b b'
  | None => false
  end.

Definition option_eqb {A : Type} (eqb : A -> A -> bool) (x y : option A) : bool :=
  match x, y with
  | Some a, Some b => eqb a b
  | None, None => true
  | _, _ => false
  end.

Definition converter_eqb (c d : FirestoreDataConverter) : bool :=
  match c, d with
  | firestoreDefaultConverter, firestoreDefaultConverter => true
  | customConverter n, customConverter m => Nat.eqb n m
  | _, _ => false
  end.

(** [SameValue]: primitives by content, records and arrays by address.
    Instances of the SDK classes carry no address and are compared by
    content; a built-in function is the one of its name. *)
Definition same_value (x y : value) : bool :=
  match x, y with
  | VUndefined, VUndefined | VNull, VNull | VNaN, VNaN => true
  | VBool a, VBool b => Bool.eqb a b
  | VNum a, VNum b => (a =? b)%Z
  | VStr a, VStr b => String.eqb a b
  | VDate a, VDate b => (a =? b)%Z
  | VTimestamp a a', VTimestamp b b' => (a =? b)%Z && (a' =? b')%Z
  | VGeoPoint a a', VGeoPoint b b' => (a =? b)%Z && (a' =? b')%Z
  | VRef a, VRef b =>
      String.eqb (DocumentReference.path a) (DocumentReference.path b)
      && option_eqb converter_eqb (DocumentReference.converter a)
                                  (DocumentReference.converter b)
  | VArray a _ _, VArray b _ _ => Nat.eqb a b
  | VObject a _, VObject b _ => Nat.eqb a b
  | VFunction a, VFunction b => String.eqb a b
  | _, _ => false
  end.

(** Whether a property that is not configurable refuses descriptor [d]. *)
Definition refuses (cur : value * attrs) (d : descriptor) : bool :=
  asks (d_configurable d) true
  || asks (d_enumerable d) (negb (enumerable (snd cur)))
  || (negb (writable (snd cur))
      && (asks (d_writable d) true
          || match d_value d with
             | Some v => negb (same_value v (fst cur))
             | None => false
             end)).

(** [Object.defineProperty] on a named own data property: a new property
    takes [false] and [undefined] for what the descriptor leaves out, an
    existing one keeps what the descriptor leaves out. *)
Definition define_named (ps : props) (k : string) (d : descriptor)
  : completion props :=
  match alookup k ps with
  | None =>
      Ok (aset k (dflt VUndefined (d_value d),
                  Attrs (dflt false (d_enumerable d)) (dflt false (d_writable d))
                        (dflt false (d_configurable d))) ps)
  | Some (cv, ca) =>
      if negb (configurable ca) && refuses (cv, ca) d then Throw TypeError
      else
        Ok (aset k (dflt cv (d_value d),
                    Attrs (dflt (enumerable ca) (d_enumerable d))
                          (dflt (writable ca) (d_writable d))
                          (dflt (configurable ca) (d_configurable d))) ps)
  end.

(** [Object.defineProperty(o, k, d)].  Element slots and [length] of an
    array have fixed attributes here, so defining them is outside the
    fragment; so is defining a property on a value that is no record or
    array. *)
Definition defineProperty (o : value) (k : string) (d : descriptor)
  : completion value :=
  match o with
  | VObject id ps => ps' <- define_named ps k d ;; Ok (VObject id ps')
  | VArray id es ps =>
      match index_of_key k with
      | Some _ => Throw Unmodelled
      | None =>
          if String.eqb k "length" then Throw Unmodelled
          else ps' <- define_named ps k d ;; Ok (VArray id es ps')
      end
  | VUndefined | VNull | VBool _ | VNaN | VNum _ | VStr _ => Throw TypeError
  | _ => Throw Unmodelled
  end.

(** ** Own properties of records and arrays *)

(** The element slots from index [i] on that hold a value, with their keys. *)
Fixpoint elem_fields (es : list (option value)) (i : nat) : list (string * value) :=
  match es with
  | [] => []
  | None :: r => elem_fields r (S i)
  | Some v :: r => (index_key i, v) :: elem_fields r (S i)
  end.

Definition enumerable_named (ps : props) : list (string * value) :=
  map (fun kp => (fst kp, fst (snd kp)))
      (filter (fun kp => enumerable (snd (snd kp))) ps).

Definition named_of (v : value) : props :=
  match v with
  | VObject _ ps => ps
  | VArray _ _ ps => ps
  | _ => []
  end.

(** The keys a [for (const key in doc)] loop visits, with [doc[key]]. *)
Definition enumerable_fields (doc : value) : list (string * value) :=
  match doc with
  | VObject _ ps => enumerable_named ps
  | VArray _ es ps => elem_fields es 0 ++ enumerable_named ps
  | _ => []
  end.

(** The own properties [Object.getOwnPropertyNames] lists whose descriptor
    is not enumerable, an array's [length] left aside. *)
Definition hidden_fields (doc : value) : props :=
  filter (fun kp => negb (enumerable (snd (snd kp)))) (named_of doc).

(** ** Property keys and the [in] operator *)

(** What the host supplies: the string an instance of [Date] or of an SDK
    class converts to (its [toString]), which depends on the class. *)
Class Host := { ObjectToString : value -> string }.

(** The largest integer below which every integer is a double. *)
Definition max_safe_integer : Z := 9007199254740992.

(** [ToPropertyKey], the conversion the [in] operator and a computed
    member access apply to the key.  A record converts through its
    [toString], then its [valueOf]: an own property named so that is no
    function cannot be called, the inherited [toString] answers
    ["[object Object]"], and the inherited [valueOf] answers the record
    itself, which is no primitive.  Calling a function the record holds,
    and the conversion of an array, are outside the fragment. *)
Definition ToPropertyKey `{Host} (v : value) : completion string :=
  match v with
  | VStr s => Ok s
  | VUndefined => Ok "undefined"
  | VNull => Ok "null"
  | VBool true => Ok "true"
  | VBool false => Ok "false"
  | VNaN => Ok "NaN"
  | VNum n =>
      if (Z.abs n <=? max_safe_integer)%Z then Ok (NilZero.string_of_int (Z.to_int n))
      else Throw Unmodelled
  | VObject _ ps =>
      match alookup "toString" ps with
      | None => Ok "[object Object]"
      | Some (VFunction _, _) => Throw Unmodelled
      | Some _ =>
          match alookup "valueOf" ps with
          | Some (VFunction _, _) => Throw Unmodelled
          | _ => Throw TypeError
          end
      end
  | VArray _ _ _ | VFunction _ => Throw Unmodelled
  | VDate _ | VTimestamp _ _ | VGeoPoint _ _ | VRef _ => Ok (ObjectToString v)
  end.

(** [k in o], for an object [o] given by the list of its own properties
    whose prototype is [Object.prototype]. *)
Definition has_property {A : Type} (k : string) (o : list (string * A)) : bool :=
  amem k o || inherited k.

(** ** The classifiers of [src/shared] *)

(** Modelled from the spec: [isObject] of the module [../shared], which is
    not among the sources; a value that is an object and not [null]. *)
Definition isObject (v : value) : bool :=
  match v with
  | VDate _ | VTimestamp _ _ | VGeoPoint _ _ | VRef _ | VArray _ _ _ | VObject _ _ => true
  | _ => false
  end.

(** Modelled from the spec: [isPOJO] of the module [../shared], which is not
    among the sources; a decomposable structured value, that is a record
    and neither an array, a reference nor an opaque scalar-like value. *)
Definition isPOJO (v : value) : bool :=
  match v with
  | VObject _ _ => true
  | _ => false
  end.

(** [Array.isArray]. *)
Definition isArray (v : value) : bool :=
  match v with
  | VArray _ _ _ => true
  | _ => false
  end.

(** Modelled from the spec: [isDocumentRef] of the module [../shared], which
    is not among the sources; a reference-like value. *)
Definition isDocumentRef (v : value) : bool :=
  match v with
  | VRef _ => true
  | _ => false
  end.

(** ** [src/firestore/utils.ts] *)

(** An entry of the subscriptions registry:
    [{ path: string; data: () => DocumentData | null }]. *)
Record Sub := MkSub {
  sub_path : string;
  sub_data : unit -> value
}.

(** [_FirestoreRefOptionsWithDefaults], of which the walker reads
    [converter]. *)
Record FirestoreRefOptionsWithDefaults := MkOptions {
  opt_converter : FirestoreDataConverter
}.

(** The registry [subs], the index [subsByPath] and the map [refs] are
    objects used as maps, given by the list of their own properties;
    [subsByPath] and [refs] are created by [{}], and [subs] is taken to be
    one too: their prototype is [Object.prototype]. *)
Definition registry := list (string * Sub).
Definition path_index := list (string * value).
Definition refs_map := list (string * DocumentReference.t).

(** [subsByPath[k]], line 116. *)
Definition index_get (subsByPath : path_index) (k : string) : completion value :=
  match alookup k subsByPath with
  | Some v => Ok v
  | None => object_member k
  end.

(** [refs[k] = r], line 104: the setter of [__proto__] would make [r] the
    prototype of [refs]. *)
Definition set_ref (refs : refs_map) (k : string) (r : DocumentReference.t)
  : completion refs_map :=
  if String.eqb k "__proto__" then Throw Unmodelled else Ok (aset k r refs).

(** Lines 55-59: [Object.keys(subs).reduce(...)], the index from a path to
    what the subscription bound to it last resolved to. *)
Definition index_step (subs : registry) (acc : completion path_index)
  (subKey : string) : completion path_index :=
  resultSubs <- acc ;;
  match alookup subKey subs with
  | Some sub => Ok (aset (sub_path sub) (sub_data sub tt) resultSubs)
  | None => Throw TypeError
  end.

Definition subsByPath (subs : registry) : completion path_index :=
  fold_left (index_step subs) (keys subs) (Ok []).

(** The old document of a call of [recursiveExtract]: a value of its own,
    or the very array or record the call is filling (line 119 passes
    [data[key]] for both when the old document has nothing at [key]). *)
Inductive old_source :=
| OldValue (v : value)
| OldIsData.

(** What a call of [recursiveExtract] threads: the [data] it fills, the
    [refs] map shared by all calls, and the next free address. *)
Definition walk_state := (value * refs_map * nat)%type.

Section Walker.
Context `{Host}.
Variable subs : registry.
Variable subsByPath : path_index.
Variable options : FirestoreRefOptionsWithDefaults.

(** [oldDoc[key]] of line 102, [oldDoc] being the old document after
    line 68; when [oldDoc] is [data] itself, the read goes to [data]. *)
Definition read_old (oldDoc : old_source) (data : value) (key : string)
  : completion value :=
  match oldDoc with
  | OldValue o => get o key
  | OldIsData => get data key
  end.

(** Lines 104-108: the reference as it is stored in [refs]. *)
Definition stored_ref (ref : DocumentReference.t) : DocumentReference.t :=
  match DocumentReference.converter ref with
  | Some _ => ref
  | None => DocumentReference.withConverter ref (opt_converter options)
  end.

(** Lines 112-117: fill the resolved values into the fresh array [arr],
    element [i] of the input being the head of [es].  Line 116 reads
    [newRef.path] and converts it a second time, to the same key. *)
Fixpoint fill_existing (es : list (option value)) (i : nat) (arr : value)
  : completion value :=
  match es with
  | [] => Ok arr
  | e :: r =>
      let newRef := elem_value e in
      arr' <- (if truthy newRef then
                 p <- get newRef "path" ;;
                 k <- ToPropertyKey p ;;
                 if has_property k subsByPath
                 then v <- index_get subsByPath k ;; put arr (index_key i) v
                 else Ok arr
               else Ok arr) ;;
      fill_existing r (S i) arr'
  end.

Section Loop.
Variable recursiveExtract :
  value -> old_source -> string -> walk_state -> completion walk_state.
Variable oldDoc : old_source.
Variable path : string.

(** Lines 81-129: the body of the loop, at [key] with [ref = doc[key]].
    The branches are the tests of the source in their order: [ref == null]
    or an instance of [Date], [Timestamp] or [GeoPoint] (lines 83-91);
    [isDocumentRef(ref)] (lines 92-108); [Array.isArray(ref)] (lines
    109-122); [isObject(ref)] (lines 123-126); anything else (line 128).
    Where the source mutates [data[key]] in place, the tree is written back
    to [data]. *)
Definition visit (key : string) (ref : value) (st : walk_state)
  : completion walk_state :=
  let '(data, refs, next) := st in
  match ref with
  | VUndefined | VNull | VDate _ | VTimestamp _ _ | VGeoPoint _ _ =>
      data <- put data key ref ;;
      Ok (data, refs, next)
  | VRef r =>
      let refSubKey := path ++ key in
      v <- (if has_property refSubKey subs then read_old oldDoc data key
            else Ok (VStr (DocumentReference.path r))) ;;
      data <- put data key v ;;
      refs <- set_ref refs refSubKey (stored_ref r) ;;
      Ok (data, refs, next)
  | VArray _ es _ =>
      (* data[key] = Array(ref.length) *)
      let fresh := VArray next (repeat None (List.length es)) [] in
      data <- put data key fresh ;;
      (* the loop of lines 112-117 fills data[key] *)
      filled <- fill_existing es 0 fresh ;;
      data <- put data key filled ;;
      (* oldDoc[key] || data[key]; when oldDoc is data, oldDoc[key] is the
         array just stored *)
      old <- match oldDoc with
             | OldValue o =>
                 ov <- get o key ;;
                 Ok (if truthy ov then OldValue ov else OldIsData)
             | OldIsData => Ok OldIsData
             end ;;
      '(arr, refs, next) <-
        recursiveExtract ref old (path ++ key ++ ".") (filled, refs, S next) ;;
      data <- put data key arr ;;
      Ok (data, refs, next)
  | VObject _ _ =>
      (* data[key] = {} *)
      let fresh := VObject next [] in
      data <- put data key fresh ;;
      (* oldDoc[key]; when oldDoc is data, it is the record just stored *)
      old <- match oldDoc with
             | OldValue o => ov <- get o key ;; Ok (OldValue ov)
             | OldIsData => Ok OldIsData
             end ;;
      '(obj, refs, next) <-
        recursiveExtract ref old (path ++ key ++ ".") (fresh, refs, S next) ;;
      data <- put data key obj ;;
      Ok (data, refs, next)
  | VBool _ | VNaN | VNum _ | VStr _ | VFunction _ =>
      data <- put data key ref ;;
      Ok (data, refs, next)
  end.

(** Line 80, over the element slots of an array from index [i] on. *)
Fixpoint forin_elems (es : list (option value)) (i : nat) (st : walk_state)
  : completion walk_state :=
  match es with
  | [] => Ok st
  | None :: r => forin_elems r (S i) st
  | Some ref :: r => st <- visit (index_key i) ref st ;; forin_elems r (S i) st
  end.

(** Line 80, over the named properties. *)
Fixpoint forin_named (ps : props) (st : walk_state) : completion walk_state :=
  match ps with
  | [] => Ok st
  | (key, (ref, a)) :: r =>
      if enumerable a then st <- visit key ref st ;; forin_named r st
      else forin_named r st
  end.

End Loop.

(** Lines 72-77: go through the own property names of [doc] and define on
    [data] every property whose descriptor is not enumerable.  The [length]
    of an array is such a property; line 75 defines it on an array of the
    same length, which changes nothing, and no step stands for it here. *)
Fixpoint copy_hidden (ps : props) (data : value) : completion value :=
  match ps with
  | [] => Ok data
  | (propertyName, p) :: r =>
      if negb (enumerable (snd p)) then
        data <- defineProperty data propertyName (descriptor_of p) ;;
        copy_hidden r data
      else copy_hidden r data
  end.

(** Line 68: [oldDoc || {}]; the empty record is allocated when needed. *)
Definition or_empty (oldDoc : old_source) (next : nat) : old_source * nat :=
  match oldDoc with
  | OldValue o => if truthy o then (oldDoc, next) else (OldValue (VObject next []), S next)
  | OldIsData => (oldDoc, next)
  end.

(** Lines 61-131.  [result] is the pair [[data, refs]] of the source with
    the next free address. *)
Fixpoint recursiveExtract (doc : value) (oldDoc : old_source) (path : string)
  (result : walk_state) {struct doc} : completion walk_state :=
  let '(data, refs, next) := result in
  let '(oldDoc, next) := or_empty oldDoc next in
  data <- copy_hidden (named_of doc) data ;;
  match doc with
  | VObject _ ps => forin_named recursiveExtract oldDoc path ps (data, refs, next)
  | VArray _ es ps =>
      st <- forin_elems recursiveExtract oldDoc path es 0 (data, refs, next) ;;
      forin_named recursiveExtract oldDoc path ps st
  | _ => Ok (data, refs, next)
  end.

End Walker.

(** Lines 41-136.  The result is the pair [[data, refs]] and the next free
    address. *)
Definition extractRefs `{Host} (doc oldDoc : value) (subs : registry)
  (options : FirestoreRefOptionsWithDefaults) (next : nat)
  : completion (value * refs_map * nat) :=
  if negb (isPOJO doc) then Ok (doc, [], next)
  else
    let dataAndRefs : walk_state := (VObject next [], [], S next) in
    index <- subsByPath subs ;;
    recursiveExtract subs index options doc (OldValue oldDoc) "" dataAndRefs.

(** ** [src/database/utils.ts] *)

(** A Realtime Database [DataSnapshot], through the members the normaliser
    reads: [exists()], [val()], [key], [priority], [ref] and [size]. *)
Record DataSnapshot := MkSnapshot {
  snap_exists : bool;
  snap_val : unit -> value;
  snap_key : value;
  snap_priority : value;
  snap_ref : value;
  snap_size : value
}.

(** [Object.defineProperties(o, { k1: d1, ... })]. *)
Fixpoint defineProperties (o : value) (ds : list (string * descriptor))
  : completion value :=
  match ds with
  | [] => Ok o
  | (k, d) :: r => o <- defineProperty o k d ;; defineProperties o r
  end.

(** The four metadata fields of a record, lines 20-23 and 29-32. *)
Definition metadata (snapshot : DataSnapshot) : list (string * value) :=
  [(".key", snap_key snapshot); (".priority", snap_priority snapshot);
   (".ref", snap_ref snapshot); (".size", snap_size snapshot)].

(** Lines 11-34.  The wrapper of a primitive is allocated at [next]. *)
Definition createRecordFromDatabaseSnapshot (snapshot : DataSnapshot) (next : nat)
  : completion (value * nat) :=
  if negb (snap_exists snapshot) then Ok (VNull, next)
  else
    let value := snap_val snapshot tt in
    if isObject value then
      r <- defineProperties value
             (map (fun kv => (fst kv, value_only (snd kv))) (metadata snapshot)) ;;
      Ok (r, next)
    else
      Ok (VObject next
            (("$value", (value, plain))
             :: map (fun kv => (fst kv, (snd kv, plain))) (metadata snapshot)),
          S next).

(** ** Well-formed values *)

Fixpoint nodupb (l : list string) : bool :=
  match l with
  | [] => true
  | k :: r => negb (existsb (String.eqb k) r) && nodupb r
  end.

(** A named property of an array is neither an index nor [length]. *)
Definition named_key_ok (k : string) : bool :=
  match index_of_key k with
  | Some _ => false
  | None => negb (String.eqb k "length")
  end.

(** The lists of a value stand for JavaScript objects: no record or array,
    at any depth, lists a key twice, and the named properties of an array
    are named.  Every record and array of the fragment is the image of a
    well-formed term. *)
Fixpoint well_formed (v : value) : bool :=
  match v with
  | VObject _ ps =>
      nodupb (keys ps) && forallb (fun kp => well_formed (fst (snd kp))) ps
  | VArray _ es ps =>
      forallb (fun e => match e with Some w => well_formed w | None => true end) es
      && nodupb (keys ps) && forallb named_key_ok (keys ps)
      && forallb (fun kp => well_formed (fst (snd kp))) ps
  | _ => true
  end.

(** ** Reference-free values and deep equality *)

(** No reference at any position, hidden properties included. *)
Fixpoint ref_free (v : value) : bool :=
  match v with
  | VRef _ => false
  | VObject _ ps => forallb (fun kp => ref_free (fst (snd kp))) ps
  | VArray _ es ps =>
      forallb (fun e => match e with Some w => ref_free w | None => true end) es
      && forallb (fun kp => ref_free (fst (snd kp))) ps
  | _ => true
  end.

(** No reference at any position a field-by-field enumeration reaches. *)
Fixpoint visible_ref_free (v : value) : bool :=
  match v with
  | VRef _ => false
  | VObject _ ps =>
      forallb (fun kp => negb (enumerable (snd (snd kp))) || visible_ref_free (fst (snd kp))) ps
  | VArray _ es ps =>
      forallb (fun e => match e with Some w => visible_ref_free w | None => true end) es
      && forallb (fun kp => negb (enumerable (snd (snd kp))) || visible_ref_free (fst (snd kp))) ps
  | _ => true
  end.

(** Equality of two property lists as maps, given how to compare values:
    as many properties, and every property of the first is a property of
    the second with an equal value and the same visibility. *)
Definition props_equal (eqv : value -> value -> bool) (ps qs : props) : bool :=
  Nat.eqb (List.length ps) (List.length qs)
  && forallb (fun kp =>
                match alookup (fst kp) qs with
                | Some (w, b) =>
                    eqv (fst (snd kp)) w
                    && Bool.eqb (enumerable (snd (snd kp))) (enumerable b)
                | None => false
                end) ps.

Fixpoint elems_equal (eqv : value -> value -> bool) (es fs : list (option value))
  : bool :=
  match es, fs with
  | [], [] => true
  | None :: r, None :: s => elems_equal eqv r s
  | Some v :: r, Some w :: s => eqv v w && elems_equal eqv r s
  | _, _ => false
  end.

(** Deep equality: equal in value whatever the addresses; a hole is equal
    to a hole only. *)
Fixpoint deep_equal (x y : value) {struct x} : bool :=
  match x, y with
  | VObject _ ps, VObject _ qs => props_equal deep_equal ps qs
  | VArray _ es ps, VArray _ fs qs =>
      elems_equal deep_equal es fs && props_equal deep_equal ps qs
  | VObject _ _, _ | VArray _ _ _, _ => false
  | _, _ => same_value x y
  end.

(** The address of a record or array. *)
Definition address (v : value) : option nat :=
  match v with
  | VObject n _ => Some n
  | VArray n _ _ => Some n
  | _ => None
  end.

(** ** The walker in closed form

    What [recursiveExtract] computes on a well-formed document when it
    starts from a fresh record or array and returns, written without
    assignments: the output lists are built directly.
    [recursiveExtract_closed] below proves that the two agree; the closed
    form is used in proofs only. *)

(** The value a property read yields when it returns. *)
Definition peek (v : value) (k : string) : value :=
  match get v k with
  | Ok w => w
  | Throw _ => VUndefined
  end.

(** The key a value converts to when the conversion returns. *)
Definition key_of `{Host} (v : value) : string :=
  match ToPropertyKey v with
  | Ok k => k
  | Throw _ => ""
  end.

(** What a read of [key] yields, when it returns, on a record or array
    that has no own property [key]. *)
Definition unset (key : string) : value := peek (VObject 0 []) key.

(** What [data[key]] holds when the loop that fills [fresh] reaches [key]:
    the slot lines 112-117 left there when [key] is an index of an array,
    and nothing of its own otherwise. *)
Definition seen_at (fresh : value) (key : string) : value :=
  match fresh, index_of_key key with
  | VArray _ es _, Some i =>
      match nth_error es i with
      | Some e => elem_value e
      | None => VUndefined
      end
  | _, _ => unset key
  end.

(** The enumerable named properties for which the loop creates a property
    of [data]: all but [__proto__]. *)
Definition created_named (ps : props) : list (string * value) :=
  filter (fun kv => negb (String.eqb (fst kv) "__proto__")) (enumerable_named ps).

(** The value [subsByPath[k]] yields when the read returns. *)
Definition index_peek (index : path_index) (k : string) : value :=
  match index_get index k with
  | Ok v => v
  | Throw _ => VUndefined
  end.

Section Closed.
Context `{Host}.
Variable subs : registry.
Variable index : path_index.
Variable options : FirestoreRefOptionsWithDefaults.

(** The slot lines 112-117 leave for input element [e]. *)
Definition filled_slot (e : option value) : option value :=
  let newRef := elem_value e in
  if truthy newRef then
    let k := key_of (peek newRef "path") in
    if has_property k index then Some (index_peek index k) else None
  else None.

(** The old document handed to the call on the container at [key]. *)
Definition old_for_array (oldDoc : old_source) (key : string) : old_source :=
  match oldDoc with
  | OldValue o => if truthy (peek o key) then OldValue (peek o key) else OldIsData
  | OldIsData => OldIsData
  end.

Definition old_for_record (oldDoc : old_source) (key : string) : old_source :=
  match oldDoc with
  | OldValue o => OldValue (peek o key)
  | OldIsData => OldIsData
  end.

Section ClosedLoop.
Variable walk :
  value -> old_source -> string -> nat -> list (option value) -> refs_map * nat ->
  value * (refs_map * nat).
Variable oldDoc : old_source.
Variable path : string.

(** The value the loop body leaves at [key], [seen] being what [data] held
    at [key] when the call began. *)
Definition out_field (key : string) (ref seen : value) (st : refs_map * nat)
  : value * (refs_map * nat) :=
  let '(refs, next) := st in
  match ref with
  | VRef r =>
      (if has_property (path ++ key) subs
       then match oldDoc with
            | OldValue o => peek o key
            | OldIsData => seen
            end
       else VStr (DocumentReference.path r),
       (aset (path ++ key) (stored_ref options r) refs, next))
  | VArray _ es _ =>
      walk ref (old_for_array oldDoc key) (path ++ key ++ ".") next
           (map filled_slot es) (refs, S next)
  | VObject _ _ =>
      walk ref (old_for_record oldDoc key) (path ++ key ++ ".") next [] (refs, S next)
  | _ => (ref, st)
  end.

Fixpoint out_elems (es : list (option value)) (i : nat) (init : list (option value))
  (st : refs_map * nat) : list (option value) * (refs_map * nat) :=
  match es, init with
  | None :: r, f :: fr =>
      let '(es', st) := out_elems r (S i) fr st in
      (f :: es', st)
  | Some ref :: r, f :: fr =>
      let '(w, st) := out_field (index_key i) ref (elem_value f) st in
      let '(es', st) := out_elems r (S i) fr st in
      (Some w :: es', st)
  | _, _ => (init, st)
  end.

Fixpoint out_named (ps : props) (st : refs_map * nat) : props * (refs_map * nat) :=
  match ps with
  | [] => ([], st)
  | (key, (ref, a)) :: r =>
      if enumerable a then
        let '(w, st) := out_field key ref (unset key) st in
        let '(outs, st) := out_named r st in
        (* the setter of [__proto__] has created no property *)
        (if String.eqb key "__proto__" then outs else (key, (w, plain)) :: outs, st)
      else out_named r st
  end.

End ClosedLoop.

(** The result of the call on [doc] that fills the fresh record allocated
    at [n], or the fresh array allocated at [n] with slots [init]. *)
Fixpoint walk (doc : value) (oldDoc : old_source) (path : string) (n : nat)
  (init : list (option value)) (st : refs_map * nat) {struct doc}
  : value * (refs_map * nat) :=
  let '(refs, next) := st in
  let '(oldDoc, next) := or_empty oldDoc next in
  match doc with
  | VObject _ ps =>
      let '(outs, st) := out_named walk oldDoc path ps (refs, next) in
      (VObject n (hidden_fields doc ++ outs), st)
  | VArray _ es ps =>
      let '(es', st) := out_elems walk oldDoc path es 0 init (refs, next) in
      let '(outs, st) := out_named walk oldDoc path ps st in
      (VArray n es' (hidden_fields doc ++ outs), st)
  | _ => (VUndefined, (refs, next))
  end.

End Closed.

(** ** Documents on which the walk stays within the fragment *)

(** The read [o[k]] returns. *)
Definition readable (o : value) (k : string) : bool :=
  match get o k with
  | Ok _ => true
  | Throw _ => false
  end.

(** Line 115 on the element [e]: [e.path] converts to a property key, and
    the key is not [__proto__]. *)
Definition path_converts `{Host} (e : option value) : bool :=
  negb (truthy (elem_value e)) ||
  match ToPropertyKey (peek (elem_value e) "path") with
  | Ok k => negb (String.eqb k "__proto__")
  | Throw _ => false
  end.

(** No enumerable key of a record or of an array, at any depth the walk
    reaches, is [__proto__], and the [path] of every truthy element of an
    array converts to a key. *)
Fixpoint tame `{Host} (doc : value) : bool :=
  match doc with
  | VObject _ ps =>
      forallb (fun kp => negb (enumerable (snd (snd kp)))
                         || (negb (String.eqb (fst kp) "__proto__")
                             && tame (fst (snd kp)))) ps
  | VArray _ es ps =>
      forallb path_converts es
      && forallb (fun e => match e with Some w => tame w | None => true end) es
      && forallb (fun kp => negb (enumerable (snd (snd kp)))
                            || (negb (String.eqb (fst kp) "__proto__")
                                && tame (fst (snd kp)))) ps
  | _ => true
  end.



(** A path is empty or ends with a dot: the paths line 119 and line 126
    build. *)
Definition dotted (path : string) : Prop :=
  path = "" \/ exists p, path = p ++ ".".

Section Follows.
Variable subs : registry.

Section FollowsLoop.
Variable follows : value -> old_source -> string -> bool.
Variable oldDoc : old_source.
Variable path : string.

(** The read [oldDoc[key]] of line 102 returns; [fresh] is the record or
    array under construction as line 110 or line 125 made it, which the
    read goes to when the old document is [data] itself. *)
Definition old_readable (fresh : value) (key : string) : bool :=
  match oldDoc with
  | OldValue o => readable o key
  | OldIsData => readable fresh key
  end.

(** The read [oldDoc[key]] of lines 119 and 126 returns. *)
Definition old_followed (key : string) : bool :=
  match oldDoc with
  | OldValue o => readable o key
  | OldIsData => true
  end.

Definition follows_field (fresh : value) (key : string) (ref : value) : bool :=
  match ref with
  | VRef _ => negb (has_property (path ++ key) subs) || old_readable fresh key
  | VArray _ _ _ =>
      old_followed key && follows ref (old_for_array oldDoc key) (path ++ key ++ ".")
  | VObject _ _ =>
      old_followed key && follows ref (old_for_record oldDoc key) (path ++ key ++ ".")
  | _ => true
  end.

Fixpoint follows_elems (es : list (option value)) (i : nat) : bool :=
  match es with
  | [] => true
  | None :: r => follows_elems r (S i)
  | Some ref :: r =>
      follows_field (VArray 0 [] []) (index_key i) ref && follows_elems r (S i)
  end.

Fixpoint follows_named (fresh : value) (ps : props) : bool :=
  match ps with
  | [] => true
  | (key, (ref, a)) :: r =>
      (negb (enumerable a) || follows_field fresh key ref) && follows_named fresh r
  end.

End FollowsLoop.

(** Every read the call on [doc] makes of the old document, at lines 102,
    119 and 126 and in the calls below, returns. *)
Fixpoint follows (doc : value) (oldDoc : old_source) (path : string) {struct doc} : bool :=
  let oldDoc := fst (or_empty oldDoc 0) in
  match doc with
  | VObject _ ps => follows_named follows oldDoc path (VObject 0 []) ps
  | VArray _ es ps =>
      follows_elems follows oldDoc path es 0
      && follows_named follows oldDoc path (VArray 0 [] []) ps
  | _ => true
  end.

End Follows.

(** ** Old documents whose hidden properties the walk does not read *)

Section Shielded.
Variable subs : registry.

Section ShieldedLoop.
Variable shielded : value -> old_source -> string -> bool.
Variable oldDoc : old_source.
Variable path : string.

(** [key] names a hidden property of the old document. *)
Definition hidden_at (key : string) : bool :=
  match oldDoc with
  | OldValue o => amem key (hidden_fields o)
  | OldIsData => false
  end.

Definition shielded_field (key : string) (ref : value) : bool :=
  match ref with
  | VRef _ => negb (has_property (path ++ key) subs) || negb (hidden_at key)
  | VArray _ _ _ =>
      negb (hidden_at key)
      && shielded ref (old_for_array oldDoc key) (path ++ key ++ ".")
  | VObject _ _ =>
      negb (hidden_at key)
      && shielded ref (old_for_record oldDoc key) (path ++ key ++ ".")
  | _ => true
  end.

Fixpoint shielded_elems (es : list (option value)) (i : nat) : bool :=
  match es with
  | [] => true
  | None :: r => shielded_elems r (S i)
  | Some ref :: r => shielded_field (index_key i) ref && shielded_elems r (S i)
  end.

Fixpoint shielded_named (ps : props) : bool :=
  match ps with
  | [] => true
  | (key, (ref, a)) :: r =>
      (negb (enumerable a) || shielded_field key ref) && shielded_named r
  end.

End ShieldedLoop.

(** No read the call on [doc] makes of the old document, at lines 102, 119
    and 126 and in the calls below, is one of a hidden property. *)
Fixpoint shielded (doc : value) (oldDoc : old_source) (path : string) {struct doc} : bool :=
  let oldDoc := fst (or_empty oldDoc 0) in
  match doc with
  | VObject _ ps => shielded_named shielded oldDoc path ps
  | VArray _ es ps =>
      shielded_elems shielded oldDoc path es 0 && shielded_named shielded oldDoc path ps
  | _ => true
  end.

End Shielded.

(** ** Auxiliary notions for the proofs *)

(** [vacant data key seen upd]: [data], a record or array under
    construction, holds no property of its own at [key] other than the
    element slot a fresh array may have there, and [key] is not
    [__proto__]; [seen] is what a read of [key] that returns yields, and
    [upd w] is [data] after [data[key] = w]. *)
Inductive vacant : value -> string -> value -> (value -> value) -> Prop :=
| vacant_record n l k :
    alookup k l = None ->
    k <> "__proto__" ->
    vacant (VObject n l) k (unset k)
           (fun w => VObject n (l ++ [(k, (w, plain))]))
| vacant_named n es l k :
    named_key_ok k = true ->
    alookup k l = None ->
    k <> "__proto__" ->
    vacant (VArray n es l) k (unset k)
           (fun w => VArray n es (l ++ [(k, (w, plain))]))
| vacant_elem n pre f post l :
    vacant (VArray n (pre ++ f :: post) l) (index_key (List.length pre)) (elem_value f)
           (fun w => VArray n (pre ++ Some w :: post) l).

(** The result of the closed form as the walker returns it. *)
Definition flat (r : value * (refs_map * nat)) : walk_state :=
  (fst r, fst (snd r), snd (snd r)).


(** The fresh container a call on [doc] starts from: [{}] of line 125, or
    the array of line 110 after lines 112-117 filled it to [init]. *)
Definition fresh_for (doc : value) (n : nat) (init : list (option value)) : value :=
  match doc with
  | VObject _ _ => VObject n []
  | VArray _ _ _ => VArray n init []
  | _ => VUndefined
  end.

Definition fits (doc : value) (init : list (option value)) : Prop :=
  match doc with
  | VArray _ es _ => List.length init = List.length es
  | _ => True
  end.

(** The character [c] occurs in [s]. *)
Fixpoint occurs (c : ascii) (s : string) : bool :=
  match s with
  | EmptyString => false
  | String d r => Ascii.eqb c d || occurs c r
  end.

(** [m] returns nothing but [a]. *)
Definition returns_only {A : Type} (m : completion A) (a : A) : Prop :=
  forall r, m = Ok r -> r = a.

(** [m] returns. *)
Definition returns {A : Type} (m : completion A) : Prop := exists a, m = Ok a.


(** Whenever [rec] returns on [doc], it returns what the closed form
    computes. *)
Definition agrees `{Host} (subs : registry) (index : path_index)
  (options : FirestoreRefOptionsWithDefaults)
  (rec : value -> old_source -> string -> walk_state -> completion walk_state)
  (doc : value) : Prop :=
  forall oldDoc path n init refs next,
    fits doc init ->
    returns_only (rec doc oldDoc path (fresh_for doc n init, refs, next))
                 (flat (walk subs index options doc oldDoc path n init (refs, next))).

(** [rec] returns on [doc] whenever [doc] is tame and the reads of the old
    document return. *)
Definition runs `{Host} (subs : registry) (index : path_index)
  (options : FirestoreRefOptionsWithDefaults)
  (rec : value -> old_source -> string -> walk_state -> completion walk_state)
  (doc : value) : Prop :=
  forall oldDoc path n init refs next,
    fits doc init ->
    tame doc = true ->
    follows subs doc oldDoc path = true ->
    dotted path ->
    returns (rec doc oldDoc path (fresh_for doc n init, refs, next)).


(** A host whose objects all convert to ["[object Object]"], as they do
    unless their class overrides [toString]. *)
Definition object_host : Host :=
  {| ObjectToString := fun _ => "[object Object]" |}.

(** The slots a call on an array starts from have a hole wherever the
    array has one, as the slots lines 112-117 produce do. *)
Definition keeps_holes (doc : value) (init : list (option value)) : Prop :=
  match doc with
  | VArray _ es _ => Forall2 (fun e f : option value => e = None -> f = None) es init
  | _ => True
  end.

(** ** The default converter of [src/firestore/utils.ts] *)

(** A Firestore [QueryDocumentSnapshot], through the members the default
    converter reads: [exists()], [data(options)], [id], [metadata] and
    [ref].  The snapshot options are handed to [data] as they come. *)
Record QueryDocumentSnapshot := MkDocumentSnapshot {
  doc_exists : bool;
  doc_data : value -> value;
  doc_id : string;
  doc_metadata : value;
  doc_ref : DocumentReference.t
}.

(** The two methods of the object [firestoreDefaultConverter], lines 20-39. *)
Module DefaultConverter.

(** Lines 22-25. *)
Definition toFirestore (data : value) : value := data.

(** Lines 26-38. *)
Definition fromFirestore (snapshot : QueryDocumentSnapshot) (options : value)
  : completion value :=
  if doc_exists snapshot then
    let data := doc_data snapshot options in
    defineProperties data
      [(".id", value_only (VStr (doc_id snapshot)));
       (".metadata", value_only (doc_metadata snapshot));
       (".ref", value_only (VRef (doc_ref snapshot)))]
  else Ok VNull.

End DefaultConverter.

(** ** [indexForKey] of [src/database/utils.ts] *)

(** [x === y]: as [SameValue], but [NaN] is not equal to itself. *)
Definition strict_equals (x y : value) : bool :=
  match x, y with
  | VNaN, VNaN => false
  | _, _ => same_value x y
  end.

(** Lines 51-53: the loop from index [i] on, [es] being the element slots
    of [array] from [i] on. *)
Fixpoint indexForKey_from (es : list (option value)) (key : value) (i : nat)
  : completion Z :=
  match es with
  | [] => Ok (-1)%Z
  | e :: r =>
      k <- get (elem_value e) ".key" ;;
      if strict_equals k key then Ok (Z.of_nat i) else indexForKey_from r key (S i)
  end.

(** Lines 47-56, [array] given by its element slots. *)
Definition indexForKey (array : list (option value)) (key : value) : completion Z :=
  indexForKey_from array key 0.

(** ** The reference positions of a document

    The places of [doc] where the loop of [recursiveExtract] meets a
    reference, each with the key line 93 builds for it, in the order the
    loop reaches them. *)

Section Positions.
Variable positions : value -> string -> list (string * DocumentReference.t).
Variable path : string.

Definition field_positions (key : string) (ref : value)
  : list (string * DocumentReference.t) :=
  match ref with
  | VRef r => [(path ++ key, r)]
  | VArray _ _ _ | VObject _ _ => positions ref (path ++ key ++ ".")
  | _ => []
  end.

Fixpoint elem_positions (es : list (option value)) (i : nat)
  : list (string * DocumentReference.t) :=
  match es with
  | [] => []
  | None :: r => elem_positions r (S i)
  | Some ref :: r => (field_positions (index_key i) ref ++ elem_positions r (S i))%list
  end.

Fixpoint named_positions (ps : props) : list (string * DocumentReference.t) :=
  match ps with
  | [] => []
  | (key, (ref, a)) :: r =>
      if enumerable a then (field_positions key ref ++ named_positions r)%list
      else named_positions r
  end.

End Positions.

Fixpoint ref_positions (doc : value) (path : string) {struct doc}
  : list (string * DocumentReference.t) :=
  match doc with
  | VObject _ ps => named_positions ref_positions path ps
  | VArray _ es ps =>
      (elem_positions ref_positions path es 0 ++ named_positions ref_positions path ps)%list
  | _ => []
  end.

(** The reference a position contributes to [refs]: the reference itself
    when it carries a converter, and otherwise the reference to the same
    target that decodes with [options.converter]. *)
Definition position_entry (options : FirestoreRefOptionsWithDefaults)
  (r : DocumentReference.t) : DocumentReference.t :=
  match DocumentReference.converter r with
  | Some c => DocumentReference.Make (DocumentReference.path r) (Some c)
  | None => DocumentReference.Make (DocumentReference.path r) (Some (opt_converter options))
  end.

(** An assignment [refs[key] = entry] for every listed position in turn. *)
Definition set_positions (options : FirestoreRefOptionsWithDefaults)
  (l : list (string * DocumentReference.t)) (refs : refs_map) : refs_map :=
  fold_left (fun acc kr => aset (fst kr) (position_entry options (snd kr)) acc) l refs.

(** ** Allocation *)

(** Every record and array that [v] holds, [v] included, was allocated
    before the counter reached [next]: its address is below [next]. *)
Fixpoint allocated_below (next : nat) (v : value) : bool :=
  match v with
  | VObject n ps =>
      Nat.ltb n next && forallb (fun kp => allocated_below next (fst (snd kp))) ps
  | VArray n es ps =>
      Nat.ltb n next
      && forallb (fun e => match e with
                           | Some w => allocated_below next w
                           | None => true
                           end) es
      && forallb (fun kp => allocated_below next (fst (snd kp))) ps
  | _ => true
  end.

(** The record or array at address [m] is [v] or a part of [v], at any
    depth. *)
Fixpoint holds_address (m : nat) (v : value) : bool :=
  match v with
  | VObject n ps =>
      Nat.eqb n m || existsb (fun kp => holds_address m (fst (snd kp))) ps
  | VArray n es ps =>
      Nat.eqb n m
      || existsb (fun e => match e with
                           | Some w => holds_address m w
                           | None => false
                           end) es
      || existsb (fun kp => holds_address m (fst (snd kp))) ps
  | _ => false
  end.

(** ** Chains of property reads *)

(** [v[k1][k2]...], a read that would raise yielding [undefined]. *)
Fixpoint peek_path (v : value) (ks : list string) : value :=
  match ks with
  | [] => v
  | k :: r => peek_path (peek v k) r
  end.

(** [v[k1][k2]...]. *)
Fixpoint get_path (v : value) (ks : list string) : completion value :=
  match ks with
  | [] => Ok v
  | k :: r => w <- get v k ;; get_path w r
  end.

(** The field of [doc] a chain of keys leads to through the enumerable
    fields of records and arrays. *)
Fixpoint field_at (doc : value) (ks : list string) : option value :=
  match ks with
  | [] => Some doc
  | k :: r =>
      match alookup k (enumerable_fields doc) with
      | Some w => field_at w r
      | None => None
      end
  end.

(** Every container the chain of keys goes through is a record. *)
Fixpoint through_records (doc : value) (ks : list string) : bool :=
  match ks with
  | [] => true
  | k :: r =>
      isPOJO doc &&
      match alookup k (enumerable_fields doc) with
      | Some w => through_records w r
      | None => false
      end
  end.

(** The old value along a chain of keys: at every level an empty record
    stands for a falsy old document before the read, as line 68 has it. *)
Fixpoint old_at (o : value) (ks : list string) : value :=
  match ks with
  | [] => o
  | k :: r => old_at (peek (if truthy o then o else VObject 0 []) k) r
  end.

(** The key of a snapshot, as [DataSnapshot.key] is typed: a string or
    [null]. *)
Definition is_key (v : value) : bool :=
  match v with
  | VStr _ | VNull => true
  | _ => false
  end.

(** Neither [undefined] nor [null]. *)
Definition is_present (v : value) : bool :=
  match v with
  | VUndefined | VNull => false
  | _ => true
  end.

(** ** Unbound references *)

(** [doc] as the walker renders it when it binds none of its references:
    every reference that an enumeration of fields reaches is replaced by
    its path; a property that is not enumerable is kept as it is. *)
Fixpoint with_paths (v : value) : value :=
  match v with
  | VRef r => VStr (DocumentReference.path r)
  | VArray id es ps =>
      VArray id
        (map (fun e => match e with
                       | Some w => Some (with_paths w)
                       | None => None
                       end) es)
        (map (fun kp : string * (value * attrs) =>
                let '(k, (w, a)) := kp in
                (k, (if enumerable a then with_paths w else w, a))) ps)
  | VObject id ps =>
      VObject id
        (map (fun kp : string * (value * attrs) =>
                let '(k, (w, a)) := kp in
                (k, (if enumerable a then with_paths w else w, a))) ps)
  | _ => v
  end.

(** * Properties *)

(** ** Index keys *)

Lemma index_of_key_index_key (i : nat) : index_of_key (index_key i) = Some i.
Proof.
  unfold index_of_key, index_key.
  rewrite NilZero.usu.
  - rewrite Unsigned.of_to, String.eqb_refl. reflexivity.
  - rewrite <- (Unsigned.of_to i) at 1. rewrite Unsigned.to_of.
    apply DecimalFacts.unorm_nonnil.
Qed.

Lemma index_of_key_Some (k : string) (i : nat) :
  index_of_key k = Some i -> k = index_key i.
Proof.
  unfold index_of_key. destruct (NilZero.uint_of_string k); [|discriminate].
  destruct (String.eqb_spec (index_key (Nat.of_uint u)) k); [|discriminate].
  intros [= <-]. congruence.
Qed.

Lemma index_key_inj (i j : nat) : index_key i = index_key j -> i = j.
Proof.
  intros E. pose proof (index_of_key_index_key i) as Hi.
  rewrite E, index_of_key_index_key in Hi. congruence.
Qed.

Lemma named_key_ok_index (k : string) :
  named_key_ok k = true -> index_of_key k = None /\ String.eqb k "length" = false.
Proof.
  unfold named_key_ok. destruct (index_of_key k); [discriminate|].
  destruct (String.eqb k "length"); [discriminate|]. auto.
Qed.

(** ** Association lists *)

Section AssocFacts.
Context {A : Type}.
Implicit Types (l : list (string * A)) (k : string) (a : A).

Lemma alookup_None_keys k l : alookup k l = None <-> ~ In k (keys l).
Proof.
  induction l as [|[k' a'] r IH]; simpl.
  - tauto.
  - destruct (String.eqb_spec k k') as [->|N].
    + split; [discriminate|]. intros C. exfalso. auto.
    + rewrite IH. split.
      * intros Hn [E|Hi]; [congruence|auto].
      * intros Hn Hi. auto.
Qed.

Lemma alookup_app k l1 l2 :
  alookup k (l1 ++ l2)%list =
  match alookup k l1 with Some a => Some a | None => alookup k l2 end.
Proof.
  induction l1 as [|[k' a'] r IH]; simpl; [reflexivity|].
  destruct (String.eqb k k'); auto.
Qed.

Lemma aset_absent k a l : alookup k l = None -> aset k a l = (l ++ [(k, a)])%list.
Proof.
  induction l as [|[k' a'] r IH]; simpl; [reflexivity|].
  destruct (String.eqb k k'); [discriminate|].
  intros E. rewrite IH; auto.
Qed.

Lemma aset_last k a a' l :
  alookup k l = None -> aset k a (l ++ [(k, a')])%list = (l ++ [(k, a)])%list.
Proof.
  induction l as [|[k' b] r IH]; simpl.
  - rewrite String.eqb_refl. reflexivity.
  - destruct (String.eqb k k'); [discriminate|].
    intros E. rewrite IH; auto.
Qed.

Lemma alookup_aset_same k a l : alookup k (aset k a l) = Some a.
Proof.
  induction l as [|[k' a'] r IH]; simpl.
  - rewrite String.eqb_refl. reflexivity.
  - destruct (String.eqb k k') eqn:E; simpl.
    + rewrite String.eqb_refl. reflexivity.
    + rewrite E. exact IH.
Qed.

Lemma alookup_aset_other k k' a l :
  k <> k' -> alookup k (aset k' a l) = alookup k l.
Proof.
  intros N. induction l as [|[k2 a2] r IH]; simpl.
  - destruct (String.eqb_spec k k'); congruence.
  - destruct (String.eqb_spec k' k2) as [->|N2]; simpl.
    + destruct (String.eqb_spec k k2); congruence.
    + destruct (String.eqb k k2); auto.
Qed.

Lemma alookup_In k a l : alookup k l = Some a -> In (k, a) l.
Proof.
  induction l as [|[k' a'] r IH]; simpl; [discriminate|].
  destruct (String.eqb_spec k k') as [->|N].
  - intros [= ->]. auto.
  - auto.
Qed.

Lemma amem_true_iff k l : amem k l = true <-> In k (keys l).
Proof.
  unfold amem. destruct (alookup k l) eqn:E.
  - split; auto. intros _.
    apply alookup_In in E. apply (in_map fst) in E. exact E.
  - apply alookup_None_keys in E. split; [discriminate|contradiction].
Qed.

End AssocFacts.

Lemma nodupb_NoDup (l : list string) : nodupb l = true <-> NoDup l.
Proof.
  induction l as [|k r IH]; simpl.
  - split; auto. constructor.
  - rewrite andb_true_iff, negb_true_iff, IH. split.
    + intros [Hn Hr]. constructor; auto.
      intros Hi. assert (existsb (String.eqb k) r = true) as C; [|congruence].
      apply existsb_exists. exists k. split; auto. apply String.eqb_refl.
    + intros Hd. inversion Hd as [|? ? Hn Hr]; subst. split; auto.
      destruct (existsb (String.eqb k) r) eqn:E; auto.
      apply existsb_exists in E. destruct E as [x [Hx Ex]].
      apply String.eqb_eq in Ex. subst x. contradiction.
Qed.

Lemma alookup_NoDup_In {A : Type} (k : string) (a : A) (l : list (string * A)) :
  NoDup (keys l) -> In (k, a) l -> alookup k l = Some a.
Proof.
  induction l as [|[k' a'] r IH]; simpl; [contradiction|].
  intros Hd [E|Hi].
  - inversion E; subst. rewrite String.eqb_refl. reflexivity.
  - inversion Hd as [|? ? Hn Hr]; subst.
    destruct (String.eqb_spec k k') as [->|N]; auto.
    exfalso. apply Hn. apply (in_map fst) in Hi. exact Hi.
Qed.

(** ** Element slots *)

Lemma set_elem_middle (pre post : list (option value)) (f : option value) (v : value) :
  set_elem (pre ++ f :: post)%list (List.length pre) v = (pre ++ Some v :: post)%list.
Proof.
  induction pre as [|e r IH]; simpl; [reflexivity|].
  rewrite IH. reflexivity.
Qed.

Lemma nth_error_middle {A : Type} (pre post : list A) (f : A) :
  nth_error (pre ++ f :: post)%list (List.length pre) = Some f.
Proof.
  induction pre; simpl; auto.
Qed.

(** ** Operations that may raise *)

Lemma returns_only_Ok {A : Type} (a : A) : returns_only (Ok a) a.
Proof. intros r [= <-]. reflexivity. Qed.

Lemma returns_only_Throw {A : Type} (e : error) (a : A) : returns_only (Throw e) a.
Proof. intros r E. discriminate E. Qed.

Lemma returns_only_bind {A B : Type} (m : completion A) (f : A -> completion B)
  (a : A) (b : B) :
  returns_only m a -> returns_only (f a) b -> returns_only (bind m f) b.
Proof.
  intros Hm Hf r E. destruct m as [a'|e]; cbn [bind] in E; [|discriminate E].
  rewrite (Hm a' eq_refl) in E. apply Hf. exact E.
Qed.

Lemma returns_bind {A B : Type} (m : completion A) (f : A -> completion B) :
  returns m -> (forall a, m = Ok a -> returns (f a)) -> returns (bind m f).
Proof. intros [a E] Hf. rewrite E. cbn [bind]. apply Hf. exact E. Qed.

Lemma returns_Ok {A : Type} (a : A) : returns (Ok a).
Proof. exists a. reflexivity. Qed.

(** ** Reads and writes at a vacant key *)

Lemma get_peek (v : value) (k : string) (w : value) : get v k = Ok w -> peek v k = w.
Proof. unfold peek. intros ->. reflexivity. Qed.

Lemma returns_only_get (v : value) (k : string) : returns_only (get v k) (peek v k).
Proof. intros w E. symmetry. apply get_peek. exact E. Qed.

Lemma inherited_proto : inherited "__proto__" = true.
Proof. reflexivity. Qed.

Lemma object_member_not_inherited (k : string) :
  inherited k = false -> object_member k = Ok VUndefined.
Proof.
  intros Hk. unfold object_member. rewrite Hk.
  destruct (String.eqb_spec k "__proto__") as [->|_]; [discriminate Hk|].
  destruct (String.eqb_spec k "constructor") as [->|_]; [discriminate Hk|].
  reflexivity.
Qed.

Lemma unset_not_inherited (k : string) : inherited k = false -> unset k = VUndefined.
Proof.
  intros Hk. unfold unset, peek. cbn [get alookup].
  rewrite (object_member_not_inherited k Hk). reflexivity.
Qed.

Lemma vacant_get data k seen upd :
  vacant data k seen upd -> returns_only (get data k) seen.
Proof.
  intros V. destruct V as [n l k E N|n es l k Hk E N|n pre f post l]; cbn [get].
  - rewrite E. unfold unset, peek. cbn [get alookup].
    destruct (object_member k); intros r Er; [injection Er as <-; reflexivity|discriminate].
  - apply named_key_ok_index in Hk. destruct Hk as [-> ->]. rewrite E.
    unfold builtin_member. destruct (inherited k) eqn:Ei.
    + rewrite orb_true_r. apply returns_only_Throw.
    + rewrite (unset_not_inherited k Ei).
      destruct (listed k array_prototype_names); cbn [orb];
        [apply returns_only_Throw|apply returns_only_Ok].
  - rewrite index_of_key_index_key, nth_error_middle. apply returns_only_Ok.
Qed.

Lemma vacant_put data k seen upd v : vacant data k seen upd -> put data k v = Ok (upd v).
Proof.
  intros V. destruct V as [n l k E N|n es l k Hk E N|n pre f post l]; simpl.
  - unfold set_named. rewrite E. apply String.eqb_neq in N. rewrite N. simpl.
    rewrite aset_absent; auto.
  - apply named_key_ok_index in Hk. destruct Hk as [-> ->].
    unfold set_named. rewrite E. apply String.eqb_neq in N. rewrite N. simpl.
    rewrite aset_absent; auto.
  - rewrite index_of_key_index_key, set_elem_middle. reflexivity.
Qed.

Lemma vacant_put_again data k seen upd v w :
  vacant data k seen upd -> put (upd v) k w = Ok (upd w).
Proof.
  intros V. destruct V as [n l k E N|n es l k Hk E N|n pre f post l]; simpl.
  - unfold set_named. rewrite alookup_app, E. simpl. rewrite String.eqb_refl. simpl.
    rewrite aset_last; auto.
  - apply named_key_ok_index in Hk. destruct Hk as [-> ->].
    unfold set_named. rewrite alookup_app, E. simpl. rewrite String.eqb_refl. simpl.
    rewrite aset_last; auto.
  - rewrite index_of_key_index_key, set_elem_middle. reflexivity.
Qed.

(** ** The fast path in closed form *)

Section ClosedFacts.
Context `{Host}.
Variable subs : registry.
Variable index : path_index.
Variable options : FirestoreRefOptionsWithDefaults.

Lemma returns_only_key (v : value) : returns_only (ToPropertyKey v) (key_of v).
Proof. intros k E. unfold key_of. rewrite E. reflexivity. Qed.

Lemma returns_only_index (k : string) :
  returns_only (index_get index k) (index_peek index k).
Proof. intros v E. unfold index_peek. rewrite E. reflexivity. Qed.

(** One turn of the loop of lines 112-117, on the slot of element [e]. *)
Lemma fill_slot_closed (e : option value) (pre post : list (option value)) (n : nat) :
  returns_only
    (let newRef := elem_value e in
     if truthy newRef then
       p <- get newRef "path" ;;
       k <- ToPropertyKey p ;;
       if has_property k index
       then v <- index_get index k ;;
            put (VArray n (pre ++ None :: post) []) (index_key (List.length pre)) v
       else Ok (VArray n (pre ++ None :: post) [])
     else Ok (VArray n (pre ++ None :: post) []))
    (VArray n (pre ++ filled_slot index e :: post) []).
Proof.
  cbv zeta. unfold filled_slot. destruct (truthy (elem_value e)); [|apply returns_only_Ok].
  eapply returns_only_bind; [apply returns_only_get|].
  eapply returns_only_bind; [apply returns_only_key|].
  destruct (has_property (key_of (peek (elem_value e) "path")) index);
    [|apply returns_only_Ok].
  eapply returns_only_bind; [apply returns_only_index|].
  cbn [put]. rewrite index_of_key_index_key, set_elem_middle. apply returns_only_Ok.
Qed.

Lemma fill_existing_closed (es pre : list (option value)) (n : nat) :
  returns_only
    (fill_existing index es (List.length pre)
       (VArray n (pre ++ repeat None (List.length es)) []))
    (VArray n (pre ++ map (filled_slot index) es) []).
Proof.
  revert pre. induction es as [|e r IH]; intros pre; cbn [fill_existing List.length repeat map].
  - apply returns_only_Ok.
  - eapply returns_only_bind; [apply (fill_slot_closed e pre (repeat None (List.length r)) n)|].
    specialize (IH (pre ++ [filled_slot index e])%list).
    rewrite length_app, Nat.add_1_r, <- !app_assoc in IH. exact IH.
Qed.

End ClosedFacts.

(** ** The walker agrees with its closed form *)

Section WalkerClosed.
Context `{Host}.
Variable subs : registry.
Variable index : path_index.
Variable options : FirestoreRefOptionsWithDefaults.

Abbreviation visit' := (visit subs index options).
Abbreviation out_field' := (out_field subs index options (walk subs index options)).
Abbreviation out_named' := (out_named subs index options (walk subs index options)).
Abbreviation out_elems' := (out_elems subs index options (walk subs index options)).


Lemma returns_only_set_ref (refs : refs_map) (k : string) (r : DocumentReference.t) :
  returns_only (set_ref refs k r) (aset k r refs).
Proof.
  unfold set_ref. destruct (String.eqb k "__proto__");
    [apply returns_only_Throw|apply returns_only_Ok].
Qed.

Lemma returns_only_read_old (oldDoc : old_source) data key seen upd :
  vacant data key seen upd ->
  returns_only (read_old oldDoc data key)
               (match oldDoc with
                | OldValue o => peek o key
                | OldIsData => seen
                end).
Proof.
  intros V. destruct oldDoc as [o|]; cbn [read_old].
  - apply returns_only_get.
  - apply (vacant_get _ _ _ _ V).
Qed.

(** The old document the loop body hands to the call on an array. *)
Lemma returns_only_old_array (oldDoc : old_source) (key : string) :
  returns_only
    (match oldDoc with
     | OldValue o => ov <- get o key ;; Ok (if truthy ov then OldValue ov else OldIsData)
     | OldIsData => Ok OldIsData
     end)
    (old_for_array oldDoc key).
Proof.
  destruct oldDoc as [o|]; cbn [old_for_array]; [|apply returns_only_Ok].
  eapply returns_only_bind; [apply returns_only_get|]. apply returns_only_Ok.
Qed.

Lemma returns_only_old_record (oldDoc : old_source) (key : string) :
  returns_only
    (match oldDoc with
     | OldValue o => ov <- get o key ;; Ok (OldValue ov)
     | OldIsData => Ok OldIsData
     end)
    (old_for_record oldDoc key).
Proof.
  destruct oldDoc as [o|]; cbn [old_for_record]; [|apply returns_only_Ok].
  eapply returns_only_bind; [apply returns_only_get|]. apply returns_only_Ok.
Qed.

Lemma visit_closed rec oldDoc path key ref seen data upd refs next :
  vacant data key seen upd ->
  agrees subs index options rec ref ->
  returns_only
    (visit' rec oldDoc path key ref (data, refs, next))
    (let '(w, (refs', next')) := out_field' oldDoc path key ref seen (refs, next) in
     (upd w, refs', next')).
Proof.
  intros V Hrec.
  destruct ref as [| |b| |z|s|ms|s ns|la lo|r|id elems named|id ps|fn];
    cbn [visit out_field];
    try (rewrite (vacant_put _ _ _ _ _ V); apply returns_only_Ok).
  - (* reference *)
    destruct (has_property (path ++ key) subs).
    + eapply returns_only_bind; [apply (returns_only_read_old oldDoc _ _ _ _ V)|].
      rewrite (vacant_put _ _ _ _ _ V). cbn [bind].
      eapply returns_only_bind; [apply returns_only_set_ref|apply returns_only_Ok].
    + cbn [bind]. rewrite (vacant_put _ _ _ _ _ V). cbn [bind].
      eapply returns_only_bind; [apply returns_only_set_ref|apply returns_only_Ok].
  - (* array *)
    rewrite (vacant_put _ _ _ _ _ V). cbn [bind].
    eapply returns_only_bind; [apply (fill_existing_closed index elems [] next)|].
    cbn [app]. rewrite (vacant_put_again _ _ _ _ _ _ V). cbn [bind].
    eapply returns_only_bind; [apply returns_only_old_array|].
    eapply returns_only_bind.
    { apply (Hrec (old_for_array oldDoc key) (path ++ key ++ ".") next
               (map (filled_slot index) elems) refs (S next)).
      cbn [fits]. apply length_map. }
    destruct (walk subs index options (VArray id elems named) (old_for_array oldDoc key)
                (path ++ key ++ ".") next (map (filled_slot index) elems) (refs, S next))
      as [w [r' n']].
    cbn [flat fst snd]. rewrite (vacant_put_again _ _ _ _ _ _ V). apply returns_only_Ok.
  - (* record *)
    rewrite (vacant_put _ _ _ _ _ V). cbn [bind].
    eapply returns_only_bind; [apply returns_only_old_record|].
    eapply returns_only_bind.
    { apply (Hrec (old_for_record oldDoc key) (path ++ key ++ ".") next [] refs (S next) I). }
    destruct (walk subs index options (VObject id ps) (old_for_record oldDoc key)
                (path ++ key ++ ".") next [] (refs, S next)) as [w [r' n']].
    cbn [flat fst snd]. rewrite (vacant_put_again _ _ _ _ _ _ V). apply returns_only_Ok.
Qed.

(** The loop body at the key [__proto__] of a record or array [data] that
    has no own property of that name: when it returns it has left [data]
    as it was. *)
Lemma visit_proto rec oldDoc path ref seen data refs next :
  (forall v, put data "__proto__" v =
             if no_prototype v then Ok data else Throw Unmodelled) ->
  (exists e, get data "__proto__" = Throw e) ->
  returns_only
    (visit' rec oldDoc path "__proto__" ref (data, refs, next))
    (let '(w, (refs', next')) := out_field' oldDoc path "__proto__" ref seen (refs, next) in
     (data, refs', next')).
Proof.
  intros Hput [e Hget].
  destruct ref as [| |b| |z|s|ms|s ns|la lo|r|id elems named|id ps|fn];
    cbn [visit out_field]; rewrite ?Hput; cbn [no_prototype bind];
    try apply returns_only_Ok; try apply returns_only_Throw.
  (* reference *)
  destruct (has_property (path ++ "__proto__") subs).
  - destruct oldDoc as [o|]; cbn [read_old].
    + destruct (get o "__proto__") as [v|e'] eqn:E; cbn [bind];
        [|apply returns_only_Throw].
      rewrite Hput. destruct (no_prototype v); cbn [bind]; [|apply returns_only_Throw].
      eapply returns_only_bind; [apply returns_only_set_ref|apply returns_only_Ok].
    + rewrite Hget. apply returns_only_Throw.
  - cbn [bind]. rewrite Hput. cbn [no_prototype bind].
    eapply returns_only_bind; [apply returns_only_set_ref|apply returns_only_Ok].
Qed.

Lemma forin_named_closed rec oldDoc path (mk : props -> value) (ps : props) :
  NoDup (keys ps) ->
  (forall l k, In k (keys ps) -> alookup k l = None -> k <> "__proto__" ->
     vacant (mk l) k (unset k) (fun w => mk (l ++ [(k, (w, plain))])%list)) ->
  (forall l v, alookup "__proto__" l = None ->
     put (mk l) "__proto__" v = if no_prototype v then Ok (mk l) else Throw Unmodelled) ->
  (forall l, alookup "__proto__" l = None -> exists e, get (mk l) "__proto__" = Throw e) ->
  Forall (fun kp => agrees subs index options rec (fst (snd kp))) ps ->
  forall l refs next,
  (forall k v a, In (k, (v, a)) ps -> enumerable a = true -> alookup k l = None) ->
  returns_only
    (forin_named subs index options rec oldDoc path ps (mk l, refs, next))
    (let '(outs, (refs', next')) := out_named' oldDoc path ps (refs, next) in
     (mk (l ++ outs)%list, refs', next')).
Proof.
  intros Hd Hmk Hput Hget Hrec. induction ps as [|[k [v a]] r IH]; intros l refs next Hl;
    cbn [forin_named out_named].
  - rewrite app_nil_r. apply returns_only_Ok.
  - inversion Hd as [|? ? Hk Hr]; subst. inversion Hrec as [|? ? Hv Hrs]; subst.
    assert (forall l k, In k (keys r) -> alookup k l = None -> k <> "__proto__" ->
              vacant (mk l) k (unset k) (fun w => mk (l ++ [(k, (w, plain))])%list)) as Hmk'.
    { intros l0 k0 Hi. apply Hmk. simpl. auto. }
    destruct (enumerable a) eqn:Ea.
    + assert (alookup k l = None) as Hkl by (apply (Hl k v a); simpl; auto).
      destruct (String.eqb_spec k "__proto__") as [->|N].
      * eapply returns_only_bind.
        { apply (visit_proto rec oldDoc path v (unset "__proto__") (mk l) refs next).
          - intros w. apply Hput. exact Hkl.
          - apply Hget. exact Hkl. }
        destruct (out_field' oldDoc path "__proto__" v (unset "__proto__") (refs, next))
          as [w [refs1 next1]].
        specialize (IH Hr Hmk' Hrs l refs1 next1).
        destruct (out_named' oldDoc path r (refs1, next1)) as [outs [refs2 next2]].
        apply IH. intros k' v' a' Hi. apply (Hl k' v' a'). simpl. auto.
      * eapply returns_only_bind.
        { apply (visit_closed rec oldDoc path k v (unset k) (mk l)
                   (fun w => mk (l ++ [(k, (w, plain))])%list) refs next).
          - apply Hmk; simpl; auto.
          - exact Hv. }
        destruct (out_field' oldDoc path k v (unset k) (refs, next)) as [w [refs1 next1]].
        specialize (IH Hr Hmk' Hrs (l ++ [(k, (w, plain))])%list refs1 next1).
        destruct (out_named' oldDoc path r (refs1, next1)) as [outs [refs2 next2]].
        rewrite <- app_assoc in IH. apply IH.
        intros k' v' a' Hi He. rewrite alookup_app, (Hl k' v' a'); simpl; auto.
        destruct (String.eqb_spec k' k) as [->|N']; auto.
        exfalso. apply Hk. apply (in_map fst) in Hi. exact Hi.
    + apply (IH Hr Hmk' Hrs). intros k' v' a' Hi. apply (Hl k' v' a'). simpl. auto.
Qed.

Lemma forin_elems_closed rec oldDoc path n l (es : list (option value)) :
  Forall (fun e => match e with
                   | Some v => agrees subs index options rec v
                   | None => True
                   end) es ->
  forall pre init refs next,
  List.length init = List.length es ->
  returns_only
    (forin_elems subs index options rec oldDoc path es (List.length pre)
       (VArray n (pre ++ init)%list l, refs, next))
    (let '(es', (refs', next')) :=
       out_elems' oldDoc path es (List.length pre) init (refs, next) in
     (VArray n (pre ++ es') l, refs', next')).
Proof.
  intros Hrec. induction es as [|e r IH]; intros pre init refs next Hlen.
  - destruct init; [|discriminate]. apply returns_only_Ok.
  - destruct init as [|f fr]; [discriminate|]. simpl in Hlen.
    inversion Hrec as [|? ? He Hr]; subst.
    assert (forall slot : option value, S (List.length pre) = List.length (pre ++ [slot])) as Len.
    { intros slot. rewrite length_app. simpl. lia. }
    destruct e as [v|]; cbn [forin_elems out_elems].
    + eapply returns_only_bind.
      { apply (visit_closed rec oldDoc path (index_key (List.length pre)) v (elem_value f)
                 (VArray n (pre ++ f :: fr) l)
                 (fun w => VArray n (pre ++ Some w :: fr) l) refs next
                 (vacant_elem n pre f fr l) He). }
      destruct (out_field' oldDoc path (index_key (List.length pre)) v (elem_value f) (refs, next))
        as [w [refs1 next1]].
      rewrite (Len (Some w)).
      specialize (IH Hr (pre ++ [Some w])%list fr refs1 next1 ltac:(lia)).
      destruct (out_elems' oldDoc path r (List.length (pre ++ [Some w])) fr (refs1, next1))
        as [es' [refs2 next2]].
      rewrite <- !app_assoc in IH. exact IH.
    + rewrite (Len f).
      specialize (IH Hr (pre ++ [f])%list fr refs next ltac:(lia)).
      destruct (out_elems' oldDoc path r (List.length (pre ++ [f])) fr (refs, next))
        as [es' [refs2 next2]].
      rewrite <- !app_assoc in IH. exact IH.
Qed.

Lemma copy_hidden_closed (mk : props -> value) (ps : props) :
  NoDup (keys ps) ->
  (forall l k d, In k (keys ps) ->
     defineProperty (mk l) k d = (ps' <- define_named l k d ;; Ok (mk ps'))) ->
  forall l,
  (forall k, In k (keys ps) -> alookup k l = None) ->
  copy_hidden ps (mk l) =
  Ok (mk (l ++ filter (fun kp => negb (enumerable (snd (snd kp)))) ps)%list).
Proof.
  intros Hd Hmk. induction ps as [|[k [v a]] r IH]; intros l Hl; cbn [copy_hidden filter snd].
  - rewrite app_nil_r. reflexivity.
  - inversion Hd as [|? ? Hk Hr]; subst.
    assert (forall l k d, In k (keys r) ->
              defineProperty (mk l) k d = (ps' <- define_named l k d ;; Ok (mk ps'))) as Hmk'.
    { intros l0 k0 d Hi. apply Hmk. simpl. auto. }
    destruct (enumerable a) eqn:Ea; cbn [negb].
    + apply (IH Hr Hmk'). intros k' Hi. apply Hl. simpl. auto.
    + rewrite Hmk by (simpl; auto).
      unfold define_named. rewrite (Hl k) by (simpl; auto). simpl.
      rewrite aset_absent by (apply Hl; simpl; auto).
      rewrite (IH Hr Hmk').
      * rewrite <- app_assoc. simpl. destruct a as [e w c]. simpl in *. reflexivity.
      * intros k' Hi. rewrite alookup_app, Hl by (simpl; auto). simpl.
        destruct (String.eqb_spec k' k) as [->|N]; auto. contradiction.
Qed.


Lemma NoDup_keys_unique {A : Type} (l : list (string * A)) (k : string) (x y : A) :
  NoDup (keys l) -> In (k, x) l -> In (k, y) l -> x = y.
Proof.
  intros Hd Hx Hy. apply (alookup_NoDup_In _ _ _ Hd) in Hx.
  apply (alookup_NoDup_In _ _ _ Hd) in Hy. congruence.
Qed.

Lemma hidden_lookup_enumerable (ps : props) (k : string) (v : value) (a : attrs) :
  NoDup (keys ps) -> In (k, (v, a)) ps -> enumerable a = true ->
  alookup k (filter (fun kp => negb (enumerable (snd (snd kp)))) ps) = None.
Proof.
  intros Hd Hi He.
  destruct (alookup k (filter (fun kp => negb (enumerable (snd (snd kp)))) ps))
    as [[w b]|] eqn:E; auto.
  apply alookup_In in E. apply filter_In in E. destruct E as [Hi' Hb]. simpl in Hb.
  pose proof (NoDup_keys_unique ps k (v, a) (w, b) Hd Hi Hi') as Eq.
  inversion Eq; subst. rewrite He in Hb. discriminate.
Qed.

Lemma well_formed_props (ps : props) :
  forallb (fun kp => well_formed (fst (snd kp))) ps = true ->
  Forall (fun kp => well_formed (fst (snd kp)) = true) ps.
Proof. intros Hf. apply Forall_forall. apply forallb_forall. exact Hf. Qed.

Lemma record_put_proto (n : nat) (l : props) (v : value) :
  alookup "__proto__" l = None ->
  put (VObject n l) "__proto__" v =
  if no_prototype v then Ok (VObject n l) else Throw Unmodelled.
Proof.
  intros E. cbn [put]. unfold set_named. rewrite E. cbn [String.eqb Ascii.eqb Bool.eqb].
  destruct (no_prototype v); reflexivity.
Qed.

Lemma array_put_proto (n : nat) (es : list (option value)) (l : props) (v : value) :
  alookup "__proto__" l = None ->
  put (VArray n es l) "__proto__" v =
  if no_prototype v then Ok (VArray n es l) else Throw Unmodelled.
Proof.
  intros E. cbn [put]. change (index_of_key "__proto__") with (@None nat). cbv iota.
  change (String.eqb "__proto__" "length") with false. cbv iota.
  unfold set_named. rewrite E. cbn [String.eqb Ascii.eqb Bool.eqb].
  destruct (no_prototype v); reflexivity.
Qed.

Lemma record_get_proto (n : nat) (l : props) :
  alookup "__proto__" l = None -> exists e, get (VObject n l) "__proto__" = Throw e.
Proof. intros E. cbn [get]. rewrite E. exists Unmodelled. reflexivity. Qed.

Lemma array_get_proto (n : nat) (es : list (option value)) (l : props) :
  alookup "__proto__" l = None -> exists e, get (VArray n es l) "__proto__" = Throw e.
Proof.
  intros E. cbn [get]. change (index_of_key "__proto__") with (@None nat). cbv iota.
  change (String.eqb "__proto__" "length") with false. cbv iota.
  rewrite E. exists Unmodelled. reflexivity.
Qed.

Lemma array_get_proto_none (n : nat) (es : list (option value)) (l : props) :
  alookup "__proto__" l = None -> get (VArray n es l) "__proto__" = Throw Unmodelled.
Proof.
  intros E. cbn [get]. change (index_of_key "__proto__") with (@None nat). cbv iota.
  change (String.eqb "__proto__" "length") with false. cbv iota.
  rewrite E. reflexivity.
Qed.

Theorem recursiveExtract_closed (doc : value) :
  well_formed doc = true ->
  agrees subs index options (recursiveExtract subs index options) doc.
Proof.
  induction doc as [| |b| |z|s|ms|s ns|la lo|r|id es ps IHes IHps|id ps IHps|fn]
    using value_ind;
    intros Hwf oldDoc path n init refs next Hfit;
    try (cbn [recursiveExtract fresh_for walk named_of copy_hidden bind];
         destruct (or_empty oldDoc next) as [old' next']; apply returns_only_Ok).
  - (* array *)
    cbn [well_formed] in Hwf. rewrite !andb_true_iff in Hwf.
    destruct Hwf as [[[Hes Hd] Hok] Hps].
    apply nodupb_NoDup in Hd. cbn [fits] in Hfit.
    cbn [recursiveExtract fresh_for walk named_of hidden_fields].
    destruct (or_empty oldDoc next) as [old' next'].
    assert (forall k, In k (keys ps) -> named_key_ok k = true) as Hok'.
    { apply forallb_forall. exact Hok. }
    rewrite (copy_hidden_closed (VArray n init) ps Hd).
    + cbn [bind app].
      eapply returns_only_bind.
      { apply (forin_elems_closed (recursiveExtract subs index options) old' path n
                 (filter (fun kp => negb (enumerable (snd (snd kp)))) ps) es)
          with (pre := @nil (option value)) (init := init); auto.
        apply Forall_forall. intros [v|] Hi; auto.
        rewrite Forall_forall in IHes. apply (IHes _ Hi).
        rewrite forallb_forall in Hes. apply (Hes _ Hi). }
      cbn [List.length app].
      destruct (out_elems' old' path es 0 init (refs, next')) as [es' [refs1 next1]].
      pose proof (forin_named_closed (recursiveExtract subs index options) old' path
                    (VArray n es') ps Hd) as Hn.
      specialize (Hn ltac:(intros l k Hi Hl N; apply vacant_named; auto)).
      specialize (Hn (array_put_proto n es') (array_get_proto n es')).
      assert (Forall (fun kp => agrees subs index options
                                  (recursiveExtract subs index options) (fst (snd kp))) ps)
        as Hall.
      { apply Forall_forall. intros [k [v a]] Hi.
        rewrite Forall_forall in IHps. apply (IHps _ Hi).
        rewrite forallb_forall in Hps. apply (Hps _ Hi). }
      specialize (Hn Hall (filter (fun kp => negb (enumerable (snd (snd kp)))) ps)
                    refs1 next1).
      specialize (Hn ltac:(intros k v a Hi He;
                           apply (hidden_lookup_enumerable ps k v a); auto)).
      destruct (out_named' old' path ps (refs1, next1)) as [outs [refs2 next2]].
      exact Hn.
    + intros l k d Hi. cbn [defineProperty].
      destruct (named_key_ok_index k (Hok' k Hi)) as [-> ->]. reflexivity.
    + intros k Hi. reflexivity.
  - (* record *)
    cbn [well_formed] in Hwf. rewrite !andb_true_iff in Hwf.
    destruct Hwf as [Hd Hps]. apply nodupb_NoDup in Hd.
    cbn [recursiveExtract fresh_for walk named_of hidden_fields].
    destruct (or_empty oldDoc next) as [old' next'].
    rewrite (copy_hidden_closed (VObject n) ps Hd).
    + cbn [bind app].
      pose proof (forin_named_closed (recursiveExtract subs index options) old' path
                    (VObject n) ps Hd) as Hn.
      specialize (Hn ltac:(intros l k Hi Hl N; apply vacant_record; auto)).
      specialize (Hn (record_put_proto n) (record_get_proto n)).
      assert (Forall (fun kp => agrees subs index options
                                  (recursiveExtract subs index options) (fst (snd kp))) ps)
        as Hall.
      { apply Forall_forall. intros [k [v a]] Hi.
        rewrite Forall_forall in IHps. apply (IHps _ Hi).
        rewrite forallb_forall in Hps. apply (Hps _ Hi). }
      specialize (Hn Hall (filter (fun kp => negb (enumerable (snd (snd kp)))) ps)
                    refs next').
      specialize (Hn ltac:(intros k v a Hi He;
                           apply (hidden_lookup_enumerable ps k v a); auto)).
      destruct (out_named' old' path ps (refs, next')) as [outs [refs2 next2]].
      exact Hn.
    + intros l k d Hi. reflexivity.
    + intros k Hi. reflexivity.
Qed.

End WalkerClosed.

(** ** The walker returns on tame documents *)

Lemma returns_exactly {A : Type} (m : completion A) (a : A) :
  returns m -> returns_only m a -> m = Ok a.
Proof. intros [r E] Ho. rewrite E. f_equal. apply Ho. exact E. Qed.

Lemma append_assoc (a b c : string) : (a ++ b) ++ c = a ++ (b ++ c).
Proof. induction a as [|x a IH]; simpl; [reflexivity|]. rewrite IH. reflexivity. Qed.

Lemma occurs_append (c : ascii) (a b : string) :
  occurs c (a ++ b) = occurs c a || occurs c b.
Proof.
  induction a as [|x a IH]; simpl; [reflexivity|]. rewrite IH. apply orb_assoc.
Qed.

Lemma dotted_key (path key : string) :
  dotted path -> key <> "__proto__" -> path ++ key <> "__proto__".
Proof.
  intros [->|[p ->]] N; [exact N|]. intros E.
  assert (occurs "." ((p ++ ".") ++ key) = true) as Ho.
  { rewrite !occurs_append. simpl. rewrite orb_true_r. reflexivity. }
  rewrite E in Ho. discriminate Ho.
Qed.

Lemma dotted_next (path key : string) : dotted (path ++ key ++ ".").
Proof. right. exists (path ++ key). apply eq_sym, append_assoc. Qed.

Lemma index_key_not_proto (i : nat) : index_key i <> "__proto__".
Proof.
  intros E. pose proof (index_of_key_index_key i) as Hi. rewrite E in Hi. discriminate Hi.
Qed.

Lemma not_inherited_not_proto (k : string) : inherited k = false -> k <> "__proto__".
Proof. intros Hk ->. discriminate Hk. Qed.

Lemma get_path_returns (e : value) : truthy e = true -> returns (get e "path").
Proof.
  intros T.
  destruct e as [| |b| |z|s|ms|s ns|la lo|r|id es ps|id ps|fn];
    try discriminate T; cbn [get];
    try (eexists; reflexivity).
  - change (index_of_key "path") with (@None nat). cbv iota.
    change (String.eqb "path" "length") with false. cbv iota.
    destruct (alookup "path" ps) as [[w a]|]; eexists; reflexivity.
  - destruct (alookup "path" ps) as [[w a]|]; eexists; reflexivity.
Qed.

Section WalkerReturns.
Context `{Host}.
Variable subs : registry.
Variable index : path_index.
Variable options : FirestoreRefOptionsWithDefaults.

Lemma index_get_returns (k : string) : k <> "__proto__" -> returns (index_get index k).
Proof.
  intros N. unfold index_get. destruct (alookup k index) as [v|]; [apply returns_Ok|].
  unfold object_member. apply String.eqb_neq in N. rewrite N.
  destruct (String.eqb k "constructor"); [apply returns_Ok|].
  destruct (inherited k); apply returns_Ok.
Qed.

Lemma fill_slot_returns (e : option value) (pre post : list (option value)) (n : nat) :
  path_converts e = true ->
  returns
    (let newRef := elem_value e in
     if truthy newRef then
       p <- get newRef "path" ;;
       k <- ToPropertyKey p ;;
       if has_property k index
       then v <- index_get index k ;;
            put (VArray n (pre ++ None :: post) []) (index_key (List.length pre)) v
       else Ok (VArray n (pre ++ None :: post) [])
     else Ok (VArray n (pre ++ None :: post) [])).
Proof.
  unfold path_converts. cbv zeta. intros Hc.
  destruct (truthy (elem_value e)) eqn:T; [|apply returns_Ok]. cbn [negb orb] in Hc.
  apply returns_bind; [apply get_path_returns; exact T|].
  intros p Ep. apply get_peek in Ep. rewrite Ep in Hc.
  destruct (ToPropertyKey p) as [k|err]; [|discriminate Hc]. cbn [bind].
  destruct (has_property k index); [|apply returns_Ok].
  apply returns_bind.
  - apply index_get_returns. intros ->. discriminate Hc.
  - intros v _. cbn [put]. rewrite index_of_key_index_key, set_elem_middle.
    apply returns_Ok.
Qed.

Lemma fill_existing_returns (es pre : list (option value)) (n : nat) :
  forallb path_converts es = true ->
  returns (fill_existing index es (List.length pre)
             (VArray n (pre ++ repeat None (List.length es)) [])).
Proof.
  revert pre. induction es as [|e r IH]; intros pre Hc;
    cbn [fill_existing List.length repeat forallb] in *.
  - apply returns_Ok.
  - apply andb_true_iff in Hc. destruct Hc as [He Hr].
    apply returns_bind.
    + apply (fill_slot_returns e pre (repeat None (List.length r)) n He).
    + intros arr E.
      apply (fill_slot_closed index e pre (repeat None (List.length r)) n) in E.
      subst arr. specialize (IH (pre ++ [filled_slot index e])%list Hr).
      rewrite length_app, Nat.add_1_r, <- !app_assoc in IH. exact IH.
Qed.

Lemma set_ref_returns (refs : refs_map) (k : string) (r : DocumentReference.t) :
  k <> "__proto__" -> returns (set_ref refs k r).
Proof.
  intros N. unfold set_ref. apply String.eqb_neq in N. rewrite N. apply returns_Ok.
Qed.

Lemma read_old_returns (oldDoc : old_source) (fresh data : value) (key : string) :
  (readable fresh key = true -> returns (get data key)) ->
  old_readable oldDoc fresh key = true ->
  returns (read_old oldDoc data key).
Proof.
  intros Hd Ho. destruct oldDoc as [o|]; cbn [read_old old_readable] in *; [|auto].
  unfold readable in Ho. destruct (get o key) as [v|e]; [apply returns_Ok|discriminate Ho].
Qed.

Lemma old_array_returns (oldDoc : old_source) (key : string) :
  old_followed oldDoc key = true ->
  returns
    (match oldDoc with
     | OldValue o => ov <- get o key ;; Ok (if truthy ov then OldValue ov else OldIsData)
     | OldIsData => Ok OldIsData
     end).
Proof.
  intros Ho. destruct oldDoc as [o|]; cbn [old_followed] in Ho; [|apply returns_Ok].
  unfold readable in Ho. destruct (get o key) as [v|e]; [apply returns_Ok|discriminate Ho].
Qed.

Lemma old_record_returns (oldDoc : old_source) (key : string) :
  old_followed oldDoc key = true ->
  returns
    (match oldDoc with
     | OldValue o => ov <- get o key ;; Ok (OldValue ov)
     | OldIsData => Ok OldIsData
     end).
Proof.
  intros Ho. destruct oldDoc as [o|]; cbn [old_followed] in Ho; [|apply returns_Ok].
  unfold readable in Ho. destruct (get o key) as [v|e]; [apply returns_Ok|discriminate Ho].
Qed.

Abbreviation follows' := (follows subs).

Lemma visit_returns rec oldDoc path fresh key ref seen data upd refs next :
  vacant data key seen upd ->
  (readable fresh key = true -> returns (get data key)) ->
  path ++ key <> "__proto__" ->
  tame ref = true ->
  follows_field subs follows' oldDoc path fresh key ref = true ->
  runs subs index options rec ref ->
  returns (visit subs index options rec oldDoc path key ref (data, refs, next)).
Proof.
  intros V Hget N Ht Hf Hrec.
  destruct ref as [| |b| |z|s|ms|s ns|la lo|r|id elems named|id ps|fn];
    cbn [visit];
    try (rewrite (vacant_put _ _ _ _ _ V); apply returns_Ok).
  - (* reference *)
    cbn [follows_field] in Hf.
    destruct (has_property (path ++ key) subs); cbn [negb orb] in Hf.
    + apply returns_bind; [apply (read_old_returns oldDoc fresh); assumption|]. intros v _.
      rewrite (vacant_put _ _ _ _ _ V). cbn [bind].
      apply returns_bind; [apply set_ref_returns; exact N|]. intros; apply returns_Ok.
    + cbn [bind]. rewrite (vacant_put _ _ _ _ _ V). cbn [bind].
      apply returns_bind; [apply set_ref_returns; exact N|]. intros; apply returns_Ok.
  - (* array *)
    cbn [follows_field] in Hf. apply andb_true_iff in Hf. destruct Hf as [Ho Hf].
    assert (forallb path_converts elems = true) as Hc.
    { cbn [tame] in Ht. rewrite !andb_true_iff in Ht. apply Ht. }
    rewrite (vacant_put _ _ _ _ _ V). cbn [bind].
    pose proof (returns_exactly _ _ (fill_existing_returns elems [] next Hc)
                  (fill_existing_closed index elems [] next)) as Ef.
    cbn [List.length Datatypes.app] in Ef. rewrite Ef.
    cbn [bind app]. rewrite (vacant_put_again _ _ _ _ _ _ V). cbn [bind].
    rewrite (returns_exactly _ _ (old_array_returns oldDoc key Ho)
               (returns_only_old_array oldDoc key)).
    cbn [bind].
    apply returns_bind.
    + apply (Hrec (old_for_array oldDoc key) (path ++ key ++ ".") next
               (map (filled_slot index) elems) refs (S next)); auto.
      * cbn [fits]. apply length_map.
      * apply dotted_next.
    + intros [[arr r'] n'] _. rewrite (vacant_put_again _ _ _ _ _ _ V). apply returns_Ok.
  - (* record *)
    cbn [follows_field] in Hf. apply andb_true_iff in Hf. destruct Hf as [Ho Hf].
    rewrite (vacant_put _ _ _ _ _ V). cbn [bind].
    rewrite (returns_exactly _ _ (old_record_returns oldDoc key Ho)
               (returns_only_old_record oldDoc key)).
    cbn [bind].
    apply returns_bind.
    + apply (Hrec (old_for_record oldDoc key) (path ++ key ++ ".") next [] refs (S next));
        auto.
      * exact I.
      * apply dotted_next.
    + intros [[obj r'] n'] _. rewrite (vacant_put_again _ _ _ _ _ _ V). apply returns_Ok.
Qed.

Lemma follows_field_empty f (n m : nat) path fresh key ref :
  follows_field subs f (OldValue (VObject n [])) path fresh key ref =
  follows_field subs f (OldValue (VObject m [])) path fresh key ref.
Proof. destruct ref; reflexivity. Qed.

Lemma follows_named_empty f (n m : nat) path fresh ps :
  follows_named subs f (OldValue (VObject n [])) path fresh ps =
  follows_named subs f (OldValue (VObject m [])) path fresh ps.
Proof.
  induction ps as [|[k [v a]] r IH]; cbn [follows_named]; [reflexivity|].
  rewrite IH, (follows_field_empty f n m). reflexivity.
Qed.

Lemma follows_elems_empty f (n m : nat) path es i :
  follows_elems subs f (OldValue (VObject n [])) path es i =
  follows_elems subs f (OldValue (VObject m [])) path es i.
Proof.
  revert i. induction es as [|[v|] r IH]; intros i; cbn [follows_elems]; [reflexivity| |].
  - rewrite IH, (follows_field_empty f n m). reflexivity.
  - apply IH.
Qed.

Lemma follows_named_or_empty f oldDoc (n m : nat) path fresh ps :
  follows_named subs f (fst (or_empty oldDoc n)) path fresh ps =
  follows_named subs f (fst (or_empty oldDoc m)) path fresh ps.
Proof.
  destruct oldDoc as [o|]; cbn [or_empty]; [|reflexivity].
  destruct (truthy o); cbn [fst]; [reflexivity|apply follows_named_empty].
Qed.

Lemma follows_elems_or_empty f oldDoc (n m : nat) path es i :
  follows_elems subs f (fst (or_empty oldDoc n)) path es i =
  follows_elems subs f (fst (or_empty oldDoc m)) path es i.
Proof.
  destruct oldDoc as [o|]; cbn [or_empty]; [|reflexivity].
  destruct (truthy o); cbn [fst]; [reflexivity|apply follows_elems_empty].
Qed.

Lemma forin_named_returns rec oldDoc path (mk : props -> value) (fresh : value)
  (ps : props) :
  NoDup (keys ps) ->
  (forall l k, In k (keys ps) -> alookup k l = None -> k <> "__proto__" ->
     vacant (mk l) k (unset k) (fun w => mk (l ++ [(k, (w, plain))])%list)) ->
  (forall l k, alookup k l = None -> readable fresh k = true -> returns (get (mk l) k)) ->
  Forall (fun kp => agrees subs index options rec (fst (snd kp))) ps ->
  Forall (fun kp => runs subs index options rec (fst (snd kp))) ps ->
  Forall (fun kp => enumerable (snd (snd kp)) = true ->
                    fst kp <> "__proto__" /\ tame (fst (snd kp)) = true) ps ->
  follows_named subs follows' oldDoc path fresh ps = true ->
  dotted path ->
  forall l refs next,
  (forall k v a, In (k, (v, a)) ps -> enumerable a = true -> alookup k l = None) ->
  returns (forin_named subs index options rec oldDoc path ps (mk l, refs, next)).
Proof.
  intros Hd Hmk Hget Hag Hrun Htame Hf Hp.
  induction ps as [|[k [v a]] r IH]; intros l refs next Hl; cbn [forin_named].
  - apply returns_Ok.
  - inversion Hd as [|? ? Hk Hr]; subst. inversion Hag as [|? ? Hv Hags]; subst.
    inversion Hrun as [|? ? Hrv Hruns]; subst. inversion Htame as [|? ? Htv Htames]; subst.
    cbn [follows_named] in Hf. apply andb_true_iff in Hf. destruct Hf as [Hfv Hfr].
    cbn [fst snd] in *.
    assert (forall l k, In k (keys r) -> alookup k l = None -> k <> "__proto__" ->
              vacant (mk l) k (unset k) (fun w => mk (l ++ [(k, (w, plain))])%list)) as Hmk'.
    { intros l0 k0 Hi. apply Hmk. simpl. auto. }
    destruct (enumerable a) eqn:Ea.
    + cbn [negb orb] in Hfv. destruct (Htv eq_refl) as [N Htv'].
      assert (alookup k l = None) as Hkl by (apply (Hl k v a); simpl; auto).
      assert (vacant (mk l) k (unset k) (fun w => mk (l ++ [(k, (w, plain))])%list)) as V.
      { apply Hmk; simpl; auto. }
      apply returns_bind.
      * apply (visit_returns rec oldDoc path fresh k v _ _ _ refs next V); auto.
        apply dotted_key; assumption.
      * intros st' E.
        apply (visit_closed subs index options rec oldDoc path k v _ _ _ refs next V Hv) in E.
        destruct (out_field subs index options (walk subs index options) oldDoc path k v
                    (unset k) (refs, next)) as [w [refs1 next1]].
        subst st'. apply (IH Hr Hmk' Hags Hruns Htames Hfr).
        intros k' v' a' Hi He. rewrite alookup_app, (Hl k' v' a'); simpl; auto.
        destruct (String.eqb_spec k' k) as [->|N']; auto.
        exfalso. apply Hk. apply (in_map fst) in Hi. exact Hi.
    + apply (IH Hr Hmk' Hags Hruns Htames Hfr).
      intros k' v' a' Hi. apply (Hl k' v' a'). simpl. auto.
Qed.

Lemma forin_elems_returns rec oldDoc path n l (es : list (option value)) :
  Forall (fun e => match e with
                   | Some v => agrees subs index options rec v /\
                               runs subs index options rec v /\ tame v = true
                   | None => True
                   end) es ->
  dotted path ->
  forall pre init refs next,
  List.length init = List.length es ->
  follows_elems subs follows' oldDoc path es (List.length pre) = true ->
  returns (forin_elems subs index options rec oldDoc path es (List.length pre)
             (VArray n (pre ++ init)%list l, refs, next)).
Proof.
  intros Hrec Hp. induction es as [|e r IH]; intros pre init refs next Hlen Hf.
  - apply returns_Ok.
  - destruct init as [|f fr]; [discriminate|]. simpl in Hlen.
    inversion Hrec as [|? ? He Hr]; subst.
    assert (forall slot : option value, S (List.length pre) = List.length (pre ++ [slot])) as Len.
    { intros slot. rewrite length_app. simpl. lia. }
    destruct e as [v|]; cbn [forin_elems follows_elems] in *.
    + destruct He as [Hag [Hrun Ht]]. apply andb_true_iff in Hf. destruct Hf as [Hfv Hfr].
      pose proof (vacant_elem n pre f fr l) as V.
      apply returns_bind.
      * apply (visit_returns rec oldDoc path (VArray 0 [] []) _ v _ _ _ refs next V); auto.
        -- intros _. cbn [get]. rewrite index_of_key_index_key. apply returns_Ok.
        -- apply dotted_key; [exact Hp|apply index_key_not_proto].
      * intros st' E.
        apply (visit_closed subs index options rec oldDoc path _ v _ _ _ refs next V Hag) in E.
        destruct (out_field subs index options (walk subs index options) oldDoc path
                    (index_key (List.length pre)) v (elem_value f) (refs, next))
          as [w [refs1 next1]].
        subst st'. rewrite (Len (Some w)) in *.
        specialize (IH Hr (pre ++ [Some w])%list fr refs1 next1 ltac:(lia) Hfr).
        rewrite <- !app_assoc in IH. exact IH.
    + rewrite (Len f) in *.
      specialize (IH Hr (pre ++ [f])%list fr refs next ltac:(lia) Hf).
      rewrite <- !app_assoc in IH. exact IH.
Qed.

Lemma record_get_returns (n : nat) (l : props) (k : string) :
  alookup k l = None -> readable (VObject 0 []) k = true -> returns (get (VObject n l) k).
Proof.
  intros E. unfold readable. cbn [get alookup]. rewrite E.
  destruct (object_member k); [intros _; apply returns_Ok|discriminate].
Qed.

Lemma array_get_returns (n : nat) (es : list (option value)) (l : props) (k : string) :
  named_key_ok k = true -> alookup k l = None -> readable (VArray 0 [] []) k = true ->
  returns (get (VArray n es l) k).
Proof.
  intros Hk E. unfold readable. cbn [get alookup].
  apply named_key_ok_index in Hk. destruct Hk as [-> ->]. rewrite E.
  destruct (builtin_member array_prototype_names k); [intros _; apply returns_Ok|discriminate].
Qed.

Theorem recursiveExtract_returns (doc : value) :
  well_formed doc = true ->
  runs subs index options (recursiveExtract subs index options) doc.
Proof.
  induction doc as [| |b| |z|s|ms|s ns|la lo|r|id es ps IHes IHps|id ps IHps|fn]
    using value_ind;
    intros Hwf oldDoc path n init refs next Hfit Ht Hf Hp;
    try (cbn [recursiveExtract fresh_for named_of copy_hidden bind];
         destruct (or_empty oldDoc next) as [old' next']; apply returns_Ok).
  - (* array *)
    cbn [well_formed] in Hwf. rewrite !andb_true_iff in Hwf.
    destruct Hwf as [[[Hes Hd] Hok] Hps].
    apply nodupb_NoDup in Hd. cbn [fits] in Hfit.
    cbn [tame] in Ht. rewrite !andb_true_iff in Ht. destruct Ht as [[Hc Hte] Htp].
    cbn [follows] in Hf. apply andb_true_iff in Hf. destruct Hf as [Hfe Hfp].
    rewrite (follows_elems_or_empty _ oldDoc 0 next) in Hfe.
    rewrite (follows_named_or_empty _ oldDoc 0 next) in Hfp.
    cbn [recursiveExtract fresh_for named_of].
    destruct (or_empty oldDoc next) as [old' next']. cbn [fst] in Hfe, Hfp.
    assert (forall k, In k (keys ps) -> named_key_ok k = true) as Hok'.
    { apply forallb_forall. exact Hok. }
    assert (Forall (fun e => match e with
                             | Some v => agrees subs index options
                                           (recursiveExtract subs index options) v /\
                                         runs subs index options
                                           (recursiveExtract subs index options) v /\
                                         tame v = true
                             | None => True
                             end) es) as Hall.
    { apply Forall_forall. intros [v|] Hi; auto.
      rewrite forallb_forall in Hes, Hte. rewrite Forall_forall in IHes.
      repeat split.
      - apply recursiveExtract_closed. apply (Hes _ Hi).
      - apply (IHes _ Hi). apply (Hes _ Hi).
      - apply (Hte _ Hi). }
    rewrite (copy_hidden_closed (VArray n init) ps Hd).
    + cbn [bind Datatypes.app].
      apply returns_bind.
      * apply (forin_elems_returns (recursiveExtract subs index options) old' path n
                 (filter (fun kp => negb (enumerable (snd (snd kp)))) ps) es Hall Hp
                 [] init refs next' Hfit Hfe).
      * intros st' E.
        pose proof (forin_elems_closed subs index options
                      (recursiveExtract subs index options) old' path n
                      (filter (fun kp => negb (enumerable (snd (snd kp)))) ps) es) as Hcl.
        specialize (Hcl ltac:(apply Forall_forall; intros [v|] Hi; auto;
                              rewrite Forall_forall in Hall; apply (Hall _ Hi))).
        specialize (Hcl [] init refs next' Hfit st' E).
        cbn [List.length Datatypes.app] in Hcl.
        destruct (out_elems subs index options (walk subs index options) old' path es 0 init
                    (refs, next')) as [es' [refs1 next1]].
        subst st'.
        apply (forin_named_returns (recursiveExtract subs index options) old' path
                 (VArray n es') (VArray 0 [] []) ps Hd).
        -- intros l k Hi Hl N. apply vacant_named; auto.
        -- intros l k Hl Hx.
           destruct (index_of_key k) eqn:Ek.
           ++ cbn [get]. rewrite Ek. apply returns_Ok.
           ++ destruct (String.eqb k "length") eqn:El.
              ** cbn [get]. rewrite Ek, El. apply returns_Ok.
              ** apply array_get_returns; auto. unfold named_key_ok. rewrite Ek, El.
                 reflexivity.
        -- apply Forall_forall. intros [k [v a]] Hi. apply recursiveExtract_closed.
           rewrite forallb_forall in Hps. apply (Hps _ Hi).
        -- apply Forall_forall. intros [k [v a]] Hi.
           rewrite Forall_forall in IHps. apply (IHps _ Hi).
           rewrite forallb_forall in Hps. apply (Hps _ Hi).
        -- apply Forall_forall. intros [k [v a]] Hi Ea. cbn [fst snd] in *.
           rewrite forallb_forall in Htp. specialize (Htp _ Hi). cbn [fst snd] in Htp.
           rewrite Ea in Htp. cbn [negb orb] in Htp. rewrite !andb_true_iff in Htp.
           destruct Htp as [Ha Hb]. apply negb_true_iff, String.eqb_neq in Ha. auto.
        -- exact Hfp.
        -- exact Hp.
        -- intros k v a Hi He. apply (hidden_lookup_enumerable ps k v a); auto.
    + intros l k d Hi. cbn [defineProperty].
      destruct (named_key_ok_index k (Hok' k Hi)) as [-> ->]. reflexivity.
    + intros k Hi. reflexivity.
  - (* record *)
    cbn [well_formed] in Hwf. rewrite !andb_true_iff in Hwf.
    destruct Hwf as [Hd Hps]. apply nodupb_NoDup in Hd.
    cbn [tame] in Ht. cbn [follows] in Hf.
    rewrite (follows_named_or_empty _ oldDoc 0 next) in Hf.
    cbn [recursiveExtract fresh_for named_of].
    destruct (or_empty oldDoc next) as [old' next']. cbn [fst] in Hf.
    rewrite (copy_hidden_closed (VObject n) ps Hd).
    + cbn [bind Datatypes.app].
      apply (forin_named_returns (recursiveExtract subs index options) old' path
               (VObject n) (VObject 0 []) ps Hd).
      * intros l k Hi Hl N. apply vacant_record; auto.
      * intros l k Hl Hi. apply record_get_returns; auto.
      * apply Forall_forall. intros [k [v a]] Hi. apply recursiveExtract_closed.
        rewrite forallb_forall in Hps. apply (Hps _ Hi).
      * apply Forall_forall. intros [k [v a]] Hi.
        rewrite Forall_forall in IHps. apply (IHps _ Hi).
        rewrite forallb_forall in Hps. apply (Hps _ Hi).
      * apply Forall_forall. intros [k [v a]] Hi Ea. cbn [fst snd] in *.
        rewrite forallb_forall in Ht. specialize (Ht _ Hi). cbn [fst snd] in Ht.
        rewrite Ea in Ht. cbn [negb orb] in Ht. rewrite !andb_true_iff in Ht.
        destruct Ht as [Ha Hb]. apply negb_true_iff, String.eqb_neq in Ha. auto.
      * exact Hf.
      * exact Hp.
      * intros k v a Hi He. apply (hidden_lookup_enumerable ps k v a); auto.
    + intros l k d Hi. reflexivity.
    + intros k Hi. reflexivity.
Qed.

(** On a tame document whose old document can be read the call returns
    what the closed form computes. *)
Corollary recursiveExtract_result (doc : value) oldDoc path n init refs next :
  well_formed doc = true ->
  fits doc init ->
  tame doc = true ->
  follows subs doc oldDoc path = true ->
  dotted path ->
  recursiveExtract subs index options doc oldDoc path (fresh_for doc n init, refs, next) =
  Ok (flat (walk subs index options doc oldDoc path n init (refs, next))).
Proof.
  intros Hwf Hfit Ht Hf Hp. apply returns_exactly.
  - apply recursiveExtract_returns; assumption.
  - apply recursiveExtract_closed; assumption.
Qed.

End WalkerReturns.

(** ** What the loop leaves at each field *)

Section FieldFacts.
Context `{Host}.
Variable subs : registry.
Variable index : path_index.
Variable options : FirestoreRefOptionsWithDefaults.
Variable W :
  value -> old_source -> string -> nat -> list (option value) -> refs_map * nat ->
  value * (refs_map * nat).
Variable oldDoc : old_source.
Variable path : string.

Abbreviation out_field' := (out_field subs index options W oldDoc path).

Lemma out_named_fields (ps : props) :
  forall st,
  Forall2 (fun (kv : string * value) (o : string * (value * attrs)) =>
             fst o = fst kv /\ snd (snd o) = plain
             /\ exists st0, fst (snd o) = fst (out_field' (fst kv) (snd kv) (unset (fst kv)) st0))
          (created_named ps)
          (fst (out_named subs index options W oldDoc path ps st)).
Proof.
  unfold created_named, enumerable_named.
  induction ps as [|[k [v a]] r IH]; intros st; cbn [out_named filter map snd fst].
  - constructor.
  - destruct (enumerable a) eqn:Ea; cbn [map fst snd filter].
    + destruct (out_field' k v (unset k) st) as [w st1] eqn:Ew.
      specialize (IH st1).
      destruct (out_named subs index options W oldDoc path r st1) as [outs st2].
      cbn [fst] in *. destruct (String.eqb k "__proto__"); cbn [negb]; auto.
      constructor; auto.
      cbn [fst snd]. split; auto. split; auto. exists st. rewrite Ew. reflexivity.
    + apply IH.
Qed.

Lemma out_elems_slots (es : list (option value)) :
  forall i init st,
  List.length init = List.length es ->
  let es' := fst (out_elems subs index options W oldDoc path es i init st) in
  List.length es' = List.length es
  /\ forall j,
       (nth_error es j = Some None -> nth_error es' j = nth_error init j)
       /\ (forall v, nth_error es j = Some (Some v) ->
             exists st0 f,
               nth_error init j = Some f
               /\ nth_error es' j =
                    Some (Some (fst (out_field' (index_key (i + j)) v (elem_value f) st0)))).
Proof.
  induction es as [|e r IH]; intros i init st Hlen; destruct init as [|f fr];
    try discriminate Hlen.
  - cbn. split; auto. intros j. destruct j; split; try discriminate; intros; discriminate.
  - simpl in Hlen. injection Hlen as Hlen. cbn [out_elems].
    destruct e as [v|].
    + destruct (out_field' (index_key i) v (elem_value f) st) as [w st1] eqn:Ew.
      specialize (IH (S i) fr st1 Hlen).
      destruct (out_elems subs index options W oldDoc path r (S i) fr st1) as [es' st2].
      cbn [fst] in *. destruct IH as [IHlen IHj]. split; [simpl; congruence|].
      intros [|j]; cbn [nth_error].
      * split; [discriminate|]. intros v' [= <-]. exists st, f.
        rewrite Nat.add_0_r, Ew. auto.
      * replace (i + S j) with (S i + j) by lia. apply IHj.
    + specialize (IH (S i) fr st Hlen).
      destruct (out_elems subs index options W oldDoc path r (S i) fr st) as [es' st2].
      cbn [fst] in *. destruct IH as [IHlen IHj]. split; [simpl; congruence|].
      intros [|j]; cbn [nth_error].
      * split; [reflexivity|discriminate].
      * replace (i + S j) with (S i + j) by lia. apply IHj.
Qed.

End FieldFacts.

Lemma elem_fields_In (es : list (option value)) (i : nat) (k : string) (v : value) :
  In (k, v) (elem_fields es i) <->
  exists j, k = index_key (i + j) /\ nth_error es j = Some (Some v).
Proof.
  revert i. induction es as [|[w|] r IH]; intros i; cbn [elem_fields].
  - split; [contradiction|]. intros [[|j] [_ Hj]]; discriminate.
  - cbn [In]. rewrite IH. split.
    + intros [E|[j [Hk Hj]]].
      * inversion E; subst. exists 0. rewrite Nat.add_0_r. auto.
      * exists (S j). replace (i + S j) with (S i + j) by lia. auto.
    + intros [[|j] [Hk Hj]]; cbn [nth_error] in Hj.
      * inversion Hj; subst. rewrite Nat.add_0_r. auto.
      * right. exists j. replace (S i + j) with (i + S j) by lia. auto.
  - rewrite IH. split.
    + intros [j [Hk Hj]]. exists (S j). replace (i + S j) with (S i + j) by lia. auto.
    + intros [[|j] [Hk Hj]]; cbn [nth_error] in Hj; [discriminate|].
      exists j. replace (S i + j) with (i + S j) by lia. auto.
Qed.

Lemma enumerable_named_In (ps : props) (k : string) (v : value) :
  In (k, v) (enumerable_named ps) <->
  exists a, In (k, (v, a)) ps /\ enumerable a = true.
Proof.
  unfold enumerable_named. rewrite in_map_iff. split.
  - intros [[k' [v' a]] [E Hi]]. cbn in E. inversion E; subst.
    apply filter_In in Hi. destruct Hi as [Hi He]. exists a. auto.
  - intros [a [Hi He]]. exists (k, (v, a)). split; auto.
    apply filter_In. auto.
Qed.

Lemma enumerable_named_keys_NoDup (ps : props) :
  NoDup (keys ps) -> NoDup (keys (enumerable_named ps)).
Proof.
  unfold enumerable_named, keys. rewrite map_map. cbn [fst].
  induction ps as [|[k [v a]] r IH]; cbn [filter map snd fst]; intros Hd.
  - constructor.
  - inversion Hd as [|? ? Hk Hr]; subst.
    destruct (enumerable a); cbn [map fst]; auto.
    constructor; auto. intros Hi. apply Hk.
    apply in_map_iff in Hi. destruct Hi as [x [<- Hx]].
    apply filter_In in Hx. apply in_map. tauto.
Qed.

Lemma created_named_In (ps : props) (k : string) (v : value) :
  In (k, v) (created_named ps) <->
  In (k, v) (enumerable_named ps) /\ k <> "__proto__".
Proof.
  unfold created_named. rewrite filter_In. cbn [fst].
  rewrite negb_true_iff, String.eqb_neq. reflexivity.
Qed.

Lemma created_named_keys_NoDup (ps : props) :
  NoDup (keys ps) -> NoDup (keys (created_named ps)).
Proof.
  intros Hd. apply enumerable_named_keys_NoDup in Hd. unfold created_named, keys in *.
  induction (enumerable_named ps) as [|[k v] r IH]; cbn [filter map fst] in *; auto.
  inversion Hd as [|? ? Hk Hr]; subst.
  destruct (negb (String.eqb k "__proto__")); cbn [map fst]; auto.
  constructor; auto. intros Hi. apply Hk.
  apply in_map_iff in Hi. destruct Hi as [x [<- Hx]].
  apply filter_In in Hx. apply in_map. tauto.
Qed.

Lemma Forall2_lookup {B : Type} (R : string * value -> string * B -> Prop)
  (l : list (string * value)) (outs : list (string * B)) (k : string) (v : value) :
  Forall2 (fun kv o => fst o = fst kv /\ R kv o) l outs ->
  NoDup (keys l) -> In (k, v) l ->
  exists b, alookup k outs = Some b /\ R (k, v) (k, b).
Proof.
  intros HF. induction HF as [|[k1 v1] [k2 b2] l' outs' [Hk HR] HF IH]; intros Hd Hi.
  - contradiction.
  - cbn in Hk. subst k2. inversion Hd as [|? ? Hn Hr]; subst.
    cbn [alookup]. destruct Hi as [E|Hi].
    + inversion E; subst. rewrite String.eqb_refl. exists b2. auto.
    + destruct (String.eqb_spec k k1) as [->|N].
      * exfalso. apply Hn. apply (in_map fst) in Hi. exact Hi.
      * apply IH; auto.
Qed.

Section WalkFields.
Context `{Host}.
Variable subs : registry.
Variable index : path_index.
Variable options : FirestoreRefOptionsWithDefaults.

Abbreviation walk' := (walk subs index options).

Lemma walk_named_value (ps : props) (hid : props) (oldDoc : old_source) (path : string)
  (st : refs_map * nat) (k : string) (v : value) :
  NoDup (keys ps) ->
  In (k, v) (enumerable_named ps) ->
  k <> "__proto__" ->
  alookup k hid = None ->
  exists st0,
    alookup k (hid ++ fst (out_named subs index options walk' oldDoc path ps st))%list =
    Some (fst (out_field subs index options walk' oldDoc path k v (unset k) st0), plain).
Proof.
  intros Hd Hi N Hh.
  pose proof (out_named_fields subs index options walk' oldDoc path ps st) as HF.
  destruct (Forall2_lookup
              (fun kv o => snd (snd o) = plain
                 /\ exists st0, fst (snd o) =
                      fst (out_field subs index options walk' oldDoc path
                             (fst kv) (snd kv) (unset (fst kv)) st0))
              _ _ k v HF (created_named_keys_NoDup ps Hd)
              (proj2 (created_named_In ps k v) (conj Hi N)))
    as [[w a] [El [Ea [st0 Ew]]]].
  cbn [fst snd] in *. subst a. exists st0. rewrite alookup_app, Hh, El, Ew. reflexivity.
Qed.

Lemma walk_field (doc : value) (oldDoc : old_source) (path : string) (n : nat)
  (init : list (option value)) (refs : refs_map) (next : nat) (k : string) (v : value) :
  well_formed doc = true ->
  fits doc init ->
  In (k, v) (enumerable_fields doc) ->
  k <> "__proto__" ->
  exists st0,
    get (fst (walk' doc oldDoc path n init (refs, next))) k =
    Ok (fst (out_field subs index options walk' (fst (or_empty oldDoc next)) path k v
               (seen_at (fresh_for doc n init) k) st0)).
Proof.
  intros Hwf Hfit Hi N.
  destruct doc as [| |b| |z|s|ms|s ns|la lo|r|id es ps|id ps|fn]; try contradiction.
  - (* array *)
    cbn [well_formed] in Hwf. rewrite !andb_true_iff in Hwf.
    destruct Hwf as [[[Hes Hd] Hok] Hps]. apply nodupb_NoDup in Hd.
    cbn [fits] in Hfit. cbn [walk fresh_for enumerable_fields] in *.
    destruct (or_empty oldDoc next) as [old' next']. cbn [fst].
    pose proof (out_elems_slots subs index options walk' old' path es 0 init (refs, next') Hfit)
      as [Hlen Hslots].
    destruct (out_elems subs index options walk' old' path es 0 init (refs, next'))
      as [es' st1]. cbn [fst] in *.
    apply in_app_or in Hi. destruct Hi as [Hi|Hi].
    + apply elem_fields_In in Hi. destruct Hi as [j [-> Hj]]. cbn [Nat.add] in *.
      destruct (proj2 (Hslots j) v Hj) as [st0 [f [Hf Hw]]].
      exists st0.
      destruct (out_named subs index options walk' old' path ps st1) as [outs st2].
      cbn [fst get]. rewrite index_of_key_index_key, Hw. cbn [elem_value].
      unfold seen_at. rewrite index_of_key_index_key, Hf. reflexivity.
    + assert (named_key_ok k = true) as Hk.
      { rewrite forallb_forall in Hok. apply Hok.
        apply (in_map fst) in Hi. unfold enumerable_named in Hi.
        unfold keys. rewrite map_map in Hi. cbn [fst] in Hi.
        apply in_map_iff in Hi. destruct Hi as [x [<- Hx]].
        apply filter_In in Hx. apply in_map. tauto. }
      destruct (named_key_ok_index k Hk) as [Ei El].
      destruct (walk_named_value ps (hidden_fields (VArray id es ps)) old' path st1 k v Hd Hi N)
        as [st0 Ew].
      { apply enumerable_named_In in Hi. destruct Hi as [a [Hi He]].
        apply (hidden_lookup_enumerable ps k v a); auto. }
      exists st0.
      destruct (out_named subs index options walk' old' path ps st1) as [outs st2].
      cbn [fst get] in *. rewrite Ei, El, Ew. unfold seen_at. rewrite Ei. reflexivity.
  - (* record *)
    cbn [well_formed] in Hwf. rewrite !andb_true_iff in Hwf.
    destruct Hwf as [Hd Hps]. apply nodupb_NoDup in Hd.
    cbn [walk fresh_for enumerable_fields] in *.
    destruct (or_empty oldDoc next) as [old' next']. cbn [fst].
    destruct (walk_named_value ps (hidden_fields (VObject id ps)) old' path (refs, next') k v
                Hd Hi N)
      as [st0 Ew].
    { apply enumerable_named_In in Hi. destruct Hi as [a [Hi He]].
      apply (hidden_lookup_enumerable ps k v a); auto. }
    exists st0.
    destruct (out_named subs index options walk' old' path ps (refs, next')) as [outs st2].
    cbn [fst get] in *. rewrite Ew. reflexivity.
Qed.

End WalkFields.

(** ** Strings *)






(** ** The state a call threads through the fields *)

Section StateFacts.
Context `{Host}.
Variable subs : registry.
Variable index : path_index.
Variable options : FirestoreRefOptionsWithDefaults.

Section Threaded.
Variable W :
  value -> old_source -> string -> nat -> list (option value) -> refs_map * nat ->
  value * (refs_map * nat).
Variable oldDoc : old_source.
Variable path : string.

Abbreviation step :=
  (fun (st : refs_map * nat) (kv : string * value) =>
     snd (out_field subs index options W oldDoc path (fst kv) (snd kv) VUndefined st)).

Lemma out_field_state_seen (k : string) (v seen : value) (st : refs_map * nat) :
  snd (out_field subs index options W oldDoc path k v seen st) = step st (k, v).
Proof. destruct st as [refs next]. destruct v; reflexivity. Qed.

Lemma out_named_state (ps : props) (st : refs_map * nat) :
  snd (out_named subs index options W oldDoc path ps st) =
  fold_left step (enumerable_named ps) st.
Proof.
  unfold enumerable_named. revert st.
  induction ps as [|[k [v a]] r IH]; intros st; cbn [out_named filter map snd fst fold_left].
  - reflexivity.
  - destruct (enumerable a); cbn [map fold_left fst snd]; [|apply IH].
    pose proof (out_field_state_seen k v (unset k) st) as Es.
    cbn beta iota delta [fst snd] in Es. rewrite <- Es.
    destruct (out_field subs index options W oldDoc path k v (unset k) st) as [w st1].
    cbn [snd]. specialize (IH st1).
    destruct (out_named subs index options W oldDoc path r st1) as [outs st2].
    cbn [snd] in *. exact IH.
Qed.

Lemma out_elems_state (es : list (option value)) :
  forall i init st,
  List.length init = List.length es ->
  snd (out_elems subs index options W oldDoc path es i init st) =
  fold_left step (elem_fields es i) st.
Proof.
  induction es as [|e r IH]; intros i init st Hlen; destruct init as [|f fr];
    try discriminate Hlen; [reflexivity|].
  simpl in Hlen. injection Hlen as Hlen. cbn [out_elems elem_fields].
  destruct e as [v|]; cbn [fold_left].
  - pose proof (out_field_state_seen (index_key i) v (elem_value f) st) as Es.
    cbn beta iota delta [fst snd] in Es. cbn beta iota delta [fst snd]. rewrite <- Es.
    destruct (out_field subs index options W oldDoc path (index_key i) v (elem_value f) st)
      as [w st1]. cbn [snd].
    specialize (IH (S i) fr st1 Hlen).
    destruct (out_elems subs index options W oldDoc path r (S i) fr st1) as [es' st2].
    cbn [snd] in *. exact IH.
  - specialize (IH (S i) fr st Hlen).
    destruct (out_elems subs index options W oldDoc path r (S i) fr st) as [es' st2].
    cbn [snd] in *. exact IH.
Qed.

End Threaded.

Abbreviation walk' := (walk subs index options).

Lemma walk_threads_state (doc : value) (oldDoc : old_source) (path : string) (n : nat)
  (init : list (option value)) (refs : refs_map) (next : nat) :
  fits doc init ->
  snd (walk' doc oldDoc path n init (refs, next)) =
  fold_left (fun st kv =>
               snd (out_field subs index options walk' (fst (or_empty oldDoc next)) path
                      (fst kv) (snd kv) VUndefined st))
            (enumerable_fields doc) (refs, snd (or_empty oldDoc next)).
Proof.
  intros Hfit.
  destruct doc as [| |b| |z|s|ms|s ns|la lo|r|id es ps|id ps|fn];
    cbn [walk enumerable_fields fold_left];
    try (destruct (or_empty oldDoc next) as [old' next']; reflexivity).
  - cbn [fits] in Hfit. destruct (or_empty oldDoc next) as [old' next']. cbn [fst snd].
    rewrite fold_left_app.
    pose proof (out_elems_state walk' old' path es 0 init (refs, next') Hfit) as Ee.
    destruct (out_elems subs index options walk' old' path es 0 init (refs, next'))
      as [es' st1]. cbn [snd] in Ee. rewrite <- Ee.
    pose proof (out_named_state walk' old' path ps st1) as En.
    destruct (out_named subs index options walk' old' path ps st1) as [outs st2].
    cbn [snd] in *. exact En.
  - destruct (or_empty oldDoc next) as [old' next']. cbn [fst snd].
    pose proof (out_named_state walk' old' path ps (refs, next')) as En.
    destruct (out_named subs index options walk' old' path ps (refs, next')) as [outs st2].
    cbn [snd] in *. exact En.
Qed.

End StateFacts.

(** ** Which keys of [refs] a call writes *)

Lemma fold_left_preserves {S A : Type} (f : S -> A -> S) (P : S -> Prop) (l : list A) :
  (forall st a, In a l -> P st -> P (f st a)) ->
  forall st, P st -> P (fold_left f l st).
Proof.
  induction l as [|a r IH]; intros Hstep st Hst; cbn [fold_left]; auto.
  apply IH.
  - intros st' a' Hi. apply Hstep. simpl. auto.
  - apply Hstep; simpl; auto.
Qed.

Lemma enumerable_fields_component (doc : value) (k : string) (v : value) :
  In (k, v) (enumerable_fields doc) ->
  match doc with
  | VArray _ es ps => In (Some v) es \/ exists a, In (k, (v, a)) ps
  | VObject _ ps => exists a, In (k, (v, a)) ps
  | _ => False
  end.
Proof.
  destruct doc as [| |b| |z|s|ms|s ns|la lo|r|id es ps|id ps|fn]; cbn [enumerable_fields];
    try contradiction.
  - intros Hi. apply in_app_or in Hi. destruct Hi as [Hi|Hi].
    + left. apply elem_fields_In in Hi. destruct Hi as [j [_ Hj]].
      apply nth_error_In in Hj. exact Hj.
    + right. apply enumerable_named_In in Hi. destruct Hi as [a [Hi _]]. eauto.
  - intros Hi. apply enumerable_named_In in Hi. destruct Hi as [a [Hi _]]. eauto.
Qed.

Lemma elem_fields_keys_NoDup (es : list (option value)) (i : nat) :
  NoDup (keys (elem_fields es i)).
Proof.
  revert i. induction es as [|[v|] r IH]; intros i; cbn [elem_fields keys map fst].
  - constructor.
  - constructor; [|apply IH].
    intros Hi. apply in_map_iff in Hi. destruct Hi as [[k w] [Ek Hi]]. cbn in Ek. subst k.
    apply elem_fields_In in Hi. destruct Hi as [j [Ek _]].
    apply index_key_inj in Ek. lia.
  - apply IH.
Qed.

Lemma enumerable_fields_NoDup (doc : value) :
  well_formed doc = true -> NoDup (keys (enumerable_fields doc)).
Proof.
  destruct doc as [| |b| |z|s|ms|s ns|la lo|r|id es ps|id ps|fn];
    cbn [enumerable_fields well_formed]; intros Hwf; try constructor.
  - rewrite !andb_true_iff in Hwf. destruct Hwf as [[[_ Hd] Hok] _].
    apply nodupb_NoDup in Hd. unfold keys. rewrite map_app.
    apply NoDup_app.
    + apply elem_fields_keys_NoDup.
    + apply (enumerable_named_keys_NoDup ps Hd).
    + intros k Hi Hn.
      apply in_map_iff in Hi. destruct Hi as [[k' w] [Ek Hi]]. cbn in Ek. subst k'.
      apply elem_fields_In in Hi. destruct Hi as [j [Ek _]]. subst k.
      apply in_map_iff in Hn. destruct Hn as [[k' w'] [Ek Hn]]. cbn in Ek. subst k'.
      apply enumerable_named_In in Hn. destruct Hn as [a [Hn _]].
      rewrite forallb_forall in Hok.
      assert (named_key_ok (index_key (0 + j)) = true) as C.
      { apply Hok. apply (in_map fst) in Hn. exact Hn. }
      unfold named_key_ok in C. rewrite index_of_key_index_key in C. discriminate.
  - rewrite andb_true_iff in Hwf. destruct Hwf as [Hd _].
    apply nodupb_NoDup in Hd. apply (enumerable_named_keys_NoDup ps Hd).
Qed.

Section RefsFacts.
Context `{Host}.
Variable subs : registry.
Variable index : path_index.
Variable options : FirestoreRefOptionsWithDefaults.

Abbreviation walk'' := (walk subs index options).



End RefsFacts.

(** ** Runs of the walker *)

Lemma enumerable_fields_container (doc : value) (k : string) (v : value) :
  In (k, v) (enumerable_fields doc) -> isPOJO doc || isArray doc = true.
Proof. destruct doc; cbn [enumerable_fields]; try contradiction; reflexivity. Qed.

Lemma recursiveExtract_runs `{Host} (subs : registry) (index : path_index)
  (options : FirestoreRefOptionsWithDefaults) (doc : value) (oldDoc : old_source)
  (path : string) (n : nat) (init : list (option value)) (refs : refs_map) (next : nat)
  (result : walk_state) :
  well_formed doc = true ->
  fits doc init ->
  recursiveExtract subs index options doc oldDoc path (fresh_for doc n init, refs, next) =
  Ok result ->
  result = flat (walk subs index options doc oldDoc path n init (refs, next)).
Proof. intros Hwf Hfit. apply recursiveExtract_closed; assumption. Qed.

Lemma subsByPath_total (subs : registry) : exists index, subsByPath subs = Ok index.
Proof.
  unfold subsByPath.
  assert (forall ks acc, incl ks (keys subs) ->
            exists index, fold_left (index_step subs) ks (Ok acc) = Ok index) as Gen.
  { induction ks as [|k r IH]; intros acc Hi; cbn [fold_left].
    - eauto.
    - assert (In k (keys subs)) as Hk by (apply Hi; simpl; auto).
      destruct (alookup k subs) as [sub|] eqn:E.
      + cbn [index_step bind]. rewrite E. apply IH.
        intros x Hx. apply Hi. simpl. auto.
      + apply alookup_None_keys in E. contradiction. }
  apply Gen. apply incl_refl.
Qed.

(** ** Components of well-formed documents *)

Lemma well_formed_field (doc : value) (k : string) (v : value) :
  well_formed doc = true -> In (k, v) (enumerable_fields doc) -> well_formed v = true.
Proof.
  intros Hwf Hi. apply enumerable_fields_component in Hi.
  destruct doc as [| |b| |z|s|ms|s ns|la lo|r|id es ps|id ps|fn]; try contradiction;
    cbn [well_formed] in Hwf; rewrite !andb_true_iff in Hwf.
  - destruct Hwf as [[[Hes _] _] Hps]. destruct Hi as [Hi|[a Hi]].
    + rewrite forallb_forall in Hes. apply (Hes _ Hi).
    + rewrite forallb_forall in Hps. apply (Hps _ Hi).
  - destruct Hwf as [_ Hps]. destruct Hi as [a Hi].
    rewrite forallb_forall in Hps. apply (Hps _ Hi).
Qed.


(** ** The named properties of the output *)

Lemma out_named_keys `{Host} (subs : registry) (index : path_index)
  (options : FirestoreRefOptionsWithDefaults) W (oldDoc : old_source) (path : string)
  (ps : props) (st : refs_map * nat) :
  keys (fst (out_named subs index options W oldDoc path ps st)) =
  keys (created_named ps).
Proof.
  pose proof (out_named_fields subs index options W oldDoc path ps st) as HF.
  induction HF as [|kv o l outs [Hk _] HF IH]; cbn [keys map]; [reflexivity|].
  unfold keys in IH. rewrite IH, Hk. reflexivity.
Qed.

Lemma hidden_fields_NoDup (ps : props) :
  NoDup (keys ps) ->
  NoDup (keys (filter (fun kp => negb (enumerable (snd (snd kp)))) ps)).
Proof.
  induction ps as [|[k [v a]] r IH]; cbn [filter keys map fst snd]; intros Hd.
  - constructor.
  - inversion Hd as [|? ? Hk Hr]; subst.
    destruct (negb (enumerable a)); cbn [map fst]; auto.
    constructor; auto. intros Hi. apply Hk.
    apply in_map_iff in Hi. destruct Hi as [x [<- Hx]].
    apply filter_In in Hx. apply in_map. tauto.
Qed.

Lemma enumerable_named_of_hidden (ps : props) :
  enumerable_named (filter (fun kp => negb (enumerable (snd (snd kp)))) ps) = [].
Proof.
  unfold enumerable_named. induction ps as [|[k [v a]] r IH]; cbn [filter snd]; auto.
  destruct (enumerable a) eqn:Ea; cbn [negb filter snd]; auto.
  rewrite Ea. exact IH.
Qed.

Lemma hidden_kept (ps outs : props) (k : string) (p : value * attrs) :
  NoDup (keys ps) ->
  keys outs = keys (created_named ps) ->
  In (k, p) ps -> enumerable (snd p) = false ->
  alookup k (filter (fun kp => negb (enumerable (snd (snd kp)))) ps ++ outs)%list = Some p
  /\ ~ In k (keys (enumerable_named
                     (filter (fun kp => negb (enumerable (snd (snd kp)))) ps ++ outs)%list)).
Proof.
  intros Hd Hk Hi He.
  assert (In (k, p) (filter (fun kp => negb (enumerable (snd (snd kp)))) ps)) as Hh.
  { apply filter_In. split; auto. cbn. rewrite He. reflexivity. }
  split.
  - rewrite alookup_app, (alookup_NoDup_In k p _ (hidden_fields_NoDup ps Hd) Hh).
    reflexivity.
  - intros Hin. apply in_map_iff in Hin. destruct Hin as [[k' v'] [Ek Hin]].
    cbn in Ek. subst k'. apply enumerable_named_In in Hin.
    destruct Hin as [a [Hin Ha]]. apply in_app_or in Hin. destruct Hin as [Hin|Hin].
    + apply filter_In in Hin. destruct Hin as [_ Hin]. cbn in Hin.
      rewrite Ha in Hin. discriminate.
    + apply (in_map fst) in Hin. cbn [fst] in Hin. fold (keys outs) in Hin.
      rewrite Hk in Hin. apply in_map_iff in Hin. destruct Hin as [[k' v2] [Ek Hin]].
      cbn in Ek. subst k'. apply created_named_In in Hin. destruct Hin as [Hin _].
      apply enumerable_named_In in Hin.
      destruct Hin as [a2 [Hin Ha2]].
      pose proof (NoDup_keys_unique ps k p (v2, a2) Hd Hi Hin) as E.
      subst p. cbn in He. congruence.
Qed.


(** ** Deep equality *)

Lemma same_value_refl_scalar (v : value) :
  isPOJO v || isArray v = false -> same_value v v = true.
Proof.
  destruct v; cbn; try discriminate; intros _; auto using Bool.eqb_reflx, Z.eqb_refl,
    String.eqb_refl.
  - rewrite !Z.eqb_refl. reflexivity.
  - rewrite !Z.eqb_refl. reflexivity.
  - rewrite String.eqb_refl. destruct (DocumentReference.converter r) as [[|m]|]; cbn; auto.
    apply Nat.eqb_refl.
Qed.

Lemma deep_equal_scalar (v : value) :
  isPOJO v || isArray v = false -> deep_equal v v = true.
Proof.
  intros Hs. pose proof (same_value_refl_scalar v Hs) as E.
  destruct v; try discriminate Hs; exact E.
Qed.

Lemma props_equal_intro (eqv : value -> value -> bool) (ps qs : props) :
  List.length ps = List.length qs ->
  (forall k w b, In (k, (w, b)) ps ->
     exists v a, alookup k qs = Some (v, a) /\ eqv w v = true
                 /\ enumerable b = enumerable a) ->
  props_equal eqv ps qs = true.
Proof.
  intros Hlen Hall. unfold props_equal. rewrite Hlen, Nat.eqb_refl. cbn [andb].
  apply forallb_forall. intros [k [w b]] Hi. cbn [fst snd].
  destruct (Hall k w b Hi) as [v [a [-> [-> ->]]]]. apply Bool.eqb_reflx.
Qed.

Lemma deep_equal_refl (v : value) : well_formed v = true -> deep_equal v v = true.
Proof.
  induction v as [| |b| |z|s|ms|s ns|la lo|r|id es ps IHes IHps|id ps IHps|fn] using value_ind;
    intros Hwf; try (apply deep_equal_scalar; reflexivity).
  - cbn [well_formed] in Hwf. rewrite !andb_true_iff in Hwf.
    destruct Hwf as [[[Hes Hd] _] Hps]. apply nodupb_NoDup in Hd.
    cbn [deep_equal]. apply andb_true_iff. split.
    + clear - IHes Hes. induction es as [|[w|] r IH]; cbn [elems_equal]; auto.
      * inversion IHes; subst. cbn [forallb] in Hes. apply andb_true_iff in Hes.
        destruct Hes as [Hw Hr]. rewrite H1 by exact Hw. apply IH; auto.
      * inversion IHes; subst. cbn [forallb] in Hes. apply IH; auto.
    + apply props_equal_intro; auto. intros k w b Hi. exists w, b.
      split; [apply alookup_NoDup_In; auto|]. split; auto.
      rewrite Forall_forall in IHps. apply (IHps _ Hi).
      rewrite forallb_forall in Hps. apply (Hps _ Hi).
  - cbn [well_formed] in Hwf. rewrite !andb_true_iff in Hwf.
    destruct Hwf as [Hd Hps]. apply nodupb_NoDup in Hd.
    cbn [deep_equal]. apply props_equal_intro; auto. intros k w b Hi. exists w, b.
    split; [apply alookup_NoDup_In; auto|]. split; auto.
    rewrite Forall_forall in IHps. apply (IHps _ Hi).
    rewrite forallb_forall in Hps. apply (Hps _ Hi).
Qed.

Lemma filter_partition_length {A : Type} (f : A -> bool) (l : list A) :
  List.length (filter (fun x => negb (f x)) l) + List.length (filter f l) = List.length l.
Proof.
  induction l as [|x r IH]; cbn [filter]; auto.
  destruct (f x); cbn [negb List.length]; lia.
Qed.

Lemma out_named_length `{Host} (subs : registry) (index : path_index)
  (options : FirestoreRefOptionsWithDefaults) W (oldDoc : old_source) (path : string)
  (ps : props) (st : refs_map * nat) :
  List.length (fst (out_named subs index options W oldDoc path ps st)) =
  List.length (created_named ps).
Proof.
  pose proof (out_named_keys subs index options W oldDoc path ps st) as E.
  apply (f_equal (@List.length string)) in E. unfold keys in E.
  rewrite !length_map in E. exact E.
Qed.

(** ** Tame documents *)

Lemma tame_named `{Host} (ps : props) :
  forallb (fun kp : string * (value * attrs) =>
             negb (enumerable (snd (snd kp)))
             || (negb (String.eqb (fst kp) "__proto__") && tame (fst (snd kp)))) ps = true ->
  created_named ps = enumerable_named ps
  /\ forall k v, In (k, v) (enumerable_named ps) -> k <> "__proto__" /\ tame v = true.
Proof.
  intros Hf. rewrite forallb_forall in Hf.
  assert (forall k v, In (k, v) (enumerable_named ps) -> k <> "__proto__" /\ tame v = true)
    as Hall.
  { intros k v Hi. apply enumerable_named_In in Hi. destruct Hi as [a [Hi Ha]].
    specialize (Hf _ Hi). cbn [fst snd] in Hf. rewrite Ha in Hf. cbn [negb orb] in Hf.
    apply andb_true_iff in Hf. destruct Hf as [Hk Hv].
    apply negb_true_iff, String.eqb_neq in Hk. auto. }
  split; [|exact Hall].
  unfold created_named. induction (enumerable_named ps) as [|[k v] r IH]; cbn [filter fst]; auto.
  destruct (Hall k v ltac:(simpl; auto)) as [N _]. apply String.eqb_neq in N. rewrite N.
  cbn [negb]. f_equal. apply IH. intros k' v' Hi. apply Hall. simpl. auto.
Qed.

Lemma tame_field `{Host} (doc : value) (k : string) (v : value) :
  tame doc = true -> In (k, v) (enumerable_fields doc) ->
  k <> "__proto__" /\ tame v = true.
Proof.
  intros Ht Hi.
  destruct doc as [| |b| |z|s|ms|s ns|la lo|r|id es ps|id ps|fn]; cbn [enumerable_fields] in Hi;
    try contradiction; cbn [tame] in Ht.
  - rewrite !andb_true_iff in Ht. destruct Ht as [[_ He] Hp].
    apply in_app_or in Hi. destruct Hi as [Hi|Hi].
    + apply elem_fields_In in Hi. destruct Hi as [j [-> Hj]]. split.
      * apply index_key_not_proto.
      * apply nth_error_In in Hj. rewrite forallb_forall in He. apply (He _ Hj).
    + apply (proj2 (tame_named ps Hp) k v Hi).
  - apply (proj2 (tame_named ps Ht) k v Hi).
Qed.

(** ** Documents without references *)

Lemma keeps_holes_fits (doc : value) (init : list (option value)) :
  keeps_holes doc init -> fits doc init.
Proof.
  destruct doc; cbn [keeps_holes fits]; auto.
  intros HF. symmetry. apply (Forall2_length HF).
Qed.

Lemma filled_slot_keeps_holes `{Host} (index : path_index) (id : nat)
  (es : list (option value)) (ps : props) :
  keeps_holes (VArray id es ps) (map (filled_slot index) es).
Proof.
  cbn [keeps_holes]. induction es as [|e r IH]; cbn [map]; constructor; auto.
  intros ->. reflexivity.
Qed.

Lemma Forall2_In_right {A B : Type} (R : A -> B -> Prop) (l : list A) (l' : list B) (y : B) :
  Forall2 R l l' -> In y l' -> exists x, In x l /\ R x y.
Proof.
  intros HF. induction HF as [|x y' l l' HR HF IH]; intros Hi; [contradiction|].
  destruct Hi as [<-|Hi].
  - exists x. simpl. auto.
  - destruct (IH Hi) as [x' [Hx HR']]. exists x'. simpl. auto.
Qed.

Section RefFree.
Context `{Host}.
Variable subs : registry.
Variable index : path_index.
Variable options : FirestoreRefOptionsWithDefaults.

Abbreviation walk' := (walk subs index options).

(** What the induction carries for a document without references. *)
Abbreviation copies v :=
  (isPOJO v || isArray v = true -> well_formed v = true -> ref_free v = true ->
   tame v = true ->
   forall oldDoc path n init refs next,
     keeps_holes v init ->
     fst (snd (walk' v oldDoc path n init (refs, next))) = refs
     /\ deep_equal (fst (walk' v oldDoc path n init (refs, next))) v = true).






End RefFree.


(** ** Raw references in the output *)

Lemma visible_prop_value (ps : props) (k : string) :
  forallb (fun kp : string * (value * attrs) =>
             negb (enumerable (snd (snd kp))) || visible_ref_free (fst (snd kp))) ps = true ->
  amem k (filter (fun kp => negb (enumerable (snd (snd kp)))) ps) = false ->
  forall w a, alookup k ps = Some (w, a) -> visible_ref_free w = true.
Proof.
  intros Hf Hh w a E. apply alookup_In in E.
  rewrite forallb_forall in Hf. specialize (Hf _ E). cbn [fst snd] in Hf.
  destruct (enumerable a) eqn:Ea; cbn [negb orb] in Hf; [exact Hf|].
  assert (In k (keys (filter (fun kp => negb (enumerable (snd (snd kp)))) ps))) as Hin.
  { apply in_map_iff. exists (k, (w, a)). split; [reflexivity|].
    apply filter_In. split; [exact E|]. cbn [snd]. rewrite Ea. reflexivity. }
  apply amem_true_iff in Hin. congruence.
Qed.

Lemma visible_object_member (k : string) (w : value) :
  object_member k = Ok w -> visible_ref_free w = true.
Proof.
  unfold object_member. destruct (String.eqb k "__proto__"); [discriminate|].
  destruct (String.eqb k "constructor"); [intros [= <-]; reflexivity|].
  destruct (inherited k); intros [= <-]; reflexivity.
Qed.

Lemma visible_builtin_member (names : list string) (k : string) (w : value) :
  builtin_member names k = Ok w -> visible_ref_free w = true.
Proof.
  unfold builtin_member. destruct (listed k names || inherited k); [discriminate|].
  intros [= <-]. reflexivity.
Qed.

Lemma visible_class_member (k : string) (w : value) :
  class_member k = Ok w -> visible_ref_free w = true.
Proof.
  unfold class_member. destruct (String.eqb k "path"); [intros [= <-]; reflexivity|].
  destruct (identifier k); [discriminate|]. intros [= <-]. reflexivity.
Qed.

Lemma visible_unset (k : string) : visible_ref_free (unset k) = true.
Proof.
  unfold unset, peek. cbn [get alookup].
  destruct (object_member k) as [w|e] eqn:E; [|reflexivity].
  apply (visible_object_member k w E).
Qed.

(** A read of a value without visible references that is not one of a
    hidden property yields a value without visible references. *)
Lemma visible_peek (v : value) (k : string) :
  visible_ref_free v = true ->
  amem k (hidden_fields v) = false ->
  visible_ref_free (peek v k) = true.
Proof.
  unfold peek, hidden_fields. intros Hv Hh.
  destruct (get v k) as [w|e] eqn:E; [|reflexivity].
  destruct v as [| |b| |z|s|ms|s ns|la lo|r|id es ps|id ps|fn];
    cbn [get visible_ref_free named_of] in *;
    try discriminate;
    try (apply (visible_class_member k w E));
    try (apply (visible_builtin_member _ k w E)).
  - destruct (index_of_key k) as [i|].
    + destruct (ascii_only s); [|discriminate].
      destruct (String.get i s); injection E as <-; reflexivity.
    + destruct (String.eqb k "length").
      * destruct (ascii_only s); [|discriminate]. injection E as <-. reflexivity.
      * apply (visible_builtin_member _ k w E).
  - apply andb_true_iff in Hv. destruct Hv as [He Hp].
    destruct (index_of_key k) as [i|].
    + injection E as <-. destruct (nth_error es i) as [[w|]|] eqn:En; try reflexivity.
      apply nth_error_In in En. rewrite forallb_forall in He. apply (He _ En).
    + destruct (String.eqb k "length"); [injection E as <-; reflexivity|].
      destruct (alookup k ps) as [[w' a]|] eqn:El.
      * injection E as <-. apply (visible_prop_value ps k Hp Hh w' a El).
      * apply (visible_builtin_member _ k w E).
  - destruct (alookup k ps) as [[w' a]|] eqn:El.
    + injection E as <-. apply (visible_prop_value ps k Hv Hh w' a El).
    + apply (visible_object_member k w E).
Qed.

Lemma ref_free_visible (v : value) : ref_free v = true -> visible_ref_free v = true.
Proof.
  induction v as [| |b| |z|s|ms|s ns|la lo|r|id es ps IHes IHps|id ps IHps|fn] using value_ind;
    cbn [ref_free visible_ref_free]; auto.
  - intros Hf. apply andb_true_iff in Hf. destruct Hf as [He Hp].
    rewrite forallb_forall in He, Hp. apply andb_true_iff. split.
    + apply forallb_forall. intros [w|] Hi; auto.
      rewrite Forall_forall in IHes. apply (IHes _ Hi). apply (He _ Hi).
    + apply forallb_forall. intros kp Hi. apply orb_true_iff. right.
      rewrite Forall_forall in IHps. apply (IHps _ Hi). apply (Hp _ Hi).
  - intros Hp. rewrite forallb_forall in Hp.
    apply forallb_forall. intros kp Hi. apply orb_true_iff. right.
    rewrite Forall_forall in IHps. apply (IHps _ Hi). apply (Hp _ Hi).
Qed.

Section Clean.
Context `{Host}.
Variable subs : registry.
Variable index : path_index.
Variable options : FirestoreRefOptionsWithDefaults.
Hypothesis index_clean :
  Forall (fun pv : string * value => visible_ref_free (snd pv) = true) index.

Abbreviation walk' := (walk subs index options).

Abbreviation old_clean oldDoc :=
  (match oldDoc with
   | OldValue o => visible_ref_free o = true
   | OldIsData => True
   end).

Abbreviation slots_clean init :=
  (Forall (fun f : option value => visible_ref_free (elem_value f) = true) init).

Abbreviation clean v :=
  (forall oldDoc path n init refs next,
     old_clean oldDoc -> slots_clean init ->
     shielded subs v oldDoc path = true ->
     visible_ref_free (fst (walk' v oldDoc path n init (refs, next))) = true).

Lemma index_peek_clean (k : string) : visible_ref_free (index_peek index k) = true.
Proof.
  unfold index_peek, index_get. destruct (alookup k index) as [v|] eqn:El.
  - apply alookup_In in El. rewrite Forall_forall in index_clean. apply (index_clean _ El).
  - destruct (object_member k) as [w|e] eqn:E; [|reflexivity].
    apply (visible_object_member k w E).
Qed.

Lemma filled_slots_clean (es : list (option value)) :
  slots_clean (map (filled_slot index) es).
Proof.
  apply Forall_forall. intros f Hi. apply in_map_iff in Hi. destruct Hi as [e [<- _]].
  unfold filled_slot. destruct (truthy (elem_value e)); [|reflexivity].
  destruct (has_property _ index); [|reflexivity]. cbn [elem_value].
  apply index_peek_clean.
Qed.

Lemma or_empty_clean (oldDoc : old_source) (next : nat) :
  old_clean oldDoc -> old_clean (fst (or_empty oldDoc next)).
Proof.
  destruct oldDoc as [o|]; cbn [or_empty]; auto.
  destruct (truthy o); cbn [fst]; auto.
Qed.

Lemma old_for_array_clean (oldDoc : old_source) (key : string) :
  old_clean oldDoc -> hidden_at oldDoc key = false -> old_clean (old_for_array oldDoc key).
Proof.
  intros Ho Hh. destruct oldDoc as [o|]; cbn [old_for_array hidden_at] in *; auto.
  destruct (truthy (peek o key)); auto. apply visible_peek; assumption.
Qed.

Lemma old_for_record_clean (oldDoc : old_source) (key : string) :
  old_clean oldDoc -> hidden_at oldDoc key = false -> old_clean (old_for_record oldDoc key).
Proof.
  intros Ho Hh. destruct oldDoc as [o|]; cbn [old_for_record hidden_at] in *; auto.
  apply visible_peek; assumption.
Qed.

Lemma out_field_clean (v : value) (oldDoc : old_source) (path key : string) (seen : value)
  (st : refs_map * nat) :
  clean v -> old_clean oldDoc -> visible_ref_free seen = true ->
  shielded_field subs (shielded subs) oldDoc path key v = true ->
  visible_ref_free (fst (out_field subs index options walk' oldDoc path key v seen st)) = true.
Proof.
  intros IH Ho Hs Hsh. destruct st as [refs next].
  destruct v as [| |b| |z|s|ms|s ns|la lo|r|id es ps|id ps|fn];
    cbn [out_field fst shielded_field] in *;
    try reflexivity.
  - destruct (has_property (path ++ key) subs); [|reflexivity]. cbn [negb orb] in Hsh.
    apply negb_true_iff in Hsh.
    destruct oldDoc as [o|]; auto. apply visible_peek; assumption.
  - apply andb_true_iff in Hsh. destruct Hsh as [Hh Hsh]. apply negb_true_iff in Hh.
    apply IH; [|apply filled_slots_clean|exact Hsh].
    apply old_for_array_clean; assumption.
  - apply andb_true_iff in Hsh. destruct Hsh as [Hh Hsh]. apply negb_true_iff in Hh.
    apply IH; [|constructor|exact Hsh].
    apply old_for_record_clean; assumption.
Qed.

Lemma out_elems_clean (oldDoc : old_source) (path : string) (es : list (option value)) :
  Forall (fun e => match e with Some v => clean v | None => True end) es ->
  old_clean oldDoc ->
  forall i init st,
  slots_clean init ->
  shielded_elems subs (shielded subs) oldDoc path es i = true ->
  forallb (fun e => match e with Some w => visible_ref_free w | None => true end)
    (fst (out_elems subs index options walk' oldDoc path es i init st)) = true.
Proof.
  intros IH Ho. induction IH as [|e r He Hr IHr]; intros i init st Hs Hsh.
  - cbn [out_elems fst]. apply forallb_forall. intros [w|] Hi; auto.
    rewrite Forall_forall in Hs. apply (Hs _ Hi).
  - destruct init as [|f fr].
    + destruct e; reflexivity.
    + inversion Hs as [|? ? Hf Hfr]; subst. cbn [out_elems shielded_elems] in *.
      destruct e as [v|].
      * apply andb_true_iff in Hsh. destruct Hsh as [Hsv Hsr].
        pose proof (out_field_clean v oldDoc path (index_key i) (elem_value f) st He Ho Hf Hsv)
          as Hw.
        destruct (out_field subs index options walk' oldDoc path (index_key i) v
                    (elem_value f) st) as [w st1].
        specialize (IHr (S i) fr st1 Hfr Hsr).
        destruct (out_elems subs index options walk' oldDoc path r (S i) fr st1) as [es' st2].
        cbn [fst forallb] in *. rewrite Hw. exact IHr.
      * specialize (IHr (S i) fr st Hfr Hsh).
        destruct (out_elems subs index options walk' oldDoc path r (S i) fr st) as [es' st2].
        cbn [fst forallb] in *. rewrite IHr.
        destruct f as [w|]; auto. cbn [elem_value] in Hf.
        rewrite Hf. reflexivity.
Qed.

Lemma shielded_named_In (oldDoc : old_source) (path : string) (ps : props)
  (k : string) (v : value) (a : attrs) :
  shielded_named subs (shielded subs) oldDoc path ps = true ->
  In (k, (v, a)) ps -> enumerable a = true ->
  shielded_field subs (shielded subs) oldDoc path k v = true.
Proof.
  induction ps as [|[k' [v' a']] r IH]; cbn [shielded_named]; intros Hs Hi Ha;
    [contradiction|].
  apply andb_true_iff in Hs. destruct Hs as [Hv Hr]. destruct Hi as [E|Hi].
  - inversion E; subst. rewrite Ha in Hv. exact Hv.
  - apply IH; assumption.
Qed.

Lemma out_named_clean (oldDoc : old_source) (path : string) (ps : props)
  (st : refs_map * nat) :
  Forall (fun kp : string * (value * attrs) => clean (fst (snd kp))) ps ->
  old_clean oldDoc ->
  shielded_named subs (shielded subs) oldDoc path ps = true ->
  forallb (fun kp : string * (value * attrs) =>
             negb (enumerable (snd (snd kp))) || visible_ref_free (fst (snd kp)))
    (filter (fun kp => negb (enumerable (snd (snd kp)))) ps
     ++ fst (out_named subs index options walk' oldDoc path ps st))%list = true.
Proof.
  intros IH Ho Hsh. rewrite Forall_forall in IH.
  apply forallb_forall. intros [k [w b]] Hi. cbn [fst snd].
  apply in_app_or in Hi. destruct Hi as [Hi|Hi].
  - apply filter_In in Hi. destruct Hi as [_ Hb]. cbn in Hb. rewrite Hb. reflexivity.
  - pose proof (out_named_fields subs index options walk' oldDoc path ps st) as HF.
    destruct (Forall2_In_right _ _ _ _ HF Hi) as [[k' v] [Hkv [Ek [Eb [st0 Ew]]]]].
    cbn [fst snd] in *. subst k' b.
    apply created_named_In in Hkv. destruct Hkv as [Hkv _].
    apply enumerable_named_In in Hkv. destruct Hkv as [a [Hkv Ha]].
    rewrite Ew. apply orb_true_iff. right.
    apply (out_field_clean v oldDoc path k (unset k) st0 (IH _ Hkv) Ho (visible_unset k)).
    apply (shielded_named_In oldDoc path ps k v a Hsh Hkv Ha).
Qed.

Lemma shielded_field_empty f (n m : nat) path key ref :
  shielded_field subs f (OldValue (VObject n [])) path key ref =
  shielded_field subs f (OldValue (VObject m [])) path key ref.
Proof. destruct ref; reflexivity. Qed.

Lemma shielded_named_or_empty f oldDoc (n m : nat) path ps :
  shielded_named subs f (fst (or_empty oldDoc n)) path ps =
  shielded_named subs f (fst (or_empty oldDoc m)) path ps.
Proof.
  destruct oldDoc as [o|]; cbn [or_empty]; [|reflexivity].
  destruct (truthy o); cbn [fst]; [reflexivity|].
  induction ps as [|[k [v a]] r IH]; cbn [shielded_named]; [reflexivity|].
  rewrite IH, (shielded_field_empty f n m). reflexivity.
Qed.

Lemma shielded_elems_or_empty f oldDoc (n m : nat) path es i :
  shielded_elems subs f (fst (or_empty oldDoc n)) path es i =
  shielded_elems subs f (fst (or_empty oldDoc m)) path es i.
Proof.
  destruct oldDoc as [o|]; cbn [or_empty]; [|reflexivity].
  destruct (truthy o); cbn [fst]; [reflexivity|].
  revert i. induction es as [|[v|] r IH]; intros i; cbn [shielded_elems]; [reflexivity| |].
  - rewrite IH, (shielded_field_empty f n m). reflexivity.
  - apply IH.
Qed.

Lemma walk_clean (doc : value) : clean doc.
Proof.
  induction doc as [| |b| |z|s|ms|s ns|la lo|r|id es ps IHes IHps|id ps IHps|fn] using value_ind;
    intros oldDoc path n init refs next Ho Hs Hsh;
    try (cbn [walk]; destruct (or_empty oldDoc next); reflexivity).
  - cbn [walk]. pose proof (or_empty_clean oldDoc next Ho) as Ho'.
    cbn [shielded] in Hsh. apply andb_true_iff in Hsh. destruct Hsh as [Hse Hsp].
    rewrite (shielded_elems_or_empty _ oldDoc 0 next) in Hse.
    rewrite (shielded_named_or_empty _ oldDoc 0 next) in Hsp.
    destruct (or_empty oldDoc next) as [old' next0]. cbn [fst] in Ho', Hse, Hsp.
    pose proof (out_elems_clean old' path es IHes Ho' 0 init (refs, next0) Hs Hse) as He.
    destruct (out_elems subs index options walk' old' path es 0 init (refs, next0))
      as [es' st1].
    pose proof (out_named_clean old' path ps st1 IHps Ho' Hsp) as Hp.
    destruct (out_named subs index options walk' old' path ps st1) as [outs st2].
    unfold hidden_fields. cbn [fst visible_ref_free named_of] in *. rewrite He, Hp. reflexivity.
  - cbn [walk]. pose proof (or_empty_clean oldDoc next Ho) as Ho'.
    cbn [shielded] in Hsh.
    rewrite (shielded_named_or_empty _ oldDoc 0 next) in Hsh.
    destruct (or_empty oldDoc next) as [old' next0]. cbn [fst] in Ho', Hsh.
    pose proof (out_named_clean old' path ps (refs, next0) IHps Ho' Hsh) as Hp.
    destruct (out_named subs index options walk' old' path ps (refs, next0)) as [outs st2].
    unfold hidden_fields. cbn [fst visible_ref_free named_of] in *. exact Hp.
Qed.

End Clean.

Lemma aset_In {A : Type} (k k' : string) (a a' : A) (l : list (string * A)) :
  In (k, a) (aset k' a' l) -> (k, a) = (k', a') \/ In (k, a) l.
Proof.
  induction l as [|[k2 a2] r IH]; cbn [aset].
  - intros [E|[]]. auto.
  - destruct (String.eqb k' k2).
    + intros [E|Hi]; simpl; auto.
    + intros [E|Hi]; simpl; auto. destruct (IH Hi); auto.
Qed.

Lemma index_fold_throw (subs : registry) (ks : list string) (e : error) :
  fold_left (index_step subs) ks (Throw e) = Throw e.
Proof. induction ks as [|k r IH]; cbn [fold_left index_step bind]; auto. Qed.

Lemma subsByPath_values (subs : registry) (index : path_index) :
  subsByPath subs = Ok index ->
  forall p v, In (p, v) index -> exists k s, In (k, s) subs /\ v = sub_data s tt.
Proof.
  unfold subsByPath.
  assert (forall ks acc,
            (forall p v, In (p, v) acc -> exists k s, In (k, s) subs /\ v = sub_data s tt) ->
            fold_left (index_step subs) ks (Ok acc) = Ok index ->
            forall p v, In (p, v) index -> exists k s, In (k, s) subs /\ v = sub_data s tt)
    as Gen.
  { induction ks as [|k r IH]; intros acc Hacc; cbn [fold_left index_step bind].
    - intros [= <-]. exact Hacc.
    - destruct (alookup k subs) as [sub|] eqn:E.
      + apply IH. intros p v Hi. apply aset_In in Hi. destruct Hi as [Eq|Hi].
        * inversion Eq; subst. exists k, sub. split; auto. apply alookup_In. exact E.
        * apply (Hacc p v Hi).
      + rewrite index_fold_throw. discriminate. }
  apply Gen. intros p v [].
Qed.


(** ** Two passes over the same document *)

Lemma well_formed_object_member (k : string) (w : value) :
  object_member k = Ok w -> well_formed w = true.
Proof.
  unfold object_member. destruct (String.eqb k "__proto__"); [discriminate|].
  destruct (String.eqb k "constructor"); [intros [= <-]; reflexivity|].
  destruct (inherited k); intros [= <-]; reflexivity.
Qed.

Lemma well_formed_builtin_member (names : list string) (k : string) (w : value) :
  builtin_member names k = Ok w -> well_formed w = true.
Proof.
  unfold builtin_member. destruct (listed k names || inherited k); [discriminate|].
  intros [= <-]. reflexivity.
Qed.

Lemma well_formed_class_member (k : string) (w : value) :
  class_member k = Ok w -> well_formed w = true.
Proof.
  unfold class_member. destruct (String.eqb k "path"); [intros [= <-]; reflexivity|].
  destruct (identifier k); [discriminate|]. intros [= <-]. reflexivity.
Qed.

Lemma well_formed_unset (k : string) : well_formed (unset k) = true.
Proof.
  unfold unset, peek. cbn [get alookup].
  destruct (object_member k) as [w|e] eqn:E; [|reflexivity].
  apply (well_formed_object_member k w E).
Qed.

Lemma well_formed_lookup (ps : props) (k : string) (w : value) (a : attrs) :
  forallb (fun kp : string * (value * attrs) => well_formed (fst (snd kp))) ps = true ->
  alookup k ps = Some (w, a) -> well_formed w = true.
Proof.
  intros Hf E. apply alookup_In in E. rewrite forallb_forall in Hf. apply (Hf _ E).
Qed.

Lemma well_formed_peek (v : value) (k : string) :
  well_formed v = true -> well_formed (peek v k) = true.
Proof.
  unfold peek. intros Hv.
  destruct (get v k) as [w|e] eqn:E; [|reflexivity].
  destruct v as [| |b| |z|s|ms|s ns|la lo|r|id es ps|id ps|fn];
    cbn [get well_formed] in *;
    try discriminate;
    try (apply (well_formed_class_member k w E));
    try (apply (well_formed_builtin_member _ k w E)).
  - destruct (index_of_key k) as [i|].
    + destruct (ascii_only s); [|discriminate].
      destruct (String.get i s); injection E as <-; reflexivity.
    + destruct (String.eqb k "length").
      * destruct (ascii_only s); [|discriminate]. injection E as <-. reflexivity.
      * apply (well_formed_builtin_member _ k w E).
  - destruct (String.eqb k "path"); [injection E as <-; reflexivity|].
    apply (well_formed_class_member k w E).
  - rewrite !andb_true_iff in Hv. destruct Hv as [[[He _] _] Hp].
    destruct (index_of_key k) as [i|].
    + injection E as <-. destruct (nth_error es i) as [[w|]|] eqn:En; try reflexivity.
      apply nth_error_In in En. rewrite forallb_forall in He. apply (He _ En).
    + destruct (String.eqb k "length"); [injection E as <-; reflexivity|].
      destruct (alookup k ps) as [[w' a]|] eqn:El.
      * injection E as <-. apply (well_formed_lookup ps k w' a Hp El).
      * apply (well_formed_builtin_member _ k w E).
  - apply andb_true_iff in Hv. destruct Hv as [_ Hp].
    destruct (alookup k ps) as [[w' a]|] eqn:El.
    + injection E as <-. apply (well_formed_lookup ps k w' a Hp El).
    + apply (well_formed_object_member k w E).
Qed.

Lemma walk_is_container `{Host} (subs : registry) (index : path_index)
  (options : FirestoreRefOptionsWithDefaults) (doc : value) (oldDoc : old_source)
  (path : string) (n : nat) (init : list (option value)) (st : refs_map * nat) :
  isPOJO doc || isArray doc = true ->
  truthy (fst (walk subs index options doc oldDoc path n init st)) = true
  /\ address (fst (walk subs index options doc oldDoc path n init st)) = Some n.
Proof.
  destruct st as [refs next].
  destruct doc as [| |b| |z|s|ms|s ns|la lo|r|id es ps|id ps|fn]; try discriminate; intros _;
    cbn [walk]; destruct (or_empty oldDoc next) as [old' next0].
  - destruct (out_elems subs index options _ old' path es 0 init (refs, next0)) as [es' st1].
    destruct (out_named subs index options _ old' path ps st1) as [outs st2]. auto.
  - destruct (out_named subs index options _ old' path ps (refs, next0)) as [outs st2]. auto.
Qed.

Section Twice.
Context `{Host}.
Variable subs : registry.
Variable index : path_index.
Variable options : FirestoreRefOptionsWithDefaults.
Hypothesis index_well : Forall (fun pv : string * value => well_formed (snd pv) = true) index.

Abbreviation walk' := (walk subs index options).

Abbreviation old_well oldDoc :=
  (match oldDoc with
   | OldValue o => well_formed o = true
   | OldIsData => True
   end).

Abbreviation slots_well init :=
  (Forall (fun f : option value => well_formed (elem_value f) = true) init).

(** What the induction carries: a second call that takes the data of the
    first as old document returns data deep-equal to it. *)
Abbreviation stable v :=
  (isPOJO v || isArray v = true -> well_formed v = true ->
   forall old1 path n1 init1 st1 n2 init2 st2,
     old_well old1 -> slots_well init1 ->
     keeps_holes v init1 -> keeps_holes v init2 ->
     deep_equal
       (fst (walk' v (OldValue (fst (walk' v old1 path n1 init1 st1))) path n2 init2 st2))
       (fst (walk' v old1 path n1 init1 st1)) = true).

Lemma index_peek_well (k : string) : well_formed (index_peek index k) = true.
Proof.
  unfold index_peek, index_get. destruct (alookup k index) as [v|] eqn:El.
  - apply alookup_In in El. rewrite Forall_forall in index_well. apply (index_well _ El).
  - destruct (object_member k) as [w|e] eqn:E; [|reflexivity].
    apply (well_formed_object_member k w E).
Qed.

Lemma filled_slots_well (es : list (option value)) :
  slots_well (map (filled_slot index) es).
Proof.
  apply Forall_forall. intros f Hi. apply in_map_iff in Hi. destruct Hi as [e [<- _]].
  unfold filled_slot. destruct (truthy (elem_value e)); [|reflexivity].
  destruct (has_property _ index); [|reflexivity]. cbn [elem_value].
  apply index_peek_well.
Qed.

Lemma or_empty_well (oldDoc : old_source) (next : nat) :
  old_well oldDoc -> old_well (fst (or_empty oldDoc next)).
Proof.
  destruct oldDoc as [o|]; cbn [or_empty]; auto.
  destruct (truthy o); cbn [fst]; auto.
Qed.

(** One field, in the first call with old document [old1] and in the second
    with the data [data1] of the first, which holds at [key] what the first
    call left there. *)
Lemma out_field_twice (v : value) (old1 : old_source) (data1 : value) (path key : string)
  (seen1 seen2 : value) (st1 st2 : refs_map * nat) :
  stable v -> well_formed v = true ->
  old_well old1 -> well_formed seen1 = true ->
  peek data1 key = fst (out_field subs index options walk' old1 path key v seen1 st1) ->
  deep_equal
    (fst (out_field subs index options walk' (OldValue data1) path key v seen2 st2))
    (fst (out_field subs index options walk' old1 path key v seen1 st1)) = true.
Proof.
  intros IH Hwf Ho Hs Hpeek. destruct st1 as [refs1 next1]. destruct st2 as [refs2 next2].
  destruct v as [| |b| |z|s|ms|s ns|la lo|r|id es ps|id ps|fn]; cbn [out_field fst] in *;
    try (apply deep_equal_scalar; reflexivity).
  - destruct (has_property (path ++ key) subs).
    + rewrite Hpeek. apply deep_equal_refl.
      destruct old1 as [o|]; auto. apply well_formed_peek. exact Ho.
    + apply deep_equal_scalar. reflexivity.
  - cbn [old_for_array]. rewrite Hpeek.
    destruct (walk_is_container subs index options (VArray id es ps) (old_for_array old1 key)
                (path ++ key ++ ".") next1 (map (filled_slot index) es) (refs1, S next1)
                eq_refl) as [-> _].
    apply (IH eq_refl Hwf).
    + destruct old1 as [o|]; cbn [old_for_array]; auto.
      destruct (truthy (peek o key)); auto. apply well_formed_peek. exact Ho.
    + apply filled_slots_well.
    + apply filled_slot_keeps_holes.
    + apply filled_slot_keeps_holes.
  - cbn [old_for_record]. rewrite Hpeek.
    apply (IH eq_refl Hwf); try exact I; [|constructor].
    destruct old1 as [o|]; cbn [old_for_record]; auto. apply well_formed_peek. exact Ho.
Qed.


Lemma out_named_twice (ps : props) (old1 : old_source) (data1 : value) (path : string)
  (st1 st2 : refs_map * nat) :
  Forall (fun kp : string * (value * attrs) => stable (fst (snd kp))) ps ->
  forallb (fun kp : string * (value * attrs) => well_formed (fst (snd kp))) ps = true ->
  NoDup (keys ps) ->
  old_well old1 ->
  (forall k w a,
     alookup k (filter (fun kp => negb (enumerable (snd (snd kp)))) ps
                ++ fst (out_named subs index options walk' old1 path ps st1))%list
       = Some (w, a) ->
     peek data1 k = w) ->
  props_equal deep_equal
    (filter (fun kp => negb (enumerable (snd (snd kp)))) ps
     ++ fst (out_named subs index options walk' (OldValue data1) path ps st2))%list
    (filter (fun kp => negb (enumerable (snd (snd kp)))) ps
     ++ fst (out_named subs index options walk' old1 path ps st1))%list = true.
Proof.
  intros IH Hwf Hd Ho Hdata.
  rewrite Forall_forall in IH. rewrite forallb_forall in Hwf.
  apply props_equal_intro.
  - rewrite !length_app, !out_named_length. reflexivity.
  - intros k w b Hi. apply in_app_or in Hi. destruct Hi as [Hi|Hi].
    + apply filter_In in Hi. destruct Hi as [Hi Hb]. cbn in Hb.
      apply negb_true_iff in Hb.
      destruct (hidden_kept ps (fst (out_named subs index options walk' old1 path ps st1))
                  k (w, b) Hd (out_named_keys _ _ _ _ _ _ _ _) Hi Hb) as [Hl _].
      exists w, b. split; [exact Hl|]. split; auto.
      apply deep_equal_refl. apply (Hwf _ Hi).
    + pose proof (out_named_fields subs index options walk' (OldValue data1) path ps st2)
        as HF.
      destruct (Forall2_In_right _ _ _ _ HF Hi) as [[k' v] [Hkv [Ek [Eb [st0 Ew]]]]].
      cbn [fst snd] in *. subst k' b.
      apply created_named_In in Hkv. destruct Hkv as [Hkv N].
      pose proof Hkv as Hkv'. apply enumerable_named_In in Hkv'.
      destruct Hkv' as [a [Hin Ha]].
      destruct (walk_named_value subs index options ps
                  (filter (fun kp => negb (enumerable (snd (snd kp)))) ps)
                  old1 path st1 k v Hd Hkv N (hidden_lookup_enumerable ps k v a Hd Hin Ha))
        as [st1' El].
      eexists. exists plain. split; [exact El|]. split; [|reflexivity].
      rewrite Ew. apply out_field_twice; auto.
      * apply (IH _ Hin).
      * apply (Hwf _ Hin).
      * apply well_formed_unset.
      * apply (Hdata k _ plain El).
Qed.

Lemma out_elems_twice (old1 : old_source) (data1 : value) (path : string)
  (es : list (option value)) :
  Forall (fun e => match e with Some v => stable v | None => True end) es ->
  forallb (fun e => match e with Some w => well_formed w | None => true end) es = true ->
  old_well old1 ->
  forall i init1 init2 st1 st2,
  Forall2 (fun e f : option value => e = None -> f = None) es init1 ->
  Forall2 (fun e f : option value => e = None -> f = None) es init2 ->
  slots_well init1 ->
  (forall j w,
     nth_error (fst (out_elems subs index options walk' old1 path es i init1 st1)) j =
       Some (Some w) ->
     peek data1 (index_key (i + j)) = w) ->
  elems_equal deep_equal
    (fst (out_elems subs index options walk' (OldValue data1) path es i init2 st2))
    (fst (out_elems subs index options walk' old1 path es i init1 st1)) = true.
Proof.
  intros IH. induction IH as [|e r He Hr IHr];
    intros Hwf Ho i init1 init2 st1 st2 Hh1 Hh2 Hs Hdata;
    inversion Hh1 as [|? f1 ? fr1 Hef1 Hrest1]; subst;
    inversion Hh2 as [|? f2 ? fr2 Hef2 Hrest2]; subst.
  - reflexivity.
  - cbn [forallb] in Hwf. apply andb_true_iff in Hwf. destruct Hwf as [Hwe Hwr].
    inversion Hs as [|? ? Hf1 Hfr1]; subst.
    cbn [out_elems] in *. destruct e as [v|].
    + pose proof (out_field_twice v old1 data1 path (index_key i) (elem_value f1)
                    (elem_value f2) st1 st2 He Hwe Ho Hf1) as Hw.
      destruct (out_field subs index options walk' old1 path (index_key i) v
                  (elem_value f1) st1) as [w1 st1'].
      destruct (out_field subs index options walk' (OldValue data1) path (index_key i) v
                  (elem_value f2) st2) as [w2 st2'].
      specialize (IHr Hwr Ho (S i) fr1 fr2 st1' st2' Hrest1 Hrest2 Hfr1).
      destruct (out_elems subs index options walk' old1 path r (S i) fr1 st1')
        as [es1 st1''].
      destruct (out_elems subs index options walk' (OldValue data1) path r (S i) fr2 st2')
        as [es2 st2''].
      cbn [fst elems_equal] in *. rewrite Hw.
      * apply IHr. intros j w Hj. replace (S i + j) with (i + S j) by lia.
        apply (Hdata (S j) w). exact Hj.
      * rewrite <- (Nat.add_0_r i). apply (Hdata 0 w1). reflexivity.
    + rewrite (Hef1 eq_refl), (Hef2 eq_refl).
      specialize (IHr Hwr Ho (S i) fr1 fr2 st1 st2 Hrest1 Hrest2 Hfr1).
      destruct (out_elems subs index options walk' old1 path r (S i) fr1 st1)
        as [es1 st1''].
      destruct (out_elems subs index options walk' (OldValue data1) path r (S i) fr2 st2)
        as [es2 st2''].
      cbn [fst elems_equal] in *.
      apply IHr. intros j w Hj. replace (S i + j) with (i + S j) by lia.
      apply (Hdata (S j) w). exact Hj.
Qed.


Lemma walk_stable (doc : value) : stable doc.
Proof.
  induction doc as [| |b| |z|s|ms|s ns|la lo|r|id es ps IHes IHps|id ps IHps|fn] using value_ind;
    intros Hc Hwf old1 path n1 init1 [refs1 next1] n2 init2 [refs2 next2] Ho Hs Hh1 Hh2;
    try discriminate Hc.
  - (* array *)
    cbn [well_formed] in Hwf. rewrite !andb_true_iff in Hwf.
    destruct Hwf as [[[Hwe Hd] Hok] Hwp]. apply nodupb_NoDup in Hd.
    assert (forall k, In k (keys ps) -> named_key_ok k = true) as Hok'.
    { apply forallb_forall. exact Hok. }
    cbn [keeps_holes] in Hh1, Hh2. cbn [walk].
    pose proof (or_empty_well old1 next1 Ho) as Ho'.
    destruct (or_empty old1 next1) as [old1' next1']. cbn [fst] in Ho'.
    pose proof (fun data1 => out_elems_twice old1' data1 path es IHes Hwe Ho' 0 init1 init2
                  (refs1, next1') (refs2, next2) Hh1 Hh2 Hs) as He.
    destruct (out_elems subs index options walk' old1' path es 0 init1 (refs1, next1'))
      as [es1 st1].
    pose proof (fun data1 st2 => out_named_twice ps old1' data1 path st1 st2 IHps Hwp Hd Ho')
      as Hp.
    destruct (out_named subs index options walk' old1' path ps st1) as [outs1 st1'] eqn:Eo.
    cbn [fst or_empty truthy] in *.
    specialize (He (VArray n1 es1 (hidden_fields (VArray id es ps) ++ outs1))).
    destruct (out_elems subs index options walk'
                (OldValue (VArray n1 es1 (hidden_fields (VArray id es ps) ++ outs1)))
                path es 0 init2 (refs2, next2)) as [es2 st2].
    specialize (Hp (VArray n1 es1 (hidden_fields (VArray id es ps) ++ outs1)) st2).
    destruct (out_named subs index options walk'
                (OldValue (VArray n1 es1 (hidden_fields (VArray id es ps) ++ outs1)))
                path ps st2) as [outs2 st2'].
    unfold hidden_fields in *. cbn [fst deep_equal named_of] in *.
    rewrite He, Hp; auto.
    + intros k w a El. unfold peek. cbn [get].
      assert (In k (keys ps)) as Hk.
      { apply alookup_In in El. apply in_app_or in El. destruct El as [Hi|Hi].
        - apply filter_In in Hi. destruct Hi as [Hi _]. apply (in_map fst) in Hi. exact Hi.
        - apply (in_map fst) in Hi. cbn [fst] in Hi.
          pose proof (out_named_keys subs index options walk' old1' path ps st1) as Ek.
          rewrite Eo in Ek. cbn [fst] in Ek. unfold keys in Ek. rewrite Ek in Hi.
          apply in_map_iff in Hi. destruct Hi as [[k' v'] [E Hi]]. cbn [fst] in E. subst k'.
          apply created_named_In in Hi. destruct Hi as [Hi _].
          apply enumerable_named_In in Hi. destruct Hi as [a' [Hi _]].
          apply (in_map fst) in Hi. exact Hi. }
      destruct (named_key_ok_index k (Hok' k Hk)) as [-> ->]. rewrite El. reflexivity.
    + intros j w Hj. unfold peek. cbn [get Nat.add].
      rewrite index_of_key_index_key, Hj. reflexivity.
  - (* record *)
    cbn [well_formed] in Hwf. rewrite !andb_true_iff in Hwf.
    destruct Hwf as [Hd Hwp]. apply nodupb_NoDup in Hd. cbn [walk].
    pose proof (or_empty_well old1 next1 Ho) as Ho'.
    destruct (or_empty old1 next1) as [old1' next1']. cbn [fst] in Ho'.
    pose proof (fun data1 st2 => out_named_twice ps old1' data1 path (refs1, next1') st2
                  IHps Hwp Hd Ho') as Hp.
    destruct (out_named subs index options walk' old1' path ps (refs1, next1'))
      as [outs1 st1'].
    cbn [fst or_empty truthy] in *.
    specialize (Hp (VObject n1 (hidden_fields (VObject id ps) ++ outs1)) (refs2, next2)).
    destruct (out_named subs index options walk'
                (OldValue (VObject n1 (hidden_fields (VObject id ps) ++ outs1)))
                path ps (refs2, next2)) as [outs2 st2'].
    unfold hidden_fields in *. cbn [fst deep_equal named_of] in *.
    apply Hp. intros k w a El. unfold peek. cbn [get]. rewrite El. reflexivity.
Qed.

End Twice.

Lemma subsByPath_well_formed (subs : registry) (index : path_index) :
  subsByPath subs = Ok index ->
  (forall k s, In (k, s) subs -> well_formed (sub_data s tt) = true) ->
  Forall (fun pv : string * value => well_formed (snd pv) = true) index.
Proof.
  intros Ei Hsubs. apply Forall_forall. intros [p v] Hi.
  destruct (subsByPath_values subs index Ei p v Hi) as [k [s [Hks ->]]].
  apply (Hsubs k s Hks).
Qed.



(** ** What a call that returns has read *)

Section Visits.
Context `{Host}.
Variable subs : registry.
Variable index : path_index.
Variable options : FirestoreRefOptionsWithDefaults.
Variable rec : value -> old_source -> string -> walk_state -> completion walk_state.
Variable oldDoc : old_source.
Variable path : string.



End Visits.



(** Lines 119 and 126 have read the old document. *)
Lemma visit_container_reads `{Host} (subs : registry) (index : path_index)
  (options : FirestoreRefOptionsWithDefaults) rec (o : value) (path key : string)
  (v : value) (st1 st2 : walk_state) :
  visit subs index options rec (OldValue o) path key v st1 = Ok st2 ->
  isPOJO v || isArray v = true ->
  exists w, get o key = Ok w.
Proof.
  destruct st1 as [[data refs] next]. intros Run Hc.
  destruct v as [| |b| |z|s|ms|s ns|la lo|r|id es ps|id ps|fn]; try discriminate Hc;
    cbn [visit] in Run.
  - destruct (put data key _) as [d1|e]; cbn [bind] in Run; [|discriminate Run].
    destruct (fill_existing index es 0 _) as [filled|e]; cbn [bind] in Run;
      [|discriminate Run].
    destruct (put d1 key filled) as [d2|e]; cbn [bind] in Run; [|discriminate Run].
    destruct (get o key) as [w|e]; [eauto|discriminate Run].
  - destruct (put data key _) as [d1|e]; cbn [bind] in Run; [|discriminate Run].
    destruct (get o key) as [w|e]; [eauto|discriminate Run].
Qed.

(** ** The state in which a call that returns reaches a field *)

Section Trace.
Context `{Host}.
Variable subs : registry.
Variable index : path_index.
Variable options : FirestoreRefOptionsWithDefaults.

Abbreviation walk_t := (walk subs index options).

Lemma forin_named_trace rec oldDoc path (mk : props -> value) (ps : props) :
  NoDup (keys ps) ->
  (forall l k, In k (keys ps) -> alookup k l = None -> k <> "__proto__" ->
     vacant (mk l) k (unset k) (fun w => mk (l ++ [(k, (w, plain))])%list)) ->
  (forall l v, alookup "__proto__" l = None ->
     put (mk l) "__proto__" v = if no_prototype v then Ok (mk l) else Throw Unmodelled) ->
  (forall l, alookup "__proto__" l = None -> exists e, get (mk l) "__proto__" = Throw e) ->
  Forall (fun kp => agrees subs index options rec (fst (snd kp))) ps ->
  forall l refs next st',
  (forall k v a, In (k, (v, a)) ps -> enumerable a = true -> alookup k l = None) ->
  forin_named subs index options rec oldDoc path ps (mk l, refs, next) = Ok st' ->
  forall k v a, In (k, (v, a)) ps -> enumerable a = true ->
  exists l1 refs1 next1 st2,
    visit subs index options rec oldDoc path k v (mk l1, refs1, next1) = Ok st2
    /\ alookup k l1 = None
    /\ (k <> "__proto__" ->
        alookup k (fst (out_named subs index options walk_t oldDoc path ps (refs, next))) =
        Some (fst (out_field subs index options walk_t oldDoc path k v (unset k)
                     (refs1, next1)), plain)).
Proof.
  intros Hd Hmk Hput Hget Hrec. induction ps as [|[k' [v' a']] r IH];
    intros l refs next st' Hl Run k v a Hi Ha; [contradiction|].
  inversion Hd as [|? ? Hk Hr]; subst. inversion Hrec as [|? ? Hv Hrs]; subst.
  assert (forall l k, In k (keys r) -> alookup k l = None -> k <> "__proto__" ->
            vacant (mk l) k (unset k) (fun w => mk (l ++ [(k, (w, plain))])%list)) as Hmk'.
  { intros l0 k0 Hi0. apply Hmk. simpl. auto. }
  cbn [forin_named out_named] in *. destruct Hi as [E|Hi].
  - inversion E; subst. rewrite Ha in *.
    destruct (visit subs index options rec oldDoc path k v (mk l, refs, next)) as [st2|e] eqn:Ev;
      [|discriminate Run].
    exists l, refs, next, st2. split; [exact Ev|].
    split; [apply (Hl k v a); simpl; auto|]. intros N.
    destruct (out_field subs index options walk_t oldDoc path k v (unset k) (refs, next))
      as [w st1].
    destruct (out_named subs index options walk_t oldDoc path r st1) as [outs st3].
    apply String.eqb_neq in N. rewrite N. cbn [fst alookup]. rewrite String.eqb_refl.
    reflexivity.
  - assert (k <> k') as Nk.
    { intros ->. apply Hk. apply (in_map fst) in Hi. exact Hi. }
    destruct (enumerable a') eqn:Ea'.
    + assert (alookup k' l = None) as Hkl by (apply (Hl k' v' a'); simpl; auto).
      destruct (visit subs index options rec oldDoc path k' v' (mk l, refs, next))
        as [st2|e] eqn:Ev; cbn [bind] in Run; [|discriminate Run].
      destruct (String.eqb_spec k' "__proto__") as [->|N'].
      * apply (visit_proto subs index options rec oldDoc path v' (unset "__proto__") (mk l)
                 refs next (fun w => Hput l w Hkl) (Hget l Hkl)) in Ev.
        destruct (out_field subs index options walk_t oldDoc path "__proto__" v'
                    (unset "__proto__") (refs, next)) as [w [refs1 next1]].
        subst st2.
        destruct (IH Hr Hmk' Hrs l refs1 next1 st'
                    ltac:(intros k0 v0 a0 Hi0; apply (Hl k0 v0 a0); simpl; auto)
                    Run k v a Hi Ha) as [l1 [refs2 [next2 [st3 [Hvisit [Hnone Hlook]]]]]].
        exists l1, refs2, next2, st3. split; [exact Hvisit|]. split; [exact Hnone|].
        destruct (out_named subs index options walk_t oldDoc path r (refs1, next1))
          as [outs st4].
        exact Hlook.
      * assert (vacant (mk l) k' (unset k')
                  (fun w => mk (l ++ [(k', (w, plain))])%list)) as V.
        { apply Hmk; simpl; auto. }
        apply (visit_closed subs index options rec oldDoc path k' v' _ _ _ refs next V Hv)
          in Ev.
        destruct (out_field subs index options walk_t oldDoc path k' v' (unset k')
                    (refs, next)) as [w [refs1 next1]].
        subst st2.
        assert (forall k0 v0 a0, In (k0, (v0, a0)) r -> enumerable a0 = true ->
                  alookup k0 (l ++ [(k', (w, plain))])%list = None) as Hl'.
        { intros k0 v0 a0 Hi0 He0. rewrite alookup_app, (Hl k0 v0 a0); simpl; auto.
          destruct (String.eqb_spec k0 k') as [->|N0]; auto.
          exfalso. apply Hk. apply (in_map fst) in Hi0. exact Hi0. }
        destruct (IH Hr Hmk' Hrs (l ++ [(k', (w, plain))])%list refs1 next1 st' Hl' Run
                    k v a Hi Ha) as [l1 [refs2 [next2 [st3 [Hvisit [Hnone Hlook]]]]]].
        exists l1, refs2, next2, st3. split; [exact Hvisit|]. split; [exact Hnone|].
        destruct (out_named subs index options walk_t oldDoc path r (refs1, next1))
          as [outs st4].
        cbn [fst alookup] in *. apply String.eqb_neq in Nk. rewrite Nk. exact Hlook.
    + apply (IH Hr Hmk' Hrs l refs next st'
               ltac:(intros k0 v0 a0 Hi0; apply (Hl k0 v0 a0); simpl; auto)
               Run k v a Hi Ha).
Qed.

Lemma forin_elems_trace rec oldDoc path n l (es : list (option value)) :
  Forall (fun e => match e with
                   | Some v => agrees subs index options rec v
                   | None => True
                   end) es ->
  forall pre init refs next st',
  List.length init = List.length es ->
  forin_elems subs index options rec oldDoc path es (List.length pre)
    (VArray n (pre ++ init)%list l, refs, next) = Ok st' ->
  forall j v, nth_error es j = Some (Some v) ->
  exists data1 refs1 next1 st2 f,
    visit subs index options rec oldDoc path (index_key (List.length pre + j)) v
      (data1, refs1, next1) = Ok st2
    /\ nth_error init j = Some f
    /\ nth_error (fst (out_elems subs index options walk_t oldDoc path es (List.length pre)
                         init (refs, next))) j =
       Some (Some (fst (out_field subs index options walk_t oldDoc path
                          (index_key (List.length pre + j)) v (elem_value f)
                          (refs1, next1)))).
Proof.
  intros Hrec. induction es as [|e r IH]; intros pre init refs next st' Hlen Run j v Hj.
  - destruct j; discriminate Hj.
  - destruct init as [|f fr]; [discriminate|]. simpl in Hlen.
    inversion Hrec as [|? ? He Hr]; subst.
    assert (forall slot : option value, S (List.length pre) = List.length (pre ++ [slot])) as Len.
    { intros slot. rewrite length_app. simpl. lia. }
    cbn [forin_elems out_elems] in *. destruct e as [w|].
    + destruct (visit subs index options rec oldDoc path (index_key (List.length pre)) w
                  (VArray n (pre ++ f :: fr) l, refs, next)) as [st2|err] eqn:Ev;
        cbn [bind] in Run; [|discriminate Run].
      destruct j as [|j]; cbn [nth_error] in Hj.
      * injection Hj as ->. rewrite Nat.add_0_r.
        exists (VArray n (pre ++ f :: fr) l), refs, next, st2, f.
        split; [exact Ev|]. split; [reflexivity|].
        destruct (out_field subs index options walk_t oldDoc path (index_key (List.length pre))
                    v (elem_value f) (refs, next)) as [w1 st1].
        destruct (out_elems subs index options walk_t oldDoc path r (S (List.length pre)) fr st1)
          as [es' st3].
        reflexivity.
      * apply (visit_closed subs index options rec oldDoc path _ w _ _ _ refs next
                 (vacant_elem n pre f fr l) He) in Ev.
        destruct (out_field subs index options walk_t oldDoc path (index_key (List.length pre))
                    w (elem_value f) (refs, next)) as [w1 [refs1 next1]].
        subst st2. rewrite (Len (Some w1)) in *.
        specialize (IH Hr (pre ++ [Some w1])%list fr refs1 next1 st' ltac:(lia)).
        rewrite <- !app_assoc in IH. specialize (IH Run j v Hj).
        destruct IH as [data1 [refs2 [next2 [st3 [f' [Hvisit [Hf Hout]]]]]]].
        replace (List.length (pre ++ [Some w1]) + j) with (List.length pre + S j) in *
          by (rewrite length_app; simpl; lia).
        exists data1, refs2, next2, st3, f'. split; [exact Hvisit|]. split; [exact Hf|].
        destruct (out_elems subs index options walk_t oldDoc path r
                    (List.length (pre ++ [Some w1])) fr (refs1, next1)) as [es' st4].
        exact Hout.
    + destruct j as [|j]; cbn [nth_error] in Hj; [discriminate Hj|].
      rewrite (Len f) in *.
      specialize (IH Hr (pre ++ [f])%list fr refs next st' ltac:(lia)).
      rewrite <- !app_assoc in IH. specialize (IH Run j v Hj).
      destruct IH as [data1 [refs2 [next2 [st3 [f' [Hvisit [Hf Hout]]]]]]].
      replace (List.length (pre ++ [f]) + j) with (List.length pre + S j) in *
        by (rewrite length_app; simpl; lia).
      exists data1, refs2, next2, st3, f'. split; [exact Hvisit|]. split; [exact Hf|].
      destruct (out_elems subs index options walk_t oldDoc path r
                  (List.length (pre ++ [f])) fr (refs, next)) as [es' st4].
      exact Hout.
Qed.

(** A call that returns has run the loop body at every enumerable field
    [k], from a state [(refs1, next1)], and its data holds at [k] what the
    body computed from that state. *)
Lemma recursiveExtract_trace (doc : value) (oldDoc : old_source) (path : string) (n : nat)
  (init : list (option value)) (refs : refs_map) (next : nat) (st' : walk_state)
  (k : string) (v : value) :
  well_formed doc = true ->
  fits doc init ->
  recursiveExtract subs index options doc oldDoc path (fresh_for doc n init, refs, next) =
    Ok st' ->
  In (k, v) (enumerable_fields doc) ->
  k <> "__proto__" ->
  exists data1 refs1 next1 st2,
    visit subs index options (recursiveExtract subs index options)
      (fst (or_empty oldDoc next)) path k v (data1, refs1, next1) = Ok st2
    /\ get (fst (fst st')) k =
       Ok (fst (out_field subs index options walk_t (fst (or_empty oldDoc next)) path k v
                  (seen_at (fresh_for doc n init) k) (refs1, next1))).
Proof.
  intros Hwf Hfit Run Hi N.
  pose proof (recursiveExtract_runs subs index options doc oldDoc path n init refs next st'
                Hwf Hfit Run) as Est.
  destruct doc as [| |b| |z|s|ms|s ns|la lo|r|id es ps|id ps|fn];
    cbn [enumerable_fields] in Hi; try contradiction.
  - (* array *)
    cbn [well_formed] in Hwf. rewrite !andb_true_iff in Hwf.
    destruct Hwf as [[[Hes Hd] Hok] Hps]. apply nodupb_NoDup in Hd. cbn [fits] in Hfit.
    assert (forall k, In k (keys ps) -> named_key_ok k = true) as Hok'.
    { apply forallb_forall. exact Hok. }
    cbn [recursiveExtract fresh_for named_of walk] in *.
    destruct (or_empty oldDoc next) as [old' next']. cbn [fst].
    rewrite (copy_hidden_closed (VArray n init) ps Hd) in Run.
    2: { intros l k0 d Hi0. cbn [defineProperty].
         destruct (named_key_ok_index k0 (Hok' k0 Hi0)) as [-> ->]. reflexivity. }
    2: { intros k0 Hi0. reflexivity. }
    cbn [bind Datatypes.app] in Run.
    assert (Forall (fun e => match e with
                             | Some v => agrees subs index options
                                           (recursiveExtract subs index options) v
                             | None => True
                             end) es) as Hall.
    { apply Forall_forall. intros [w|] Hw; auto. apply recursiveExtract_closed.
      rewrite forallb_forall in Hes. apply (Hes _ Hw). }
    destruct (forin_elems subs index options (recursiveExtract subs index options) old' path
                es 0 (VArray n init (filter (fun kp => negb (enumerable (snd (snd kp)))) ps),
                      refs, next')) as [st1|e] eqn:Ee; cbn [bind] in Run; [|discriminate Run].
    pose proof (forin_elems_closed subs index options (recursiveExtract subs index options)
                  old' path n (filter (fun kp => negb (enumerable (snd (snd kp)))) ps) es Hall
                  [] init refs next' Hfit st1 Ee) as Est1.
    cbn [List.length Datatypes.app] in Est1.
    pose proof (out_elems_slots subs index options walk_t old' path es 0 init (refs, next') Hfit)
      as [_ Hslots].
    apply in_app_or in Hi. destruct Hi as [Hi|Hi].
    + apply elem_fields_In in Hi. destruct Hi as [j [-> Hj]].
      destruct (forin_elems_trace (recursiveExtract subs index options) old' path n _ es Hall
                  [] init refs next' st1 Hfit Ee j v Hj)
        as [data1 [refs1 [next1 [st2 [f [Hvisit [Hf Hout]]]]]]].
      cbn [List.length Nat.add] in *.
      exists data1, refs1, next1, st2. split; [exact Hvisit|].
      destruct (out_elems subs index options walk_t old' path es 0 init (refs, next'))
        as [es' st1'].
      destruct (out_named subs index options walk_t old' path ps st1') as [outs st3].
      subst st'. cbn [flat fst snd get] in *. rewrite index_of_key_index_key, Hout.
      cbn [elem_value]. unfold seen_at. rewrite index_of_key_index_key, Hf. reflexivity.
    + destruct (out_elems subs index options walk_t old' path es 0 init (refs, next'))
        as [es' [refs1 next1]].
      subst st1.
      pose proof Hi as Hi'. apply enumerable_named_In in Hi'. destruct Hi' as [a [Hin Ha]].
      assert (named_key_ok k = true) as Hk.
      { apply Hok'. apply (in_map fst) in Hin. exact Hin. }
      destruct (named_key_ok_index k Hk) as [Ei El].
      pose proof (forin_named_trace (recursiveExtract subs index options) old' path
                    (VArray n es') ps Hd) as Ht.
      specialize (Ht ltac:(intros l k0 Hi0 Hl0 N0; apply vacant_named; auto)).
      specialize (Ht (array_put_proto n es') (array_get_proto n es')).
      specialize (Ht ltac:(apply Forall_forall; intros [k0 [v0 a0]] Hi0;
                           apply recursiveExtract_closed;
                           rewrite forallb_forall in Hps; apply (Hps _ Hi0))).
      specialize (Ht _ refs1 next1 st'
                    ltac:(intros k0 v0 a0 Hi0 He0;
                          apply (hidden_lookup_enumerable ps k0 v0 a0); auto)
                    Run k v a Hin Ha).
      destruct Ht as [l1 [refs2 [next2 [st2 [Hvisit [_ Hlook]]]]]]. specialize (Hlook N).
      exists (VArray n es' l1), refs2, next2, st2. split; [exact Hvisit|].
      destruct (out_named subs index options walk_t old' path ps (refs1, next1)) as [outs st3].
      subst st'. cbn [flat fst snd get] in *. rewrite Ei, El.
      unfold hidden_fields. cbn [named_of].
      rewrite alookup_app, (hidden_lookup_enumerable ps k v a Hd Hin Ha), Hlook.
      unfold seen_at. rewrite Ei. reflexivity.
  - (* record *)
    cbn [well_formed] in Hwf. rewrite !andb_true_iff in Hwf.
    destruct Hwf as [Hd Hps]. apply nodupb_NoDup in Hd.
    cbn [recursiveExtract fresh_for named_of walk] in *.
    destruct (or_empty oldDoc next) as [old' next']. cbn [fst].
    rewrite (copy_hidden_closed (VObject n) ps Hd) in Run.
    2: { intros l k0 d Hi0. reflexivity. }
    2: { intros k0 Hi0. reflexivity. }
    cbn [bind Datatypes.app] in Run.
    pose proof Hi as Hi'. apply enumerable_named_In in Hi'. destruct Hi' as [a [Hin Ha]].
    pose proof (forin_named_trace (recursiveExtract subs index options) old' path
                  (VObject n) ps Hd) as Ht.
    specialize (Ht ltac:(intros l k0 Hi0 Hl0 N0; apply vacant_record; auto)).
    specialize (Ht (record_put_proto n) (record_get_proto n)).
    specialize (Ht ltac:(apply Forall_forall; intros [k0 [v0 a0]] Hi0;
                         apply recursiveExtract_closed;
                         rewrite forallb_forall in Hps; apply (Hps _ Hi0))).
    specialize (Ht _ refs next' st'
                  ltac:(intros k0 v0 a0 Hi0 He0;
                        apply (hidden_lookup_enumerable ps k0 v0 a0); auto)
                  Run k v a Hin Ha).
    destruct Ht as [l1 [refs2 [next2 [st2 [Hvisit [_ Hlook]]]]]]. specialize (Hlook N).
    exists (VObject n l1), refs2, next2, st2. split; [exact Hvisit|].
    destruct (out_named subs index options walk_t old' path ps (refs, next')) as [outs st3].
    subst st'. cbn [flat fst snd get] in *.
    unfold hidden_fields. cbn [named_of].
    rewrite alookup_app, (hidden_lookup_enumerable ps k v a Hd Hin Ha), Hlook.
    reflexivity.
Qed.

(** What the loop body has run when it returns on an array. *)
Lemma visit_array_parts rec (oldDoc : old_source) (path key : string) (a : nat)
  (es : list (option value)) (ps : props) (data1 : value) (refs1 : refs_map) (next1 : nat)
  (st2 : walk_state) :
  visit subs index options rec oldDoc path key (VArray a es ps) (data1, refs1, next1) = Ok st2 ->
  fill_existing index es 0 (VArray next1 (repeat None (List.length es)) []) =
    Ok (VArray next1 (map (filled_slot index) es) [])
  /\ (forall o, oldDoc = OldValue o -> exists ov, get o key = Ok ov)
  /\ exists result,
       rec (VArray a es ps) (old_for_array oldDoc key) (path ++ key ++ ".")
         (VArray next1 (map (filled_slot index) es) [], refs1, S next1) = Ok result.
Proof.
  cbn [visit]. intros Run.
  destruct (put data1 key _) as [d1|e]; cbn [bind] in Run; [|discriminate Run].
  destruct (fill_existing index es 0 _) as [filled|e] eqn:Ef; cbn [bind] in Run;
    [|discriminate Run].
  pose proof (fill_existing_closed index es [] next1 filled Ef) as Efilled.
  cbn [Datatypes.app] in Efilled. subst filled.
  destruct (put d1 key _) as [d2|e]; cbn [bind] in Run; [|discriminate Run].
  split; [reflexivity|].
  destruct oldDoc as [o|]; cbn [old_for_array].
  - destruct (get o key) as [ov|e] eqn:Eo; cbn [bind] in Run; [|discriminate Run].
    split; [intros o' [= <-]; eauto|].
    unfold peek. rewrite Eo.
    destruct (rec (VArray a es ps) _ _ _) as [result|e]; [eauto|discriminate Run].
  - cbn [bind] in Run. split; [intros o' E; discriminate E|].
    destruct (rec (VArray a es ps) _ _ _) as [result|e]; [eauto|discriminate Run].
Qed.

(** What the loop body has run when it returns on a record. *)
Lemma visit_record_parts rec (oldDoc : old_source) (path key : string) (a : nat)
  (ps : props) (data1 : value) (refs1 : refs_map) (next1 : nat) (st2 : walk_state) :
  visit subs index options rec oldDoc path key (VObject a ps) (data1, refs1, next1) = Ok st2 ->
  (forall o, oldDoc = OldValue o -> exists ov, get o key = Ok ov)
  /\ exists result,
       rec (VObject a ps) (old_for_record oldDoc key) (path ++ key ++ ".")
         (VObject next1 [], refs1, S next1) = Ok result.
Proof.
  cbn [visit]. intros Run.
  destruct (put data1 key _) as [d1|e]; cbn [bind] in Run; [|discriminate Run].
  destruct oldDoc as [o|]; cbn [old_for_record].
  - destruct (get o key) as [ov|e] eqn:Eo; cbn [bind] in Run; [|discriminate Run].
    split; [intros o' [= <-]; eauto|].
    unfold peek. rewrite Eo.
    destruct (rec (VObject a ps) _ _ _) as [result|e]; [eauto|discriminate Run].
  - cbn [bind] in Run. split; [intros o' E; discriminate E|].
    destruct (rec (VObject a ps) _ _ _) as [result|e]; [eauto|discriminate Run].
Qed.

(** The loop body raises on an array or record at the key [__proto__] of a
    container that has no own property of that name. *)
Lemma visit_proto_container rec (oldDoc : old_source) (path : string) (v data : value)
  (refs : refs_map) (next : nat) (st2 : walk_state) :
  (forall w, put data "__proto__" w =
             if no_prototype w then Ok data else Throw Unmodelled) ->
  visit subs index options rec oldDoc path "__proto__" v (data, refs, next) = Ok st2 ->
  isPOJO v || isArray v = false.
Proof.
  intros Hput Run.
  destruct v as [| |b| |z|s|ms|s ns|la lo|r|id es ps|id ps|fn]; try reflexivity;
    cbn [visit] in Run; rewrite Hput in Run; cbn [no_prototype bind] in Run;
    discriminate Run.
Qed.

(** A call that returns has met no array or record at a key [__proto__]. *)
Lemma recursiveExtract_proto_scalar (doc : value) (oldDoc : old_source) (path : string)
  (n : nat) (init : list (option value)) (refs : refs_map) (next : nat) (st' : walk_state)
  (v : value) :
  well_formed doc = true ->
  fits doc init ->
  recursiveExtract subs index options doc oldDoc path (fresh_for doc n init, refs, next) =
    Ok st' ->
  In ("__proto__", v) (enumerable_fields doc) ->
  isPOJO v || isArray v = false.
Proof.
  intros Hwf Hfit Run Hi.
  destruct doc as [| |b| |z|s|ms|s ns|la lo|r|id es ps|id ps|fn];
    cbn [enumerable_fields] in Hi; try contradiction.
  - (* array *)
    cbn [well_formed] in Hwf. rewrite !andb_true_iff in Hwf.
    destruct Hwf as [[[Hes Hd] Hok] Hps]. apply nodupb_NoDup in Hd. cbn [fits] in Hfit.
    assert (forall k, In k (keys ps) -> named_key_ok k = true) as Hok'.
    { apply forallb_forall. exact Hok. }
    apply in_app_or in Hi. destruct Hi as [Hi|Hi].
    { apply elem_fields_In in Hi. destruct Hi as [j [E _]].
      exfalso. apply (index_key_not_proto (0 + j)). symmetry. exact E. }
    cbn [recursiveExtract fresh_for named_of] in Run.
    destruct (or_empty oldDoc next) as [old' next'].
    rewrite (copy_hidden_closed (VArray n init) ps Hd) in Run.
    2: { intros l k0 d Hi0. cbn [defineProperty].
         destruct (named_key_ok_index k0 (Hok' k0 Hi0)) as [-> ->]. reflexivity. }
    2: { intros k0 Hi0. reflexivity. }
    cbn [bind Datatypes.app] in Run.
    assert (Forall (fun e => match e with
                             | Some v => agrees subs index options
                                           (recursiveExtract subs index options) v
                             | None => True
                             end) es) as Hall.
    { apply Forall_forall. intros [w|] Hw; auto. apply recursiveExtract_closed.
      rewrite forallb_forall in Hes. apply (Hes _ Hw). }
    destruct (forin_elems subs index options (recursiveExtract subs index options) old' path
                es 0 (VArray n init (filter (fun kp => negb (enumerable (snd (snd kp)))) ps),
                      refs, next')) as [st1|e] eqn:Ee; cbn [bind] in Run; [|discriminate Run].
    pose proof (forin_elems_closed subs index options (recursiveExtract subs index options)
                  old' path n (filter (fun kp => negb (enumerable (snd (snd kp)))) ps) es Hall
                  [] init refs next' Hfit st1 Ee) as Est1.
    cbn [List.length Datatypes.app] in Est1.
    destruct (out_elems subs index options walk_t old' path es 0 init (refs, next'))
      as [es' [refs1 next1]].
    subst st1.
    apply enumerable_named_In in Hi. destruct Hi as [a [Hin Ha]].
    pose proof (forin_named_trace (recursiveExtract subs index options) old' path
                  (VArray n es') ps Hd) as Ht.
    specialize (Ht ltac:(intros l k0 Hi0 Hl0 N0; apply vacant_named; auto)).
    specialize (Ht (array_put_proto n es') (array_get_proto n es')).
    specialize (Ht ltac:(apply Forall_forall; intros [k0 [v0 a0]] Hi0;
                         apply recursiveExtract_closed;
                         rewrite forallb_forall in Hps; apply (Hps _ Hi0))).
    specialize (Ht _ refs1 next1 st'
                  ltac:(intros k0 v0 a0 Hi0 He0;
                        apply (hidden_lookup_enumerable ps k0 v0 a0); auto)
                  Run "__proto__" v a Hin Ha).
    destruct Ht as [l1 [refs2 [next2 [st2 [Hvisit [Hnone _]]]]]].
    apply (visit_proto_container _ old' path v _ refs2 next2 st2
             (fun w => array_put_proto n es' l1 w Hnone) Hvisit).
  - (* record *)
    cbn [well_formed] in Hwf. rewrite !andb_true_iff in Hwf.
    destruct Hwf as [Hd Hps]. apply nodupb_NoDup in Hd.
    cbn [recursiveExtract fresh_for named_of] in Run.
    destruct (or_empty oldDoc next) as [old' next'].
    rewrite (copy_hidden_closed (VObject n) ps Hd) in Run.
    2: { intros l k0 d Hi0. reflexivity. }
    2: { intros k0 Hi0. reflexivity. }
    cbn [bind Datatypes.app] in Run.
    apply enumerable_named_In in Hi. destruct Hi as [a [Hin Ha]].
    pose proof (forin_named_trace (recursiveExtract subs index options) old' path
                  (VObject n) ps Hd) as Ht.
    specialize (Ht ltac:(intros l k0 Hi0 Hl0 N0; apply vacant_record; auto)).
    specialize (Ht (record_put_proto n) (record_get_proto n)).
    specialize (Ht ltac:(apply Forall_forall; intros [k0 [v0 a0]] Hi0;
                         apply recursiveExtract_closed;
                         rewrite forallb_forall in Hps; apply (Hps _ Hi0))).
    specialize (Ht _ refs next' st'
                  ltac:(intros k0 v0 a0 Hi0 He0;
                        apply (hidden_lookup_enumerable ps k0 v0 a0); auto)
                  Run "__proto__" v a Hin Ha).
    destruct Ht as [l1 [refs2 [next2 [st2 [Hvisit [Hnone _]]]]]].
    apply (visit_proto_container _ old' path v _ refs2 next2 st2
             (fun w => record_put_proto n l1 w Hnone) Hvisit).
Qed.

(** The data of a call has no own property [__proto__] where the document
    has an enumerable one. *)
Lemma walk_get_proto (doc : value) (oldDoc : old_source) (path : string) (n : nat)
  (init : list (option value)) (st : refs_map * nat) (v : value) :
  well_formed doc = true ->
  In ("__proto__", v) (enumerable_fields doc) ->
  get (fst (walk_t doc oldDoc path n init st)) "__proto__" = Throw Unmodelled.
Proof.
  intros Hwf Hi. destruct st as [refs next].
  destruct doc as [| |b| |z|s|ms|s ns|la lo|r|id es ps|id ps|fn];
    cbn [enumerable_fields] in Hi; try contradiction.
  - cbn [well_formed] in Hwf. rewrite !andb_true_iff in Hwf.
    destruct Hwf as [[[Hes Hd] Hok] Hps]. apply nodupb_NoDup in Hd.
    apply in_app_or in Hi. destruct Hi as [Hi|Hi].
    { apply elem_fields_In in Hi. destruct Hi as [j [E _]].
      exfalso. apply (index_key_not_proto (0 + j)). symmetry. exact E. }
    apply enumerable_named_In in Hi. destruct Hi as [a [Hin Ha]].
    cbn [walk]. destruct (or_empty oldDoc next) as [old' next'].
    destruct (out_elems subs index options walk_t old' path es 0 init (refs, next'))
      as [es' st1].
    pose proof (out_named_keys subs index options walk_t old' path ps st1) as Hk.
    destruct (out_named subs index options walk_t old' path ps st1) as [outs st2].
    cbn [fst] in *.
    apply array_get_proto_none. unfold hidden_fields. cbn [named_of].
    rewrite alookup_app, (hidden_lookup_enumerable ps _ v a Hd Hin Ha).
    apply alookup_None_keys. rewrite Hk. intros Hc.
    apply in_map_iff in Hc. destruct Hc as [[k' v'] [E Hc]]. cbn [fst] in E. subst k'.
    apply created_named_In in Hc. destruct Hc as [_ Hc]. congruence.
  - cbn [well_formed] in Hwf. rewrite !andb_true_iff in Hwf.
    destruct Hwf as [Hd Hps]. apply nodupb_NoDup in Hd.
    apply enumerable_named_In in Hi. destruct Hi as [a [Hin Ha]].
    cbn [walk]. destruct (or_empty oldDoc next) as [old' next'].
    pose proof (out_named_keys subs index options walk_t old' path ps (refs, next')) as Hk.
    destruct (out_named subs index options walk_t old' path ps (refs, next')) as [outs st2].
    cbn [fst get] in *. unfold hidden_fields. cbn [named_of].
    rewrite alookup_app, (hidden_lookup_enumerable ps _ v a Hd Hin Ha).
    assert (alookup "__proto__" outs = None) as ->.
    { apply alookup_None_keys. rewrite Hk. intros Hc.
      apply in_map_iff in Hc. destruct Hc as [[k' v'] [E Hc]]. cbn [fst] in E. subst k'.
      apply created_named_In in Hc. destruct Hc as [_ Hc]. congruence. }
    reflexivity.
Qed.

End Trace.

(** What lines 112-117 have read when they return. *)
Lemma fill_existing_reads `{Host} (index : path_index) (es : list (option value)) (i : nat)
  (arr arr' : value) :
  fill_existing index es i arr = Ok arr' ->
  forall j e, nth_error es j = Some e -> truthy (elem_value e) = true ->
  exists p k,
    get (elem_value e) "path" = Ok p /\ ToPropertyKey p = Ok k
    /\ (has_property k index = true -> exists v, index_get index k = Ok v).
Proof.
  revert i arr. induction es as [|e0 r IH]; intros i arr Run j e Hj T.
  - destruct j; discriminate Hj.
  - cbn [fill_existing] in Run. destruct j as [|j]; cbn [nth_error] in Hj.
    + injection Hj as ->. rewrite T in Run.
      destruct (get (elem_value e) "path") as [p|err] eqn:Ep; cbn [bind] in Run;
        [|discriminate Run].
      destruct (ToPropertyKey p) as [k|err] eqn:Ek; cbn [bind] in Run; [|discriminate Run].
      exists p, k. split; [reflexivity|]. split; [exact Ek|].
      intros Hb. rewrite Hb in Run.
      destruct (index_get index k) as [v|err]; [eauto|discriminate Run].
    + match type of Run with
      | bind ?m _ = _ => destruct m as [arr1|err]; cbn [bind] in Run; [|discriminate Run]
      end.
      apply (IH (S i) arr1 Run j e Hj T).
Qed.

(** The slot lines 112-117 leave for an element, from what they read. *)
Lemma filled_slot_spec `{Host} (index : path_index) (e : option value) :
  (truthy (elem_value e) = false -> filled_slot index e = None)
  /\ (truthy (elem_value e) = true ->
      forall p k, get (elem_value e) "path" = Ok p -> ToPropertyKey p = Ok k ->
        (has_property k index = false -> filled_slot index e = None)
        /\ (has_property k index = true ->
            forall v, index_get index k = Ok v -> filled_slot index e = Some v)).
Proof.
  unfold filled_slot. split.
  - intros ->. reflexivity.
  - intros -> p k Ep Ek. unfold peek, key_of. rewrite Ep, Ek. split.
    + intros ->. reflexivity.
    + intros -> v Ev. unfold index_peek. rewrite Ev. reflexivity.
Qed.

(** ** References under a chain of keys *)

Lemma concat_cons (k k2 : string) (ks : list string) (path : string) :
  path ++ String.concat "." (k :: k2 :: ks) = (path ++ k ++ ".") ++ String.concat "." (k2 :: ks).
Proof.
  cbn [String.concat]. rewrite !append_assoc. reflexivity.
Qed.

Lemma field_at_step (doc : value) (k : string) (ks : list string) (v : value) :
  field_at doc (k :: ks) = Some v ->
  exists w, In (k, w) (enumerable_fields doc) /\ field_at w ks = Some v.
Proof.
  cbn [field_at]. destruct (alookup k (enumerable_fields doc)) as [w|] eqn:E; [|discriminate].
  intros Hf. exists w. split; [apply alookup_In; exact E|exact Hf].
Qed.

Lemma field_at_container (w : value) (k : string) (ks : list string) (v : value) :
  field_at w (k :: ks) = Some v -> isPOJO w || isArray w = true.
Proof.
  intros Hf. destruct (field_at_step w k ks v Hf) as [w' [Hi _]].
  apply (enumerable_fields_container w k w' Hi).
Qed.

Lemma unset_index_key (i : nat) : unset (index_key i) = VUndefined.
Proof.
  unfold unset, peek. cbn [get alookup].
  assert (inherited (index_key i) = false) as Hn.
  { destruct (inherited (index_key i)) eqn:E; [|reflexivity].
    unfold inherited, listed in E. apply existsb_exists in E. destruct E as [x [Hx E]].
    apply String.eqb_eq in E. subst x.
    pose proof (index_of_key_index_key i) as Hi.
    cbn [object_prototype_names In] in Hx.
    repeat (destruct Hx as [Hx|Hx]; [rewrite <- Hx in Hi; discriminate Hi|]).
    contradiction. }
  rewrite (object_member_not_inherited _ Hn). reflexivity.
Qed.

Lemma old_at_empty (n : nat) (k : string) : peek (VObject n []) k = unset k.
Proof. reflexivity. Qed.

Section Chains.
Context `{Host}.
Variable subs : registry.
Variable index : path_index.
Variable options : FirestoreRefOptionsWithDefaults.

Abbreviation walk_c := (walk subs index options).

(** The slots a call on an array starts from are those lines 112-117
    left. *)
Abbreviation init_filled doc init :=
  (match doc with
   | VArray _ es _ => init = map (filled_slot index) es
   | _ => True
   end).

Lemma walk_chain (ks : list string) :
  forall doc os path n init refs next r k,
  well_formed doc = true ->
  fits doc init ->
  init_filled doc init ->
  field_at doc (ks ++ [k]) = Some (VRef r) ->
  Forall (fun x => x <> "__proto__") (ks ++ [k]) ->
  exists w,
    get_path (fst (walk_c doc os path n init (refs, next))) (ks ++ [k]) = Ok w
    /\ (has_property (path ++ String.concat "." (ks ++ [k])) subs = false ->
        w = VStr (DocumentReference.path r))
    /\ (has_property (path ++ String.concat "." (ks ++ [k])) subs = true ->
        (forall o, os = OldValue o ->
           w = old_at o (ks ++ [k]) \/ w = unset k
           \/ w = index_peek index (DocumentReference.path r))
        /\ (os = OldIsData ->
            w = unset k \/ w = index_peek index (DocumentReference.path r))
        /\ (forall o, os = OldValue o -> through_records doc (ks ++ [k]) = true ->
              w = old_at o (ks ++ [k]))).
Proof.
  induction ks as [|k1 ks IH]; intros doc os path n init refs next r k Hwf Hfit Hinit Hf Hn.
  - cbn [Datatypes.app] in *.
    destruct (field_at_step doc k [] _ Hf) as [w0 [Hi Hw0]]. cbn [field_at] in Hw0.
    injection Hw0 as ->. inversion Hn as [|? ? N _]; subst.
    destruct (walk_field subs index options doc os path n init refs next k (VRef r)
                Hwf Hfit Hi N) as [[refs0 next0] Hget].
    eexists. cbn [get_path]. rewrite Hget. cbn [bind out_field fst String.concat].
    split; [reflexivity|]. split.
    + intros ->. reflexivity.
    + intros ->. split; [|split].
      * intros o ->. left. cbn [or_empty old_at].
        destruct (truthy o); reflexivity.
      * intros ->. cbn [or_empty fst].
        destruct doc as [| |b| |z|s|ms|s ns|la lo|r0|id es ps|id ps|fn];
          cbn [enumerable_fields] in Hi; try contradiction; cbn [fresh_for].
        -- unfold seen_at. destruct (index_of_key k) as [i|] eqn:Ei; [|left; reflexivity].
           apply in_app_or in Hi. destruct Hi as [Hi|Hi].
           ++ apply elem_fields_In in Hi. destruct Hi as [j [-> Hj]]. cbn [Nat.add] in Ei.
              rewrite index_of_key_index_key in Ei. injection Ei as <-.
              cbn beta iota in Hinit. subst init.
              rewrite nth_error_map, Hj. cbn [option_map].
              unfold filled_slot. cbn [elem_value truthy].
              change (peek (VRef r) "path") with (VStr (DocumentReference.path r)).
              change (key_of (VStr (DocumentReference.path r)))
                with (DocumentReference.path r).
              destruct (has_property (DocumentReference.path r) index); cbn [elem_value].
              ** right. reflexivity.
              ** left. rewrite unset_index_key. reflexivity.
           ++ cbn [well_formed] in Hwf. rewrite !andb_true_iff in Hwf.
              destruct Hwf as [[[_ _] Hok] _]. rewrite forallb_forall in Hok.
              apply enumerable_named_In in Hi. destruct Hi as [a [Hi _]].
              apply (in_map fst) in Hi. specialize (Hok _ Hi).
              apply named_key_ok_index in Hok. destruct Hok as [Hok _]. cbn [fst] in Hok.
              congruence.
        -- left. unfold seen_at. destruct (index_of_key k); reflexivity.
      * intros o -> _. cbn [or_empty old_at]. destruct (truthy o); reflexivity.
  - cbn [Datatypes.app] in *.
    destruct (field_at_step doc k1 (ks ++ [k]) _ Hf) as [w1 [Hi Hw1]].
    inversion Hn as [|? ? N Hn']; subst.
    assert (exists k2 rest, (ks ++ [k])%list = k2 :: rest) as [k2 [rest Erest]].
    { destruct ks; cbn; eauto. }
    pose proof (field_at_container w1 k2 rest (VRef r)) as Hc. rewrite <- Erest in Hc.
    specialize (Hc Hw1).
    pose proof (well_formed_field doc k1 w1 Hwf Hi) as Hwf1.
    destruct (walk_field subs index options doc os path n init refs next k1 w1
                Hwf Hfit Hi N) as [[refs0 next0] Hget].
    cbn [get_path]. rewrite Hget. cbn [bind].
    rewrite Erest, concat_cons, <- Erest.
    destruct w1 as [| |b| |z|s|ms|s ns|la lo|r0|id es ps|id ps|fn]; try discriminate Hc;
      cbn [out_field fst].
    + (* array *)
      destruct (IH (VArray id es ps) (old_for_array (fst (or_empty os next)) k1)
                  (path ++ k1 ++ ".") next0 (map (filled_slot index) es) refs0 (S next0)
                  r k Hwf1 ltac:(cbn [fits]; apply length_map) eq_refl Hw1 Hn')
        as [w [Hpath [Hno Hyes]]].
      exists w. split; [exact Hpath|]. split; [exact Hno|].
      intros Hb. destruct (Hyes Hb) as [Hval [Hself _]]. split; [|split].
      * intros o ->. cbn [or_empty old_at] in *.
        destruct (truthy o); cbn [fst old_for_array] in *.
        -- destruct (truthy (peek o k1)).
           ++ apply (Hval _ eq_refl).
           ++ right. apply (Hself eq_refl).
        -- change (peek (VObject 0 []) k1) with (peek (VObject next []) k1).
           destruct (truthy (peek (VObject next []) k1)).
           ++ apply (Hval _ eq_refl).
           ++ right. apply (Hself eq_refl).
      * intros ->. cbn [or_empty fst old_for_array] in *. apply (Hself eq_refl).
      * intros o _ Ht. cbn [through_records] in Ht. apply andb_true_iff in Ht.
        destruct Ht as [_ Ht].
        rewrite (alookup_NoDup_In k1 (VArray id es ps) _ (enumerable_fields_NoDup doc Hwf) Hi)
          in Ht.
        rewrite Erest in Ht. cbn [through_records isPOJO andb] in Ht. discriminate Ht.
    + (* record *)
      destruct (IH (VObject id ps) (old_for_record (fst (or_empty os next)) k1)
                  (path ++ k1 ++ ".") next0 [] refs0 (S next0)
                  r k Hwf1 I I Hw1 Hn')
        as [w [Hpath [Hno Hyes]]].
      exists w. split; [exact Hpath|]. split; [exact Hno|].
      intros Hb. destruct (Hyes Hb) as [Hval [Hself Hrec]]. split; [|split].
      * intros o ->. cbn [or_empty old_at] in *.
        destruct (truthy o); cbn [fst old_for_record] in *; apply (Hval _ eq_refl).
      * intros ->. cbn [or_empty fst old_for_record] in *. apply (Hself eq_refl).
      * intros o -> Ht. cbn [through_records] in Ht. apply andb_true_iff in Ht.
        destruct Ht as [_ Ht].
        rewrite (alookup_NoDup_In k1 (VObject id ps) _ (enumerable_fields_NoDup doc Hwf) Hi)
          in Ht.
        cbn [or_empty old_at] in *.
        destruct (truthy o); cbn [fst old_for_record] in *; apply (Hrec _ eq_refl Ht).
Qed.

End Chains.

(** ** Runs of [extractRefs] *)

Lemma extractRefs_closed `{Host} (subs : registry) (options : FirestoreRefOptionsWithDefaults)
  (doc oldDoc : value) (next : nat) (result : walk_state) :
  isPOJO doc = true ->
  well_formed doc = true ->
  extractRefs doc oldDoc subs options next = Ok result ->
  exists index,
    subsByPath subs = Ok index
    /\ recursiveExtract subs index options doc (OldValue oldDoc) "" (VObject next [], [], S next)
       = Ok result
    /\ result = flat (walk subs index options doc (OldValue oldDoc) "" next [] ([], S next)).
Proof.
  intros Hp Hwf Run. unfold extractRefs in Run. rewrite Hp in Run. cbn [negb] in Run.
  destruct (subsByPath subs) as [index|e]; cbn [bind] in Run; [|discriminate Run].
  exists index. split; [reflexivity|]. split; [exact Run|].
  destruct doc; try discriminate Hp.
  apply (recursiveExtract_runs subs index options _ (OldValue oldDoc) "" next [] [] (S next)
           result Hwf I Run).
Qed.

Lemma extractRefs_returns `{Host} (subs : registry) (options : FirestoreRefOptionsWithDefaults)
  (doc oldDoc : value) (next : nat) :
  well_formed doc = true ->
  tame doc = true ->
  follows subs doc (OldValue oldDoc) "" = true ->
  exists result, extractRefs doc oldDoc subs options next = Ok result.
Proof.
  intros Hwf Ht Hf. unfold extractRefs. destruct (isPOJO doc) eqn:Hp; cbn [negb]; [|eauto].
  destruct (subsByPath_total subs) as [index ->]. cbn [bind].
  destruct doc; try discriminate Hp.
  apply (recursiveExtract_returns subs index options _ Hwf (OldValue oldDoc) "" next [] []
           (S next) I Ht Hf (or_introl eq_refl)).
Qed.

(** ** The walker raises no [TypeError] but that of line 115 *)






Section Quiet.
Context `{Host}.
Variable subs : registry.
Variable index : path_index.
Variable options : FirestoreRefOptionsWithDefaults.










End Quiet.


(** ** Reference fields *)




(** ** Array fields *)

(** What a call that returns has done at an array field. *)
Lemma array_field_run `{Host} (subs : registry) (index : path_index)
  (options : FirestoreRefOptionsWithDefaults) (doc : value) (oldDoc : old_source)
  (path : string) (n : nat) (init : list (option value)) (refs : refs_map) (next : nat)
  (key : string) (a : nat) (es : list (option value)) (ps : props) :
  well_formed doc = true ->
  fits doc init ->
  In (key, VArray a es ps) (enumerable_fields doc) ->
  key <> "__proto__" ->
  let run :=
    recursiveExtract subs index options doc oldDoc path (fresh_for doc n init, refs, next) in
  forall data refs' next',
       run = Ok (data, refs', next') ->
       exists m filled es' ps' old_of_call,
         get data key = Ok (VArray m es' ps')
         /\ List.length es' = List.length es
         /\ fill_existing index es 0 (VArray m (repeat None (List.length es)) []) =
              Ok (VArray m filled [])
         /\ (forall i e,
               nth_error es i = Some e ->
               (truthy (elem_value e) = false -> nth_error filled i = Some None)
               /\ (truthy (elem_value e) = true ->
                   exists p k,
                     get (elem_value e) "path" = Ok p /\ ToPropertyKey p = Ok k
                     /\ (amem k index || inherited k = false ->
                         nth_error filled i = Some None)
                     /\ (amem k index || inherited k = true ->
                         exists v, index_get index k = Ok v
                                   /\ nth_error filled i = Some (Some v))
                     /\ (forall v, alookup k index = Some v ->
                           nth_error filled i = Some (Some v))))
         /\ match oldDoc with
            | OldValue o =>
                exists ov,
                  get (if truthy o then o else VObject next []) key = Ok ov
                  /\ old_of_call = (if truthy ov then OldValue ov else OldIsData)
            | OldIsData => old_of_call = OldIsData
            end
         /\ (exists refs0 refs1 next1,
               recursiveExtract subs index options (VArray a es ps) old_of_call
                 (path ++ key ++ ".") (VArray m filled [], refs0, S m) =
               Ok (VArray m es' ps', refs1, next1))
         /\ (forall i, nth_error es i = Some None -> nth_error es' i = Some None)
         /\ (forall i v, nth_error es i = Some (Some v) ->
               exists w, nth_error es' i = Some (Some w))
         /\ (forall i id ps0,
               nth_error es i = Some (Some (VObject id ps0)) ->
               exists m' outs,
                 nth_error es' i =
                   Some (Some (VObject m' (hidden_fields (VObject id ps0) ++ outs)))
                 /\ keys outs = keys (created_named ps0)
                 /\ (forall k v,
                       In (k, v) (enumerable_named ps0) -> k <> "__proto__" ->
                       isDocumentRef v || isArray v || isPOJO v = false ->
                       get (VObject m' (hidden_fields (VObject id ps0) ++ outs)) k = Ok v))
         /\ (old_of_call = OldIsData ->
             forall i r slot,
               nth_error es i = Some (Some (VRef r)) ->
               amem ((path ++ key ++ ".") ++ index_key i) subs
               || inherited ((path ++ key ++ ".") ++ index_key i) = true ->
               nth_error filled i = Some slot ->
               nth_error es' i = Some (Some (elem_value slot))).
Proof.
  intros Hwf Hfit Hi N run data refs' next' Run.
  destruct (recursiveExtract_trace subs index options doc oldDoc path n init refs next _
              key _ Hwf Hfit Run Hi N) as [data1 [refs1 [m [st2 [Hvisit Hget]]]]].
  cbn [fst out_field] in Hget.
  destruct (visit_array_parts subs index options _ _ path key a es ps data1 refs1 m st2 Hvisit)
    as [Hfill [Hread [result RunA]]].
  pose proof (well_formed_field doc key _ Hwf Hi) as Hwfa.
  assert (fits (VArray a es ps) (map (filled_slot index) es)) as Hfita.
  { cbn [fits]. apply length_map. }
  pose proof (recursiveExtract_runs subs index options (VArray a es ps)
                (old_for_array (fst (or_empty oldDoc next)) key)
                (path ++ key ++ ".") m (map (filled_slot index) es) refs1 (S m) result
                Hwfa Hfita RunA) as Eres.
  subst result. cbn [walk] in Hget, RunA.
  destruct (or_empty (old_for_array (fst (or_empty oldDoc next)) key) (S m))
    as [old'' next1] eqn:Eo.
  pose proof (out_elems_slots subs index options (walk subs index options) old''
                (path ++ key ++ ".") es 0 (map (filled_slot index) es) (refs1, next1)
                (length_map _ _)) as [Hlen Hslots].
  destruct (out_elems subs index options (walk subs index options) old''
              (path ++ key ++ ".") es 0 (map (filled_slot index) es) (refs1, next1))
    as [es' st1].
  destruct (out_named subs index options (walk subs index options) old''
              (path ++ key ++ ".") ps st1) as [outs [refs2 next2]].
  cbn [fst snd flat] in *.
  exists m, (map (filled_slot index) es), es',
    (hidden_fields (VArray a es ps) ++ outs)%list,
    (old_for_array (fst (or_empty oldDoc next)) key).
  split; [exact Hget|]. split; [exact Hlen|]. split; [exact Hfill|].
  split.
  { intros i e He. rewrite nth_error_map, He. cbn [option_map].
    destruct (filled_slot_spec index e) as [Hfalse Htrue]. split.
    - intros T. rewrite (Hfalse T). reflexivity.
    - intros T.
      destruct (fill_existing_reads index es 0 _ _ Hfill i e He T) as [p [k [Ep [Ek Hv]]]].
      destruct (Htrue T p k Ep Ek) as [Hno Hyes].
      exists p, k. split; [exact Ep|]. split; [exact Ek|]. split; [|split].
      + intros Hb. rewrite (Hno Hb). reflexivity.
      + intros Hb. destruct (Hv Hb) as [v Ev]. exists v. split; [exact Ev|].
        rewrite (Hyes Hb v Ev). reflexivity.
      + intros v El.
        assert (has_property k index = true) as Hb.
        { unfold has_property, amem. rewrite El. reflexivity. }
        rewrite (Hyes Hb v); [reflexivity|]. unfold index_get. rewrite El. reflexivity. }
  split.
  { destruct oldDoc as [o|]; cbn [or_empty] in *.
    - destruct (truthy o); cbn [fst old_for_array] in *.
      + destruct (Hread o eq_refl) as [ov Eov]. exists ov. split; [exact Eov|].
        unfold peek. rewrite Eov. reflexivity.
      + destruct (Hread _ eq_refl) as [ov Eov]. exists ov. split; [exact Eov|].
        unfold peek. rewrite Eov. reflexivity.
    - reflexivity. }
  split; [exists refs1, refs2, next2; exact RunA|].
  split.
  { intros i Hh. rewrite (proj1 (Hslots i) Hh), nth_error_map, Hh. reflexivity. }
  split.
  { intros i v Hv. destruct (proj2 (Hslots i) v Hv) as [st0 [f [_ Hw]]]. eauto. }
  split.
  { intros i id ps0 Hv. destruct (proj2 (Hslots i) _ Hv) as [[refs3 next3] [f [_ Hw]]].
    assert (well_formed (VObject id ps0) = true) as Hwf0.
    { apply (well_formed_field (VArray a es ps) (index_key (0 + i)) _ Hwfa).
      cbn [enumerable_fields]. apply in_or_app. left. apply elem_fields_In. eauto. }
    pose proof (fun k v Hin Nk =>
                  walk_field subs index options (VObject id ps0)
                    (old_for_record old'' (index_key (0 + i)))
                    ((path ++ key ++ ".") ++ index_key (0 + i) ++ ".") next3 [] refs3
                    (S next3) k v Hwf0 I Hin Nk) as Hfield.
    cbn [out_field fst walk] in Hw, Hfield.
    destruct (or_empty (old_for_record old'' (index_key (0 + i))) (S next3)) as [o3 n3].
    pose proof (out_named_keys subs index options (walk subs index options) o3
                  ((path ++ key ++ ".") ++ index_key (0 + i) ++ ".") ps0 (refs3, n3)) as Hk.
    destruct (out_named subs index options (walk subs index options) o3
                ((path ++ key ++ ".") ++ index_key (0 + i) ++ ".") ps0 (refs3, n3))
      as [outs0 st3].
    cbn [fst] in *. exists next3, outs0. split; [exact Hw|]. split; [exact Hk|].
    intros k v Hin Nk Hs. destruct (Hfield k v Hin Nk) as [[refs4 next4] Hg].
    rewrite Hg. destruct v; try discriminate Hs; reflexivity. }
  intros Hself i r slot Hr Hb Hs.
  destruct (proj2 (Hslots i) _ Hr) as [[refs3 next3] [f [Hf Hw]]].
  rewrite Hw. rewrite Hf in Hs. injection Hs as ->.
  cbn [out_field fst Nat.add].
  change (has_property ((path ++ key ++ ".") ++ index_key i) subs) with
    (amem ((path ++ key ++ ".") ++ index_key i) subs
     || inherited ((path ++ key ++ ".") ++ index_key i)).
  rewrite Hb.
  rewrite Hself in Eo. cbn [or_empty] in Eo. injection Eo as <- <-. reflexivity.
Qed.


(** C2, as the code has it.  For an array [es] at the enumerable field
    [key], [key] other than [__proto__], of a document on which the call
    returns: the output holds at [key] an array of the same length; lines
    112-117 first fill a fresh array of that length: at the position of a
    truthy element whose [path] converts to a key [k] with
    [k in subsByPath] they put [subsByPath[k]], the resolved value when [k]
    is a path of the index, and they leave every other position a hole; the
    output array is what the recursive call returns when it starts from
    that array and takes as old document the old document's value at [key]
    when that is truthy and the partially filled array itself otherwise; in
    the output a hole of the input is a hole, every other position is set,
    and when the old document is the partially filled array the position of
    a reference whose subscription key is registered keeps what the fast
    path left there.  On a tame document whose old document can be read the
    call returns. *)
Theorem array_field_decomposition `{Host} (subs : registry) (index : path_index)
  (options : FirestoreRefOptionsWithDefaults) (doc : value) (oldDoc : old_source)
  (path : string) (n : nat) (init : list (option value)) (refs : refs_map) (next : nat)
  (key : string) (a : nat) (es : list (option value)) (ps : props) :
  well_formed doc = true ->
  fits doc init ->
  In (key, VArray a es ps) (enumerable_fields doc) ->
  key <> "__proto__" ->
  let run :=
    recursiveExtract subs index options doc oldDoc path (fresh_for doc n init, refs, next) in
  (tame doc = true -> follows subs doc oldDoc path = true -> dotted path ->
   exists result, run = Ok result)
  /\ forall data refs' next',
       run = Ok (data, refs', next') ->
       exists m filled es' ps' old_of_call,
         get data key = Ok (VArray m es' ps')
         /\ List.length es' = List.length es
         /\ fill_existing index es 0 (VArray m (repeat None (List.length es)) []) =
              Ok (VArray m filled [])
         /\ (forall i e,
               nth_error es i = Some e ->
               (truthy (elem_value e) = false -> nth_error filled i = Some None)
               /\ (truthy (elem_value e) = true ->
                   exists p k,
                     get (elem_value e) "path" = Ok p /\ ToPropertyKey p = Ok k
                     /\ (amem k index || inherited k = false ->
                         nth_error filled i = Some None)
                     /\ (amem k index || inherited k = true ->
                         exists v, index_get index k = Ok v
                                   /\ nth_error filled i = Some (Some v))
                     /\ (forall v, alookup k index = Some v ->
                           nth_error filled i = Some (Some v))))
         /\ match oldDoc with
            | OldValue o =>
                exists ov,
                  get (if truthy o then o else VObject next []) key = Ok ov
                  /\ old_of_call = (if truthy ov then OldValue ov else OldIsData)
            | OldIsData => old_of_call = OldIsData
            end
         /\ (exists refs0 refs1 next1,
               recursiveExtract subs index options (VArray a es ps) old_of_call
                 (path ++ key ++ ".") (VArray m filled [], refs0, S m) =
               Ok (VArray m es' ps', refs1, next1))
         /\ (forall i, nth_error es i = Some None -> nth_error es' i = Some None)
         /\ (forall i v, nth_error es i = Some (Some v) ->
               exists w, nth_error es' i = Some (Some w))
         /\ (old_of_call = OldIsData ->
             forall i r slot,
               nth_error es i = Some (Some (VRef r)) ->
               amem ((path ++ key ++ ".") ++ index_key i) subs
               || inherited ((path ++ key ++ ".") ++ index_key i) = true ->
               nth_error filled i = Some slot ->
               nth_error es' i = Some (Some (elem_value slot))).
Proof.
  intros Hwf Hfit Hi N run. split.
  { intros Ht Hf Hp. apply recursiveExtract_returns; assumption. }
  intros data refs' next' Run.
  destruct (array_field_run subs index options doc oldDoc path n init refs next key a es ps
              Hwf Hfit Hi N data refs' next' Run)
    as [m [filled [es' [ps' [old_of_call
         [Hget [Hlen [Hfill [Hslot [Hold [RunA [Hholes [Hset [_ Hkeep]]]]]]]]]]]]]].
  exists m, filled, es', ps', old_of_call. repeat (split; [assumption|]). exact Hkeep.
Qed.

Lemma array_field_decomposition_witness :
  let bob := VObject 100 [("name", (VStr "bob", plain))] in
  let r := DocumentReference.Make "/users/1" None in
  let doc := VObject 1 [("arr", (VArray 2 [None; Some (VNum 4); Some (VRef r)] [], plain))] in
  let subs := [("arr.2", MkSub "/users/1" (fun _ => bob))] in
  let options := MkOptions firestoreDefaultConverter in
  exists data refs' next' m es' ps',
    @recursiveExtract object_host subs [("/users/1", bob)] options doc (OldValue VUndefined) ""
      (VObject 5 [], [], 6) = Ok (data, refs', next')
    /\ get data "arr" = Ok (VArray m es' ps')
    /\ List.length es' = 3
    /\ nth_error es' 0 = Some None
    /\ nth_error es' 2 = Some (Some bob).
Proof.
  intros bob r doc subs options.
  destruct (@array_field_decomposition object_host subs [("/users/1", bob)] options doc
              (OldValue VUndefined) "" 5 [] [] 6 "arr" 2 [None; Some (VNum 4); Some (VRef r)] []
              eq_refl I (or_introl eq_refl) ltac:(discriminate)) as [_ Harr].
  eexists. eexists. eexists.
  assert (@recursiveExtract object_host subs [("/users/1", bob)] options doc
            (OldValue VUndefined) "" (VObject 5 [], [], 6) = Ok (?[data], ?[refs'], ?[next']))
    as Run by (vm_compute; reflexivity).
  destruct (Harr _ _ _ Run)
    as [m [filled [es' [ps' [old_of_call
         [Hget [Hlen [_ [Hfill [Hold [_ [Hholes [_ Hkeep]]]]]]]]]]]]].
  exists m, es', ps'.
  split; [exact Run|]. split; [exact Hget|]. split; [exact Hlen|].
  split; [apply Hholes; reflexivity|].
  destruct Hold as [ov [Eov ->]]. vm_compute in Eov. injection Eov as <-.
  apply (Hkeep eq_refl 2 r (Some bob)); try reflexivity.
  destruct (Hfill 2 (Some (VRef r)) eq_refl) as [_ Ht].
  destruct (Ht eq_refl) as [p [k [Ep [Ek [_ [_ Hv]]]]]].
  vm_compute in Ep. injection Ep as <-. vm_compute in Ek. injection Ek as <-.
  apply Hv. reflexivity.
Defined.

(** C2 as the spec words it does not hold: an element that matches nothing
    in the index is not left a hole in the output, the loop over the fields
    of the array copies it. *)
Lemma array_unmatched_index_is_filled :
  ~ (forall (doc data : value) (refs : refs_map) (next' : nat) (key : string)
            (m m' : nat) (es es' filled : list (option value)) (ps ps' : props) (i : nat),
       @extractRefs object_host doc VUndefined [] (MkOptions firestoreDefaultConverter) 0 =
         Ok (data, refs, next') ->
       In (key, VArray m es ps) (enumerable_fields doc) ->
       get data key = Ok (VArray m' es' ps') ->
       @fill_existing object_host [] es 0 (VArray m' (repeat None (List.length es)) []) =
         Ok (VArray m' filled []) ->
       nth_error filled i = Some None ->
       nth_error es' i = Some None).
Proof.
  intros C.
  specialize (C (VObject 1 [("arr", (VArray 2 [Some (VNum 1)] [], plain))])
                (VObject 0 [("arr", (VArray 2 [Some (VNum 1)] [], plain))])
                [] 3 "arr" 2 2 [Some (VNum 1)] [Some (VNum 1)] [None] [] [] 0
                eq_refl (or_introl eq_refl) eq_refl eq_refl eq_refl).
  discriminate C.
Qed.

(** ** Raw references in the output: the result *)

Lemma subsByPath_visible (subs : registry) (index : path_index) :
  subsByPath subs = Ok index ->
  (forall k s, In (k, s) subs -> visible_ref_free (sub_data s tt) = true) ->
  Forall (fun pv : string * value => visible_ref_free (snd pv) = true) index.
Proof.
  intros Ei Hsubs. apply Forall_forall. intros [p v] Hi.
  destruct (subsByPath_values subs index Ei p v Hi) as [k [s [Hks ->]]].
  apply (Hsubs k s Hks).
Qed.

(** C3, as the code has it.  Let the input be a plain record on which
    [extractRefs] returns.  When neither the old document nor a resolved
    value of the registry shows a raw reference to an enumeration of
    fields, and no read of the old document is one of a hidden property,
    no position of the returned data that an enumeration of fields reaches,
    at any depth, holds a raw reference.  Whatever the old document is,
    where the input has a reference under a chain of enumerable keys, none
    of them [__proto__], through records and arrays, the data has under the
    same chain the path string of the reference, or the value the old
    document has under that chain (an empty record standing for an old
    value that is falsy), or the value the index resolves the path of the
    reference to, or what an empty record yields at the last key or at the
    path.  Fields that are not enumerable are no part of this: the data has
    them as the input has them, a raw reference included.  On a tame
    document whose old document can be read [extractRefs] returns. *)
Theorem data_holds_no_visible_reference `{Host} (subs : registry)
  (options : FirestoreRefOptionsWithDefaults) (doc oldDoc : value) (next : nat) :
  isPOJO doc = true ->
  well_formed doc = true ->
  let run := extractRefs doc oldDoc subs options next in
  (tame doc = true -> follows subs doc (OldValue oldDoc) "" = true ->
   exists result, run = Ok result)
  /\ forall data refs next',
       run = Ok (data, refs, next') ->
       (visible_ref_free oldDoc = true ->
        (forall k s, In (k, s) subs -> visible_ref_free (sub_data s tt) = true) ->
        shielded subs doc (OldValue oldDoc) "" = true ->
        visible_ref_free data = true)
       /\ (forall ks k r,
             field_at doc (ks ++ [k]) = Some (VRef r) ->
             Forall (fun x => x <> "__proto__") (ks ++ [k]) ->
             exists w index,
               subsByPath subs = Ok index
               /\ get_path data (ks ++ [k]) = Ok w
               /\ (w = VStr (DocumentReference.path r)
                   \/ w = old_at oldDoc (ks ++ [k])
                   \/ alookup (DocumentReference.path r) index = Some w
                   \/ w = unset k
                   \/ w = unset (DocumentReference.path r)))
       /\ (forall k p,
             In (k, p) (named_of doc) -> enumerable (snd p) = false ->
             alookup k (named_of data) = Some p).
Proof.
  intros Hp Hwf run. split.
  { intros Ht Hf. apply extractRefs_returns; assumption. }
  intros data refs next' Run.
  destruct (extractRefs_closed subs options doc oldDoc next _ Hp Hwf Run)
    as [index [Ei [Run' Eres]]].
  assert (data = fst (walk subs index options doc (OldValue oldDoc) "" next [] ([], S next)))
    as Edata.
  { destruct (walk subs index options doc (OldValue oldDoc) "" next [] ([], S next))
      as [d [r0 n0]]. unfold flat in Eres. cbn [fst snd] in *. congruence. }
  clear Eres. split; [|split].
  - intros Hold Hsubs Hsh. rewrite Edata.
    apply (walk_clean subs index options (subsByPath_visible subs index Ei Hsubs) doc
             (OldValue oldDoc) "" next [] [] (S next) Hold (Forall_nil _) Hsh).
  - intros ks k r Hf Hn.
    assert (match doc with
            | VArray _ es _ => @nil (option value) = map (filled_slot index) es
            | _ => True
            end) as Hinit by (destruct doc; try discriminate Hp; exact I).
    assert (fits doc []) as Hfit by (destruct doc; try discriminate Hp; exact I).
    destruct (walk_chain subs index options ks doc (OldValue oldDoc) "" next [] [] (S next)
                r k Hwf Hfit Hinit Hf Hn) as [w [Hpath [Hno Hyes]]].
    exists w, index. split; [exact Ei|]. split; [rewrite Edata; exact Hpath|].
    destruct (has_property ("" ++ String.concat "." (ks ++ [k])) subs) eqn:Hb.
    + destruct (Hyes eq_refl) as [Hval _].
      destruct (Hval oldDoc eq_refl) as [E|[E|E]]; [right; left; exact E| |].
      * right. right. right. left. exact E.
      * unfold index_peek, index_get in E.
        destruct (alookup (DocumentReference.path r) index) as [v|] eqn:El.
        -- right. right. left. rewrite E. reflexivity.
        -- right. right. right. right. exact E.
    + left. apply (Hno eq_refl).
  - intros k p Hi He. rewrite Edata.
    destruct doc as [| |b| |z|s|ms|s ns|la lo|r|id es ps|id ps|fn]; try discriminate Hp.
    cbn [well_formed] in Hwf. apply andb_true_iff in Hwf.
    destruct Hwf as [Hd _]. apply nodupb_NoDup in Hd. cbn [walk named_of] in *.
    destruct (or_empty (OldValue oldDoc) (S next)) as [old' next0].
    match goal with
    | |- context [out_named ?a ?b ?c ?w ?o ?q ps ?st] =>
        pose proof (out_named_keys a b c w o q ps st) as Hkeys;
        destruct (out_named a b c w o q ps st) as [outs st2]
    end.
    cbn [fst named_of] in *. unfold hidden_fields. cbn [named_of].
    apply (proj1 (hidden_kept ps outs k p Hd Hkeys Hi He)).
Qed.

Lemma data_holds_no_visible_reference_witness :
  let r := DocumentReference.Make "/users/1" None in
  let bob := VObject 100 [(".ref", (VRef r, hidden)); ("name", (VStr "bob", plain))] in
  let doc := VObject 1 [("owner", (VRef r, plain));
                        ("team", (VObject 4 [("lead", (VRef r, plain))], plain));
                        ("friends", (VArray 2 [Some (VRef r)] [], plain))] in
  let oldDoc := VObject 3 [(".ref", (VRef r, hidden)); ("owner", (bob, plain))] in
  let subs := [("owner", MkSub "/users/1" (fun _ => bob));
               ("friends.0", MkSub "/users/1" (fun _ => bob))] in
  exists data refs next',
    @extractRefs object_host doc oldDoc subs (MkOptions firestoreDefaultConverter) 10 =
      Ok (data, refs, next')
    /\ visible_ref_free data = true
    /\ get_path data ["owner"] = Ok bob
    /\ get_path data ["team"; "lead"] = Ok (VStr "/users/1")
    /\ get_path data ["friends"; "0"] = Ok bob.
Proof.
  intros r bob doc oldDoc subs.
  destruct (@data_holds_no_visible_reference object_host subs
              (MkOptions firestoreDefaultConverter) doc oldDoc 10 eq_refl eq_refl)
    as [_ Hall].
  eexists. eexists. eexists.
  assert (@extractRefs object_host doc oldDoc subs (MkOptions firestoreDefaultConverter) 10 =
            Ok (?[data], ?[refs], ?[next'])) as Run by (vm_compute; reflexivity).
  destruct (Hall _ _ _ Run) as [Hv [Hchain _]].
  split; [exact Run|]. split.
  - apply Hv; [reflexivity| |reflexivity].
    intros k s [E|[E|[]]]; inversion E; reflexivity.
  - split; [|split]; reflexivity.
Defined.

(** C3 as the spec words it does not hold: a reference held by a field that
    is not enumerable, as the [.ref] the default converter attaches to
    every document, is in the returned data as it was. *)
Lemma hidden_reference_is_returned :
  ~ (forall (doc data : value) (refs : refs_map) (next' : nat) (key : string) (v : value),
       isPOJO doc = true ->
       @extractRefs object_host doc VUndefined [] (MkOptions firestoreDefaultConverter) 0 =
         Ok (data, refs, next') ->
       get data key = Ok v ->
       isDocumentRef v = false).
Proof.
  intros C.
  pose (r := DocumentReference.Make "/users/1" None).
  specialize (C (VObject 1 [("name", (VStr "a", plain)); (".ref", (VRef r, hidden))])
                (VObject 0 [(".ref", (VRef r, hidden)); ("name", (VStr "a", plain))])
                [] 2 ".ref" (VRef r) eq_refl eq_refl eq_refl).
  discriminate C.
Qed.

(** ** Documents without references: the result *)

Section FollowsRead.
Variable subs : registry.

Lemma follows_field_read (o : value) (path : string) (fresh : value) (k : string)
  (v w : value) :
  get o k = Ok w ->
  (isPOJO v || isArray v = true ->
   truthy w = true /\ forall p, follows subs v (OldValue w) p = true) ->
  follows_field subs (follows subs) (OldValue o) path fresh k v = true.
Proof.
  intros Eg IH.
  assert (readable o k = true) as Hr by (unfold readable; rewrite Eg; reflexivity).
  assert (peek o k = w) as Ep by (unfold peek; rewrite Eg; reflexivity).
  destruct v as [| |b| |z|s|ms|s ns|la lo|r|id es ps|id ps|fn];
    cbn [follows_field old_readable old_followed old_for_array old_for_record];
    try reflexivity.
  - rewrite Hr. apply orb_true_r.
  - destruct (IH eq_refl) as [T Hf]. rewrite Hr, Ep, T. cbn [andb]. apply Hf.
  - destruct (IH eq_refl) as [T Hf]. rewrite Hr, Ep. cbn [andb]. apply Hf.
Qed.

Lemma follows_named_read (o : value) (path : string) (fresh : value) (ps : props) :
  (forall k v a, In (k, (v, a)) ps -> enumerable a = true ->
     exists w, get o k = Ok w
               /\ (isPOJO v || isArray v = true ->
                   truthy w = true /\ forall p, follows subs v (OldValue w) p = true)) ->
  follows_named subs (follows subs) (OldValue o) path fresh ps = true.
Proof.
  induction ps as [|[k [v a]] r IH]; intros Hall; cbn [follows_named]; [reflexivity|].
  rewrite IH by (intros k' v' a' Hi; apply Hall; simpl; auto).
  destruct (enumerable a) eqn:Ea; cbn [negb orb andb]; [|reflexivity].
  destruct (Hall k v a (or_introl eq_refl) Ea) as [w [Eg Hv]].
  rewrite (follows_field_read o path fresh k v w Eg Hv). reflexivity.
Qed.

Lemma follows_elems_read (o : value) (path : string) (es : list (option value)) (i : nat) :
  (forall j v, nth_error es j = Some (Some v) ->
     exists w, get o (index_key (i + j)) = Ok w
               /\ (isPOJO v || isArray v = true ->
                   truthy w = true /\ forall p, follows subs v (OldValue w) p = true)) ->
  follows_elems subs (follows subs) (OldValue o) path es i = true.
Proof.
  revert i. induction es as [|e r IH]; intros i Hall; cbn [follows_elems]; [reflexivity|].
  assert (follows_elems subs (follows subs) (OldValue o) path r (S i) = true) as Hr.
  { apply IH. intros j v Hj. replace (S i + j) with (i + S j) by lia.
    apply (Hall (S j) v Hj). }
  destruct e as [v|]; [|exact Hr]. rewrite Hr.
  destruct (Hall 0 v eq_refl) as [w [Eg Hv]]. rewrite Nat.add_0_r in Eg.
  rewrite (follows_field_read o path _ _ v w Eg Hv). reflexivity.
Qed.

(** The reads of an old document that has something at every field of the
    document, and at every array or record a truthy value whose reads
    return in turn, return. *)
Lemma follows_read (doc o : value) :
  truthy o = true ->
  (forall k v, In (k, v) (enumerable_fields doc) ->
     exists w, get o k = Ok w
               /\ (isPOJO v || isArray v = true ->
                   truthy w = true /\ forall p, follows subs v (OldValue w) p = true)) ->
  forall path, follows subs doc (OldValue o) path = true.
Proof.
  intros T Hall path.
  destruct doc as [| |b| |z|s|ms|s ns|la lo|r|id es ps|id ps|fn]; try reflexivity;
    cbn [follows or_empty]; rewrite T; cbn [fst].
  - apply andb_true_iff. split.
    + apply follows_elems_read. intros j v Hj. apply Hall. cbn [enumerable_fields].
      apply in_or_app. left. apply elem_fields_In. exists j. auto.
    + apply follows_named_read. intros k v a Hi Ha. apply Hall. cbn [enumerable_fields].
      apply in_or_app. right. apply enumerable_named_In. eauto.
  - apply follows_named_read. intros k v a Hi Ha. apply Hall. cbn [enumerable_fields].
    apply enumerable_named_In. eauto.
Qed.


Lemma component_induction (P : value -> Prop) (doc : value) (k : string) (v : value) :
  match doc with
  | VArray _ es ps =>
      Forall (fun e => match e with Some w => P w | None => True end) es
      /\ Forall (fun kp : string * (value * attrs) => P (fst (snd kp))) ps
  | VObject _ ps => Forall (fun kp : string * (value * attrs) => P (fst (snd kp))) ps
  | _ => True
  end ->
  In (k, v) (enumerable_fields doc) -> P v.
Proof.
  intros IH Hi. apply enumerable_fields_component in Hi.
  destruct doc as [| |b| |z|s|ms|s ns|la lo|r|id es ps|id ps|fn]; try contradiction.
  - destruct IH as [IHes IHps]. destruct Hi as [Hi|[a Hi]].
    + rewrite Forall_forall in IHes. apply (IHes _ Hi).
    + rewrite Forall_forall in IHps. apply (IHps _ Hi).
  - destruct Hi as [a Hi]. rewrite Forall_forall in IH. apply (IH _ Hi).
Qed.


(** The data of a call can be read wherever a later call on the same
    document reads its old document. *)
Lemma follows_data `{Host} (index : path_index) (options : FirestoreRefOptionsWithDefaults)
  (doc : value) :
  well_formed doc = true ->
  tame doc = true ->
  forall os path n init st p,
  fits doc init ->
  follows subs doc (OldValue (fst (walk subs index options doc os path n init st))) p = true.
Proof.
  induction doc as [| |b| |z|s|ms|s ns|la lo|r|id es ps IHes IHps|id ps IHps|fn]
    using value_ind;
    intros Hwf Htm os path n init [refs next] p Hfit; try reflexivity.
  - apply follows_read.
    + apply (walk_is_container subs index options (VArray id es ps) os path n init
               (refs, next) eq_refl).
    + intros k v Hi. destruct (tame_field _ k v Htm Hi) as [N Htv].
      pose proof (well_formed_field _ k v Hwf Hi) as Hwfv.
      destruct (walk_field subs index options (VArray id es ps) os path n init refs next k v
                  Hwf Hfit Hi N) as [[refs0 next0] Hget].
      eexists. split; [exact Hget|]. intros Hc.
      pose proof (component_induction
                    (fun v => well_formed v = true -> tame v = true ->
                              forall os path n init st p, fits v init ->
                              follows subs v
                                (OldValue (fst (walk subs index options v os path n init st)))
                                p = true)
                    (VArray id es ps) k v (conj IHes IHps) Hi Hwfv Htv) as IHv.
      destruct v as [| |b| |z|s|ms|s ns|la lo|r|id' es' ps'|id' ps'|fn];
        try discriminate Hc; cbn [out_field fst].
      * split; [apply (walk_is_container subs index options (VArray id' es' ps')
                         _ _ _ _ _ eq_refl)|].
        intros p'. apply IHv. cbn [fits]. apply length_map.
      * split; [apply (walk_is_container subs index options (VObject id' ps')
                         _ _ _ _ _ eq_refl)|].
        intros p'. apply IHv. exact I.
  - apply follows_read.
    + apply (walk_is_container subs index options (VObject id ps) os path n init
               (refs, next) eq_refl).
    + intros k v Hi. destruct (tame_field _ k v Htm Hi) as [N Htv].
      pose proof (well_formed_field _ k v Hwf Hi) as Hwfv.
      destruct (walk_field subs index options (VObject id ps) os path n init refs next k v
                  Hwf Hfit Hi N) as [[refs0 next0] Hget].
      eexists. split; [exact Hget|]. intros Hc.
      pose proof (component_induction
                    (fun v => well_formed v = true -> tame v = true ->
                              forall os path n init st p, fits v init ->
                              follows subs v
                                (OldValue (fst (walk subs index options v os path n init st)))
                                p = true)
                    (VObject id ps) k v IHps Hi Hwfv Htv) as IHv.
      destruct v as [| |b| |z|s|ms|s ns|la lo|r|id' es' ps'|id' ps'|fn];
        try discriminate Hc; cbn [out_field fst].
      * split; [apply (walk_is_container subs index options (VArray id' es' ps')
                         _ _ _ _ _ eq_refl)|].
        intros p'. apply IHv. cbn [fits]. apply length_map.
      * split; [apply (walk_is_container subs index options (VObject id' ps')
                         _ _ _ _ _ eq_refl)|].
        intros p'. apply IHv. exact I.
Qed.

End FollowsRead.




(** ** Two passes over the same document: the result *)

(** The fields of a second call that takes the data of the first as its old
    document: a reference whose subscription key is registered keeps the
    very value the first call left, and a nested array or record is the
    result of a call that takes the first call's result at that field as
    its old document. *)
Lemma second_pass_fields `{Host} (subs : registry) (index : path_index)
  (options : FirestoreRefOptionsWithDefaults) (d : value) (old1 : old_source)
  (path : string) (n1 n2 : nat) (init1 init2 : list (option value))
  (refsA refsB : refs_map) (nextA nextB : nat)
  (data1 data2 : value) (refs1 refs2 : refs_map) (next1 next2 : nat) :
  well_formed d = true -> fits d init1 -> fits d init2 ->
  isPOJO d || isArray d = true ->
  recursiveExtract subs index options d old1 path (fresh_for d n1 init1, refsA, nextA) =
    Ok (data1, refs1, next1) ->
  recursiveExtract subs index options d (OldValue data1) path
    (fresh_for d n2 init2, refsB, nextB) = Ok (data2, refs2, next2) ->
  (forall key r,
     In (key, VRef r) (enumerable_fields d) ->
     amem (path ++ key) subs || inherited (path ++ key) = true ->
     get data2 key = get data1 key)
  /\ (forall key v,
        In (key, v) (enumerable_fields d) ->
        isPOJO v || isArray v = true ->
        exists d1k d2k m init' refs0 refs0' next0',
          get data1 key = Ok d1k
          /\ get data2 key = Ok d2k
          /\ recursiveExtract subs index options v (OldValue d1k) (path ++ key ++ ".")
               (fresh_for v m init', refs0, S m) = Ok (d2k, refs0', next0')).
Proof.
  intros Hwf Hfit1 Hfit2 Hc Run1 Run2.
  pose proof (recursiveExtract_runs subs index options d old1 path n1 init1 refsA nextA _
                Hwf Hfit1 Run1) as E1.
  assert (data1 = fst (walk subs index options d old1 path n1 init1 (refsA, nextA))) as Ed1.
  { destruct (walk subs index options d old1 path n1 init1 (refsA, nextA)) as [x [y z]].
    unfold flat in E1. cbn [fst snd] in *. congruence. }
  assert (truthy data1 = true) as Ht1.
  { rewrite Ed1. apply (walk_is_container subs index options d old1 path n1 init1
                          (refsA, nextA) Hc). }
  pose proof (recursiveExtract_runs subs index options d (OldValue data1) path n2 init2 refsB
                nextB _ Hwf Hfit2 Run2) as E2.
  assert (data2 = fst (walk subs index options d (OldValue data1) path n2 init2
                         (refsB, nextB))) as Ed2.
  { destruct (walk subs index options d (OldValue data1) path n2 init2 (refsB, nextB))
      as [x [y z]].
    unfold flat in E2. cbn [fst snd] in *. congruence. }
  split.
  - intros key r Hi Hb. destruct (String.eqb_spec key "__proto__") as [->|N].
    + rewrite Ed1, Ed2.
      rewrite (walk_get_proto subs index options d old1 path n1 init1 _ _ Hwf Hi).
      rewrite (walk_get_proto subs index options d _ path n2 init2 _ _ Hwf Hi).
      reflexivity.
    + destruct (walk_field subs index options d old1 path n1 init1 refsA nextA key _
                  Hwf Hfit1 Hi N) as [st0 F1].
      destruct (walk_field subs index options d (OldValue data1) path n2 init2 refsB nextB
                  key _ Hwf Hfit2 Hi N) as [[refs0 next0] F2].
      rewrite Ed2, F2. cbn [out_field fst or_empty]. rewrite Ht1. cbn [fst].
      change (has_property (path ++ key) subs)
        with (amem (path ++ key) subs || inherited (path ++ key)).
      rewrite Hb. unfold peek. rewrite Ed1 at 2. rewrite F1.
      rewrite Ed1, F1. reflexivity.
  - intros key v Hi Hv.
    assert (key <> "__proto__") as N.
    { intros ->.
      pose proof (recursiveExtract_proto_scalar subs index options d old1 path n1 init1 refsA
                    nextA _ v Hwf Hfit1 Run1 Hi) as Hs.
      congruence. }
    pose proof (well_formed_field d key v Hwf Hi) as Hwfv.
    destruct (walk_field subs index options d old1 path n1 init1 refsA nextA key v
                Hwf Hfit1 Hi N) as [[refs0 next0] F1].
    rewrite <- Ed1 in F1.
    destruct (recursiveExtract_trace subs index options d (OldValue data1) path n2 init2
                refsB nextB _ key v Hwf Hfit2 Run2 Hi N)
      as [dataX [refs0' [m [st2 [Hvisit F2]]]]].
    cbn [fst or_empty] in F2, Hvisit. rewrite Ht1 in F2, Hvisit. cbn [fst] in F2, Hvisit.
    assert (peek data1 key =
            fst (out_field subs index options (walk subs index options)
                   (fst (or_empty old1 nextA)) path key v
                   (seen_at (fresh_for d n1 init1) key) (refs0, next0))) as Hpeek.
    { unfold peek. rewrite F1. reflexivity. }
    destruct v as [| |b| |z|s|ms|s ns|la lo|r|id es ps|id ps|fn]; try discriminate Hv;
      cbn [out_field fst] in *.
    + destruct (visit_array_parts subs index options _ _ path key id es ps dataX refs0' m st2
                  Hvisit) as [_ [_ [result RunK]]].
      destruct (walk_is_container subs index options (VArray id es ps)
                  (old_for_array (fst (or_empty old1 nextA)) key) (path ++ key ++ ".")
                  next0 (map (filled_slot index) es) (refs0, S next0) eq_refl) as [Ht _].
      cbn [old_for_array] in F2, RunK. rewrite Hpeek, Ht in F2, RunK.
      rewrite <- Hpeek in F2, RunK.
      pose proof (recursiveExtract_runs subs index options (VArray id es ps)
                    (OldValue (peek data1 key)) (path ++ key ++ ".") m
                    (map (filled_slot index) es) refs0' (S m) result Hwfv
                    (length_map _ _) RunK) as Eres.
      destruct (walk subs index options (VArray id es ps) (OldValue (peek data1 key))
                  (path ++ key ++ ".") m (map (filled_slot index) es)
                  (refs0', S m)) as [d2k [refsK nextK]].
      unfold flat in Eres. cbn [fst snd] in *. subst result.
      exists (peek data1 key), d2k, m, (map (filled_slot index) es), refs0', refsK, nextK.
      split; [rewrite F1, Hpeek; reflexivity|]. split; [exact F2|exact RunK].
    + destruct (visit_record_parts subs index options _ _ path key id ps dataX refs0' m st2
                  Hvisit) as [_ [result RunK]].
      cbn [old_for_record] in F2, RunK.
      pose proof (recursiveExtract_runs subs index options (VObject id ps)
                    (OldValue (peek data1 key)) (path ++ key ++ ".") m
                    [] refs0' (S m) result Hwfv I RunK) as Eres.
      destruct (walk subs index options (VObject id ps) (OldValue (peek data1 key))
                  (path ++ key ++ ".") m [] (refs0', S m)) as [d2k [refsK nextK]].
      unfold flat in Eres. cbn [fst snd] in *. subst result.
      exists (peek data1 key), d2k, m, [], refs0', refsK, nextK.
      split; [rewrite F1, Hpeek; reflexivity|]. split; [exact F2|exact RunK].
Qed.

(** C5, as the code has it.  With the registry fixed, whenever decomposing
    a document and decomposing it a second time with the data of the first
    result as old document both return, the second data is deep-equal to
    the first; at every call of the walker, the field of a reference whose
    subscription key is registered holds in the second result the very
    value it holds in the first, and a nested array or record is the result
    of a call that has the first result's value at that field as its old
    document.  On a tame document whose old document can be read both
    decompositions return. *)
Theorem decomposition_is_idempotent_in_value `{Host} (subs : registry)
  (options : FirestoreRefOptionsWithDefaults) (doc oldDoc : value) (next1 next2 : nat) :
  isPOJO doc = true ->
  well_formed doc = true ->
  well_formed oldDoc = true ->
  (forall k s, In (k, s) subs -> well_formed (sub_data s tt) = true) ->
  (tame doc = true -> follows subs doc (OldValue oldDoc) "" = true ->
   exists data1 refs1 next1' data2 refs2 next2',
     extractRefs doc oldDoc subs options next1 = Ok (data1, refs1, next1')
     /\ extractRefs doc data1 subs options next2 = Ok (data2, refs2, next2'))
  /\ (forall data1 refs1 next1' data2 refs2 next2',
        extractRefs doc oldDoc subs options next1 = Ok (data1, refs1, next1') ->
        extractRefs doc data1 subs options next2 = Ok (data2, refs2, next2') ->
        deep_equal data2 data1 = true
        /\ (forall key r,
              In (key, VRef r) (enumerable_fields doc) ->
              amem key subs || inherited key = true ->
              get data2 key = get data1 key))
  /\ (forall index d old1 path n1 n2 init1 init2 refsA refsB nextA nextB
             d1 refsA' nextA' d2 refsB' nextB',
        well_formed d = true -> fits d init1 -> fits d init2 ->
        isPOJO d || isArray d = true ->
        recursiveExtract subs index options d old1 path (fresh_for d n1 init1, refsA, nextA) =
          Ok (d1, refsA', nextA') ->
        recursiveExtract subs index options d (OldValue d1) path
          (fresh_for d n2 init2, refsB, nextB) = Ok (d2, refsB', nextB') ->
        (forall key r,
           In (key, VRef r) (enumerable_fields d) ->
           amem (path ++ key) subs || inherited (path ++ key) = true ->
           get d2 key = get d1 key)
        /\ (forall key v,
              In (key, v) (enumerable_fields d) ->
              isPOJO v || isArray v = true ->
              exists d1k d2k m init' refs0 refs0' next0',
                get d1 key = Ok d1k
                /\ get d2 key = Ok d2k
                /\ recursiveExtract subs index options v (OldValue d1k) (path ++ key ++ ".")
                     (fresh_for v m init', refs0, S m) = Ok (d2k, refs0', next0'))).
Proof.
  intros Hp Hwf Hold Hsubs.
  assert (isPOJO doc || isArray doc = true) as Hc by (rewrite Hp; reflexivity).
  assert (fits doc []) as Hfit by (destruct doc; try discriminate Hp; exact I).
  assert (keeps_holes doc []) as Hh by (destruct doc; try discriminate Hp; exact I).
  split; [|split].
  - intros Htm Hf.
    destruct (extractRefs_returns subs options doc oldDoc next1 Hwf Htm Hf)
      as [[[data1 refs1] next1'] Run1].
    destruct (extractRefs_closed subs options doc oldDoc next1 _ Hp Hwf Run1)
      as [index [Ei [_ Eres]]].
    assert (data1 = fst (walk subs index options doc (OldValue oldDoc) "" next1 []
                           ([], S next1))) as Ed1.
    { destruct (walk subs index options doc (OldValue oldDoc) "" next1 [] ([], S next1))
        as [x [y z]].
      unfold flat in Eres. cbn [fst snd] in *. congruence. }
    destruct (extractRefs_returns subs options doc data1 next2 Hwf Htm)
      as [[[data2 refs2] next2'] Run2].
    { rewrite Ed1. apply (follows_data subs index options doc Hwf Htm). exact Hfit. }
    exists data1, refs1, next1', data2, refs2, next2'. split; assumption.
  - intros data1 refs1 next1' data2 refs2 next2' Run1 Run2.
    destruct (extractRefs_closed subs options doc oldDoc next1 _ Hp Hwf Run1)
      as [index [Ei [Run1' Eres1]]].
    destruct (extractRefs_closed subs options doc data1 next2 _ Hp Hwf Run2)
      as [index' [Ei' [Run2' Eres2]]].
    rewrite Ei in Ei'. injection Ei' as <-.
    pose proof (subsByPath_well_formed subs index Ei Hsubs) as Hindex.
    pose proof (walk_stable subs index options Hindex doc Hc Hwf (OldValue oldDoc) "" next1 []
                  ([], S next1) next2 [] ([], S next2) Hold (Forall_nil _) Hh Hh) as Hdeep.
    assert (data1 = fst (walk subs index options doc (OldValue oldDoc) "" next1 []
                           ([], S next1))) as Ed1.
    { destruct (walk subs index options doc (OldValue oldDoc) "" next1 [] ([], S next1))
        as [x [y z]].
      unfold flat in Eres1. cbn [fst snd] in *. congruence. }
    assert (data2 = fst (walk subs index options doc (OldValue data1) "" next2 []
                           ([], S next2))) as Ed2.
    { destruct (walk subs index options doc (OldValue data1) "" next2 [] ([], S next2))
        as [x [y z]].
      unfold flat in Eres2. cbn [fst snd] in *. congruence. }
    split.
    + rewrite Ed2. rewrite Ed1 at 2. rewrite Ed1 at 1. exact Hdeep.
    + assert (fresh_for doc next1 [] = VObject next1 []) as Ef1
          by (destruct doc; try discriminate Hp; reflexivity).
      assert (fresh_for doc next2 [] = VObject next2 []) as Ef2
          by (destruct doc; try discriminate Hp; reflexivity).
      rewrite <- Ef1 in Run1'. rewrite <- Ef2 in Run2'.
      destruct (second_pass_fields subs index options doc (OldValue oldDoc) "" next1 next2
                  [] [] [] [] (S next1) (S next2) data1 data2 refs1 refs2 next1' next2'
                  Hwf Hfit Hfit Hc Run1' Run2') as [Hrefs _].
      exact Hrefs.
  - intros index d old1 path n1 n2 init1 init2 refsA refsB nextA nextB
           d1 refsA' nextA' d2 refsB' nextB' Hwfd Hf1 Hf2 Hcd R1 R2.
    apply (second_pass_fields subs index options d old1 path n1 n2 init1 init2 refsA refsB
             nextA nextB d1 d2 refsA' refsB' nextA' nextB' Hwfd Hf1 Hf2 Hcd R1 R2).
Qed.

Lemma decomposition_is_idempotent_in_value_witness :
  let r := DocumentReference.Make "/users/1" None in
  let bob := VObject 100 [("name", (VStr "bob", plain))] in
  let doc := VObject 1 [("owner", (VRef r, plain));
                        ("tags", (VArray 2 [Some (VStr "x"); None] [], plain))] in
  let oldDoc := VObject 3 [("owner", (bob, plain))] in
  let subs := [("owner", MkSub "/users/1" (fun _ => bob))] in
  let options := MkOptions firestoreDefaultConverter in
  exists data1 refs1 next1' data2 refs2 next2',
    @extractRefs object_host doc oldDoc subs options 10 = Ok (data1, refs1, next1')
    /\ @extractRefs object_host doc data1 subs options 20 = Ok (data2, refs2, next2')
    /\ deep_equal data2 data1 = true
    /\ get data2 "owner" = get data1 "owner".
Proof.
  intros r bob doc oldDoc subs options.
  destruct (@decomposition_is_idempotent_in_value object_host subs options doc oldDoc 10 20
              eq_refl eq_refl eq_refl)
    as [Hex [Hres _]].
  - intros k s [E|[]]. inversion E. reflexivity.
  - destruct (Hex eq_refl eq_refl)
      as [data1 [refs1 [next1' [data2 [refs2 [next2' [Run1 Run2]]]]]]].
    destruct (Hres _ _ _ _ _ _ Run1 Run2) as [Hdeep Hrefs].
    exists data1, refs1, next1', data2, refs2, next2'.
    split; [exact Run1|]. split; [exact Run2|]. split; [exact Hdeep|].
    apply (Hrefs "owner" r); [left|]; reflexivity.
Defined.

(** C5 as the spec words it does not hold: the record the walker builds for
    a nested record is a new one on every pass, also when nothing changed. *)
Lemma nested_record_is_allocated_again :
  ~ (forall (doc data1 data2 : value) (refs1 refs2 : refs_map) (next1 next2 : nat)
            (key : string),
       isPOJO doc = true ->
       @extractRefs object_host doc VUndefined [] (MkOptions firestoreDefaultConverter) 3 =
         Ok (data1, refs1, next1) ->
       @extractRefs object_host doc data1 [] (MkOptions firestoreDefaultConverter) next1 =
         Ok (data2, refs2, next2) ->
       isObject (peek data1 key) = true ->
       address (peek data2 key) = address (peek data1 key)).
Proof.
  intros C.
  specialize (C (VObject 1 [("a", (VObject 2 [], plain))])
                (VObject 3 [("a", (VObject 5 [], plain))])
                (VObject 7 [("a", (VObject 8 [], plain))])
                [] [] 7 9 "a" eq_refl eq_refl eq_refl eq_refl).
  discriminate C.
Qed.

(** ** Hidden fields *)

(** C6.  A call of the walker first goes through all own named properties
    of [doc] and defines on the fresh output every one that is not
    enumerable, with its descriptor; only then does it enter the loop over
    the enumerable fields.  The data it returns, when the loop returns, has
    each of them with the same value and the same attributes, readable by
    name and absent from the enumeration of its fields.  On a tame document
    whose old document can be read the call returns. *)
Theorem hidden_fields_copied_first `{Host} (subs : registry) (index : path_index)
  (options : FirestoreRefOptionsWithDefaults) (doc : value) (oldDoc : old_source)
  (path : string) (n : nat) (init : list (option value)) (refs : refs_map) (next : nat) :
  well_formed doc = true ->
  fits doc init ->
  isPOJO doc || isArray doc = true ->
  let run :=
    recursiveExtract subs index options doc oldDoc path (fresh_for doc n init, refs, next) in
  (exists with_hidden,
     copy_hidden (named_of doc) (fresh_for doc n init) = Ok with_hidden
     /\ named_of with_hidden = hidden_fields doc
     /\ enumerable_fields with_hidden = enumerable_fields (fresh_for doc n init)
     /\ run =
          (let '(old, next0) := or_empty oldDoc next in
           match doc with
           | VObject _ ps =>
               forin_named subs index options (recursiveExtract subs index options)
                 old path ps (with_hidden, refs, next0)
           | VArray _ es ps =>
               st <- forin_elems subs index options (recursiveExtract subs index options)
                       old path es 0 (with_hidden, refs, next0) ;;
               forin_named subs index options (recursiveExtract subs index options)
                 old path ps st
           | _ => Ok (with_hidden, refs, next0)
           end))
  /\ (tame doc = true -> follows subs doc oldDoc path = true -> dotted path ->
      exists result, run = Ok result)
  /\ forall data refs' next',
       run = Ok (data, refs', next') ->
       forall k p,
         In (k, p) (named_of doc) -> enumerable (snd p) = false ->
         alookup k (named_of data) = Some p
         /\ get data k = Ok (fst p)
         /\ ~ In k (keys (enumerable_fields data)).
Proof.
  intros Hwf Hfit Hc run.
  assert (forall data refs' next',
            run = Ok (data, refs', next') ->
            data = fst (walk subs index options doc oldDoc path n init (refs, next))) as Hdata.
  { intros data refs' next' Run.
    apply (recursiveExtract_runs subs index options doc oldDoc path n init refs next _ Hwf Hfit)
      in Run.
    destruct (walk subs index options doc oldDoc path n init (refs, next)) as [x [y z]].
    unfold flat in Run. cbn [fst snd] in *. congruence. }
  split; [|split].
  3: {
    intros data refs' next' Run k p Hi He. rewrite (Hdata _ _ _ Run). clear Hdata Run.
    destruct doc as [| |b| |z|s|ms|s ns|la lo|r|id es ps|id ps|fn]; try discriminate Hc.
    - cbn [well_formed] in Hwf. rewrite !andb_true_iff in Hwf.
      destruct Hwf as [[[Hes Hd] Hok] Hps]. apply nodupb_NoDup in Hd.
      assert (forall k, In k (keys ps) -> named_key_ok k = true) as Hok'.
      { apply forallb_forall. exact Hok. }
      cbn [walk named_of fits] in *.
      destruct (or_empty oldDoc next) as [old' next0].
      destruct (out_elems subs index options (walk subs index options) old' path es 0 init
                  (refs, next0)) as [es' st1].
      pose proof (out_named_keys subs index options (walk subs index options) old' path ps st1)
        as Hkeys.
      destruct (out_named subs index options (walk subs index options) old' path ps st1)
        as [outs [refs1 next1]].
      cbn [fst snd named_of] in *. unfold hidden_fields. cbn [named_of].
      destruct (hidden_kept ps outs k p Hd Hkeys Hi He) as [Hl Hn].
      split; [exact Hl|]. split.
      + cbn [get]. apply (in_map fst) in Hi.
        destruct (named_key_ok_index k (Hok' k Hi)) as [-> ->].
        rewrite Hl. destruct p; reflexivity.
      + cbn [enumerable_fields]. unfold keys. rewrite map_app. intros Hin.
        apply in_app_or in Hin. destruct Hin as [Hin|Hin]; [|exact (Hn Hin)].
        apply in_map_iff in Hin. destruct Hin as [[k' w] [Ek Hin]]. cbn in Ek. subst k'.
        apply elem_fields_In in Hin. destruct Hin as [j [-> _]].
        pose proof (Hok' _ (in_map fst _ _ Hi)) as C. cbn [fst] in C.
        unfold named_key_ok in C. rewrite index_of_key_index_key in C. discriminate.
    - cbn [well_formed] in Hwf. rewrite !andb_true_iff in Hwf.
      destruct Hwf as [Hd Hps]. apply nodupb_NoDup in Hd.
      cbn [walk named_of] in *.
      destruct (or_empty oldDoc next) as [old' next0].
      pose proof (out_named_keys subs index options (walk subs index options) old' path ps
                    (refs, next0)) as Hkeys.
      destruct (out_named subs index options (walk subs index options) old' path ps
                  (refs, next0)) as [outs [refs1 next1]].
      cbn [fst snd named_of] in *. unfold hidden_fields. cbn [named_of].
      destruct (hidden_kept ps outs k p Hd Hkeys Hi He) as [Hl Hn].
      split; [exact Hl|]. split.
      + cbn [get]. rewrite Hl. destruct p; reflexivity.
      + exact Hn. }
  2: { intros Ht Hf Hp. apply recursiveExtract_returns; assumption. }
  clear Hdata. subst run.
  destruct doc as [| |b| |z|s|ms|s ns|la lo|r|id es ps|id ps|fn]; try discriminate Hc.
  - cbn [well_formed] in Hwf. rewrite !andb_true_iff in Hwf.
    destruct Hwf as [[[Hes Hd] Hok] Hps]. apply nodupb_NoDup in Hd.
    assert (forall k, In k (keys ps) -> named_key_ok k = true) as Hok'.
    { apply forallb_forall. exact Hok. }
    assert (copy_hidden ps (VArray n init []) =
            Ok (VArray n init (hidden_fields (VArray id es ps)))) as Hcopy.
    { rewrite (copy_hidden_closed (VArray n init) ps Hd); auto.
      intros l k d Hi. cbn [defineProperty].
      destruct (named_key_ok_index k (Hok' k Hi)) as [-> ->]. reflexivity. }
    exists (VArray n init (hidden_fields (VArray id es ps))).
    cbn [fresh_for named_of].
    split; [exact Hcopy|]. split; [reflexivity|]. split.
    { unfold hidden_fields. cbn [enumerable_fields named_of].
      rewrite enumerable_named_of_hidden. reflexivity. }
    cbn [recursiveExtract named_of]. destruct (or_empty oldDoc next) as [old' next0].
    rewrite Hcopy. reflexivity.
  - cbn [well_formed] in Hwf. rewrite !andb_true_iff in Hwf.
    destruct Hwf as [Hd Hps]. apply nodupb_NoDup in Hd.
    assert (copy_hidden ps (VObject n []) = Ok (VObject n (hidden_fields (VObject id ps))))
      as Hcopy.
    { rewrite (copy_hidden_closed (VObject n) ps Hd); auto. }
    exists (VObject n (hidden_fields (VObject id ps))).
    cbn [fresh_for named_of].
    split; [exact Hcopy|]. split; [reflexivity|]. split.
    { unfold hidden_fields. cbn [enumerable_fields named_of].
      rewrite enumerable_named_of_hidden. reflexivity. }
    cbn [recursiveExtract named_of]. destruct (or_empty oldDoc next) as [old' next0].
    rewrite Hcopy. reflexivity.
Qed.

Lemma hidden_fields_copied_first_witness :
  let doc := VObject 1 [("x", (VNum 1, hidden)); ("name", (VStr "a", plain))] in
  exists data refs' next',
    @recursiveExtract object_host [] [] (MkOptions firestoreDefaultConverter) doc
      (OldValue VUndefined) "" (VObject 5 [], [], 6) = Ok (data, refs', next')
    /\ alookup "x" (named_of data) = Some (VNum 1, hidden)
    /\ get data "x" = Ok (VNum 1)
    /\ ~ In "x" (keys (enumerable_fields data)).
Proof.
  intros doc.
  destruct (@hidden_fields_copied_first object_host [] [] (MkOptions firestoreDefaultConverter) doc
              (OldValue VUndefined) "" 5 [] [] 6 eq_refl I eq_refl)
    as [_ [Hex Hh]].
  destruct (Hex eq_refl eq_refl (or_introl eq_refl)) as [[[data refs'] next'] Run].
  exists data, refs', next'. split; [exact Run|].
  exact (Hh _ _ _ Run "x" (VNum 1, hidden) (or_introl eq_refl) eq_refl).
Defined.

(** ** The snapshot normaliser *)

Lemma defineProperties_fresh (mk : props -> value) (ds : list (string * value)) :
  NoDup (keys ds) ->
  (forall l k d, In k (keys ds) ->
     defineProperty (mk l) k d = (ps' <- define_named l k d ;; Ok (mk ps'))) ->
  forall l,
  (forall k, In k (keys ds) -> alookup k l = None) ->
  defineProperties (mk l) (map (fun kv => (fst kv, value_only (snd kv))) ds) =
  Ok (mk (l ++ map (fun kv => (fst kv, (snd kv, hidden))) ds)%list).
Proof.
  intros Hd Hmk. induction ds as [|[k v] r IH]; intros l Hl; cbn [defineProperties map fst snd].
  - rewrite app_nil_r. reflexivity.
  - inversion Hd as [|? ? Hk Hr]; subst.
    rewrite Hmk by (simpl; auto). unfold define_named.
    rewrite (Hl k) by (simpl; auto). cbn [bind value_only d_value d_enumerable d_writable
                                           d_configurable dflt].
    rewrite aset_absent by (apply Hl; simpl; auto).
    rewrite IH.
    + rewrite <- app_assoc. reflexivity.
    + exact Hr.
    + intros l0 k0 d Hi. apply Hmk. simpl. auto.
    + intros k' Hi. rewrite alookup_app, Hl by (simpl; auto). simpl.
      destruct (String.eqb_spec k' k) as [->|N]; auto. contradiction.
Qed.

Lemma metadata_keys (snapshot : DataSnapshot) :
  keys (metadata snapshot) = [".key"; ".priority"; ".ref"; ".size"].
Proof. reflexivity. Qed.

Lemma enumerable_named_hidden (own : props) (ds : list (string * value)) :
  enumerable_named (own ++ map (fun kv => (fst kv, (snd kv, hidden))) ds)%list =
  enumerable_named own.
Proof.
  unfold enumerable_named. rewrite filter_app.
  replace (filter (fun kp : string * (value * attrs) => enumerable (snd (snd kp)))
             (map (fun kv => (fst kv, (snd kv, hidden))) ds)) with (@nil (string * (value * attrs))).
  - rewrite app_nil_r. reflexivity.
  - induction ds as [|kv r IH]; simpl; auto.
Qed.

(** The record the normaliser makes of a container. *)
Lemma createRecord_decorates (snapshot : DataSnapshot) (next : nat) (decoded : value) :
  snap_exists snapshot = true ->
  snap_val snapshot tt = decoded ->
  isPOJO decoded || isArray decoded = true ->
  (forall k, In k [".key"; ".priority"; ".ref"; ".size"] ->
     alookup k (named_of decoded) = None) ->
  let four := [(".key", (snap_key snapshot, hidden));
               (".priority", (snap_priority snapshot, hidden));
               (".ref", (snap_ref snapshot, hidden));
               (".size", (snap_size snapshot, hidden))] in
  createRecordFromDatabaseSnapshot snapshot next =
  Ok (match decoded with
      | VObject n own => VObject n (own ++ four)
      | VArray n es own => VArray n es (own ++ four)
      | _ => decoded
      end, next).
Proof.
  intros E Hv Hshape Hfree four.
  assert (NoDup (keys (metadata snapshot))) as Hd.
  { rewrite metadata_keys. apply nodupb_NoDup. reflexivity. }
  unfold createRecordFromDatabaseSnapshot. rewrite E, Hv. cbn [negb].
  destruct decoded as [| |b| |z|s|ms|s ns|la lo|r|n es own|n own|fn];
    try discriminate Hshape; cbn [isObject address named_of] in *.
  - rewrite (defineProperties_fresh (VArray n es) (metadata snapshot) Hd).
    + reflexivity.
    + intros l k d Hk. rewrite metadata_keys in Hk. simpl in Hk.
      destruct Hk as [<-|[<-|[<-|[<-|[]]]]]; reflexivity.
    + exact Hfree.
  - rewrite (defineProperties_fresh (VObject n) (metadata snapshot) Hd).
    + reflexivity.
    + intros l k d Hi. reflexivity.
    + exact Hfree.
Qed.

Lemma get_appended (n : nat) (own four : props) (k : string) (v : value) (a : attrs) :
  alookup k own = None -> alookup k four = Some (v, a) ->
  get (VObject n (own ++ four)) k = Ok v.
Proof. intros Ho Hf. cbn [get]. rewrite alookup_app, Ho, Hf. reflexivity. Qed.

Lemma get_appended_array (n : nat) (es : list (option value)) (own four : props) (k : string)
  (v : value) (a : attrs) :
  named_key_ok k = true ->
  alookup k own = None -> alookup k four = Some (v, a) ->
  get (VArray n es (own ++ four)) k = Ok v.
Proof.
  intros Hk Ho Hf. cbn [get]. destruct (named_key_ok_index k Hk) as [-> ->].
  rewrite alookup_app, Ho, Hf. reflexivity.
Qed.

(** C7.  The normaliser returns [null] for an absent snapshot.  When the
    decoded value is a record or an array that has none of the four
    metadata names [.key], [.priority], [.ref] and [.size] among its own
    properties, it returns that very container (same address, own
    properties kept) with the four metadata fields added after them,
    holding the snapshot's key, priority, reference and child count,
    neither enumerable nor writable: enumeration of its fields is unchanged
    and reading a metadata field yields it.  When the decoded value is no
    object it returns a fresh record whose fields, all enumerable, are the
    value under [$value] and the same four metadata fields. *)
Theorem createRecordFromDatabaseSnapshot_normalizes (snapshot : DataSnapshot) (next : nat) :
  (snap_exists snapshot = false ->
     createRecordFromDatabaseSnapshot snapshot next = Ok (VNull, next))
  /\ (snap_exists snapshot = true ->
      forall decoded,
        snap_val snapshot tt = decoded ->
        isPOJO decoded || isArray decoded = true ->
        (forall k, In k [".key"; ".priority"; ".ref"; ".size"] ->
           alookup k (named_of decoded) = None) ->
        exists record,
          createRecordFromDatabaseSnapshot snapshot next = Ok (record, next)
          /\ address record = address decoded
          /\ isArray record = isArray decoded
          /\ named_of record =
               (named_of decoded
                ++ [(".key", (snap_key snapshot, hidden));
                    (".priority", (snap_priority snapshot, hidden));
                    (".ref", (snap_ref snapshot, hidden));
                    (".size", (snap_size snapshot, hidden))])%list
          /\ enumerable hidden = false /\ writable hidden = false
          /\ enumerable_fields record = enumerable_fields decoded
          /\ get record ".key" = Ok (snap_key snapshot)
          /\ get record ".priority" = Ok (snap_priority snapshot)
          /\ get record ".ref" = Ok (snap_ref snapshot)
          /\ get record ".size" = Ok (snap_size snapshot))
  /\ (snap_exists snapshot = true ->
      isObject (snap_val snapshot tt) = false ->
      exists record,
        createRecordFromDatabaseSnapshot snapshot next = Ok (record, S next)
        /\ address record = Some next
        /\ isPOJO record = true
        /\ enumerable_fields record =
             [("$value", snap_val snapshot tt);
              (".key", snap_key snapshot);
              (".priority", snap_priority snapshot);
              (".ref", snap_ref snapshot);
              (".size", snap_size snapshot)]
        /\ keys (named_of record) = ["$value"; ".key"; ".priority"; ".ref"; ".size"]
        /\ get record "$value" = Ok (snap_val snapshot tt)
        /\ get record ".key" = Ok (snap_key snapshot)
        /\ get record ".priority" = Ok (snap_priority snapshot)
        /\ get record ".ref" = Ok (snap_ref snapshot)
        /\ get record ".size" = Ok (snap_size snapshot)).
Proof.
  split; [|split].
  - intros E. unfold createRecordFromDatabaseSnapshot. rewrite E. reflexivity.
  - intros E decoded Hv Hshape Hfree.
    pose proof (createRecord_decorates snapshot next decoded E Hv Hshape Hfree) as Run.
    cbv zeta in Run. eexists. split; [exact Run|].
    destruct decoded as [| |b| |z|s|ms|s ns|la lo|r|n es own|n own|fn];
      try discriminate Hshape; cbn [address isArray named_of] in *.
    + split; [reflexivity|]. split; [reflexivity|]. split; [reflexivity|].
      split; [reflexivity|]. split; [reflexivity|]. split.
      { cbn [enumerable_fields]. f_equal.
        apply (enumerable_named_hidden own
                 [(".key", snap_key snapshot); (".priority", snap_priority snapshot);
                  (".ref", snap_ref snapshot); (".size", snap_size snapshot)]). }
      repeat split;
        (eapply get_appended_array;
         [reflexivity|apply Hfree; simpl; tauto|reflexivity]).
    + split; [reflexivity|]. split; [reflexivity|]. split; [reflexivity|].
      split; [reflexivity|]. split; [reflexivity|]. split.
      { cbn [enumerable_fields].
        apply (enumerable_named_hidden own
                 [(".key", snap_key snapshot); (".priority", snap_priority snapshot);
                  (".ref", snap_ref snapshot); (".size", snap_size snapshot)]). }
      repeat split;
        (eapply get_appended; [apply Hfree; simpl; tauto|reflexivity]).
  - intros E Hs. unfold createRecordFromDatabaseSnapshot. rewrite E, Hs. cbn [negb].
    eexists. split; [reflexivity|]. repeat split; reflexivity.
Qed.

Lemma createRecordFromDatabaseSnapshot_normalizes_witness :
  let decoded := VObject 5 [("name", (VStr "ada", plain))] in
  let snapshot := MkSnapshot true (fun _ => decoded) (VStr "ada") (VNum 2) (VStr "/users/ada")
                    (VNum 1) in
  let scalar := MkSnapshot true (fun _ => VNum 7) (VStr "n") VNull (VStr "/n") (VNum 0) in
  (exists record,
     createRecordFromDatabaseSnapshot snapshot 9 = Ok (record, 9)
     /\ address record = Some 5
     /\ enumerable_fields record = [("name", VStr "ada")]
     /\ get record ".key" = Ok (VStr "ada")
     /\ get record ".priority" = Ok (VNum 2)
     /\ get record ".ref" = Ok (VStr "/users/ada")
     /\ get record ".size" = Ok (VNum 1))
  /\ (exists record,
        createRecordFromDatabaseSnapshot scalar 9 = Ok (record, 10)
        /\ get record "$value" = Ok (VNum 7)
        /\ get record ".key" = Ok (VStr "n")
        /\ get record ".priority" = Ok VNull
        /\ get record ".ref" = Ok (VStr "/n")
        /\ get record ".size" = Ok (VNum 0)).
Proof.
  intros decoded snapshot scalar. split.
  - destruct (proj1 (proj2 (createRecordFromDatabaseSnapshot_normalizes snapshot 9))
                eq_refl decoded eq_refl eq_refl)
      as [record [E [Ha [_ [_ [_ [_ [He [Hk [Hp [Hr Hs]]]]]]]]]]].
    + intros k Hk. simpl in Hk.
      destruct Hk as [<-|[<-|[<-|[<-|[]]]]]; reflexivity.
    + exists record. repeat split; assumption.
  - destruct (proj2 (proj2 (createRecordFromDatabaseSnapshot_normalizes scalar 9))
                eq_refl eq_refl)
      as [record [E [_ [_ [_ [_ [Hv [Hk [Hp [Hr Hs]]]]]]]]]].
    exists record. repeat split; assumption.
Defined.

(** ** What the walker raises *)



(** ** The subscription path index *)

Lemma index_fold_entries (subs l : registry) (acc : path_index) :
  NoDup (keys subs) -> incl l subs ->
  fold_left (index_step subs) (keys l) (Ok acc) =
  Ok (fold_left (fun (a : path_index) (e : string * Sub) =>
                   aset (sub_path (snd e)) (sub_data (snd e) tt) a) l acc).
Proof.
  intros Hd. revert acc. induction l as [|[k s] r IH]; intros acc Hi; simpl.
  - reflexivity.
  - rewrite (alookup_NoDup_In k s subs Hd) by (apply Hi; simpl; auto).
    apply IH. intros e He. apply Hi. simpl. auto.
Qed.

Lemma index_fold_untouched (l : registry) (acc : path_index) (p : string) :
  (forall k s, In (k, s) l -> sub_path s <> p) ->
  alookup p (fold_left (fun (a : path_index) (e : string * Sub) =>
                          aset (sub_path (snd e)) (sub_data (snd e) tt) a) l acc)
  = alookup p acc.
Proof.
  revert acc. induction l as [|[k s] r IH]; intros acc Hn; simpl.
  - reflexivity.
  - rewrite IH by (intros k' s' Hi; apply (Hn k' s'); simpl; auto).
    apply alookup_aset_other. intros E. apply (Hn k s); simpl; auto.
Qed.

Lemma index_fold_mem (l : registry) (acc : path_index) (p : string) :
  amem p (fold_left (fun (a : path_index) (e : string * Sub) =>
                       aset (sub_path (snd e)) (sub_data (snd e) tt) a) l acc) = true
  <-> amem p acc = true \/ exists k s, In (k, s) l /\ sub_path s = p.
Proof.
  revert acc. induction l as [|[k s] r IH]; intros acc; simpl.
  - split; auto. intros [Hm|[k [s [[] _]]]]. exact Hm.
  - rewrite IH. unfold amem at 1. simpl.
    destruct (String.eqb_spec p (sub_path s)) as [->|N].
    + rewrite alookup_aset_same. split; intros _.
      * right. exists k, s. auto.
      * left. reflexivity.
    + rewrite alookup_aset_other by exact N. fold (amem p acc). split.
      * intros [Hm|[k' [s' [Hi Hp]]]]; auto. right. exists k', s'. auto.
      * intros [Hm|[k' [s' [[E|Hi] Hp]]]]; auto.
        -- inversion E; subst. congruence.
        -- right. exists k', s'. auto.
Qed.

(** C9.  The subscription path index is computed once by an extraction
    call, from every entry of the registry: a path is a key of the index
    exactly when some entry carries it, and the index maps it to the
    [data()] result of the last entry carrying it, which is the only one
    when a single entry does. *)
Theorem subsByPath_last_write_wins (subs : registry) :
  NoDup (keys subs) ->
  exists index,
    subsByPath subs = Ok index
    /\ (forall (H : Host) doc oldDoc options next,
          isPOJO doc = true ->
          extractRefs doc oldDoc subs options next =
          recursiveExtract subs index options doc (OldValue oldDoc) ""
            (VObject next [], [], S next))
    /\ (forall p, amem p index = true <-> exists k s, In (k, s) subs /\ sub_path s = p)
    /\ (forall before k s after,
          subs = (before ++ (k, s) :: after)%list ->
          (forall k' s', In (k', s') after -> sub_path s' <> sub_path s) ->
          alookup (sub_path s) index = Some (sub_data s tt)).
Proof.
  intros Hd.
  pose proof (index_fold_entries subs subs [] Hd (incl_refl subs)) as E.
  change (fold_left (index_step subs) (keys subs) (Ok [])) with (subsByPath subs) in E.
  eexists. split; [exact E|]. split; [|split].
  - intros Hh doc oldDoc options next Hp. unfold extractRefs. rewrite Hp, E. reflexivity.
  - intros p. rewrite index_fold_mem. split.
    + intros [Hm|Hx]; [discriminate|exact Hx].
    + auto.
  - intros before k s after -> Hlast.
    rewrite fold_left_app. simpl.
    rewrite index_fold_untouched by exact Hlast.
    apply alookup_aset_same.
Qed.

Lemma subsByPath_last_write_wins_witness :
  let bob := VStr "bob" in
  let eve := VStr "eve" in
  let subs := [("a", MkSub "/users/1" (fun _ => bob));
               ("b", MkSub "/users/1" (fun _ => eve))] in
  exists index, subsByPath subs = Ok index /\ alookup "/users/1" index = Some eve.
Proof.
  intros bob eve subs.
  assert (NoDup (keys subs)) as Hd.
  { apply nodupb_NoDup. reflexivity. }
  destruct (subsByPath_last_write_wins subs Hd) as [index [E [_ [_ Hl]]]].
  exists index. split; [exact E|].
  apply (Hl [("a", MkSub "/users/1" (fun _ => bob))] "b"
            (MkSub "/users/1" (fun _ => eve)) []).
  - reflexivity.
  - intros k' s' [].
Defined.

(** ** The array fast path *)

(** C10, as the code has it.  For an array at an enumerable field of a
    document on which the call returns, the loop of lines 112-117 puts the
    resolved value of the index at the position of every truthy element
    whose [path] converts to a key of the index, whatever the element is: a
    reference, or a record that only carries a [path] field.  The loop of
    the recursive call then assigns every position anew.  An element that
    is a record does not come out as the resolved value: line 125 puts a
    new record in its place, which gets the keys of the element and a copy
    of each of its fields that is no reference, array or record.  The
    resolved value stays where the element is a reference whose
    subscription key is registered and the old document has no truthy
    value at the field of the array. *)
Theorem fast_path_is_overwritten `{Host} (subs : registry) (index : path_index)
  (options : FirestoreRefOptionsWithDefaults) (doc : value) (oldDoc : old_source)
  (path : string) (n : nat) (init : list (option value)) (refs : refs_map) (next : nat)
  (key : string) (a : nat) (es : list (option value)) (ps : props)
  (data : value) (refs' : refs_map) (next' : nat) :
  well_formed doc = true ->
  fits doc init ->
  In (key, VArray a es ps) (enumerable_fields doc) ->
  key <> "__proto__" ->
  recursiveExtract subs index options doc oldDoc path (fresh_for doc n init, refs, next) =
    Ok (data, refs', next') ->
  exists m filled es' ps',
    get data key = Ok (VArray m es' ps')
    /\ fill_existing index es 0 (VArray m (repeat None (List.length es)) []) =
         Ok (VArray m filled [])
    /\ (forall i e p k resolved,
          nth_error es i = Some e ->
          truthy (elem_value e) = true ->
          get (elem_value e) "path" = Ok p ->
          ToPropertyKey p = Ok k ->
          alookup k index = Some resolved ->
          nth_error filled i = Some (Some resolved))
    /\ (forall i id ps0,
          nth_error es i = Some (Some (VObject id ps0)) ->
          exists m' outs,
            nth_error es' i =
              Some (Some (VObject m' (hidden_fields (VObject id ps0) ++ outs)))
            /\ keys outs = keys (created_named ps0)
            /\ (forall k v,
                  In (k, v) (enumerable_named ps0) -> k <> "__proto__" ->
                  isDocumentRef v || isArray v || isPOJO v = false ->
                  get (VObject m' (hidden_fields (VObject id ps0) ++ outs)) k = Ok v))
    /\ (forall i r resolved,
          nth_error es i = Some (Some (VRef r)) ->
          alookup (DocumentReference.path r) index = Some resolved ->
          amem ((path ++ key ++ ".") ++ index_key i) subs
          || inherited ((path ++ key ++ ".") ++ index_key i) = true ->
          (forall o ov, oldDoc = OldValue o ->
             get (if truthy o then o else VObject next []) key = Ok ov ->
             truthy ov = false) ->
          nth_error es' i = Some (Some resolved)).
Proof.
  intros Hwf Hfit Hi N Run.
  destruct (array_field_run subs index options doc oldDoc path n init refs next key a es ps
              Hwf Hfit Hi N data refs' next' Run)
    as [m [filled [es' [ps' [old_of_call
         [Hget [Hlen [Hfill [Hslot [Hold [RunA [Hholes [Hset [Hrec Hkeep]]]]]]]]]]]]]].
  exists m, filled, es', ps'. split; [exact Hget|]. split; [exact Hfill|].
  split; [|split; [exact Hrec|]].
  - intros i e p k resolved He T Ep Ek El.
    destruct (Hslot i e He) as [_ Ht].
    destruct (Ht T) as [p' [k' [Ep' [Ek' [_ [_ Hv]]]]]].
    rewrite Ep in Ep'. injection Ep' as <-. rewrite Ek in Ek'. injection Ek' as <-.
    apply (Hv resolved El).
  - intros i r resolved He El Hb Hfalsy.
    assert (old_of_call = OldIsData) as Hself.
    { destruct oldDoc as [o|]; [|exact Hold].
      destruct Hold as [ov [Eov ->]]. rewrite (Hfalsy o ov eq_refl Eov). reflexivity. }
    destruct (Hslot i (Some (VRef r)) He) as [_ Ht].
    destruct (Ht eq_refl) as [p' [k' [Ep' [Ek' [_ [_ Hv]]]]]].
    cbn [elem_value get] in Ep'. rewrite String.eqb_refl in Ep'. injection Ep' as <-.
    cbn [ToPropertyKey] in Ek'. injection Ek' as <-.
    apply (Hkeep Hself i r (Some resolved) He Hb (Hv resolved El)).
Qed.

Lemma fast_path_is_overwritten_witness :
  let bob := VObject 100 [("name", (VStr "bob", plain))] in
  let carrier := VObject 3 [("path", (VStr "/users/1", plain))] in
  let r := DocumentReference.Make "/users/1" None in
  let doc := VObject 1 [("arr", (VArray 2 [Some carrier; Some (VRef r)] [], plain))] in
  let subs := [("arr.1", MkSub "/users/1" (fun _ => bob))] in
  let options := MkOptions firestoreDefaultConverter in
  exists data refs' next' m es' ps' filled m' outs,
    @recursiveExtract object_host subs [("/users/1", bob)] options doc (OldValue VUndefined) ""
      (VObject 5 [], [], 6) = Ok (data, refs', next')
    /\ get data "arr" = Ok (VArray m es' ps')
    /\ @fill_existing object_host [("/users/1", bob)] [Some carrier; Some (VRef r)] 0
         (VArray m [None; None] []) = Ok (VArray m filled [])
    /\ nth_error filled 0 = Some (Some bob)
    /\ nth_error es' 0 = Some (Some (VObject m' outs))
    /\ get (VObject m' outs) "path" = Ok (VStr "/users/1")
    /\ nth_error es' 1 = Some (Some bob).
Proof.
  intros bob carrier r doc subs options.
  assert (@recursiveExtract object_host subs [("/users/1", bob)] options doc
            (OldValue VUndefined) "" (VObject 5 [], [], 6) = Ok (?[data], ?[refs'], ?[next']))
    as Run by (vm_compute; reflexivity).
  destruct (@fast_path_is_overwritten object_host subs [("/users/1", bob)] options doc
              (OldValue VUndefined) "" 5 [] [] 6 "arr" 2 [Some carrier; Some (VRef r)] []
              _ _ _ eq_refl I (or_introl eq_refl) ltac:(discriminate) Run)
    as [m [filled [es' [ps' [Hget [Hfill [Hfast [Hrec Hkeep]]]]]]]].
  destruct (Hrec 0 3 [("path", (VStr "/users/1", plain))] eq_refl) as [m' [outs [He [_ Hf]]]].
  eexists. eexists. eexists. exists m, es', ps', filled, m'. eexists.
  split; [exact Run|]. split; [exact Hget|]. split; [exact Hfill|].
  split; [apply (Hfast 0 (Some carrier) (VStr "/users/1") "/users/1" bob); reflexivity|].
  split; [exact He|]. split.
  - apply (Hf "path" (VStr "/users/1")); [left; reflexivity|discriminate|reflexivity].
  - apply (Hkeep 1 r bob); try reflexivity.
    intros o ov [= <-] Eov. vm_compute in Eov. injection Eov as <-. reflexivity.
Defined.

(** C10 as the spec words it does not hold: what [extractRefs] returns at
    the position of a record that carries a matching [path] is not the
    resolved document, it is a new record with the fields of the
    element. *)
Lemma carrier_is_rebuilt :
  ~ (forall (doc data : value) (subs : registry) (index : path_index) (refs : refs_map)
            (next' : nat) (key : string) (a i : nat) (es : list (option value)) (ps : props)
            (e p resolved : value) (k : string),
       @extractRefs object_host doc VUndefined subs (MkOptions firestoreDefaultConverter) 0 =
         Ok (data, refs, next') ->
       subsByPath subs = Ok index ->
       In (key, VArray a es ps) (enumerable_fields doc) ->
       nth_error es i = Some (Some e) ->
       truthy e = true ->
       get e "path" = Ok p ->
       @ToPropertyKey object_host p = Ok k ->
       alookup k index = Some resolved ->
       get_path data [key; index_key i] = Ok resolved).
Proof.
  intros C.
  pose (bob := VObject 100 [("name", (VStr "bob", plain))]).
  pose (carrier := VObject 3 [("path", (VStr "/users/1", plain))]).
  assert (@extractRefs object_host (VObject 1 [("arr", (VArray 2 [Some carrier] [], plain))])
            VUndefined [("x", MkSub "/users/1" (fun _ => bob))]
            (MkOptions firestoreDefaultConverter) 0 = Ok (?[data], ?[refs], ?[next']))
    as Run by (vm_compute; reflexivity).
  specialize (C _ _ _ [("/users/1", bob)] _ _ "arr" 2 0 [Some carrier] [] carrier
                (VStr "/users/1") bob "/users/1"
                Run eq_refl (or_introl eq_refl) eq_refl eq_refl eq_refl eq_refl eq_refl).
  vm_compute in C. discriminate C.
Qed.

(** * Further properties

    Properties of the code beside the ones above: the [refs] map as a
    whole, nested references, the shape and the allocations of the output,
    the default converter, [indexForKey], and the records of snapshots
    under assignment and under a second normalisation. *)

(** ** Reference positions *)

Lemma elem_positions_fields (W : value -> string -> list (string * DocumentReference.t))
  (path : string) (es : list (option value)) (i : nat) :
  elem_positions W path es i =
  flat_map (fun kv => field_positions W path (fst kv) (snd kv)) (elem_fields es i).
Proof.
  revert i. induction es as [|[v|] r IH]; intros i;
    cbn [elem_positions elem_fields flat_map fst snd].
  - reflexivity.
  - rewrite IH. reflexivity.
  - apply IH.
Qed.

Lemma named_positions_fields (W : value -> string -> list (string * DocumentReference.t))
  (path : string) (ps : props) :
  named_positions W path ps =
  flat_map (fun kv => field_positions W path (fst kv) (snd kv)) (enumerable_named ps).
Proof.
  unfold enumerable_named.
  induction ps as [|[k [v a]] r IH]; cbn [named_positions filter map flat_map fst snd].
  - reflexivity.
  - destruct (enumerable a); cbn [map flat_map fst snd]; rewrite IH; reflexivity.
Qed.

Lemma ref_positions_fields (doc : value) (path : string) :
  ref_positions doc path =
  flat_map (fun kv => field_positions ref_positions path (fst kv) (snd kv))
           (enumerable_fields doc).
Proof.
  destruct doc as [| |b| |z|s|ms|s ns|la lo|r|id es ps|id ps|fn];
    cbn [ref_positions enumerable_fields flat_map]; try reflexivity.
  - rewrite flat_map_app, elem_positions_fields, named_positions_fields. reflexivity.
  - apply named_positions_fields.
Qed.

Lemma set_positions_app (options : FirestoreRefOptionsWithDefaults)
  (l1 l2 : list (string * DocumentReference.t)) (refs : refs_map) :
  set_positions options (l1 ++ l2) refs =
  set_positions options l2 (set_positions options l1 refs).
Proof. unfold set_positions. apply fold_left_app. Qed.

Section PositionFacts.
Context `{Host}.
Variable subs : registry.
Variable index : path_index.
Variable options : FirestoreRefOptionsWithDefaults.

Lemma fold_fields_positions
  (step : refs_map * nat -> string * value -> refs_map * nat)
  (g : string * value -> list (string * DocumentReference.t))
  (l : list (string * value)) :
  (forall kv st, In kv l -> fst (step st kv) = set_positions options (g kv) (fst st)) ->
  forall st, fst (fold_left step l st) = set_positions options (flat_map g l) (fst st).
Proof.
  induction l as [|kv r IH]; intros Hstep st; cbn [fold_left flat_map].
  - reflexivity.
  - rewrite set_positions_app, IH.
    + rewrite Hstep by (simpl; auto). reflexivity.
    + intros kv' st' Hi. apply Hstep. simpl. auto.
Qed.

(** The references a call stores are those at the reference positions of
    its document, stored in the order of the positions. *)
Lemma walk_refs_positions (doc : value) :
  forall oldDoc path n init refs next,
  fits doc init ->
  fst (snd (walk subs index options doc oldDoc path n init (refs, next))) =
  set_positions options (ref_positions doc path) refs.
Proof.
  induction doc as [| |b| |z|s0|ms|s0 ns|la lo|r|id es ps IHes IHps|id ps IHps|fn]
    using value_ind;
    intros oldDoc path n init refs next Hfit;
    try (cbn [walk]; destruct (or_empty oldDoc next); reflexivity).
  all: rewrite (walk_threads_state subs index options _ oldDoc path n init refs next Hfit).
  all: rewrite ref_positions_fields.
  all: rewrite (fold_fields_positions _
                  (fun kv => field_positions ref_positions path (fst kv) (snd kv)));
    [reflexivity|].
  all: intros [k v] [refs0 next0] Hi; cbn [fst snd].
  all: apply enumerable_fields_component in Hi.
  all: assert (forall oldDoc path n init refs next,
                 fits v init ->
                 fst (snd (walk subs index options v oldDoc path n init (refs, next))) =
                 set_positions options (ref_positions v path) refs) as IHv.
  1: { destruct Hi as [Hi|[a Hi]].
       - rewrite Forall_forall in IHes. apply (IHes _ Hi).
       - rewrite Forall_forall in IHps. apply (IHps _ Hi). }
  2: { destruct Hi as [a Hi]. rewrite Forall_forall in IHps. apply (IHps _ Hi). }
  all: destruct v as [| |b| |z|s0|ms|s0 ns|la lo|r|id' es' ps'|id' ps'|fn];
    cbn [out_field field_positions snd fst]; try reflexivity.
  all: try (unfold set_positions, position_entry, stored_ref, DocumentReference.withConverter;
            cbn [fold_left fst snd];
            destruct r as [p [c|]]; cbn [DocumentReference.converter DocumentReference.path];
            reflexivity).
  all: apply IHv.
  all: try (cbn [fits]; apply length_map).
  all: exact I.
Qed.

End PositionFacts.

Lemma set_positions_keys (options : FirestoreRefOptionsWithDefaults)
  (l : list (string * DocumentReference.t)) :
  forall refs k,
  amem k (set_positions options l refs) = true <-> In k (keys l) \/ amem k refs = true.
Proof.
  induction l as [|[k' r] l IH]; intros refs k; unfold set_positions;
    cbn [fold_left keys map fst snd In].
  - tauto.
  - change (fold_left _ l ?a) with (set_positions options l a).
    rewrite IH. fold (keys l). unfold amem at 1.
    destruct (String.eqb k k') eqn:E.
    + apply String.eqb_eq in E. subst k'. rewrite alookup_aset_same. tauto.
    + rewrite alookup_aset_other by (intros ->; rewrite String.eqb_refl in E; discriminate).
      fold (amem k refs). apply String.eqb_neq in E.
      assert (k' = k <-> False) as Ek by (split; [congruence|tauto]).
      rewrite Ek. tauto.
Qed.

Lemma set_positions_untouched (options : FirestoreRefOptionsWithDefaults)
  (l : list (string * DocumentReference.t)) :
  forall refs k,
  ~ In k (keys l) -> alookup k (set_positions options l refs) = alookup k refs.
Proof.
  induction l as [|[k' r] l IH]; intros refs k Hn; unfold set_positions;
    cbn [fold_left fst snd].
  - reflexivity.
  - change (fold_left _ l ?a) with (set_positions options l a).
    cbn [keys map fst] in Hn. rewrite IH by (intros Hi; apply Hn; right; exact Hi).
    apply alookup_aset_other. intros ->. apply Hn. left. reflexivity.
Qed.

(** The entry at a key is the last position with that key. *)
Lemma set_positions_last (options : FirestoreRefOptionsWithDefaults)
  (l : list (string * DocumentReference.t)) :
  forall refs k r',
  alookup k (set_positions options l refs) = Some r' ->
  In k (keys l) ->
  exists l1 r l2,
    l = (l1 ++ (k, r) :: l2)%list /\ ~ In k (keys l2) /\ r' = position_entry options r.
Proof.
  induction l as [|[k' r] l IH]; intros refs k r' Hl Hi; [contradiction|].
  unfold set_positions in Hl. cbn [fold_left fst snd] in Hl.
  change (fold_left _ l ?a) with (set_positions options l a) in Hl.
  destruct (in_dec string_dec k (keys l)) as [Hin|Hout].
  - destruct (IH _ _ _ Hl Hin) as [l1 [r0 [l2 [-> [Hn Er]]]]].
    exists ((k', r) :: l1), r0, l2. auto.
  - rewrite set_positions_untouched in Hl by exact Hout.
    destruct Hi as [Hi|Hi]; [|contradiction]. cbn in Hi. subst k'.
    rewrite alookup_aset_same in Hl. injection Hl as <-.
    exists [], r, l. auto.
Qed.


Lemma extractRefs_positions `{Host} (subs : registry)
  (options : FirestoreRefOptionsWithDefaults) (doc oldDoc : value) (next : nat)
  (data : value) (refs : refs_map) (next' : nat) :
  isPOJO doc = true ->
  well_formed doc = true ->
  extractRefs doc oldDoc subs options next = Ok (data, refs, next') ->
  refs = set_positions options (ref_positions doc "") [].
Proof.
  intros Hp Hwf Run.
  destruct (extractRefs_closed subs options doc oldDoc next _ Hp Hwf Run) as [index [_ [_ E]]].
  assert (fits doc []) as Hfit by (destruct doc; try discriminate Hp; exact I).
  pose proof (walk_refs_positions subs index options doc (OldValue oldDoc) "" next []
                [] (S next) Hfit) as Hr.
  pose proof (f_equal (fun st : walk_state => snd (fst st)) E) as Er.
  unfold flat in Er. cbn [fst snd] in Er. rewrite Er. exact Hr.
Qed.

(** X1.  The [refs] that [extractRefs] returns for a well-formed record is
    exactly what an assignment [refs[key] = entry], done for every
    reference position of [doc] in the order of the walk, leaves in an
    empty map, the entry of a position being its reference when that has
    a converter and the reference to the same target with
    [options.converter] when it has none: [refs] depends on [doc] and on
    [options.converter] only, neither on the old document nor on the
    registry.  The call returns when no enumerable key of [doc] is
    [__proto__], the [path] of every array element converts to a key and
    the reads of the old document return. *)
Theorem extractRefs_refs_by_position `{Host} (subs : registry)
  (options : FirestoreRefOptionsWithDefaults) (doc oldDoc : value) (next : nat) :
  isPOJO doc = true ->
  well_formed doc = true ->
  let run := extractRefs doc oldDoc subs options next in
  (tame doc = true -> follows subs doc (OldValue oldDoc) "" = true ->
   exists result, run = Ok result)
  /\ (forall data refs next',
        run = Ok (data, refs, next') ->
        refs = set_positions options (ref_positions doc "") []).
Proof.
  intros Hp Hwf run. split.
  - intros Ht Hf. apply (extractRefs_returns subs options doc oldDoc next Hwf Ht Hf).
  - intros data refs next' Run.
    apply (extractRefs_positions subs options doc oldDoc next data refs next' Hp Hwf Run).
Qed.

Lemma extractRefs_refs_by_position_witness :
  let r := DocumentReference.Make "users/1" None in
  let q := DocumentReference.Make "users/2" (Some (customConverter 7)) in
  let doc := VObject 1 [("a", (VObject 2 [("b", (VRef r, plain))], plain));
                        ("c", (VArray 3 [Some (VRef q); None; Some (VRef r)] [], plain))] in
  let options := MkOptions firestoreDefaultConverter in
  exists data next',
    @extractRefs object_host doc VUndefined [("c.0", MkSub "users/2" (fun _ => VNum 1))]
      options 5 =
    Ok (data,
        [("a.b", DocumentReference.Make "users/1" (Some firestoreDefaultConverter));
         ("c.0", DocumentReference.Make "users/2" (Some (customConverter 7)));
         ("c.2", DocumentReference.Make "users/1" (Some firestoreDefaultConverter))],
        next').
Proof.
  intros r q doc options.
  destruct (@extractRefs_refs_by_position object_host
              [("c.0", MkSub "users/2" (fun _ => VNum 1))] options doc VUndefined 5
              eq_refl eq_refl) as [Hret Hrefs].
  destruct (Hret eq_refl eq_refl) as [[[data refs] next'] Run].
  exists data, next'. rewrite Run. rewrite (Hrefs data refs next' Run). reflexivity.
Defined.

(** X2.  The keys of the [refs] that [extractRefs] returns for a
    well-formed record are exactly the keys of the reference positions of
    [doc].  The entry at a key has the target path of the reference at one
    of these positions and always carries a converter: it is that
    reference when the reference has a converter, and it carries
    [options.converter] when the reference has none. *)
Theorem extractRefs_refs_entries `{Host} (subs : registry)
  (options : FirestoreRefOptionsWithDefaults) (doc oldDoc : value) (next : nat)
  (data : value) (refs : refs_map) (next' : nat) :
  isPOJO doc = true ->
  well_formed doc = true ->
  extractRefs doc oldDoc subs options next = Ok (data, refs, next') ->
  forall k,
    (amem k refs = true <-> exists r, In (k, r) (ref_positions doc ""))
    /\ (forall r', alookup k refs = Some r' ->
          DocumentReference.converter r' <> None
          /\ exists r, In (k, r) (ref_positions doc "")
                       /\ DocumentReference.path r' = DocumentReference.path r
                       /\ (DocumentReference.converter r <> None -> r' = r)
                       /\ (DocumentReference.converter r = None ->
                           DocumentReference.converter r' = Some (opt_converter options))).
Proof.
  intros Hp Hwf Run k.
  pose proof (extractRefs_positions subs options doc oldDoc next data refs next' Hp Hwf Run)
    as Er.
  subst refs.
  assert (forall l : refs_map, In k (keys l) <-> exists r, In (k, r) l) as Hk.
  { intros l. unfold keys. rewrite in_map_iff. split.
    - intros [[k' r] [E Hi]]. cbn in E. subst k'. eauto.
    - intros [r Hi]. exists (k, r). auto. }
  split.
  - rewrite set_positions_keys, Hk. cbn. split; [intros [Hi|Hi]|]; auto. discriminate.
  - intros r' Hl.
    assert (In k (keys (ref_positions doc ""))) as Hi.
    { assert (amem k (set_positions options (ref_positions doc "") []) = true) as Hm
        by (unfold amem; rewrite Hl; reflexivity).
      apply set_positions_keys in Hm. destruct Hm as [Hm|Hm]; [exact Hm|discriminate]. }
    destruct (set_positions_last options _ _ _ _ Hl Hi) as [l1 [r [l2 [El [_ Er]]]]].
    subst r'. destruct r as [p [c|]]; unfold position_entry;
      cbn [DocumentReference.converter DocumentReference.path].
    + split; [discriminate|]. exists (DocumentReference.Make p (Some c)).
      rewrite El. split; [apply in_or_app; right; left; reflexivity|].
      cbn [DocumentReference.converter DocumentReference.path].
      split; [reflexivity|]. split; [reflexivity|discriminate].
    + split; [discriminate|]. exists (DocumentReference.Make p None).
      rewrite El. split; [apply in_or_app; right; left; reflexivity|].
      cbn [DocumentReference.converter DocumentReference.path].
      split; [reflexivity|]. split; [intros C; contradiction C|]; reflexivity.
Qed.

Lemma extractRefs_refs_entries_witness :
  let r := DocumentReference.Make "users/1" None in
  let q := DocumentReference.Make "users/2" (Some (customConverter 7)) in
  let doc := VObject 1 [("a", (VObject 2 [("b", (VRef r, plain))], plain));
                        ("c", (VArray 3 [Some (VRef q)] [], plain))] in
  let options := MkOptions firestoreDefaultConverter in
  exists data refs next',
    @extractRefs object_host doc VUndefined [] options 5 = Ok (data, refs, next')
    /\ amem "a.b" refs = true
    /\ amem "c.0" refs = true
    /\ amem "c" refs = false
    /\ (forall r', alookup "c.0" refs = Some r' -> r' = q)
    /\ (forall r', alookup "a.b" refs = Some r' ->
          r' = DocumentReference.Make "users/1" (Some firestoreDefaultConverter)).
Proof.
  intros r q doc options.
  eexists. eexists. eexists.
  assert (@extractRefs object_host doc VUndefined [] options 5 =
          Ok (?[data], ?[refs], ?[next'])) as Run by (vm_compute; reflexivity).
  pose proof (@extractRefs_refs_entries object_host [] options doc VUndefined 5 _ _ _
                eq_refl eq_refl Run) as Hk.
  split; [exact Run|].
  split; [apply (proj1 (Hk "a.b")); exists r; vm_compute; auto|].
  split; [apply (proj1 (Hk "c.0")); exists q; vm_compute; auto|].
  split; [reflexivity|]. split.
  - intros r' Hl. destruct (proj2 (Hk "c.0") r' Hl) as [_ [r0 [Hi [_ [Hown _]]]]].
    vm_compute in Hi. destruct Hi as [Hi|[Hi|[]]]; [discriminate Hi|].
    injection Hi as <-. apply Hown. discriminate.
  - intros r' Hl. destruct (proj2 (Hk "a.b") r' Hl) as [_ [r0 [Hi [Hpath [_ Hnone]]]]].
    vm_compute in Hi. destruct Hi as [Hi|[Hi|[]]]; [|discriminate Hi].
    injection Hi as <-. specialize (Hnone eq_refl). destruct r' as [p c].
    cbn in Hpath, Hnone. subst. reflexivity.
Defined.

(** ** References nested in records *)

Lemma field_at_position (ks : list string) :
  forall doc path r,
  ks <> [] ->
  field_at doc ks = Some (VRef r) ->
  In (path ++ String.concat "." ks, r) (ref_positions doc path).
Proof.
  induction ks as [|k ks IH]; intros doc path r Hne Hf; [congruence|].
  destruct (field_at_step doc k ks _ Hf) as [w [Hi Hw]].
  rewrite ref_positions_fields. apply in_flat_map. exists (k, w). split; [exact Hi|].
  cbn [fst snd]. destruct ks as [|k2 ks].
  - cbn [field_at] in Hw. injection Hw as ->. cbn. auto.
  - rewrite concat_cons. pose proof (field_at_container w k2 ks _ Hw) as Hc.
    destruct w; try discriminate Hc; cbn [field_positions]; apply IH;
      solve [discriminate|exact Hw].
Qed.

Lemma old_at_falsy (ks : list string) :
  forall o,
  ks <> [] ->
  truthy o = false ->
  Forall (fun x => inherited x = false) ks ->
  old_at o ks = VUndefined.
Proof.
  induction ks as [|k ks IH]; intros o Hne Ht Hn; [congruence|].
  cbn [old_at]. rewrite Ht. inversion Hn as [|? ? Hk Hr]; subst.
  change (peek (VObject 0 []) k) with (unset k). rewrite (unset_not_inherited k Hk).
  destruct ks as [|k2 ks]; [reflexivity|].
  apply IH; [discriminate|reflexivity|exact Hr].
Qed.

(** X3.  A reference that [doc] holds under the chain of keys
    [k1, ..., kn], through nested records, none of the keys being
    [__proto__], is registered under the dotted key [k1.k2...kn]: the
    [refs] of a call that returns has that key.  At the same chain [data]
    holds the reference's path when the dotted key is not in the registry,
    neither as a name of its own nor as one every object inherits, and
    otherwise what the old document holds there, an old document that is
    falsy at some level counting as an empty record from there on; so with
    no old document, and no key of the chain a name every object inherits,
    the field is [undefined].  The call returns when no enumerable key of
    [doc] is [__proto__], the [path] of every array element converts to a
    key and the reads of the old document return. *)
Theorem nested_reference_decomposition `{Host} (subs : registry)
  (options : FirestoreRefOptionsWithDefaults) (doc oldDoc : value) (next : nat)
  (ks : list string) (k : string) (r : DocumentReference.t) :
  well_formed doc = true ->
  field_at doc (ks ++ [k]) = Some (VRef r) ->
  through_records doc (ks ++ [k]) = true ->
  Forall (fun x => x <> "__proto__") (ks ++ [k]) ->
  let key := String.concat "." (ks ++ [k]) in
  let bound := amem key subs || inherited key in
  let run := extractRefs doc oldDoc subs options next in
  (tame doc = true -> follows subs doc (OldValue oldDoc) "" = true ->
   exists result, run = Ok result)
  /\ (forall data refs next',
        run = Ok (data, refs, next') ->
        (bound = false ->
         get_path data (ks ++ [k]) = Ok (VStr (DocumentReference.path r)))
        /\ (bound = true -> get_path data (ks ++ [k]) = Ok (old_at oldDoc (ks ++ [k])))
        /\ (bound = true -> truthy oldDoc = false ->
            Forall (fun x => inherited x = false) (ks ++ [k]) ->
            get_path data (ks ++ [k]) = Ok VUndefined)
        /\ amem key refs = true).
Proof.
  intros Hwf Hf Hthrough Hn key bound run.
  assert ((ks ++ [k])%list <> []) as Hne by (destruct ks; discriminate).
  assert (isPOJO doc = true) as Hp.
  { destruct (ks ++ [k])%list as [|k1 r1]; [congruence|].
    cbn [through_records] in Hthrough. apply andb_prop in Hthrough. tauto. }
  split.
  - intros Ht Hfo. apply (extractRefs_returns subs options doc oldDoc next Hwf Ht Hfo).
  - intros data refs next' Run.
    destruct (extractRefs_closed subs options doc oldDoc next _ Hp Hwf Run)
      as [index [_ [_ E]]].
    pose proof (f_equal (fun st : walk_state => fst (fst st)) E) as Ed.
    unfold flat in Ed. cbn [fst snd] in Ed.
    assert (fits doc []) as Hfit by (destruct doc; try discriminate Hp; exact I).
    assert (match doc with
            | VArray _ es _ => @nil (option value) = map (filled_slot index) es
            | _ => True
            end) as Hinit by (destruct doc; try discriminate Hp; exact I).
    destruct (walk_chain subs index options ks doc (OldValue oldDoc) "" next [] [] (S next)
                r k Hwf Hfit Hinit Hf Hn) as [w [Hget [Hfree Hbound]]].
    change (has_property ("" ++ String.concat "." (ks ++ [k])) subs) with bound
      in Hfree, Hbound.
    assert (bound = true -> get_path data (ks ++ [k]) = Ok (old_at oldDoc (ks ++ [k]))) as Hb.
    { intros Eb. destruct (Hbound Eb) as [_ [_ Hrec]].
      rewrite <- (Hrec oldDoc eq_refl Hthrough), Ed. exact Hget. }
    split; [|split; [exact Hb|split]].
    + intros Eb. rewrite <- (Hfree Eb), Ed. exact Hget.
    + intros Eb Ht Hi. rewrite (Hb Eb), (old_at_falsy _ _ Hne Ht Hi). reflexivity.
    + rewrite (extractRefs_positions subs options doc oldDoc next data refs next' Hp Hwf Run).
      apply set_positions_keys. left.
      exact (in_map fst _ _ (field_at_position _ doc "" r Hne Hf)).
Qed.

Lemma nested_reference_decomposition_witness :
  let r := DocumentReference.Make "users/1" None in
  let q := DocumentReference.Make "users/2" None in
  let doc := VObject 1 [("a", (VObject 2 [("b", (VRef r, plain));
                                          ("valueOf", (VRef q, plain));
                                          ("c", (VRef q, plain))], plain))] in
  let oldDoc := VObject 3 [("a", (VObject 4 [("b", (VStr "resolved", plain))], plain))] in
  let subs := [("a.b", MkSub "users/1" (fun _ => VStr "resolved"))] in
  exists data refs next',
    @extractRefs object_host doc oldDoc subs (MkOptions firestoreDefaultConverter) 5 =
      Ok (data, refs, next')
    /\ get_path data ["a"; "b"] = Ok (VStr "resolved")
    /\ get_path data ["a"; "c"] = Ok (VStr "users/2")
    /\ get_path data ["a"; "valueOf"] = Ok (VStr "users/2")
    /\ amem "a.b" refs = true.
Proof.
  intros r q doc oldDoc subs.
  eexists. eexists. eexists.
  assert (@extractRefs object_host doc oldDoc subs (MkOptions firestoreDefaultConverter) 5 =
          Ok (?[data], ?[refs], ?[next'])) as Run by (vm_compute; reflexivity).
  split; [exact Run|].
  destruct (@nested_reference_decomposition object_host subs
              (MkOptions firestoreDefaultConverter) doc oldDoc 5 ["a"] "b" r
              eq_refl eq_refl eq_refl
              ltac:(repeat constructor; discriminate)) as [_ Hb].
  destruct (Hb _ _ _ Run) as [_ [Hold [_ Hrefs]]].
  destruct (@nested_reference_decomposition object_host subs
              (MkOptions firestoreDefaultConverter) doc oldDoc 5 ["a"] "c" q
              eq_refl eq_refl eq_refl
              ltac:(repeat constructor; discriminate)) as [Hret Hc].
  destruct (Hc _ _ _ Run) as [Hpath _].
  destruct (@nested_reference_decomposition object_host subs
              (MkOptions firestoreDefaultConverter) doc oldDoc 5 ["a"] "valueOf" q
              eq_refl eq_refl eq_refl
              ltac:(repeat constructor; discriminate)) as [_ Hv].
  destruct (Hv _ _ _ Run) as [Hpathv _].
  split; [exact (Hold eq_refl)|]. split; [exact (Hpath eq_refl)|].
  split; [exact (Hpathv eq_refl)|exact Hrefs].
Defined.

(** ** Allocation *)

Lemma allocated_below_holds (next m : nat) (v : value) :
  allocated_below next v = true -> next <= m -> holds_address m v = false.
Proof.
  intros Ha Hm.
  induction v as [| |b| |z|s|ms|s ns|la lo|r|id es ps IHes IHps|id ps IHps|fn] using value_ind;
    try reflexivity; cbn [allocated_below holds_address] in *.
  - rewrite !andb_true_iff in Ha. destruct Ha as [[Hn Hes] Hps].
    apply Nat.ltb_lt in Hn.
    assert (Nat.eqb id m = false) as -> by (apply Nat.eqb_neq; lia). cbn [orb].
    apply orb_false_iff. split.
    + apply not_true_is_false. intros Ex. apply existsb_exists in Ex.
      destruct Ex as [[w|] [Hi Hw]]; [|discriminate].
      rewrite Forall_forall in IHes. rewrite forallb_forall in Hes.
      pose proof (IHes _ Hi (Hes _ Hi)) as Hx. cbn beta iota in *. congruence.
    + apply not_true_is_false. intros Ex. apply existsb_exists in Ex.
      destruct Ex as [[k [w a]] [Hi Hw]].
      rewrite Forall_forall in IHps. rewrite forallb_forall in Hps.
      pose proof (IHps _ Hi (Hps _ Hi)) as Hx. cbn [fst snd] in *. congruence.
  - rewrite !andb_true_iff in Ha. destruct Ha as [Hn Hps].
    apply Nat.ltb_lt in Hn.
    assert (Nat.eqb id m = false) as -> by (apply Nat.eqb_neq; lia). cbn [orb].
    apply not_true_is_false. intros Ex. apply existsb_exists in Ex.
    destruct Ex as [[k [w a]] [Hi Hw]].
    rewrite Forall_forall in IHps. rewrite forallb_forall in Hps.
    pose proof (IHps _ Hi (Hps _ Hi)) as Hx. cbn [fst snd] in *. congruence.
Qed.

Section Allocation.
Context `{Host}.
Variable subs : registry.
Variable index : path_index.
Variable options : FirestoreRefOptionsWithDefaults.

Abbreviation walk_ := (walk subs index options).

Lemma or_empty_next (oldDoc : old_source) (next : nat) : next <= snd (or_empty oldDoc next).
Proof. destruct oldDoc as [o|]; cbn [or_empty]; [destruct (truthy o)|]; cbn [snd]; lia. Qed.

(** A call never hands out an address below the one it starts at. *)
Lemma walk_next_mono (doc : value) :
  forall oldDoc path n init refs next,
  fits doc init ->
  next <= snd (snd (walk_ doc oldDoc path n init (refs, next))).
Proof.
  induction doc as [| |b| |z|s0|ms|s0 ns|la lo|r|id es ps IHes IHps|id ps IHps|fn]
    using value_ind;
    intros oldDoc path n init refs next Hfit;
    try (cbn [walk]; pose proof (or_empty_next oldDoc next);
         destruct (or_empty oldDoc next); cbn [snd] in *; lia).
  all: rewrite (walk_threads_state subs index options _ oldDoc path n init refs next Hfit).
  all: apply (fold_left_preserves _ (fun st : refs_map * nat => next <= snd st));
    [|apply or_empty_next].
  all: intros [refs0 next0] [k v] Hi Hst; cbn [fst snd] in *.
  all: apply enumerable_fields_component in Hi.
  all: assert (forall oldDoc path n init refs next,
                 fits v init ->
                 next <= snd (snd (walk_ v oldDoc path n init (refs, next)))) as IHv.
  1: { destruct Hi as [Hi|[a Hi]].
       - rewrite Forall_forall in IHes. apply (IHes _ Hi).
       - rewrite Forall_forall in IHps. apply (IHps _ Hi). }
  2: { destruct Hi as [a Hi]. rewrite Forall_forall in IHps. apply (IHps _ Hi). }
  all: destruct v as [| |b| |z|s0|ms|s0 ns|la lo|r|id' es' ps'|id' ps'|fn];
    cbn [out_field snd fst]; try exact Hst.
  all: match goal with
       | |- _ <= snd (snd (walk_ ?v ?o ?p ?n ?i (?r, S ?x))) =>
           pose proof (IHv o p n i r (S x)) as Hm
       end.
  all: cbn [fits] in Hm; rewrite ?length_map in Hm; specialize (Hm ltac:(auto)); lia.
Qed.

Section Bounds.
Variable oldDoc : old_source.
Variable path : string.

Abbreviation out_field_ := (out_field subs index options walk_ oldDoc path).

Lemma out_field_next (k : string) (v seen : value) (st : refs_map * nat) :
  snd st <= snd (snd (out_field_ k v seen st)).
Proof.
  destruct st as [refs next].
  destruct v as [| |b| |z|s0|ms|s0 ns|la lo|r|id' es' ps'|id' ps'|fn];
    cbn [out_field snd fst]; try lia.
  - pose proof (walk_next_mono (VArray id' es' ps') (old_for_array oldDoc k)
                  (path ++ k ++ ".") next (map (filled_slot index) es') refs (S next)) as Hm.
    cbn [fits] in Hm. rewrite length_map in Hm. specialize (Hm eq_refl). lia.
  - pose proof (walk_next_mono (VObject id' ps') (old_for_record oldDoc k)
                  (path ++ k ++ ".") next [] refs (S next) I) as Hm. lia.
Qed.

(** The container the loop leaves at a container field is allocated at
    the address that was free when the loop reached the field. *)
Lemma out_field_address (k : string) (v seen : value) (st : refs_map * nat) :
  isPOJO v || isArray v = true ->
  address (fst (out_field_ k v seen st)) = Some (snd st)
  /\ isPOJO (fst (out_field_ k v seen st)) = isPOJO v
  /\ isArray (fst (out_field_ k v seen st)) = isArray v
  /\ snd st < snd (snd (out_field_ k v seen st)).
Proof.
  destruct st as [refs next].
  destruct v as [| |b| |z|s0|ms|s0 ns|la lo|r|id' es' ps'|id' ps'|fn]; try discriminate;
    intros _; cbn [out_field snd fst].
  - pose proof (walk_next_mono (VArray id' es' ps') (old_for_array oldDoc k)
                  (path ++ k ++ ".") next (map (filled_slot index) es') refs (S next)) as Hm.
    cbn [fits] in Hm. rewrite length_map in Hm. specialize (Hm eq_refl).
    cbn [walk] in *. destruct (or_empty _ (S next)) as [old' next0].
    destruct (out_elems subs index options _ old' _ es' 0 _ (refs, next0)) as [es1 st1].
    destruct (out_named subs index options _ old' _ ps' st1) as [outs st2].
    cbn [fst snd address isPOJO isArray] in *. repeat split; auto; lia.
  - pose proof (walk_next_mono (VObject id' ps') (old_for_record oldDoc k)
                  (path ++ k ++ ".") next [] refs (S next) I) as Hm.
    cbn [walk] in *. destruct (or_empty _ (S next)) as [old' next0].
    destruct (out_named subs index options _ old' _ ps' (refs, next0)) as [outs st2].
    cbn [fst snd address isPOJO isArray] in *. repeat split; auto; lia.
Qed.

Lemma out_named_next (ps : props) (st : refs_map * nat) :
  snd st <= snd (snd (out_named subs index options walk_ oldDoc path ps st)).
Proof.
  rewrite out_named_state.
  apply (fold_left_preserves _ (fun s : refs_map * nat => snd st <= snd s)); [|lia].
  intros st0 [k v] _ Hst. cbn [fst snd].
  pose proof (out_field_next k v VUndefined st0). lia.
Qed.

Lemma out_elems_next (es : list (option value)) (i : nat) (init : list (option value))
  (st : refs_map * nat) :
  List.length init = List.length es ->
  snd st <= snd (snd (out_elems subs index options walk_ oldDoc path es i init st)).
Proof.
  intros Hlen. rewrite (out_elems_state subs index options walk_ oldDoc path es i init st Hlen).
  apply (fold_left_preserves _ (fun s : refs_map * nat => snd st <= snd s)); [|lia].
  intros st0 [k v] _ Hst. cbn [fst snd].
  pose proof (out_field_next k v VUndefined st0). lia.
Qed.

(** Every named field of the output is what the loop body left there, at
    a state between the one the loop started from and the one it ended
    in. *)
Lemma out_named_between (ps : props) :
  forall st,
  Forall2 (fun (kv : string * value) (o : string * (value * attrs)) =>
             fst o = fst kv /\ snd (snd o) = plain
             /\ exists st0,
                  fst (snd o) = fst (out_field_ (fst kv) (snd kv) (unset (fst kv)) st0)
                  /\ snd st <= snd st0
                  /\ snd (snd (out_field_ (fst kv) (snd kv) (unset (fst kv)) st0))
                     <= snd (snd (out_named subs index options walk_ oldDoc path ps st)))
          (created_named ps)
          (fst (out_named subs index options walk_ oldDoc path ps st)).
Proof.
  unfold created_named, enumerable_named.
  induction ps as [|[k [v a]] r IH]; intros st; cbn [out_named filter map snd fst].
  - constructor.
  - destruct (enumerable a) eqn:Ea; cbn [map fst snd filter].
    + pose proof (out_field_next k v (unset k) st) as Hf.
      destruct (out_field_ k v (unset k) st) as [w st1] eqn:Ew.
      specialize (IH st1). pose proof (out_named_next r st1) as Hn.
      destruct (out_named subs index options walk_ oldDoc path r st1) as [outs st2].
      cbn [fst snd] in *.
      assert (Forall2 (fun (kv : string * value) (o : string * (value * attrs)) =>
                fst o = fst kv /\ snd (snd o) = plain
                /\ exists st0,
                     fst (snd o) = fst (out_field_ (fst kv) (snd kv) (unset (fst kv)) st0)
                     /\ snd st <= snd st0
                     /\ snd (snd (out_field_ (fst kv) (snd kv) (unset (fst kv)) st0))
                        <= snd st2)
                (filter (fun kv : string * value => negb (String.eqb (fst kv) "__proto__"))
                   (map (fun kp : string * (value * attrs) => (fst kp, fst (snd kp)))
                      (filter (fun kp : string * (value * attrs) => enumerable (snd (snd kp)))
                         r)))
                outs) as IH'.
      { eapply Forall2_impl; [|exact IH]. cbn beta.
        intros kv o [E1 [E2 [st0 [E3 [E4 E5]]]]]. split; auto. split; auto.
        exists st0. repeat split; auto; lia. }
      destruct (String.eqb k "__proto__"); cbn [negb]; [exact IH'|].
      constructor; [|exact IH'].
      cbn [fst snd]. split; auto. split; auto. exists st. rewrite Ew. cbn [fst snd].
      repeat split; auto; lia.
    + apply IH.
Qed.

Lemma out_elems_between (es : list (option value)) :
  forall i init st,
  List.length init = List.length es ->
  let r := out_elems subs index options walk_ oldDoc path es i init st in
  forall j v,
    nth_error es j = Some (Some v) ->
    exists st0 f,
      nth_error init j = Some f
      /\ nth_error (fst r) j =
           Some (Some (fst (out_field_ (index_key (i + j)) v (elem_value f) st0)))
      /\ snd st <= snd st0
      /\ snd (snd (out_field_ (index_key (i + j)) v (elem_value f) st0)) <= snd (snd r).
Proof.
  induction es as [|e r IH]; intros i init st Hlen; destruct init as [|f fr];
    try discriminate Hlen.
  - cbn. intros [|j] v; discriminate.
  - simpl in Hlen. injection Hlen as Hlen. cbn [out_elems].
    destruct e as [v|].
    + pose proof (out_field_next (index_key i) v (elem_value f) st) as Hf.
      destruct (out_field_ (index_key i) v (elem_value f) st) as [w st1] eqn:Ew.
      specialize (IH (S i) fr st1 Hlen). pose proof (out_elems_next r (S i) fr st1 Hlen) as Hn.
      destruct (out_elems subs index options walk_ oldDoc path r (S i) fr st1) as [es' st2].
      cbn [fst snd] in *. intros [|j] v'; cbn [nth_error].
      * intros [= <-]. exists st, f. rewrite Nat.add_0_r, Ew. cbn [fst snd].
        repeat split; auto.
      * intros Hj. replace (i + S j) with (S i + j) by lia.
        destruct (IH j v' Hj) as [st0 [f0 [E1 [E2 [E3 E4]]]]].
        exists st0, f0. repeat split; auto. lia.
    + specialize (IH (S i) fr st Hlen).
      destruct (out_elems subs index options walk_ oldDoc path r (S i) fr st) as [es' st2].
      cbn [fst snd] in *. intros [|j] v'; cbn [nth_error]; [discriminate|].
      intros Hj. replace (i + S j) with (S i + j) by lia. apply (IH j v' Hj).
Qed.

End Bounds.

(** What a call leaves at a field, with the addresses that were free
    before and after the loop body ran on it. *)
Lemma walk_field_between (doc : value) (oldDoc : old_source) (path : string) (n : nat)
  (init : list (option value)) (refs : refs_map) (next : nat) (k : string) (v : value) :
  well_formed doc = true ->
  fits doc init ->
  In (k, v) (enumerable_fields doc) ->
  k <> "__proto__" ->
  exists st0 seen,
    get (fst (walk_ doc oldDoc path n init (refs, next))) k =
    Ok (fst (out_field subs index options walk_ (fst (or_empty oldDoc next)) path k v seen st0))
    /\ next <= snd st0
    /\ snd (snd (out_field subs index options walk_ (fst (or_empty oldDoc next)) path k v
                   seen st0))
       <= snd (snd (walk_ doc oldDoc path n init (refs, next))).
Proof.
  intros Hwf Hfit Hi N. pose proof (or_empty_next oldDoc next) as Ho.
  destruct doc as [| |b| |z|s|ms|s ns|la lo|r|id es ps|id ps|fn]; try contradiction.
  - (* array *)
    cbn [well_formed] in Hwf. rewrite !andb_true_iff in Hwf.
    destruct Hwf as [[[Hes Hd] Hok] Hps]. apply nodupb_NoDup in Hd.
    cbn [fits] in Hfit. cbn [walk fresh_for enumerable_fields] in *.
    destruct (or_empty oldDoc next) as [old' next']. cbn [fst snd] in *.
    pose proof (out_elems_between old' path es 0 init (refs, next') Hfit) as Hslots.
    pose proof (out_elems_slots subs index options walk_ old' path es 0 init (refs, next') Hfit)
      as [Hlen _].
    pose proof (out_elems_next old' path es 0 init (refs, next') Hfit) as He.
    destruct (out_elems subs index options walk_ old' path es 0 init (refs, next'))
      as [es' st1]. cbn [fst snd] in *.
    pose proof (out_named_between old' path ps st1) as HF.
    pose proof (out_named_next old' path ps st1) as Hn.
    apply in_app_or in Hi. destruct Hi as [Hi|Hi].
    + apply elem_fields_In in Hi. destruct Hi as [j [-> Hj]]. cbn [Nat.add] in *.
      destruct (Hslots j v Hj) as [st0 [f [Hf [Hw [E3 E4]]]]].
      exists st0, (elem_value f).
      destruct (out_named subs index options walk_ old' path ps st1) as [outs st2].
      cbn [fst snd get] in *. rewrite index_of_key_index_key, Hw. cbn [elem_value].
      repeat split; auto; lia.
    + assert (named_key_ok k = true) as Hk.
      { rewrite forallb_forall in Hok. apply Hok.
        apply (in_map fst) in Hi. unfold enumerable_named in Hi.
        unfold keys. rewrite map_map in Hi. cbn [fst] in Hi.
        apply in_map_iff in Hi. destruct Hi as [x [<- Hx]].
        apply filter_In in Hx. apply in_map. tauto. }
      destruct (named_key_ok_index k Hk) as [Ei El].
      destruct (Forall2_lookup
                  (fun kv o => snd (snd o) = plain
                     /\ exists st0,
                          fst (snd o) =
                            fst (out_field subs index options walk_ old' path
                                   (fst kv) (snd kv) (unset (fst kv)) st0)
                          /\ snd st1 <= snd st0
                          /\ snd (snd (out_field subs index options walk_ old' path
                                         (fst kv) (snd kv) (unset (fst kv)) st0))
                             <= snd (snd (out_named subs index options walk_ old' path ps st1)))
                  _ _ k v HF (created_named_keys_NoDup ps Hd)
                  (proj2 (created_named_In ps k v) (conj Hi N)))
        as [[w a] [Elk [_ [st0 [Ew [E3 E4]]]]]].
      exists st0, (unset k).
      destruct (out_named subs index options walk_ old' path ps st1) as [outs st2].
      cbn [fst snd get] in *. rewrite Ei, El.
      assert (alookup k (hidden_fields (VArray id es ps)) = None) as Hh.
      { apply enumerable_named_In in Hi. destruct Hi as [a' [Hi He']].
        apply (hidden_lookup_enumerable ps k v a'); auto. }
      rewrite alookup_app, Hh, Elk. cbn [fst snd] in *.
      repeat split; [congruence|lia|lia].
  - (* record *)
    cbn [well_formed] in Hwf. rewrite !andb_true_iff in Hwf.
    destruct Hwf as [Hd Hps]. apply nodupb_NoDup in Hd.
    cbn [walk fresh_for enumerable_fields] in *.
    destruct (or_empty oldDoc next) as [old' next']. cbn [fst snd] in *.
    pose proof (out_named_between old' path ps (refs, next')) as HF.
    destruct (Forall2_lookup
                (fun kv o => snd (snd o) = plain
                   /\ exists st0,
                        fst (snd o) =
                          fst (out_field subs index options walk_ old' path
                                 (fst kv) (snd kv) (unset (fst kv)) st0)
                        /\ snd (refs, next') <= snd st0
                        /\ snd (snd (out_field subs index options walk_ old' path
                                       (fst kv) (snd kv) (unset (fst kv)) st0))
                           <= snd (snd (out_named subs index options walk_ old' path ps
                                          (refs, next'))))
                _ _ k v HF (created_named_keys_NoDup ps Hd)
                (proj2 (created_named_In ps k v) (conj Hi N)))
      as [[w a] [Elk [_ [st0 [Ew [E3 E4]]]]]].
    exists st0, (unset k).
    destruct (out_named subs index options walk_ old' path ps (refs, next')) as [outs st2].
    cbn [fst snd get] in *.
    assert (alookup k (hidden_fields (VObject id ps)) = None) as Hh.
    { apply enumerable_named_In in Hi. destruct Hi as [a' [Hi He']].
      apply (hidden_lookup_enumerable ps k v a'); auto. }
    rewrite alookup_app, Hh, Elk. cbn [fst snd] in *.
    repeat split; [congruence|lia|lia].
Qed.

End Allocation.

(** ** The keys of the output *)

Lemma enumerable_named_app (l1 l2 : props) :
  enumerable_named (l1 ++ l2)%list = (enumerable_named l1 ++ enumerable_named l2)%list.
Proof. unfold enumerable_named. rewrite filter_app, map_app. reflexivity. Qed.

Lemma enumerable_named_plain (R : string * value -> string * (value * attrs) -> Prop)
  (l : list (string * value)) (outs : props) :
  Forall2 (fun kv o => fst o = fst kv /\ snd (snd o) = plain /\ R kv o) l outs ->
  keys (enumerable_named outs) = keys l.
Proof.
  intros HF. induction HF as [|[k v] [k' [w a]] l' outs' [Hk [Ha _]] HF IH].
  - reflexivity.
  - cbn in Hk, Ha. subst k' a. unfold enumerable_named in *.
    cbn [filter snd enumerable plain map fst keys] in *. f_equal. exact IH.
Qed.

Lemma created_named_keys (ps : props) :
  keys (created_named ps) =
  filter (fun k => negb (String.eqb k "__proto__")) (keys (enumerable_named ps)).
Proof.
  unfold created_named, keys.
  induction (enumerable_named ps) as [|[k v] r IH]; cbn [filter map fst]; [reflexivity|].
  destruct (negb (String.eqb k "__proto__")); cbn [map fst]; rewrite IH; reflexivity.
Qed.

Lemma elem_fields_keys (es : list (option value)) :
  forall i,
  filter (fun k => negb (String.eqb k "__proto__")) (keys (elem_fields es i)) =
  keys (elem_fields es i).
Proof.
  induction es as [|[v|] r IH]; intros i; cbn [elem_fields keys map fst filter].
  - reflexivity.
  - destruct (String.eqb_spec (index_key i) "__proto__") as [E|_].
    + destruct (index_key_not_proto i E).
    + cbn [negb]. f_equal. apply IH.
  - apply IH.
Qed.

Section OutputKeys.
Context `{Host}.
Variable subs : registry.
Variable index : path_index.
Variable options : FirestoreRefOptionsWithDefaults.

Lemma out_elems_keys (W : value -> old_source -> string -> nat -> list (option value) ->
                          refs_map * nat -> value * (refs_map * nat))
  (oldDoc : old_source) (path : string) (es : list (option value)) :
  forall i init st,
  Forall2 (fun e f : option value => e = None -> f = None) es init ->
  keys (elem_fields (fst (out_elems subs index options W oldDoc path es i init st)) i) =
  keys (elem_fields es i).
Proof.
  induction es as [|e r IH]; intros i init st HF; inversion HF as [|? f ? fr Hef HF']; subst.
  - reflexivity.
  - cbn [out_elems]. destruct e as [v|].
    + destruct (out_field subs index options W oldDoc path (index_key i) v (elem_value f) st)
        as [w st1].
      specialize (IH (S i) fr st1 HF').
      destruct (out_elems subs index options W oldDoc path r (S i) fr st1) as [es' st2].
      cbn [fst elem_fields keys map] in *. f_equal. exact IH.
    + rewrite (Hef eq_refl).
      specialize (IH (S i) fr st HF').
      destruct (out_elems subs index options W oldDoc path r (S i) fr st) as [es' st2].
      cbn [fst elem_fields] in *. exact IH.
Qed.

(** The output of a call has the enumerable keys of its document but
    [__proto__], in the same order, and as many element slots. *)
Lemma walk_keys (doc : value) (oldDoc : old_source) (path : string) (n : nat)
  (init : list (option value)) (st : refs_map * nat) :
  keeps_holes doc init ->
  keys (enumerable_fields (fst (walk subs index options doc oldDoc path n init st))) =
  filter (fun k => negb (String.eqb k "__proto__")) (keys (enumerable_fields doc))
  /\ (isArray doc = true ->
      get (fst (walk subs index options doc oldDoc path n init st)) "length" =
      get doc "length").
Proof.
  intros Hk. pose proof (keeps_holes_fits doc init Hk) as Hfit.
  destruct st as [refs next].
  destruct doc as [| |b| |z|s|ms|s ns|la lo|r|id es ps|id ps|fn];
    try (cbn [walk]; destruct (or_empty oldDoc next); cbn; split; [reflexivity|discriminate]).
  - cbn [keeps_holes fits] in *. cbn [walk].
    destruct (or_empty oldDoc next) as [old' next0].
    pose proof (out_elems_keys (walk subs index options) old' path es 0 init (refs, next0) Hk)
      as Ke.
    pose proof (out_elems_slots subs index options (walk subs index options) old' path es 0
                  init (refs, next0) Hfit) as [Hlen _].
    destruct (out_elems subs index options _ old' path es 0 init (refs, next0)) as [es' st1].
    pose proof (out_named_fields subs index options (walk subs index options) old' path ps st1)
      as HF.
    destruct (out_named subs index options _ old' path ps st1) as [outs st2].
    cbn [fst enumerable_fields] in *. split.
    + unfold keys in *. rewrite !map_app, filter_app. f_equal.
      * rewrite Ke. symmetry. apply elem_fields_keys.
      * unfold hidden_fields. cbn [named_of].
        rewrite enumerable_named_app, enumerable_named_of_hidden. cbn [Datatypes.app].
        fold (keys (enumerable_named ps)). rewrite <- created_named_keys.
        eapply enumerable_named_plain. exact HF.
    + intros _. cbn. rewrite Hlen. reflexivity.
  - cbn [walk]. destruct (or_empty oldDoc next) as [old' next0].
    pose proof (out_named_fields subs index options (walk subs index options) old' path ps
                  (refs, next0)) as HF.
    destruct (out_named subs index options _ old' path ps (refs, next0)) as [outs st2].
    cbn [fst enumerable_fields] in *. split; [|discriminate].
    unfold hidden_fields. cbn [named_of].
    rewrite enumerable_named_app, enumerable_named_of_hidden. cbn [Datatypes.app].
    rewrite <- created_named_keys.
    eapply enumerable_named_plain. exact HF.
Qed.

End OutputKeys.

(** X4.  The data a call of [recursiveExtract] returns has the enumerable
    keys of its document except [__proto__], for which the assignment of
    the loop creates no property, in the same order; for an array it has
    the same [length].  The call returns when no enumerable key of [doc],
    at any depth, is [__proto__], the [path] of every array element
    converts to a key and the reads of the old document return. *)
Theorem recursiveExtract_keeps_the_keys `{Host} (subs : registry) (index : path_index)
  (options : FirestoreRefOptionsWithDefaults) (doc : value) (oldDoc : old_source)
  (path : string) (n : nat) (init : list (option value)) (refs : refs_map) (next : nat) :
  well_formed doc = true ->
  keeps_holes doc init ->
  let run :=
    recursiveExtract subs index options doc oldDoc path (fresh_for doc n init, refs, next) in
  (tame doc = true -> follows subs doc oldDoc path = true -> dotted path ->
   exists result, run = Ok result)
  /\ (forall data refs' next',
        run = Ok (data, refs', next') ->
        keys (enumerable_fields data) =
          filter (fun k => negb (String.eqb k "__proto__")) (keys (enumerable_fields doc))
        /\ (tame doc = true -> keys (enumerable_fields data) = keys (enumerable_fields doc))
        /\ (isArray doc = true -> get data "length" = get doc "length")).
Proof.
  intros Hwf Hk run. pose proof (keeps_holes_fits doc init Hk) as Hfit. split.
  - intros Ht Hf Hd.
    apply (recursiveExtract_returns subs index options doc Hwf oldDoc path n init refs next
             Hfit Ht Hf Hd).
  - intros data refs' next' Run.
    pose proof (recursiveExtract_runs subs index options doc oldDoc path n init refs next
                  _ Hwf Hfit Run) as E.
    pose proof (f_equal (fun st : walk_state => fst (fst st)) E) as Ed.
    unfold flat in Ed. cbn [fst snd] in Ed.
    destruct (walk_keys subs index options doc oldDoc path n init (refs, next) Hk)
      as [Hkeys Hlen].
    assert (keys (enumerable_fields data) =
            filter (fun k => negb (String.eqb k "__proto__")) (keys (enumerable_fields doc)))
      as Hkd by (rewrite Ed; exact Hkeys).
    split; [exact Hkd|]. split.
    + intros Ht. rewrite Hkd. apply forallb_filter_id. apply forallb_forall.
      intros k Hi. apply in_map_iff in Hi. destruct Hi as [[k' v] [<- Hi]].
      apply negb_true_iff, String.eqb_neq. cbn [fst].
      apply (tame_field doc k' v Ht Hi).
    + intros Ha. rewrite Ed. apply (Hlen Ha).
Qed.

Lemma recursiveExtract_keeps_the_keys_witness :
  let r := DocumentReference.Make "users/1" None in
  let list := VArray 1 [Some (VNum 1); None; Some (VRef r)]
                [("tag", (VNull, plain)); ("secret", (VNum 7, hidden))] in
  let doc := VObject 2 [("__proto__", (VNum 5, plain)); ("x", (VNull, plain));
                        ("r", (VRef r, plain))] in
  exists data refs' next' data2 refs2 next2,
    @recursiveExtract object_host [] [] (MkOptions firestoreDefaultConverter) list
      (OldValue VUndefined) "" (VArray 9 [None; None; None] [], [], 10) =
      Ok (data, refs', next')
    /\ keys (enumerable_fields data) = ["0"; "2"; "tag"]
    /\ get data "length" = Ok (VNum 3)
    /\ @recursiveExtract object_host [] [] (MkOptions firestoreDefaultConverter) doc
         (OldValue VUndefined) "" (VObject 9 [], [], 10) = Ok (data2, refs2, next2)
    /\ keys (enumerable_fields data2) = ["x"; "r"].
Proof.
  intros r list doc.
  eexists. eexists. eexists. eexists. eexists. eexists.
  assert (@recursiveExtract object_host [] [] (MkOptions firestoreDefaultConverter) list
            (OldValue VUndefined) "" (VArray 9 [None; None; None] [], [], 10) =
          Ok (?[data], ?[refs'], ?[next'])) as Run by (vm_compute; reflexivity).
  assert (@recursiveExtract object_host [] [] (MkOptions firestoreDefaultConverter) doc
            (OldValue VUndefined) "" (VObject 9 [], [], 10) =
          Ok (?[data2], ?[refs2], ?[next2])) as Run2 by (vm_compute; reflexivity).
  destruct (@recursiveExtract_keeps_the_keys object_host [] []
              (MkOptions firestoreDefaultConverter) list (OldValue VUndefined) "" 9
              [None; None; None] [] 10 eq_refl
              ltac:(repeat constructor; discriminate)) as [_ Hkeys].
  destruct (Hkeys _ _ _ Run) as [_ [Hk Hl]].
  destruct (@recursiveExtract_keeps_the_keys object_host [] []
              (MkOptions firestoreDefaultConverter) doc (OldValue VUndefined) "" 9
              [] [] 10 eq_refl I) as [_ Hkeys2].
  split; [exact Run|]. split; [exact (Hk eq_refl)|]. split; [exact (Hl eq_refl)|].
  split; [exact Run2|]. exact (proj1 (Hkeys2 _ _ _ Run2)).
Defined.

(** X5.  A call of [recursiveExtract] that returns has not lowered the
    allocation counter; the data it returns is the container it started
    from (same address); and at every field whose value is a record or an
    array, and whose key is not [__proto__], the data holds a container of
    the same kind that the call allocated itself: its address was free
    when the call began and is taken when it returns.  So it is no record
    or array of any value whose records and arrays were all allocated
    before the call, the document itself and the old document among
    them.  The call returns when no enumerable key of [doc] is
    [__proto__], the [path] of every array element converts to a key and
    the reads of the old document return. *)
Theorem recursiveExtract_allocates_containers `{Host} (subs : registry) (index : path_index)
  (options : FirestoreRefOptionsWithDefaults) (doc : value) (oldDoc : old_source)
  (path : string) (n : nat) (init : list (option value)) (refs : refs_map) (next : nat) :
  well_formed doc = true ->
  fits doc init ->
  let run :=
    recursiveExtract subs index options doc oldDoc path (fresh_for doc n init, refs, next) in
  (tame doc = true -> follows subs doc oldDoc path = true -> dotted path ->
   exists result, run = Ok result)
  /\ (forall data refs' next',
        run = Ok (data, refs', next') ->
        next <= next'
        /\ (isPOJO doc || isArray doc = true -> address data = Some n)
        /\ forall k v,
             In (k, v) (enumerable_fields doc) ->
             k <> "__proto__" ->
             isPOJO v || isArray v = true ->
             exists w m,
               get data k = Ok w
               /\ isPOJO w = isPOJO v
               /\ isArray w = isArray v
               /\ address w = Some m
               /\ next <= m < next'
               /\ (allocated_below next doc = true -> holds_address m doc = false)
               /\ (forall o, oldDoc = OldValue o -> allocated_below next o = true ->
                     holds_address m o = false)
               /\ (forall x, allocated_below next x = true -> holds_address m x = false)).
Proof.
  intros Hwf Hfit run. split.
  - intros Ht Hf Hd.
    apply (recursiveExtract_returns subs index options doc Hwf oldDoc path n init refs next
             Hfit Ht Hf Hd).
  - intros data refs' next' Run.
    pose proof (recursiveExtract_runs subs index options doc oldDoc path n init refs next
                  _ Hwf Hfit Run) as E.
    pose proof (f_equal (fun st : walk_state => fst (fst st)) E) as Ed.
    pose proof (f_equal (fun st : walk_state => snd st) E) as En.
    unfold flat in Ed, En. cbn [fst snd] in Ed, En.
    split; [rewrite En; apply walk_next_mono; exact Hfit|].
    split; [intros Hc; rewrite Ed;
            apply (walk_is_container subs index options doc oldDoc path n init
                     (refs, next) Hc)|].
    intros k v Hi N Hv.
    destruct (walk_field_between subs index options doc oldDoc path n init refs next k v
                Hwf Hfit Hi N) as [st0 [seen [Hget [Hlo Hhi]]]].
    destruct (out_field_address subs index options (fst (or_empty oldDoc next)) path k v seen
                st0 Hv) as [Ha [Hp [Hr Hlt]]].
    eexists. exists (snd st0). split; [rewrite Ed; exact Hget|].
    split; [exact Hp|]. split; [exact Hr|]. split; [exact Ha|].
    assert (next <= snd st0 < next') as Hb by (rewrite En; lia).
    split; [exact Hb|].
    assert (forall x, allocated_below next x = true -> holds_address (snd st0) x = false)
      as Hx by (intros x Hx; apply (allocated_below_holds next (snd st0) x Hx); lia).
    split; [apply Hx|]. split; [|exact Hx].
    intros o _. apply Hx.
Qed.

Lemma recursiveExtract_allocates_containers_witness :
  let shared := VObject 2 [("x", (VNum 1, plain))] in
  let doc := VObject 1 [("a", (shared, plain));
                        ("l", (VArray 3 [Some shared] [], plain))] in
  let oldDoc := VObject 4 [("a", (VObject 5 [("x", (VNum 0, plain))], plain))] in
  exists data refs' next' w m,
    @recursiveExtract object_host [] [] (MkOptions firestoreDefaultConverter) doc
      (OldValue oldDoc) "" (VObject 6 [], [], 7) = Ok (data, refs', next')
    /\ address data = Some 6
    /\ get data "a" = Ok w
    /\ isPOJO w = true
    /\ address w = Some m
    /\ 7 <= m < next'
    /\ holds_address m doc = false
    /\ holds_address m oldDoc = false.
Proof.
  intros shared doc oldDoc.
  assert (@recursiveExtract object_host [] [] (MkOptions firestoreDefaultConverter) doc
            (OldValue oldDoc) "" (VObject 6 [], [], 7) = Ok (?[data], ?[refs'], ?[next']))
    as Run by (vm_compute; reflexivity).
  destruct (@recursiveExtract_allocates_containers object_host [] []
              (MkOptions firestoreDefaultConverter) doc (OldValue oldDoc) "" 6 [] [] 7
              eq_refl I) as [_ Hall].
  destruct (Hall _ _ _ Run) as [_ [Haddr Hfields]].
  destruct (Hfields "a" shared (or_introl eq_refl) ltac:(discriminate) eq_refl)
    as [w [m [Hget [Hp [_ [Ha [Hb [Hdoc [Hold _]]]]]]]]].
  eexists. eexists. eexists. exists w, m.
  split; [exact Run|]. split; [exact (Haddr eq_refl)|]. split; [exact Hget|].
  split; [exact Hp|]. split; [exact Ha|]. split; [exact Hb|].
  split; [exact (Hdoc eq_refl)|exact (Hold oldDoc eq_refl eq_refl)].
Defined.

(** ** Defining values on own properties *)

Lemma define_named_value (ps ps' : props) (k : string) (v : value) :
  define_named ps k (value_only v) = Ok ps' ->
  alookup k ps' = Some (v, match alookup k ps with
                           | Some (_, a) => a
                           | None => hidden
                           end)
  /\ forall k', k' <> k -> alookup k' ps' = alookup k' ps.
Proof.
  unfold define_named. destruct (alookup k ps) as [[cv ca]|] eqn:E.
  - destruct (negb (configurable ca) && refuses (cv, ca) (value_only v)); [discriminate|].
    intros [= <-]. cbn [value_only d_value d_enumerable d_writable d_configurable dflt].
    split.
    + rewrite alookup_aset_same. destruct ca; reflexivity.
    + intros k' N. apply alookup_aset_other. exact N.
  - intros [= <-]. cbn [value_only d_value d_enumerable d_writable d_configurable dflt].
    split.
    + rewrite alookup_aset_same. reflexivity.
    + intros k' N. apply alookup_aset_other. exact N.
Qed.

Lemma defineProperty_value (o r : value) (k : string) (v : value) :
  defineProperty o k (value_only v) = Ok r ->
  isPOJO o || isArray o = true
  /\ address r = address o
  /\ isPOJO r = isPOJO o
  /\ alookup k (named_of r) = Some (v, match alookup k (named_of o) with
                                       | Some (_, a) => a
                                       | None => hidden
                                       end)
  /\ forall k', k' <> k -> alookup k' (named_of r) = alookup k' (named_of o).
Proof.
  destruct o as [| |b| |z|s|ms|s ns|la lo|rf|n es own|n own|fn]; cbn [defineProperty];
    try discriminate.
  - destruct (index_of_key k); [discriminate|].
    destruct (String.eqb k "length"); [discriminate|].
    destruct (define_named own k (value_only v)) as [ps'|e] eqn:E; [|discriminate].
    intros [= <-]. cbn [named_of address isPOJO isArray].
    destruct (define_named_value own ps' k v E) as [E1 E2]. auto.
  - destruct (define_named own k (value_only v)) as [ps'|e] eqn:E; [|discriminate].
    intros [= <-]. cbn [named_of address isPOJO isArray].
    destruct (define_named_value own ps' k v E) as [E1 E2]. auto.
Qed.

(** Whenever [Object.defineProperties] with value-only descriptors
    returns, every listed property holds its new value and has kept the
    attributes it had, or is hidden when it is new. *)
Lemma defineProperties_values (ds : list (string * value)) :
  forall o r,
  NoDup (keys ds) ->
  defineProperties o (map (fun kv => (fst kv, value_only (snd kv))) ds) = Ok r ->
  address r = address o
  /\ isPOJO r = isPOJO o
  /\ (forall k v, In (k, v) ds ->
        alookup k (named_of r) = Some (v, match alookup k (named_of o) with
                                          | Some (_, a) => a
                                          | None => hidden
                                          end))
  /\ (forall k, ~ In k (keys ds) -> alookup k (named_of r) = alookup k (named_of o)).
Proof.
  induction ds as [|[k v] ds IH]; intros o r Hd Run; cbn [defineProperties map fst snd] in Run.
  - injection Run as <-. repeat split; auto. intros k v [].
  - inversion Hd as [|? ? Hk Hr]; subst.
    destruct (defineProperty o k (value_only v)) as [o1|e] eqn:E; [|discriminate].
    cbn [bind] in Run.
    destruct (defineProperty_value o o1 k v E) as [_ [A1 [P1 [L1 O1]]]].
    destruct (IH o1 r Hr Run) as [A2 [P2 [L2 O2]]].
    split; [congruence|]. split; [congruence|]. split.
    + intros k' v' [[= <- <-]|Hi].
      * rewrite (O2 k Hk). exact L1.
      * rewrite (L2 k' v' Hi).
        assert (k' <> k) as N.
        { intros ->. apply Hk. apply (in_map fst) in Hi. exact Hi. }
        rewrite (O1 k' N). reflexivity.
    + intros k' Hn. cbn [keys map fst] in Hn.
      rewrite O2 by (intros Hi; apply Hn; right; exact Hi).
      apply O1. intros ->. apply Hn. left. reflexivity.
Qed.

Lemma defineProperty_kind (o r : value) (k : string) (d : descriptor) :
  defineProperty o k d = Ok r ->
  isPOJO o || isArray o = true /\ isPOJO r = isPOJO o /\ isArray r = isArray o.
Proof.
  destruct o as [| |b| |z|s|ms|s ns|la lo|rf|n es own|n own|fn]; cbn [defineProperty];
    try discriminate.
  - destruct (index_of_key k); [discriminate|].
    destruct (String.eqb k "length"); [discriminate|].
    destruct (define_named own k d); [|discriminate].
    intros [= <-]. auto.
  - destruct (define_named own k d); [|discriminate].
    intros [= <-]. auto.
Qed.

Lemma defineProperties_kind (ds : list (string * descriptor)) :
  forall o r,
  defineProperties o ds = Ok r ->
  isPOJO r = isPOJO o /\ isArray r = isArray o
  /\ (ds <> [] -> isPOJO o || isArray o = true).
Proof.
  induction ds as [|[k d] ds IH]; intros o r Run; cbn [defineProperties] in Run.
  - injection Run as <-. split; [reflexivity|]. split; [reflexivity|]. congruence.
  - destruct (defineProperty o k d) as [o1|e] eqn:E; [|discriminate]. cbn [bind] in Run.
    destruct (defineProperty_kind o o1 k d E) as [C [P1 A1]].
    destruct (IH o1 r Run) as [P2 [A2 _]].
    split; [congruence|]. split; [congruence|]. intros _. exact C.
Qed.

Lemma defineProperties_container (ds : list (string * descriptor)) (o r : value) :
  ds <> [] ->
  defineProperties o ds = Ok r ->
  isPOJO r || isArray r = true.
Proof.
  intros Hne Run. destruct (defineProperties_kind ds o r Run) as [P [A C]].
  rewrite P, A. exact (C Hne).
Qed.

Lemma get_named (r : value) (k : string) (v : value) (a : attrs) :
  isPOJO r || isArray r = true ->
  named_key_ok k = true ->
  alookup k (named_of r) = Some (v, a) ->
  get r k = Ok v.
Proof.
  intros C Hk Hl. destruct (named_key_ok_index k Hk) as [Ei El].
  destruct r; try discriminate C; cbn [get named_of] in *.
  - rewrite Ei, El, Hl. reflexivity.
  - rewrite Hl. reflexivity.
Qed.

(** ** Records of snapshots *)

Lemma metadata_NoDup (snapshot : DataSnapshot) : NoDup (keys (metadata snapshot)).
Proof. rewrite metadata_keys. apply nodupb_NoDup. reflexivity. Qed.

Lemma metadata_named (snapshot : DataSnapshot) (k : string) :
  In k (keys (metadata snapshot)) -> named_key_ok k = true.
Proof.
  rewrite metadata_keys. simpl. intros [<-|[<-|[<-|[<-|[]]]]]; reflexivity.
Qed.

(** Every record the normaliser returns for a snapshot that exists holds
    the snapshot's metadata under the four names. *)
Lemma record_metadata (snapshot : DataSnapshot) (next : nat) (record : value) (next' : nat) :
  snap_exists snapshot = true ->
  createRecordFromDatabaseSnapshot snapshot next = Ok (record, next') ->
  isPOJO record || isArray record = true
  /\ forall k v, In (k, v) (metadata snapshot) -> get record k = Ok v.
Proof.
  intros E. unfold createRecordFromDatabaseSnapshot. rewrite E. cbn [negb].
  destruct (isObject (snap_val snapshot tt)) eqn:Eo.
  - destruct (defineProperties _ _) as [r|e] eqn:Run; [|discriminate].
    cbn [bind]. intros [= <- <-].
    assert (isPOJO r || isArray r = true) as C
      by (eapply defineProperties_container; [|exact Run]; discriminate).
    split; [exact C|].
    destruct (defineProperties_values (metadata snapshot) _ r (metadata_NoDup snapshot) Run)
      as [_ [_ [L _]]].
    intros k v Hi. eapply get_named; [exact C| |exact (L k v Hi)].
    apply (metadata_named snapshot). apply (in_map fst) in Hi. exact Hi.
  - intros [= <- <-]. split; [reflexivity|].
    intros k v Hi. simpl in Hi.
    destruct Hi as [[= <- <-]|[[= <- <-]|[[= <- <-]|[[= <- <-]|[]]]]]; reflexivity.
Qed.

(** ** [indexForKey] *)

(** The read of [.key], a name that no prototype has, returns on every
    value but [undefined] and [null]. *)
Lemma get_key_present (v : value) :
  is_present v = true -> get v ".key" = Ok (peek v ".key").
Proof.
  intros Hp. unfold peek. destruct (get v ".key") as [w|e] eqn:E; [reflexivity|]. exfalso.
  destruct v as [| |b| |z|s|ms|s ns|la lo|r|id es ps|id ps|fn]; try discriminate Hp;
    cbn [get] in E.
  all: try (vm_compute in E; discriminate E).
  - change (index_of_key ".key") with (@None nat) in E.
    change (String.eqb ".key" "length") with false in E. cbv iota in E.
    destruct (alookup ".key" ps) as [[w a]|]; [discriminate E|].
    vm_compute in E. discriminate E.
  - destruct (alookup ".key" ps) as [[w a]|]; [discriminate E|].
    vm_compute in E. discriminate E.
Qed.

Lemma strict_equals_key (x y : value) :
  is_key y = true -> (strict_equals x y = true <-> x = y).
Proof.
  destruct y; try discriminate; intros _; destruct x; cbn; split;
    try discriminate; try reflexivity.
  - intros E. apply String.eqb_eq in E. congruence.
  - intros [= ->]. apply String.eqb_refl.
Qed.

Lemma indexForKey_from_present (es : list (option value)) (key : value) :
  forall i,
  Forall (fun e => is_present (elem_value e) = true) es ->
  (indexForKey_from es key i = Ok (-1)%Z
   /\ forall e, In e es -> strict_equals (peek (elem_value e) ".key") key = false)
  \/ exists j e,
       indexForKey_from es key i = Ok (Z.of_nat (i + j))
       /\ nth_error es j = Some e
       /\ strict_equals (peek (elem_value e) ".key") key = true
       /\ forall j' e', j' < j -> nth_error es j' = Some e' ->
            strict_equals (peek (elem_value e') ".key") key = false.
Proof.
  induction es as [|e r IH]; intros i HF; cbn [indexForKey_from].
  - left. split; [reflexivity|]. intros e [].
  - inversion HF as [|? ? He Hr]; subst.
    assert (get (elem_value e) ".key" = Ok (peek (elem_value e) ".key")) as Eg.
    { apply get_key_present. exact He. }
    rewrite Eg. cbn [bind].
    destruct (strict_equals (peek (elem_value e) ".key") key) eqn:Em.
    + right. exists 0, e. rewrite Nat.add_0_r. repeat split; auto.
      intros j' e' Hlt. lia.
    + destruct (IH (S i) Hr) as [[E Hall]|[j [e0 [E [Hn [Hm Hb]]]]]].
      * left. split; [exact E|]. intros e' [<-|Hi]; auto.
      * right. exists (S j), e0. replace (i + S j) with (S i + j) by lia.
        repeat split; auto.
        intros [|j'] e' Hlt; cbn [nth_error].
        -- intros [= <-]. exact Em.
        -- apply Hb. lia.
Qed.

Lemma indexForKey_present (array : list (option value)) (key : value) :
  Forall (fun e => is_present (elem_value e) = true) array ->
  (indexForKey array key = Ok (-1)%Z
   /\ forall e, In e array -> strict_equals (peek (elem_value e) ".key") key = false)
  \/ exists i e,
       indexForKey array key = Ok (Z.of_nat i)
       /\ nth_error array i = Some e
       /\ strict_equals (peek (elem_value e) ".key") key = true
       /\ forall j e', j < i -> nth_error array j = Some e' ->
            strict_equals (peek (elem_value e') ".key") key = false.
Proof.
  intros HF. exact (indexForKey_from_present array key 0 HF).
Qed.

(** X9.  On an array none of whose elements is [undefined], [null] or a
    hole, [indexForKey] returns: either [-1], and then no element has a
    [.key] strictly equal to [key]; or an index [i] of the array whose
    element has a [.key] strictly equal to [key], no element before [i]
    having one. *)
Theorem indexForKey_first_match (array : list (option value)) (key : value) :
  Forall (fun e => is_present (elem_value e) = true) array ->
  (indexForKey array key = Ok (-1)%Z
   /\ forall e, In e array -> strict_equals (peek (elem_value e) ".key") key = false)
  \/ exists i e,
       indexForKey array key = Ok (Z.of_nat i)
       /\ nth_error array i = Some e
       /\ strict_equals (peek (elem_value e) ".key") key = true
       /\ forall j e', j < i -> nth_error array j = Some e' ->
            strict_equals (peek (elem_value e') ".key") key = false.
Proof. apply indexForKey_present. Qed.

Lemma indexForKey_first_match_witness :
  let a := VObject 1 [(".key", (VStr "a", hidden))] in
  let b := VObject 2 [(".key", (VStr "b", hidden))] in
  let array := [Some a; Some b; Some b] in
  (indexForKey array (VStr "b") = Ok (-1)%Z
   /\ forall e, In e array -> strict_equals (peek (elem_value e) ".key") (VStr "b") = false)
  \/ exists i e,
       indexForKey array (VStr "b") = Ok (Z.of_nat i)
       /\ nth_error array i = Some e
       /\ strict_equals (peek (elem_value e) ".key") (VStr "b") = true
       /\ forall j e', j < i -> nth_error array j = Some e' ->
            strict_equals (peek (elem_value e') ".key") (VStr "b") = false.
Proof.
  intros a b array. apply (indexForKey_first_match array (VStr "b")).
  repeat constructor.
Defined.

Lemma indexForKey_from_app (pre post : list (option value)) (key : value) :
  forall i,
  Forall (fun e => is_present (elem_value e) = true) pre ->
  (forall e, In e pre -> strict_equals (peek (elem_value e) ".key") key = false) ->
  indexForKey_from (pre ++ post) key i = indexForKey_from post key (i + List.length pre).
Proof.
  induction pre as [|e r IH]; intros i HF Hn; cbn [Datatypes.app List.length indexForKey_from].
  - rewrite Nat.add_0_r. reflexivity.
  - inversion HF as [|? ? He Hr]; subst.
    assert (get (elem_value e) ".key" = Ok (peek (elem_value e) ".key")) as Eg.
    { apply get_key_present. exact He. }
    rewrite Eg. cbn [bind]. rewrite (Hn e) by (left; reflexivity).
    rewrite IH; [|exact Hr|intros e' Hi; apply Hn; right; exact Hi].
    replace (S i + List.length r) with (i + S (List.length r)) by lia. reflexivity.
Qed.

(** X10.  [indexForKey] raises a [TypeError] when it reaches an element
    that is [undefined], [null] or a hole before any element matched. *)
Theorem indexForKey_raises_on_missing_element (pre post : list (option value))
  (e : option value) (key : value) :
  Forall (fun e' => is_present (elem_value e') = true) pre ->
  (forall e', In e' pre -> strict_equals (peek (elem_value e') ".key") key = false) ->
  is_present (elem_value e) = false ->
  indexForKey (pre ++ e :: post) key = Throw TypeError.
Proof.
  intros HF Hn He. unfold indexForKey. rewrite indexForKey_from_app by assumption.
  cbn [indexForKey_from]. destruct (elem_value e); try discriminate He; reflexivity.
Qed.

Lemma indexForKey_raises_on_missing_element_witness :
  indexForKey ([Some (VObject 1 [(".key", (VStr "a", hidden))])] ++ None
               :: [Some (VObject 2 [(".key", (VStr "b", hidden))])]) (VStr "b")
  = Throw TypeError.
Proof.
  apply indexForKey_raises_on_missing_element.
  - repeat constructor.
  - intros e' [<-|[]]. reflexivity.
  - reflexivity.
Defined.

Lemma strict_equals_of_key (x y : value) :
  is_key x = true -> strict_equals x y = true -> x = y /\ is_key y = true.
Proof.
  destruct x; try discriminate; intros _; destruct y; cbn; try discriminate.
  - auto.
  - intros E. apply String.eqb_eq in E. subst. auto.
Qed.

(** X11.  [indexForKey] compares with [===], without conversion: among
    records whose [.key] is a string or [null], a key that is neither (a
    number, say) is never found, and the record found for a key holds that
    very key. *)
Theorem indexForKey_compares_without_conversion (array : list (option value)) (key : value)
  (z : Z) :
  Forall (fun e => is_present (elem_value e) = true
                   /\ is_key (peek (elem_value e) ".key") = true) array ->
  indexForKey array key = Ok z ->
  (is_key key = false -> z = (-1)%Z)
  /\ (forall i e, z = Z.of_nat i -> nth_error array i = Some e ->
        peek (elem_value e) ".key" = key).
Proof.
  intros HF Run.
  assert (Forall (fun e => is_present (elem_value e) = true) array) as HP.
  { eapply Forall_impl; [|exact HF]. cbn. tauto. }
  rewrite Forall_forall in HF.
  destruct (indexForKey_present array key HP) as [[E Hall]|[i [e [E [Hn [Hm Hb]]]]]];
    rewrite E in Run; injection Run as <-.
  - split; [reflexivity|]. intros i e Hz. lia.
  - destruct (strict_equals_of_key _ _ (proj2 (HF e (nth_error_In _ _ Hn))) Hm) as [Ek Hk].
    split.
    + intros Hf. congruence.
    + intros i' e' Hz Hn'. apply Nat2Z.inj in Hz. subst i'.
      rewrite Hn in Hn'. injection Hn' as <-. exact Ek.
Qed.

Lemma indexForKey_compares_without_conversion_witness :
  let array := [Some (VObject 1 [(".key", (VStr "1", hidden))])] in
  ((is_key (VNum 1) = false -> (-1)%Z = (-1)%Z)
   /\ (forall i e, (-1)%Z = Z.of_nat i -> nth_error array i = Some e ->
         peek (elem_value e) ".key" = VNum 1)).
Proof.
  intros array.
  apply (indexForKey_compares_without_conversion array (VNum 1) (-1)).
  - repeat constructor.
  - reflexivity.
Defined.

(** X12.  [indexForKey] finds the records that
    [createRecordFromDatabaseSnapshot] makes: in the list of the records
    made from a list of snapshots that exist, the key (a string or [null])
    of the snapshot at position [i] is found at [i], provided no earlier
    snapshot has the same key. *)
Theorem indexForKey_finds_created_record (snapshots : list DataSnapshot)
  (records : list value) (i : nat) (snapshot : DataSnapshot) :
  Forall2 (fun s r => snap_exists s = true
                      /\ exists n n', createRecordFromDatabaseSnapshot s n = Ok (r, n'))
          snapshots records ->
  nth_error snapshots i = Some snapshot ->
  is_key (snap_key snapshot) = true ->
  (forall j s, j < i -> nth_error snapshots j = Some s -> snap_key s <> snap_key snapshot) ->
  indexForKey (map Some records) (snap_key snapshot) = Ok (Z.of_nat i).
Proof.
  intros HF Hi Hk Hfirst.
  assert (forall j s, nth_error snapshots j = Some s ->
            exists r, nth_error records j = Some r
                      /\ isPOJO r || isArray r = true
                      /\ peek r ".key" = snap_key s) as Hrec.
  { clear Hi Hfirst. induction HF as [|s r ss rs [Ex [n [n' Run]]] HF IH]; intros j s0 Hj.
    - destruct j; discriminate.
    - destruct j as [|j]; cbn [nth_error] in *.
      + injection Hj as <-. exists r. split; [reflexivity|].
        destruct (record_metadata s n r n' Ex Run) as [C G]. split; [exact C|].
        unfold peek. rewrite (G ".key" (snap_key s)); [reflexivity|left; reflexivity].
      + apply IH. exact Hj. }
  assert (Forall (fun e => is_present (elem_value e) = true) (map Some records)) as HP.
  { apply Forall_forall. intros e He. apply in_map_iff in He. destruct He as [r [<- Hr]].
    destruct (In_nth_error _ _ Hr) as [j Hj].
    assert (exists s, nth_error snapshots j = Some s) as [s Hs].
    { destruct (nth_error snapshots j) as [s|] eqn:E; [eauto|].
      apply nth_error_None in E. rewrite (Forall2_length HF) in E.
      apply nth_error_None in E. congruence. }
    destruct (Hrec j s Hs) as [r' [Hr' [C _]]]. rewrite Hj in Hr'. injection Hr' as <-.
    cbn [elem_value]. destruct r; try discriminate C; reflexivity. }
  destruct (Hrec i snapshot Hi) as [ri [Hri [_ Eki]]].
  assert (nth_error (map Some records) i = Some (Some ri)) as Hmi
    by (rewrite nth_error_map, Hri; reflexivity).
  destruct (indexForKey_present (map Some records) (snap_key snapshot) HP)
    as [[E Hall]|[j [e [E [Hn [Hm Hb]]]]]].
  - exfalso. pose proof (Hall (Some ri) (nth_error_In _ _ Hmi)) as C.
    cbn [elem_value] in C. rewrite Eki in C.
    rewrite (proj2 (strict_equals_key _ _ Hk) eq_refl) in C. discriminate.
  - rewrite E. f_equal. f_equal.
    destruct (Nat.lt_trichotomy j i) as [Hlt|[->|Hgt]]; [exfalso| reflexivity |exfalso].
    + rewrite nth_error_map in Hn.
      destruct (nth_error records j) as [rj|] eqn:Erj; [|discriminate].
      injection Hn as <-.
      assert (exists s, nth_error snapshots j = Some s) as [s Hs].
      { destruct (nth_error snapshots j) as [s|] eqn:Es; [eauto|].
        apply nth_error_None in Es.
        assert (i < List.length snapshots) by (apply nth_error_Some; congruence). lia. }
      destruct (Hrec j s Hs) as [r' [Hr' [_ Ek]]]. rewrite Erj in Hr'. injection Hr' as <-.
      cbn [elem_value] in Hm. rewrite Ek in Hm.
      apply (strict_equals_key _ _ Hk) in Hm. exact (Hfirst j s Hlt Hs Hm).
    + pose proof (Hb i (Some ri) Hgt Hmi) as C. cbn [elem_value] in C. rewrite Eki in C.
      rewrite (proj2 (strict_equals_key _ _ Hk) eq_refl) in C. discriminate.
Qed.

Lemma same_value_refl (v : value) : same_value v v = true.
Proof.
  destruct v as [| |b| |z|s|ms|s ns|la lo|r|id es ps|id ps|fn]; cbn [same_value];
    rewrite ?Z.eqb_refl, ?String.eqb_refl, ?Nat.eqb_refl; auto.
  - destruct b; reflexivity.
  - destruct (DocumentReference.converter r) as [[|n]|]; cbn; auto. apply Nat.eqb_refl.
Qed.

Lemma aset_same {A : Type} (k : string) (a : A) (l : list (string * A)) :
  alookup k l = Some a -> aset k a l = l.
Proof.
  induction l as [|[k' a'] r IH]; cbn [alookup aset]; [discriminate|].
  destruct (String.eqb_spec k k') as [->|N].
  - intros [= ->]. reflexivity.
  - intros E. rewrite IH by exact E. reflexivity.
Qed.

Lemma put_read_only (r : value) (k : string) (v w : value) (a : attrs) :
  isPOJO r || isArray r = true ->
  named_key_ok k = true ->
  alookup k (named_of r) = Some (v, a) ->
  writable a = false ->
  put r k w = Throw TypeError.
Proof.
  intros C Hk Hl Hw. destruct (named_key_ok_index k Hk) as [Ei El].
  destruct r as [| |b| |z|s|ms|s ns|la lo|rf|n es own|n own|fn]; try discriminate C;
    cbn [put named_of] in *.
  - rewrite Ei, El. unfold set_named. rewrite Hl, Hw. reflexivity.
  - unfold set_named. rewrite Hl, Hw. reflexivity.
Qed.

(** Defining again, with the values they hold, properties that are hidden
    changes nothing. *)
Lemma defineProperties_again (ds : list (string * value)) (o : value) :
  isPOJO o || isArray o = true ->
  (forall k, In k (keys ds) -> named_key_ok k = true) ->
  (forall k v, In (k, v) ds -> alookup k (named_of o) = Some (v, hidden)) ->
  defineProperties o (map (fun kv => (fst kv, value_only (snd kv))) ds) = Ok o.
Proof.
  intros C Hk Hl. induction ds as [|[k v] ds IH]; cbn [defineProperties map fst snd].
  - reflexivity.
  - assert (defineProperty o k (value_only v) = Ok o) as E.
    { destruct (named_key_ok_index k (Hk k (or_introl eq_refl))) as [Ei El].
      pose proof (Hl k v (or_introl eq_refl)) as L.
      assert (define_named (named_of o) k (value_only v) = Ok (named_of o)) as D.
      { unfold define_named. rewrite L.
        cbn [hidden configurable negb andb refuses value_only d_value d_enumerable d_writable
               d_configurable asks orb writable snd fst enumerable dflt].
        rewrite same_value_refl. cbn [negb]. rewrite aset_same; [reflexivity|exact L]. }
      destruct o as [| |b| |z|s|ms|s ns|la lo|rf|n es own|n own|fn]; try discriminate C;
        cbn [defineProperty named_of] in *.
      - rewrite Ei, El, D. reflexivity.
      - rewrite D. reflexivity. }
    rewrite E. cbn [bind]. apply IH.
    + intros k' Hi. apply Hk. right. exact Hi.
    + intros k' v' Hi. apply Hl. right. exact Hi.
Qed.

(** Defining a different value on a property that is neither configurable
    nor writable raises. *)
Lemma defineProperties_refused (ds : list (string * value)) :
  forall o k v cv ca,
  isPOJO o || isArray o = true ->
  (forall k, In k (keys ds) -> named_key_ok k = true) ->
  NoDup (keys ds) ->
  In (k, v) ds ->
  alookup k (named_of o) = Some (cv, ca) ->
  configurable ca = false ->
  writable ca = false ->
  same_value v cv = false ->
  defineProperties o (map (fun kv => (fst kv, value_only (snd kv))) ds) = Throw TypeError.
Proof.
  induction ds as [|[k0 v0] ds IH]; intros o k v cv ca C Hk Hd Hi Hl Hc Hw Hs; [contradiction|].
  cbn [defineProperties map fst snd].
  inversion Hd as [|? ? Hn Hr]; subst.
  destruct (named_key_ok_index k0 (Hk k0 (or_introl eq_refl))) as [Ei El].
  assert (defineProperty o k0 (value_only v0) =
          (ps' <- define_named (named_of o) k0 (value_only v0) ;;
           Ok (match o with
               | VArray n es _ => VArray n es ps'
               | VObject n _ => VObject n ps'
               | _ => o
               end))) as E.
  { destruct o as [| |b| |z|s|ms|s ns|la lo|rf|n es own|n own|fn]; try discriminate C;
      cbn [defineProperty named_of].
    - rewrite Ei, El. reflexivity.
    - reflexivity. }
  rewrite E. clear E.
  destruct Hi as [[= -> ->]|Hi].
  - unfold define_named. rewrite Hl.
    cbn [refuses value_only d_value d_enumerable d_writable d_configurable asks orb
           snd fst]. rewrite Hc, Hw, Hs. reflexivity.
  - assert (k <> k0) as N.
    { intros ->. apply Hn. apply (in_map fst) in Hi. exact Hi. }
    destruct (define_named (named_of o) k0 (value_only v0)) as [ps'|e] eqn:D.
    + cbn [bind]. destruct (define_named_value _ _ _ _ D) as [_ O].
      apply (IH _ k v cv ca); auto.
      * destruct o; try discriminate C; reflexivity.
      * intros k' Hi'. apply Hk. right. exact Hi'.
      * rewrite <- Hl, <- (O k N).
        destruct o; try discriminate C; reflexivity.
    + cbn [bind]. unfold define_named in D.
      destruct (alookup k0 (named_of o)) as [[cv0 ca0]|]; [|discriminate].
      destruct (negb (configurable ca0) && refuses (cv0, ca0) (value_only v0));
        [|discriminate].
      injection D as <-. reflexivity.
Qed.

(** The record of a container that has none of the metadata names. *)
Lemma record_of_container (snapshot : DataSnapshot) (next : nat) :
  snap_exists snapshot = true ->
  isPOJO (snap_val snapshot tt) || isArray (snap_val snapshot tt) = true ->
  (forall k, In k (keys (metadata snapshot)) ->
     alookup k (named_of (snap_val snapshot tt)) = None) ->
  exists record,
    createRecordFromDatabaseSnapshot snapshot next = Ok (record, next)
    /\ isPOJO record || isArray record = true
    /\ address record = address (snap_val snapshot tt)
    /\ named_of record =
         (named_of (snap_val snapshot tt)
          ++ map (fun kv => (fst kv, (snd kv, hidden))) (metadata snapshot))%list.
Proof.
  intros Ex C Hfree. unfold createRecordFromDatabaseSnapshot. rewrite Ex. cbn [negb].
  destruct (snap_val snapshot tt) as [| |b| |z|s|ms|s ns|la lo|r|n es own|n own|fn];
    try discriminate C; cbn [isObject address named_of] in *.
  - rewrite (defineProperties_fresh (VArray n es) (metadata snapshot) (metadata_NoDup snapshot)).
    + cbn [bind]. eexists. split; [reflexivity|]. auto.
    + intros l k d Hk. rewrite metadata_keys in Hk. simpl in Hk.
      destruct Hk as [<-|[<-|[<-|[<-|[]]]]]; reflexivity.
    + exact Hfree.
  - rewrite (defineProperties_fresh (VObject n) (metadata snapshot) (metadata_NoDup snapshot)).
    + cbn [bind]. eexists. split; [reflexivity|]. auto.
    + intros l k d Hk. reflexivity.
    + exact Hfree.
Qed.

Lemma metadata_hidden_lookup (own : props) (snapshot : DataSnapshot) (k : string) (v : value) :
  (forall k, In k (keys (metadata snapshot)) -> alookup k own = None) ->
  In (k, v) (metadata snapshot) ->
  alookup k (own ++ map (fun kv => (fst kv, (snd kv, hidden))) (metadata snapshot))%list =
  Some (v, hidden).
Proof.
  intros Hfree Hi. rewrite alookup_app, Hfree by (apply (in_map fst) in Hi; exact Hi).
  apply alookup_NoDup_In.
  - unfold keys. rewrite map_map. cbn [fst]. apply (metadata_NoDup snapshot).
  - apply (in_map (fun kv => (fst kv, (snd kv, hidden)))) in Hi. exact Hi.
Qed.

(** X13.  The metadata of a record is read-only only when the snapshot's
    value is a record or an array: when that value has none of the four
    names, the record holds the snapshot's key, priority, reference and
    child count under [.key], [.priority], [.ref] and [.size], and
    assigning to any of the four raises a [TypeError].  On the wrapper
    made for a primitive value an assignment to one of the four, or to
    [$value], succeeds and stores the value. *)
Theorem record_metadata_is_read_only (snapshot : DataSnapshot) (next : nat) :
  snap_exists snapshot = true ->
  (isPOJO (snap_val snapshot tt) || isArray (snap_val snapshot tt) = true ->
   (forall k, In k [".key"; ".priority"; ".ref"; ".size"] ->
      alookup k (named_of (snap_val snapshot tt)) = None) ->
   exists record,
     createRecordFromDatabaseSnapshot snapshot next = Ok (record, next)
     /\ get record ".key" = Ok (snap_key snapshot)
     /\ get record ".priority" = Ok (snap_priority snapshot)
     /\ get record ".ref" = Ok (snap_ref snapshot)
     /\ get record ".size" = Ok (snap_size snapshot)
     /\ forall w,
          put record ".key" w = Throw TypeError
          /\ put record ".priority" w = Throw TypeError
          /\ put record ".ref" w = Throw TypeError
          /\ put record ".size" w = Throw TypeError)
  /\ (isObject (snap_val snapshot tt) = false ->
      exists record,
        createRecordFromDatabaseSnapshot snapshot next = Ok (record, S next)
        /\ forall k w, In k ["$value"; ".key"; ".priority"; ".ref"; ".size"] ->
             exists record',
               put record k w = Ok record'
               /\ get record' k = Ok w
               /\ address record' = address record
               /\ forall k', k' <> k -> get record' k' = get record k').
Proof.
  intros Ex. split.
  - intros C Hfree.
    destruct (record_of_container snapshot next Ex C Hfree) as [record [Run [Cr [_ Hn]]]].
    exists record. split; [exact Run|].
    assert (forall k v, In (k, v) (metadata snapshot) ->
              alookup k (named_of record) = Some (v, hidden)) as Hl.
    { intros k v Hi. rewrite Hn. apply metadata_hidden_lookup; assumption. }
    split; [apply (get_named record ".key" _ hidden Cr eq_refl); apply Hl; simpl; auto|].
    split; [apply (get_named record ".priority" _ hidden Cr eq_refl); apply Hl; simpl; auto|].
    split; [apply (get_named record ".ref" _ hidden Cr eq_refl); apply Hl; simpl; auto|].
    split; [apply (get_named record ".size" _ hidden Cr eq_refl); apply Hl; simpl; auto|].
    intros w. repeat split.
    + apply (put_read_only record ".key" (snap_key snapshot) w hidden Cr eq_refl);
        [apply Hl; simpl; auto|reflexivity].
    + apply (put_read_only record ".priority" (snap_priority snapshot) w hidden Cr eq_refl);
        [apply Hl; simpl; auto|reflexivity].
    + apply (put_read_only record ".ref" (snap_ref snapshot) w hidden Cr eq_refl);
        [apply Hl; simpl; auto|reflexivity].
    + apply (put_read_only record ".size" (snap_size snapshot) w hidden Cr eq_refl);
        [apply Hl; simpl; auto|reflexivity].
  - intros Eo. unfold createRecordFromDatabaseSnapshot. rewrite Ex, Eo. cbn [negb].
    eexists. split; [reflexivity|].
    intros k w Hk. simpl in Hk.
    destruct Hk as [<-|[<-|[<-|[<-|[<-|[]]]]]]; eexists;
      (split; [reflexivity|]); (split; [reflexivity|]); (split; [reflexivity|]);
      intros k' N; cbn [get]; rewrite alookup_aset_other by exact N; reflexivity.
Qed.

Lemma record_metadata_is_read_only_witness :
  let decoded := VArray 5 [Some (VStr "ada")] [] in
  let snapshot := MkSnapshot true (fun _ => decoded) (VStr "ada") VNull (VStr "/users/ada")
                    (VNum 1) in
  let scalar := MkSnapshot true (fun _ => VNum 3) (VStr "n") (VNum 2) (VStr "/n") (VNum 0) in
  exists record wrapper wrapper',
    createRecordFromDatabaseSnapshot snapshot 9 = Ok (record, 9)
    /\ get record ".ref" = Ok (VStr "/users/ada")
    /\ put record ".priority" (VNum 1) = Throw TypeError
    /\ put record ".size" (VNum 7) = Throw TypeError
    /\ createRecordFromDatabaseSnapshot scalar 9 = Ok (wrapper, 10)
    /\ put wrapper ".priority" (VNum 1) = Ok wrapper'
    /\ get wrapper' ".priority" = Ok (VNum 1)
    /\ get wrapper' "$value" = Ok (VNum 3).
Proof.
  intros decoded snapshot scalar.
  destruct (proj1 (record_metadata_is_read_only snapshot 9 eq_refl) eq_refl)
    as [record [Run [_ [_ [Href [_ Hput]]]]]].
  { intros k Hk. simpl in Hk.
    destruct Hk as [<-|[<-|[<-|[<-|[]]]]]; reflexivity. }
  destruct (proj2 (record_metadata_is_read_only scalar 9 eq_refl) eq_refl)
    as [wrapper [Run2 Hset]].
  destruct (Hset ".priority" (VNum 1) ltac:(simpl; auto)) as [wrapper' [Hp [Hg [_ Hother]]]].
  exists record, wrapper, wrapper'.
  split; [exact Run|]. split; [exact Href|].
  split; [exact (proj1 (proj2 (Hput (VNum 1))))|].
  split; [exact (proj2 (proj2 (proj2 (Hput (VNum 7)))))|].
  split; [exact Run2|]. split; [exact Hp|]. split; [exact Hg|].
  rewrite (Hother "$value") by discriminate.
  vm_compute in Run2. injection Run2 as <-. reflexivity.
Defined.

(** X14.  Normalising again the record of a container: a second snapshot
    whose value is the record returned for a first one gets that record
    back unchanged when its key, priority, reference and child count are
    those of the first, and makes the normaliser raise a [TypeError] when
    one of the four differs. *)
Theorem record_is_normalised_once (snapshot again : DataSnapshot) (next : nat)
  (record : value) (next' : nat) :
  snap_exists snapshot = true ->
  isPOJO (snap_val snapshot tt) || isArray (snap_val snapshot tt) = true ->
  (forall k, In k [".key"; ".priority"; ".ref"; ".size"] ->
     alookup k (named_of (snap_val snapshot tt)) = None) ->
  createRecordFromDatabaseSnapshot snapshot next = Ok (record, next') ->
  snap_exists again = true ->
  snap_val again tt = record ->
  (snap_key again = snap_key snapshot ->
   snap_priority again = snap_priority snapshot ->
   snap_ref again = snap_ref snapshot ->
   snap_size again = snap_size snapshot ->
   createRecordFromDatabaseSnapshot again next' = Ok (record, next'))
  /\ (same_value (snap_key again) (snap_key snapshot) = false
      \/ same_value (snap_priority again) (snap_priority snapshot) = false
      \/ same_value (snap_ref again) (snap_ref snapshot) = false
      \/ same_value (snap_size again) (snap_size snapshot) = false ->
      createRecordFromDatabaseSnapshot again next' = Throw TypeError).
Proof.
  intros Ex C Hfree Run Ex2 Ev.
  destruct (record_of_container snapshot next Ex C Hfree) as [record0 [Run0 [Cr [_ Hn]]]].
  rewrite Run in Run0. injection Run0 as <- <-.
  assert (isObject record = true) as Eo
    by (destruct record; try discriminate Cr; reflexivity).
  unfold createRecordFromDatabaseSnapshot. rewrite Ex2, Ev, Eo. cbn [negb].
  split.
  - intros Ek Ep Er Es.
    assert (metadata again = metadata snapshot) as Em
      by (unfold metadata; rewrite Ek, Ep, Er, Es; reflexivity).
    rewrite Em, defineProperties_again; auto.
    + apply (metadata_named snapshot).
    + intros k v Hi. rewrite Hn. apply metadata_hidden_lookup; assumption.
  - assert (forall k v v',
              In (k, v) (metadata snapshot) -> In (k, v') (metadata again) ->
              same_value v' v = false ->
              (r <- defineProperties record
                      (map (fun kv => (fst kv, value_only (snd kv))) (metadata again)) ;;
               Ok (r, next')) = Throw TypeError) as Hdiff.
    { intros k v v' Hi Hi' Hs.
      rewrite (defineProperties_refused (metadata again) record k v' v hidden); auto.
      - apply (metadata_named again).
      - apply (metadata_NoDup again).
      - rewrite Hn. apply metadata_hidden_lookup; assumption. }
    intros [Hs|[Hs|[Hs|Hs]]].
    + apply (Hdiff ".key" _ _ ltac:(simpl; auto) ltac:(simpl; auto) Hs).
    + apply (Hdiff ".priority" _ _ ltac:(simpl; auto) ltac:(simpl; auto) Hs).
    + apply (Hdiff ".ref" _ _ ltac:(simpl; auto) ltac:(simpl; auto) Hs).
    + apply (Hdiff ".size" _ _ ltac:(simpl; auto) ltac:(simpl; auto) Hs).
Qed.

Lemma record_is_normalised_once_witness :
  let decoded := VObject 5 [("name", (VStr "ada", plain))] in
  let snapshot := MkSnapshot true (fun _ => decoded) (VStr "ada") VNull (VStr "/users/ada")
                    (VNum 1) in
  let record := VObject 5 [("name", (VStr "ada", plain)); (".key", (VStr "ada", hidden));
                           (".priority", (VNull, hidden));
                           (".ref", (VStr "/users/ada", hidden));
                           (".size", (VNum 1, hidden))] in
  let same := MkSnapshot true (fun _ => record) (VStr "ada") VNull (VStr "/users/ada")
                (VNum 1) in
  let grown := MkSnapshot true (fun _ => record) (VStr "ada") VNull (VStr "/users/ada")
                 (VNum 2) in
  let moved := MkSnapshot true (fun _ => record) (VStr "ada") (VNum 4) (VStr "/users/ada")
                 (VNum 1) in
  createRecordFromDatabaseSnapshot same 9 = Ok (record, 9)
  /\ createRecordFromDatabaseSnapshot grown 9 = Throw TypeError
  /\ createRecordFromDatabaseSnapshot moved 9 = Throw TypeError.
Proof.
  intros decoded snapshot record same grown moved.
  assert (forall k, In k [".key"; ".priority"; ".ref"; ".size"] ->
            alookup k (named_of (snap_val snapshot tt)) = None) as Hfree.
  { intros k Hk. simpl in Hk. destruct Hk as [<-|[<-|[<-|[<-|[]]]]]; reflexivity. }
  split; [|split].
  - exact (proj1 (record_is_normalised_once snapshot same 9 record 9
                    eq_refl eq_refl Hfree eq_refl eq_refl eq_refl)
             eq_refl eq_refl eq_refl eq_refl).
  - exact (proj2 (record_is_normalised_once snapshot grown 9 record 9
                    eq_refl eq_refl Hfree eq_refl eq_refl eq_refl)
             (or_intror (or_intror (or_intror eq_refl)))).
  - exact (proj2 (record_is_normalised_once snapshot moved 9 record 9
                    eq_refl eq_refl Hfree eq_refl eq_refl eq_refl)
             (or_intror (or_introl eq_refl))).
Defined.

(** ** The default converter *)

(** X7.  The default converter.  [fromFirestore] returns [null] for a
    snapshot that does not exist.  Otherwise, when the snapshot's data is a
    record that has no own property named [.id], [.metadata] or [.ref], it
    returns that very record with the three added as properties that are
    neither enumerable nor writable: reading them yields the snapshot's id,
    metadata and reference, assigning to them raises a [TypeError], and what
    [toFirestore] hands back for writing enumerates exactly the fields of
    the snapshot's data. *)
Theorem fromFirestore_decorates (snapshot : QueryDocumentSnapshot) (options : value) :
  (doc_exists snapshot = false ->
     DefaultConverter.fromFirestore snapshot options = Ok VNull)
  /\ (doc_exists snapshot = true ->
      forall n own,
        doc_data snapshot options = VObject n own ->
        (forall k, In k [".id"; ".metadata"; ".ref"] -> alookup k own = None) ->
        DefaultConverter.fromFirestore snapshot options =
          Ok (VObject n (own ++ [(".id", (VStr (doc_id snapshot), hidden));
                                 (".metadata", (doc_metadata snapshot, hidden));
                                 (".ref", (VRef (doc_ref snapshot), hidden))])%list)
        /\ forall record,
             DefaultConverter.fromFirestore snapshot options = Ok record ->
             enumerable_fields (DefaultConverter.toFirestore record) =
               enumerable_fields (doc_data snapshot options)
             /\ get record ".id" = Ok (VStr (doc_id snapshot))
             /\ get record ".metadata" = Ok (doc_metadata snapshot)
             /\ get record ".ref" = Ok (VRef (doc_ref snapshot))
             /\ forall k w, In k [".id"; ".metadata"; ".ref"] ->
                  put record k w = Throw TypeError).
Proof.
  split.
  - intros E. unfold DefaultConverter.fromFirestore. rewrite E. reflexivity.
  - intros E n own Ed Hfree.
    set (ds := [(".id", VStr (doc_id snapshot)); (".metadata", doc_metadata snapshot);
                (".ref", VRef (doc_ref snapshot))]).
    assert (NoDup (keys ds)) as Hd by (apply nodupb_NoDup; reflexivity).
    assert (DefaultConverter.fromFirestore snapshot options =
            Ok (VObject n (own ++ map (fun kv => (fst kv, (snd kv, hidden))) ds)%list)) as Run.
    { unfold DefaultConverter.fromFirestore. rewrite E, Ed. cbv zeta.
      exact (defineProperties_fresh (VObject n) ds Hd (fun l k d _ => eq_refl) own Hfree). }
    split; [exact Run|].
    intros record Run'. rewrite Run in Run'. injection Run' as <-.
    unfold DefaultConverter.toFirestore. rewrite Ed. cbn [enumerable_fields].
    split; [exact (enumerable_named_hidden own ds)|].
    split; [apply (get_appended n own _ ".id" _ hidden);
            [apply Hfree; simpl; auto|reflexivity]|].
    split; [apply (get_appended n own _ ".metadata" _ hidden);
            [apply Hfree; simpl; auto|reflexivity]|].
    split; [apply (get_appended n own _ ".ref" _ hidden);
            [apply Hfree; simpl; auto|reflexivity]|].
    intros k w Hk. cbn [put]. unfold set_named.
    assert (exists v, alookup k (own ++ map (fun kv => (fst kv, (snd kv, hidden))) ds)%list
                      = Some (v, hidden)) as [v Hl].
    { rewrite alookup_app, (Hfree k Hk). simpl in Hk.
      destruct Hk as [<-|[<-|[<-|[]]]]; eexists; reflexivity. }
    change (own ++ _)%list with (own ++ map (fun kv => (fst kv, (snd kv, hidden))) ds)%list.
    rewrite Hl. reflexivity.
Qed.

Lemma fromFirestore_decorates_witness :
  let data := VObject 5 [("name", (VStr "ada", plain))] in
  let ref := DocumentReference.Make "users/ada" None in
  let snapshot := MkDocumentSnapshot true (fun _ => data) "ada" (VObject 6 []) ref in
  DefaultConverter.fromFirestore snapshot VUndefined =
    Ok (VObject 5 [("name", (VStr "ada", plain)); (".id", (VStr "ada", hidden));
                   (".metadata", (VObject 6 [], hidden)); (".ref", (VRef ref, hidden))]).
Proof.
  intros data ref snapshot.
  refine (proj1 (proj2 (fromFirestore_decorates snapshot VUndefined) eq_refl 5 _ eq_refl _)).
  intros k Hk. simpl in Hk. destruct Hk as [<-|[<-|[<-|[]]]]; reflexivity.
Defined.

Lemma named_positions_hidden (W : value -> string -> list (string * DocumentReference.t))
  (path : string) (own : props) (ds : list (string * value)) :
  named_positions W path (own ++ map (fun kv => (fst kv, (snd kv, hidden))) ds)%list =
  named_positions W path own.
Proof.
  rewrite !named_positions_fields, enumerable_named_hidden. reflexivity.
Qed.

Lemma well_formed_decorated (n : nat) (own : props) (ds : list (string * value)) :
  well_formed (VObject n own) = true ->
  NoDup (keys ds) ->
  (forall k, In k (keys ds) -> alookup k own = None) ->
  Forall (fun kv => well_formed (snd kv) = true) ds ->
  well_formed (VObject n (own ++ map (fun kv => (fst kv, (snd kv, hidden))) ds)%list) = true.
Proof.
  cbn [well_formed]. rewrite !andb_true_iff. intros [Hn Hw] Hd Hfree Hds.
  apply nodupb_NoDup in Hn. split.
  - apply nodupb_NoDup. unfold keys. rewrite map_app, map_map. cbn [fst].
    apply NoDup_app; auto.
    intros k Hi Hk. apply Hfree in Hk. apply alookup_None_keys in Hk. contradiction.
  - rewrite forallb_app, Hw. cbn [andb]. apply forallb_forall.
    intros x Hx. apply in_map_iff in Hx. destruct Hx as [kv [<- Hi]]. cbn [fst snd].
    rewrite Forall_forall in Hds. apply Hds. exact Hi.
Qed.

(** X8.  Decoding, then extracting.  For a snapshot that exists, whose data
    is a well-formed record with no own [.id], [.metadata] or [.ref],
    [fromFirestore] returns a document on which every call of
    [extractRefs] that returns gives a data record that still carries the
    three, hidden and with the snapshot's values (the raw reference under
    [.ref] included), that has the enumerable keys of the snapshot's data
    ([__proto__] apart, which the walk never creates), and a [refs]
    computed from the snapshot's data alone: the document's own reference
    under [.ref] is not registered.  The call returns when no enumerable
    key of the document is [__proto__], the [path] of every array element
    converts to a key and the reads of the old document return. *)
Theorem decoded_document_keeps_its_metadata `{Host} (snapshot : QueryDocumentSnapshot)
  (options : value) (subs : registry) (refOptions : FirestoreRefOptionsWithDefaults)
  (oldDoc : value) (next : nat) :
  doc_exists snapshot = true ->
  isPOJO (doc_data snapshot options) = true ->
  well_formed (doc_data snapshot options) = true ->
  well_formed (doc_metadata snapshot) = true ->
  (forall k, In k [".id"; ".metadata"; ".ref"] ->
     alookup k (named_of (doc_data snapshot options)) = None) ->
  exists doc,
    DefaultConverter.fromFirestore snapshot options = Ok doc
    /\ (tame doc = true -> follows subs doc (OldValue oldDoc) "" = true ->
        exists result, extractRefs doc oldDoc subs refOptions next = Ok result)
    /\ (forall data refs next',
          extractRefs doc oldDoc subs refOptions next = Ok (data, refs, next') ->
          alookup ".id" (named_of data) = Some (VStr (doc_id snapshot), hidden)
          /\ alookup ".metadata" (named_of data) = Some (doc_metadata snapshot, hidden)
          /\ alookup ".ref" (named_of data) = Some (VRef (doc_ref snapshot), hidden)
          /\ keys (enumerable_fields data) =
               filter (fun k => negb (String.eqb k "__proto__"))
                      (keys (enumerable_fields (doc_data snapshot options)))
          /\ (tame doc = true ->
              keys (enumerable_fields data) =
                keys (enumerable_fields (doc_data snapshot options)))
          /\ refs = set_positions refOptions (ref_positions (doc_data snapshot options) "") []).
Proof.
  intros E Hp Hwf Hwm Hfree.
  destruct (doc_data snapshot options) as [| |b| |z|s|ms|s ns|la lo|r|n es own|n own|fn] eqn:Ed;
    try discriminate Hp. cbn [named_of] in Hfree.
  set (ds := [(".id", VStr (doc_id snapshot)); (".metadata", doc_metadata snapshot);
              (".ref", VRef (doc_ref snapshot))]).
  assert (NoDup (keys ds)) as Hd by (apply nodupb_NoDup; reflexivity).
  set (doc := VObject n (own ++ map (fun kv => (fst kv, (snd kv, hidden))) ds)%list).
  assert (DefaultConverter.fromFirestore snapshot options = Ok doc) as Run.
  { unfold DefaultConverter.fromFirestore. rewrite E, Ed. cbv zeta.
    exact (defineProperties_fresh (VObject n) ds Hd (fun l k d _ => eq_refl) own Hfree). }
  assert (well_formed doc = true) as Hwd.
  { apply well_formed_decorated; auto. repeat constructor. exact Hwm. }
  exists doc. split; [exact Run|]. split.
  { intros Ht Hf. apply (extractRefs_returns subs refOptions doc oldDoc next Hwd Ht Hf). }
  intros data refs next' Rx.
  destruct (extractRefs_closed subs refOptions doc oldDoc next _ eq_refl Hwd Rx)
    as [index [_ [_ Eres]]].
  pose proof (f_equal (fun st : walk_state => fst (fst st)) Eres) as Edata.
  pose proof (f_equal (fun st : walk_state => snd (fst st)) Eres) as Erefs.
  unfold flat in Edata, Erefs. cbn [fst snd] in Edata, Erefs.
  pose proof (walk_refs_positions subs index refOptions doc (OldValue oldDoc) "" next []
                [] (S next) I) as Er.
  destruct (walk_keys subs index refOptions doc (OldValue oldDoc) "" next [] ([], S next) I)
    as [Kd _].
  assert (forall k v, In (k, v) ds ->
            alookup k (named_of (fst (walk subs index refOptions doc (OldValue oldDoc) ""
                                        next [] ([], S next)))) = Some (v, hidden)) as Hh.
  { intros k v Hi. unfold doc at 1. cbn [walk].
    destruct (or_empty (OldValue oldDoc) (S next)) as [old' next0].
    match goal with
    | |- context [out_named ?a ?b ?c ?d ?e ?f ?g ?h] =>
        pose proof (out_named_keys a b c d e f g h) as Ko;
        destruct (out_named a b c d e f g h) as [outs st2]
    end.
    cbn [fst named_of] in *. unfold hidden_fields. cbn [named_of].
    assert (NoDup (keys (own ++ map (fun kv => (fst kv, (snd kv, hidden))) ds)%list)) as Hnd.
    { unfold doc in Hwd. cbn [well_formed] in Hwd. apply andb_true_iff in Hwd.
      apply nodupb_NoDup. tauto. }
    apply (proj1 (hidden_kept _ outs k (v, hidden) Hnd Ko ltac:(
             apply in_or_app; right;
             apply (in_map (fun kv => (fst kv, (snd kv, hidden)))) in Hi; exact Hi) eq_refl)). }
  assert (keys (enumerable_fields data) =
          filter (fun k => negb (String.eqb k "__proto__"))
                 (keys (enumerable_fields (VObject n own)))) as Hkeys.
  { rewrite Edata. etransitivity; [exact Kd|]. unfold doc. cbn [enumerable_fields].
    rewrite enumerable_named_hidden. reflexivity. }
  split; [rewrite Edata; apply Hh; simpl; auto|].
  split; [rewrite Edata; apply Hh; simpl; auto|].
  split; [rewrite Edata; apply Hh; simpl; auto|].
  split; [exact Hkeys|]. split.
  - intros Ht. rewrite Hkeys. apply forallb_filter_id. apply forallb_forall.
    intros k Hi. apply in_map_iff in Hi. destruct Hi as [[k' v] [<- Hi]].
    apply negb_true_iff, String.eqb_neq. cbn [fst].
    apply (tame_field doc k' v Ht). unfold doc. cbn [enumerable_fields] in *.
    rewrite enumerable_named_hidden. exact Hi.
  - rewrite Erefs. etransitivity; [exact Er|]. unfold doc. cbn [ref_positions].
    rewrite named_positions_hidden. reflexivity.
Qed.

(** ** The path index lists a path once *)

Lemma aset_keys {A : Type} (k : string) (a : A) (l : list (string * A)) :
  keys (aset k a l) = if amem k l then keys l else (keys l ++ [k])%list.
Proof.
  unfold amem. induction l as [|[k' a'] r IH]; cbn [aset alookup keys map fst Datatypes.app].
  - reflexivity.
  - destruct (String.eqb_spec k k') as [->|N]; cbn [keys map fst].
    + reflexivity.
    + unfold keys in IH. rewrite IH. destruct (alookup k r); reflexivity.
Qed.

Lemma aset_keys_NoDup {A : Type} (k : string) (a : A) (l : list (string * A)) :
  NoDup (keys l) -> NoDup (keys (aset k a l)).
Proof.
  intros Hd. rewrite aset_keys. destruct (amem k l) eqn:E; [exact Hd|].
  apply NoDup_app; auto.
  - repeat constructor. intros [].
  - intros x Hx [<-|[]]. apply amem_true_iff in Hx. congruence.
Qed.

Lemma aset_length {A : Type} (k : string) (a : A) (l : list (string * A)) :
  List.length (aset k a l) <= S (List.length l).
Proof.
  induction l as [|[k' a'] r IH]; cbn [aset List.length]; [lia|].
  destruct (String.eqb k k'); cbn [List.length]; lia.
Qed.

(** X6.  [subsByPath] never raises, whatever the registry; the index it
    builds lists no path twice, has at most as many entries as the
    registry, and every entry maps the path of some registry entry to that
    entry's [data()]. *)
Theorem subsByPath_lists_each_path_once (subs : registry) :
  exists index,
    subsByPath subs = Ok index
    /\ NoDup (keys index)
    /\ List.length index <= List.length subs
    /\ forall p v, In (p, v) index ->
         exists k s, In (k, s) subs /\ sub_path s = p /\ v = sub_data s tt.
Proof.
  unfold subsByPath.
  assert (forall ks acc,
            incl ks (keys subs) ->
            NoDup (keys acc) ->
            (forall p v, In (p, v) acc ->
               exists k s, In (k, s) subs /\ sub_path s = p /\ v = sub_data s tt) ->
            exists index,
              fold_left (index_step subs) ks (Ok acc) = Ok index
              /\ NoDup (keys index)
              /\ List.length index <= List.length acc + List.length ks
              /\ forall p v, In (p, v) index ->
                   exists k s, In (k, s) subs /\ sub_path s = p /\ v = sub_data s tt) as Gen.
  { induction ks as [|k r IH]; intros acc Hi Hd Hacc; cbn [fold_left].
    - exists acc. repeat split; auto. lia.
    - assert (In k (keys subs)) as Hk by (apply Hi; simpl; auto).
      destruct (alookup k subs) as [sub|] eqn:E.
      + cbn [index_step bind]. rewrite E.
        destruct (IH (aset (sub_path sub) (sub_data sub tt) acc)) as [index [Run [Hn [Hl Hv]]]].
        * intros x Hx. apply Hi. simpl. auto.
        * apply aset_keys_NoDup. exact Hd.
        * intros p v Hin. apply aset_In in Hin. destruct Hin as [Eq|Hin].
          -- inversion Eq; subst. exists k, sub. split; auto. apply alookup_In. exact E.
          -- apply (Hacc p v Hin).
        * exists index. split; [exact Run|]. split; [exact Hn|]. split; [|exact Hv].
          pose proof (aset_length (sub_path sub) (sub_data sub tt) acc).
          cbn [List.length]. lia.
      + apply alookup_None_keys in E. contradiction. }
  destruct (Gen (keys subs) [] (incl_refl _) (NoDup_nil _)) as [index [Run [Hn [Hl Hv]]]].
  - intros p v [].
  - exists index. split; [exact Run|]. split; [exact Hn|]. split; [|exact Hv].
    unfold keys in Hl. rewrite length_map in Hl. exact Hl.
Qed.

Lemma indexForKey_finds_created_record_witness :
  let s1 := MkSnapshot true (fun _ => VObject 5 [("name", (VStr "ada", plain))])
              (VStr "ada") VNull (VStr "/users/ada") (VNum 1) in
  let s2 := MkSnapshot true (fun _ => VNum 3) (VStr "n") VNull (VStr "/n") (VNum 0) in
  let r1 := VObject 5 [("name", (VStr "ada", plain)); (".key", (VStr "ada", hidden));
                       (".priority", (VNull, hidden)); (".ref", (VStr "/users/ada", hidden));
                       (".size", (VNum 1, hidden))] in
  let r2 := VObject 9 [("$value", (VNum 3, plain)); (".key", (VStr "n", plain));
                       (".priority", (VNull, plain)); (".ref", (VStr "/n", plain));
                       (".size", (VNum 0, plain))] in
  indexForKey (map Some [r1; r2]) (VStr "n") = Ok 1%Z.
Proof.
  intros s1 s2 r1 r2.
  apply (indexForKey_finds_created_record [s1; s2] [r1; r2] 1 s2).
  - constructor; [|constructor; [|constructor]].
    + split; [reflexivity|]. exists 9, 9. reflexivity.
    + split; [reflexivity|]. exists 9, 10. reflexivity.
  - reflexivity.
  - reflexivity.
  - intros [|j] s Hlt; [|lia]. intros [= <-]. discriminate.
Defined.

Lemma decoded_document_keeps_its_metadata_witness :
  let ref := DocumentReference.Make "users/ada" None in
  let boss := DocumentReference.Make "users/eve" None in
  let snapshot := MkDocumentSnapshot true
                    (fun _ => VObject 5 [("name", (VStr "ada", plain));
                                         ("boss", (VRef boss, plain))])
                    "ada" (VObject 6 []) ref in
  exists doc data refs next',
    DefaultConverter.fromFirestore snapshot VUndefined = Ok doc
    /\ @extractRefs object_host doc VUndefined [] (MkOptions firestoreDefaultConverter) 7 =
         Ok (data, refs, next')
    /\ alookup ".id" (named_of data) = Some (VStr "ada", hidden)
    /\ alookup ".metadata" (named_of data) = Some (VObject 6 [], hidden)
    /\ alookup ".ref" (named_of data) = Some (VRef ref, hidden)
    /\ keys (enumerable_fields data) = ["name"; "boss"]
    /\ refs = [("boss", DocumentReference.Make "users/eve" (Some firestoreDefaultConverter))].
Proof.
  intros ref boss snapshot.
  destruct (@decoded_document_keeps_its_metadata object_host snapshot VUndefined []
              (MkOptions firestoreDefaultConverter) VUndefined 7 eq_refl eq_refl eq_refl eq_refl)
    as [doc [Run [Hret Hall]]].
  { intros k Hk. simpl in Hk. destruct Hk as [<-|[<-|[<-|[]]]]; reflexivity. }
  assert (doc = VObject 5 [("name", (VStr "ada", plain)); ("boss", (VRef boss, plain));
                           (".id", (VStr "ada", hidden)); (".metadata", (VObject 6 [], hidden));
                           (".ref", (VRef ref, hidden))]) as Edoc.
  { vm_compute in Run. injection Run as <-. reflexivity. }
  destruct Hret as [[[data refs] next'] Rx]; [rewrite Edoc; reflexivity ..|].
  destruct (Hall data refs next' Rx) as [Hid [Hmeta [Href [_ [Hkeys Hrefs]]]]].
  exists doc, data, refs, next'.
  split; [exact Run|]. split; [exact Rx|]. split; [exact Hid|]. split; [exact Hmeta|].
  split; [exact Href|]. split; [apply Hkeys; rewrite Edoc; reflexivity|exact Hrefs].
Defined.

(** ** Documents none of whose references is bound *)

Section Unbound.
Context `{Host}.
Variable subs : registry.
Variable index : path_index.
Variable options : FirestoreRefOptionsWithDefaults.

Abbreviation walk_u := (walk subs index options).

Abbreviation render :=
  (fun kp : string * (value * attrs) =>
     let '(k, (w, a)) := kp in (k, (if enumerable a then with_paths w else w, a))).

Lemma alookup_render (ps : props) (k : string) :
  alookup k (map render ps) =
  match alookup k ps with
  | Some (w, a) => Some (if enumerable a then with_paths w else w, a)
  | None => None
  end.
Proof.
  induction ps as [|[k' [w a]] r IH]; cbn [map alookup]; [reflexivity|].
  destruct (String.eqb k k'); [reflexivity|exact IH].
Qed.

Abbreviation unbound v path :=
  (forall k r, In (k, r) (ref_positions v path) -> amem k subs || inherited k = false).

(** What the induction carries. *)
Abbreviation renders v :=
  (isPOJO v || isArray v = true -> well_formed v = true -> tame v = true ->
   forall oldDoc path n init st,
     unbound v path ->
     keeps_holes v init ->
     deep_equal (fst (walk_u v oldDoc path n init st)) (with_paths v) = true).

Lemma out_field_renders (v : value) (oldDoc : old_source) (path key : string) (seen : value)
  (st : refs_map * nat) :
  renders v -> well_formed v = true -> tame v = true ->
  (forall k r, In (k, r) (field_positions ref_positions path key v) ->
     amem k subs || inherited k = false) ->
  deep_equal (fst (out_field subs index options walk_u oldDoc path key v seen st))
             (with_paths v) = true.
Proof.
  intros IH Hwf Ht Hu. destruct st as [refs next].
  destruct v as [| |b| |z|s|ms|s ns|la lo|r|id es ps|id ps|fn]; cbn [out_field fst snd];
    try (apply deep_equal_scalar; reflexivity).
  - unfold has_property. rewrite (Hu (path ++ key) r) by (left; reflexivity).
    cbn [with_paths deep_equal same_value]. apply String.eqb_refl.
  - apply (IH eq_refl Hwf Ht); [exact Hu|apply filled_slot_keeps_holes].
  - apply (IH eq_refl Hwf Ht); [exact Hu|exact I].
Qed.

Lemma out_elems_renders (oldDoc : old_source) (path : string) (es : list (option value)) :
  Forall (fun e => match e with Some v => renders v | None => True end) es ->
  forallb (fun e => match e with Some w => well_formed w | None => true end) es = true ->
  forallb (fun e => match e with Some w => tame w | None => true end) es = true ->
  forall i init st,
  (forall k r, In (k, r) (elem_positions ref_positions path es i) ->
     amem k subs || inherited k = false) ->
  Forall2 (fun e f : option value => e = None -> f = None) es init ->
  elems_equal deep_equal
    (fst (out_elems subs index options walk_u oldDoc path es i init st))
    (map (fun e => match e with Some w => Some (with_paths w) | None => None end) es) = true.
Proof.
  intros IH. induction IH as [|e r He Hr IHr]; intros Hwf Htm i init st Hu Hh;
    inversion Hh as [|? f ? fr Hef Hrest]; subst; cbn [out_elems forallb map] in *.
  - reflexivity.
  - apply andb_true_iff in Hwf. destruct Hwf as [Hwe Hwr].
    apply andb_true_iff in Htm. destruct Htm as [Hte Htr].
    destruct e as [v|]; cbn [elem_positions] in Hu.
    + pose proof (out_field_renders v oldDoc path (index_key i) (elem_value f) st He Hwe Hte
                    (fun k r' Hi => Hu k r' (in_or_app _ _ _ (or_introl Hi)))) as Hd.
      destruct (out_field subs index options walk_u oldDoc path (index_key i) v
                  (elem_value f) st) as [w st1].
      specialize (IHr Hwr Htr (S i) fr st1
                    (fun k r' Hi => Hu k r' (in_or_app _ _ _ (or_intror Hi))) Hrest).
      destruct (out_elems subs index options walk_u oldDoc path r (S i) fr st1)
        as [es' st2].
      cbn [fst elems_equal] in *. rewrite Hd. exact IHr.
    + rewrite (Hef eq_refl).
      specialize (IHr Hwr Htr (S i) fr st Hu Hrest).
      destruct (out_elems subs index options walk_u oldDoc path r (S i) fr st)
        as [es' st2].
      cbn [fst elems_equal] in *. exact IHr.
Qed.

Lemma out_named_renders (oldDoc : old_source) (path : string) (ps : props)
  (st : refs_map * nat) :
  Forall (fun kp : string * (value * attrs) => renders (fst (snd kp))) ps ->
  forallb (fun kp : string * (value * attrs) => well_formed (fst (snd kp))) ps = true ->
  forallb (fun kp : string * (value * attrs) =>
             negb (enumerable (snd (snd kp)))
             || (negb (String.eqb (fst kp) "__proto__") && tame (fst (snd kp)))) ps = true ->
  (forall k r, In (k, r) (named_positions ref_positions path ps) ->
     amem k subs || inherited k = false) ->
  NoDup (keys ps) ->
  props_equal deep_equal
    (filter (fun kp => negb (enumerable (snd (snd kp)))) ps
     ++ fst (out_named subs index options walk_u oldDoc path ps st))%list
    (map render ps) = true.
Proof.
  intros IH Hwf Htm Hu Hd. destruct (tame_named ps Htm) as [Ec Hall].
  rewrite Forall_forall in IH. rewrite forallb_forall in Hwf.
  apply props_equal_intro.
  - rewrite length_app, out_named_length, Ec, length_map. unfold enumerable_named.
    rewrite length_map. apply filter_partition_length.
  - intros k w b Hi. apply in_app_or in Hi. destruct Hi as [Hi|Hi].
    + apply filter_In in Hi. destruct Hi as [Hi Hb]. cbn [snd] in Hb.
      rewrite alookup_render, (alookup_NoDup_In k (w, b) ps Hd Hi).
      destruct (enumerable b) eqn:Eb; [discriminate Hb|].
      exists w, b. split; [reflexivity|]. split; [|symmetry; exact Eb].
      apply deep_equal_refl. apply (Hwf _ Hi).
    + pose proof (out_named_fields subs index options walk_u oldDoc path ps st) as HF.
      destruct (Forall2_In_right _ _ _ _ HF Hi) as [[k' v] [Hkv [Ek [Eb [st0 Ew]]]]].
      cbn [fst snd] in *. subst k' b. rewrite Ec in Hkv.
      destruct (Hall k v Hkv) as [_ Htv].
      pose proof Hkv as Hkv'.
      apply enumerable_named_In in Hkv. destruct Hkv as [a [Hkv Ha]].
      rewrite alookup_render, (alookup_NoDup_In k (v, a) ps Hd Hkv), Ha.
      exists (with_paths v), a. split; [reflexivity|]. split; [|cbn; auto].
      rewrite Ew.
      apply (out_field_renders v oldDoc path k (unset k) st0 (IH _ Hkv) (Hwf _ Hkv) Htv).
      intros k0 r0 Hi0. apply (Hu k0 r0). rewrite named_positions_fields. apply in_flat_map.
      exists (k, v). auto.
Qed.

Lemma walk_renders (doc : value) : renders doc.
Proof.
  induction doc as [| |b| |z|s|ms|s ns|la lo|r|id es ps IHes IHps|id ps IHps|fn] using value_ind;
    intros Hc Hwf Htm oldDoc path n init [refs next] Hu Hh; try discriminate Hc.
  - (* array *)
    cbn [well_formed tame] in Hwf, Htm. rewrite !andb_true_iff in Hwf.
    rewrite !andb_true_iff in Htm.
    destruct Hwf as [[[Hwe Hd] Hok] Hwp]. destruct Htm as [[_ Hte] Htp].
    apply nodupb_NoDup in Hd. cbn [keeps_holes] in Hh. cbn [walk with_paths].
    cbn [ref_positions] in Hu.
    destruct (or_empty oldDoc next) as [old' next0].
    pose proof (out_elems_renders old' path es IHes Hwe Hte 0 init (refs, next0)
                  (fun k r' Hi => Hu k r' (in_or_app _ _ _ (or_introl Hi))) Hh) as He.
    destruct (out_elems subs index options walk_u old' path es 0 init (refs, next0))
      as [es' st1].
    pose proof (out_named_renders old' path ps st1 IHps Hwp Htp
                  (fun k r' Hi => Hu k r' (in_or_app _ _ _ (or_intror Hi))) Hd) as Hp.
    destruct (out_named subs index options walk_u old' path ps st1) as [outs st2].
    unfold hidden_fields. cbn [fst deep_equal named_of] in *. rewrite He, Hp. reflexivity.
  - (* record *)
    cbn [well_formed tame] in Hwf, Htm. rewrite !andb_true_iff in Hwf.
    destruct Hwf as [Hd Hwp]. apply nodupb_NoDup in Hd. cbn [walk with_paths].
    cbn [ref_positions] in Hu.
    destruct (or_empty oldDoc next) as [old' next0].
    pose proof (out_named_renders old' path ps (refs, next0) IHps Hwp Htm Hu Hd) as Hp.
    destruct (out_named subs index options walk_u old' path ps (refs, next0)) as [outs st2].
    unfold hidden_fields. cbn [fst deep_equal named_of] in *. exact Hp.
Qed.

End Unbound.

(** X15.  Let no enumerable key of the record [doc], at any depth, be
    [__proto__], let the [path] of every array element convert to a key,
    and let no reference position of [doc] have its key in the registry,
    neither as a name of its own nor as one every object inherits, as on a
    first extraction with an empty registry when no reference sits under a
    top-level key such as [constructor] or [valueOf].  Then every call of
    [extractRefs] that returns gives a data that is equal in value to
    [doc] with every reference that an enumeration of fields reaches, at
    any depth, replaced by its path; the old document plays no part in
    it.  The call returns when the reads of the old document do. *)
Theorem unbound_references_become_paths `{Host} (subs : registry)
  (options : FirestoreRefOptionsWithDefaults) (doc oldDoc : value) (next : nat) :
  isPOJO doc = true ->
  well_formed doc = true ->
  tame doc = true ->
  (forall k r, In (k, r) (ref_positions doc "") -> amem k subs || inherited k = false) ->
  let run := extractRefs doc oldDoc subs options next in
  (follows subs doc (OldValue oldDoc) "" = true -> exists result, run = Ok result)
  /\ (forall data refs next',
        run = Ok (data, refs, next') ->
        deep_equal data (with_paths doc) = true).
Proof.
  intros Hp Hwf Ht Hu run. split.
  - intros Hf. apply (extractRefs_returns subs options doc oldDoc next Hwf Ht Hf).
  - intros data refs next' Run.
    destruct (extractRefs_closed subs options doc oldDoc next _ Hp Hwf Run)
      as [index [_ [_ Eres]]].
    pose proof (f_equal (fun st : walk_state => fst (fst st)) Eres) as Ed.
    unfold flat in Ed. cbn [fst snd] in Ed. rewrite Ed.
    apply walk_renders; auto.
    + rewrite Hp. reflexivity.
    + destruct doc; try discriminate Hp. exact I.
Qed.

Lemma unbound_references_become_paths_witness :
  let r := DocumentReference.Make "users/1" None in
  let doc := VObject 1 [("a", (VObject 2 [("b", (VRef r, plain));
                                          ("valueOf", (VRef r, plain))], plain));
                        ("l", (VArray 3 [Some (VRef r); None] [], plain));
                        ("h", (VRef r, hidden))] in
  let subs := [("z", MkSub "users/1" (fun _ => VStr "resolved"))] in
  exists data refs next',
    @extractRefs object_host doc (VObject 9 [("l", (VStr "old", plain))]) subs
      (MkOptions firestoreDefaultConverter) 5 = Ok (data, refs, next')
    /\ deep_equal data
         (VObject 1 [("a", (VObject 2 [("b", (VStr "users/1", plain));
                                       ("valueOf", (VStr "users/1", plain))], plain));
                     ("l", (VArray 3 [Some (VStr "users/1"); None] [], plain));
                     ("h", (VRef r, hidden))]) = true.
Proof.
  intros r doc subs.
  destruct (@unbound_references_become_paths object_host subs
              (MkOptions firestoreDefaultConverter) doc
              (VObject 9 [("l", (VStr "old", plain))]) 5 eq_refl eq_refl eq_refl)
    as [Hret Hall].
  { intros k r' Hi. vm_compute in Hi.
    destruct Hi as [Hi|[Hi|[Hi|[]]]]; injection Hi as <- _; reflexivity. }
  destruct (Hret eq_refl) as [[[data refs] next'] Run].
  exists data, refs, next'. split; [exact Run|]. exact (Hall data refs next' Run).
Defined.
